(** * Boomerang expression algebra and signature engine

    A shallow embedding of [db/exp.cpp] and [db/signature.cpp]: the
    expression tree, strict equality ([operator==]), search and replace,
    the arithmetic partition, the polymorphic simplifier with its driver
    loop, and the per-ABI signature queries. *)

From Stdlib Require Import ZArith List String Bool Lia Arith DecimalString DecimalNat.
Import ListNotations.

Local Open Scope Z_scope.

(** ** Machine integers

    [int] is 32 bits wide.  A value is carried as the signed integer it
    denotes; [wrap32] is the two's-complement wrap-around, [to_unsigned] the
    reading of the same bits as [unsigned]. *)

Module Int32.

Definition modulus : Z := 4294967296.
Definition half_modulus : Z := 2147483648.
Definition min_signed : Z := - 2147483648.
Definition max_signed : Z := 2147483647.

Definition to_unsigned (x : Z) : Z := x mod modulus.

Definition wrap32 (x : Z) : Z :=
  let u := x mod modulus in
  if u <? half_modulus then u else u - modulus.

Definition in_range (x : Z) : Prop := min_signed <= x <= max_signed.

End Int32.

(** ** Operator tags

    The members of [OPER] that [exp.cpp] and [signature.cpp] name.  The
    numbering of [oper_code] only serves to decide equality of tags. *)

Inductive OPER : Type :=
  | opAFP | opAGP | opAddrOf | opAnd | opAnull | opArcTan | opArrayIndex
  | opAt | opBitAnd | opBitOr | opBitXor | opCF | opCos | opDF | opDefineAll
  | opDiv | opDivs | opEquals | opExecute | opExpTable | opFDiv | opFMinus
  | opFMult | opFNeg | opFPlus | opFabs | opFalse | opFflags | opFlagCall
  | opFlagDef | opFlags | opFltConst | opFpop | opFpush | opFround | opFsize
  | opFtoi | opFtrunc | opFuncConst | opGlobal | opGtr | opGtrEq | opGtrEqUns
  | opGtrUns | opGuard | opInitValueOf | opIntConst | opItof | opKindOf
  | opLNot | opLess | opLessEq | opLessEqUns | opLessUns | opList | opLocal
  | opLog10 | opLog2 | opLoge | opLongConst | opLower | opMachFtr | opMemOf
  | opMemberAccess | opMinus | opMod | opMods | opMult | opMults | opNF
  | opNameTable | opNeg | opNil | opNot | opNotEqual | opOF | opOpTable | opOr
  | opPC | opParam | opPhi | opPlus | opPow | opRegOf | opRotateL | opRotateLC
  | opRotateR | opRotateRC | opSQRTd | opSQRTq | opSQRTs | opSgnEx | opShiftL
  | opShiftR | opShiftRA | opSignExt | opSin | opSize | opSqrt | opStrConst
  | opSubscript | opSuccessor | opTan | opTemp | opTern | opTrue | opTruncs
  | opTruncu | opTypeOf | opTypeVal | opTypedExp | opUpper | opVar | opWild
  | opWildAddrOf | opWildIntConst | opWildMemOf | opWildRegOf
  | opWildStrConst | opZF | opZfill.

Definition all_opers : list OPER :=
  [ opAFP; opAGP; opAddrOf; opAnd; opAnull; opArcTan; opArrayIndex
  ; opAt; opBitAnd; opBitOr; opBitXor; opCF; opCos; opDF; opDefineAll
  ; opDiv; opDivs; opEquals; opExecute; opExpTable; opFDiv; opFMinus
  ; opFMult; opFNeg; opFPlus; opFabs; opFalse; opFflags; opFlagCall
  ; opFlagDef; opFlags; opFltConst; opFpop; opFpush; opFround; opFsize
  ; opFtoi; opFtrunc; opFuncConst; opGlobal; opGtr; opGtrEq; opGtrEqUns
  ; opGtrUns; opGuard; opInitValueOf; opIntConst; opItof; opKindOf
  ; opLNot; opLess; opLessEq; opLessEqUns; opLessUns; opList; opLocal
  ; opLog10; opLog2; opLoge; opLongConst; opLower; opMachFtr; opMemOf
  ; opMemberAccess; opMinus; opMod; opMods; opMult; opMults; opNF
  ; opNameTable; opNeg; opNil; opNot; opNotEqual; opOF; opOpTable; opOr
  ; opPC; opParam; opPhi; opPlus; opPow; opRegOf; opRotateL; opRotateLC
  ; opRotateR; opRotateRC; opSQRTd; opSQRTq; opSQRTs; opSgnEx; opShiftL
  ; opShiftR; opShiftRA; opSignExt; opSin; opSize; opSqrt; opStrConst
  ; opSubscript; opSuccessor; opTan; opTemp; opTern; opTrue; opTruncs
  ; opTruncu; opTypeOf; opTypeVal; opTypedExp; opUpper; opVar; opWild
  ; opWildAddrOf; opWildIntConst; opWildMemOf; opWildRegOf
  ; opWildStrConst; opZF; opZfill ].

Definition oper_code (o : OPER) : nat :=
  match o with
  | opAFP => 0 | opAGP => 1 | opAddrOf => 2 | opAnd => 3 | opAnull => 4
  | opArcTan => 5 | opArrayIndex => 6 | opAt => 7 | opBitAnd => 8
  | opBitOr => 9 | opBitXor => 10 | opCF => 11 | opCos => 12 | opDF => 13
  | opDefineAll => 14 | opDiv => 15 | opDivs => 16 | opEquals => 17
  | opExecute => 18 | opExpTable => 19 | opFDiv => 20 | opFMinus => 21
  | opFMult => 22 | opFNeg => 23 | opFPlus => 24 | opFabs => 25
  | opFalse => 26 | opFflags => 27 | opFlagCall => 28 | opFlagDef => 29
  | opFlags => 30 | opFltConst => 31 | opFpop => 32 | opFpush => 33
  | opFround => 34 | opFsize => 35 | opFtoi => 36 | opFtrunc => 37
  | opFuncConst => 38 | opGlobal => 39 | opGtr => 40 | opGtrEq => 41
  | opGtrEqUns => 42 | opGtrUns => 43 | opGuard => 44 | opInitValueOf => 45
  | opIntConst => 46 | opItof => 47 | opKindOf => 48 | opLNot => 49
  | opLess => 50 | opLessEq => 51 | opLessEqUns => 52 | opLessUns => 53
  | opList => 54 | opLocal => 55 | opLog10 => 56 | opLog2 => 57
  | opLoge => 58 | opLongConst => 59 | opLower => 60 | opMachFtr => 61
  | opMemOf => 62 | opMemberAccess => 63 | opMinus => 64 | opMod => 65
  | opMods => 66 | opMult => 67 | opMults => 68 | opNF => 69
  | opNameTable => 70 | opNeg => 71 | opNil => 72 | opNot => 73
  | opNotEqual => 74 | opOF => 75 | opOpTable => 76 | opOr => 77
  | opPC => 78 | opParam => 79 | opPhi => 80 | opPlus => 81 | opPow => 82
  | opRegOf => 83 | opRotateL => 84 | opRotateLC => 85 | opRotateR => 86
  | opRotateRC => 87 | opSQRTd => 88 | opSQRTq => 89 | opSQRTs => 90
  | opSgnEx => 91 | opShiftL => 92 | opShiftR => 93 | opShiftRA => 94
  | opSignExt => 95 | opSin => 96 | opSize => 97 | opSqrt => 98
  | opStrConst => 99 | opSubscript => 100 | opSuccessor => 101
  | opTan => 102 | opTemp => 103 | opTern => 104 | opTrue => 105
  | opTruncs => 106 | opTruncu => 107 | opTypeOf => 108 | opTypeVal => 109
  | opTypedExp => 110 | opUpper => 111 | opVar => 112 | opWild => 113
  | opWildAddrOf => 114 | opWildIntConst => 115 | opWildMemOf => 116
  | opWildRegOf => 117 | opWildStrConst => 118 | opZF => 119
  | opZfill => 120
  end%nat.

Definition OPER_eqb (a b : OPER) : bool := Nat.eqb (oper_code a) (oper_code b).

(** ** Expression nodes

    Objects an expression points to without owning them are named by a
    handle: a statement ([Instruction*]), a procedure ([UserProc*]), a
    library function ([Function*]), a register-transfer list.  What the
    code reads from such an object is supplied by the environment [Env]
    below. *)

(** [Instruction*] as held by [RefExp::def]: [nullptr], the wildcard
    all-ones pointer, or a statement. *)
Inductive InstrPtr : Type :=
  | nullDef
  | wildDef
  | stmtDef (id : nat).

(** [UserProc*] as held by [Location::proc]; [None] is [nullptr]. *)
Definition ProcPtr : Type := option nat.

(** The type objects the two files build themselves; every other type
    object is named by a handle. *)
Inductive SharedType : Type :=
  | VoidType
  | IntegerType (size : Z)
  | SizeType (size : Z)
  | PointerType (pointsTo : SharedType)
  | TypeObject (id : nat).

(** A [double], by its IEEE-754 binary64 bit pattern. *)
Inductive Flt : Type :=
  | FltBits (bits : Z).

(** The union [Const::u] with [Const::strin]; the member in use fixes the
    tag ([opIntConst] for [u.i] and [u.a], [opLongConst] for [u.ll],
    [opFltConst] for [u.d], [opStrConst] for [strin], [opFuncConst] for
    [u.pp]). *)
Inductive ConstValue : Type :=
  | IntVal (i : Z)
  | LongVal (ll : Z)
  | FltVal (d : Flt)
  | StrVal (s : string)
  | FuncVal (pp : nat).

Inductive Exp : Type :=
  | Const (u : ConstValue) (conscript : Z)
  | Terminal (op : OPER)
  | Unary (op : OPER) (subExp1 : Exp)
  | Binary (op : OPER) (subExp1 subExp2 : Exp)
  | Ternary (op : OPER) (subExp1 subExp2 subExp3 : Exp)
  | TypedExp (type : SharedType) (subExp1 : Exp)
  | RefExp (subExp1 : Exp) (def : InstrPtr)
  | TypeVal (val : SharedType)
  | Location (op : OPER) (subExp1 : Exp) (proc : ProcPtr)
  | FlagDef (subExp1 : Exp) (rtl : nat).

(** Kind of a statement, as far as [exp.cpp] asks for it. *)
Inductive StmtKind : Type :=
  | STMT_ASSIGN
  | STMT_IMPASSIGN
  | STMT_OTHER.

(** One step of the member-access chain [accessMember] builds. *)
Inductive AccessStep : Type :=
  | MemberStep (name : string)
  | IndexStep (index : Z).

(** What the declared type of an expression says about a byte offset:
    the type is no pointer to a compound; it is, and
    [convertFromOffsetToCompound] finds no named member there (offset past
    the end, no name, or padding); it is, and the walk of [accessMember]
    over the compound, its nested compounds and arrays yields the chain. *)
Inductive CompoundAccess : Type :=
  | NotCompoundPointer
  | NoMemberAt
  | MemberChain (path : list AccessStep).

(** What the code reads from its collaborators ([types.h], [statement.h],
    [prog.h] are not part of the two files):
    - [type_eq]: [Type::operator==];
    - [stmtKind], [assignLeft]: [Instruction::getKind], [Assign::getLeft];
    - [memberPath d b n]: for the statement [d], the type it gives to [b]
      ([getTypeFor]) and the unsigned byte offset [n], what the walk over
      that type yields;
    - [floatConstant]: [Prog::getFloatConstant];
    - [floatOfBits]: the [double] a 32-bit pattern denotes when read as a
      [float];
    - [baseClearsMod]: [Exp::polySimplify] of the base class, which
      [Const], [Terminal] and [TypeVal] inherit, returns the node; whether
      it first clears [bMod] is decided in [exp.h]. *)
Record Env : Type := mkEnv {
  type_eq : SharedType -> SharedType -> bool;
  stmtKind : nat -> StmtKind;
  assignLeft : nat -> Exp;
  memberPath : nat -> Exp -> Z -> CompoundAccess;
  floatConstant : ProcPtr -> Z -> Z -> option Flt;
  floatOfBits : Z -> Flt;
  baseClearsMod : bool
}.

(** *** Constructors of the source *)

Definition Const_get (i : Z) : Exp := Const (IntVal i) 0.
Definition Const_getStr (s : string) : Exp := Const (StrVal s) 0.
Definition Const_getFlt (d : Flt) : Exp := Const (FltVal d) 0.

Definition getOper (e : Exp) : OPER :=
  match e with
  | Const (IntVal _) _ => opIntConst
  | Const (LongVal _) _ => opLongConst
  | Const (FltVal _) _ => opFltConst
  | Const (StrVal _) _ => opStrConst
  | Const (FuncVal _) _ => opFuncConst
  | Terminal op => op
  | Unary op _ => op
  | Binary op _ _ => op
  | Ternary op _ _ _ => op
  | TypedExp _ _ => opTypedExp
  | RefExp _ _ => opSubscript
  | TypeVal _ => opTypeVal
  | Location op _ _ => op
  | FlagDef _ _ => opFlagDef
  end.

(** [getSubExp1], [getSubExp2], [getSubExp3]; [None] where the class has
    no such child. *)
Definition getSubExp1 (e : Exp) : option Exp :=
  match e with
  | Unary _ a | Binary _ a _ | Ternary _ a _ _ | TypedExp _ a | RefExp a _
  | Location _ a _ | FlagDef a _ => Some a
  | Const _ _ | Terminal _ | TypeVal _ => None
  end.

Definition getSubExp2 (e : Exp) : option Exp :=
  match e with
  | Binary _ _ b | Ternary _ _ b _ => Some b
  | _ => None
  end.

Definition getSubExp3 (e : Exp) : option Exp :=
  match e with
  | Ternary _ _ _ c => Some c
  | _ => None
  end.

(** The proc a [Location] built without one takes over from its child
    (the loop of the [Location] constructor). *)
Fixpoint findProcIn (e : Exp) : ProcPtr :=
  match e with
  | Location _ _ p => p
  | RefExp a _ => findProcIn a
  | _ => None
  end.

Definition Location_get (op : OPER) (e : Exp) (p : ProcPtr) : Exp :=
  match p with
  | Some _ => Location op e p
  | None => Location op e (findProcIn e)
  end.

Definition Location_regOf (k : Z) : Exp := Location_get opRegOf (Const_get k) None.
Definition Location_memOf (e : Exp) : Exp := Location_get opMemOf e None.

(** [clone]: a new tree with the same contents. *)
Definition clone (e : Exp) : Exp := e.

(** *** Predicates on the tag *)

Definition isOp (op : OPER) (e : Exp) : bool := OPER_eqb (getOper e) op.
Definition isIntConst (e : Exp) : bool := isOp opIntConst e.
Definition isSubscript (e : Exp) : bool := isOp opSubscript e.
Definition isAddrOf (e : Exp) : bool := isOp opAddrOf e.
Definition isMemOf (e : Exp) : bool := isOp opMemOf e.
Definition isGlobal (e : Exp) : bool := isOp opGlobal e.
Definition isTrue (e : Exp) : bool := isOp opTrue e.
Definition isFalse (e : Exp) : bool := isOp opFalse e.
Definition isBoolConst (e : Exp) : bool := isTrue e || isFalse e.

Definition isLocation (e : Exp) : bool :=
  let op := getOper e in
  OPER_eqb op opMemOf || OPER_eqb op opRegOf || OPER_eqb op opGlobal
  || OPER_eqb op opLocal || OPER_eqb op opParam.

(** [getInt] of a node that is an integer constant. *)
Definition getInt (e : Exp) : option Z :=
  match e with
  | Const (IntVal i) _ => Some i
  | _ => None
  end.

Definition isIntConstEq (k : Z) (e : Exp) : bool :=
  match getInt e with
  | Some i => i =? k
  | None => false
  end.

Definition isRegOfK (e : Exp) : bool :=
  OPER_eqb (getOper e) opRegOf &&
  match getSubExp1 e with
  | Some s => isIntConst s
  | None => false
  end.

Definition isRegN (n : Z) (e : Exp) : bool :=
  OPER_eqb (getOper e) opRegOf &&
  match getSubExp1 e with
  | Some s => isIntConstEq n s
  | None => false
  end.

(** ** Strict equality, [operator==] *)

(** [u.d == o.u.d] on doubles: a NaN equals nothing, the two zeros are
    equal. *)
Definition Flt_isNaN (d : Flt) : bool :=
  match d with
  | FltBits b =>
      (Z.land (Z.shiftr b 52) 2047 =? 2047) && negb (Z.land b 4503599627370495 =? 0)
  end.

Definition Flt_isZero (d : Flt) : bool :=
  match d with
  | FltBits b => Z.land b 9223372036854775807 =? 0
  end.

Definition Flt_eqb (a b : Flt) : bool :=
  match a, b with
  | FltBits x, FltBits y =>
      negb (Flt_isNaN a) && negb (Flt_isNaN b)
      && ((x =? y) || (Flt_isZero a && Flt_isZero b))
  end.

Definition InstrPtr_eqb (a b : InstrPtr) : bool :=
  match a, b with
  | nullDef, nullDef => true
  | wildDef, wildDef => true
  | stmtDef x, stmtDef y => Nat.eqb x y
  | _, _ => false
  end.

(** [Instruction::isImplicit] and [RefExp::isImplicitDef]. *)
Definition isImplicit (env : Env) (id : nat) : bool :=
  match stmtKind env id with
  | STMT_IMPASSIGN => true
  | _ => false
  end.

Definition isImplicitDef (env : Env) (d : InstrPtr) : bool :=
  match d with
  | nullDef => true
  | wildDef => false
  | stmtDef id => isImplicit env id
  end.

(** The comparison of the definitions of two subscripts: the tail of
    [RefExp::operator==], after the tags and the children have agreed.  [d]
    is the definition of [this], [d'] that of the right operand. *)
Definition defEq (env : Env) (d d' : InstrPtr) : bool :=
  if InstrPtr_eqb d wildDef then true
  else if InstrPtr_eqb d' wildDef then true
  else if InstrPtr_eqb d nullDef && isImplicitDef env d' then true
  else if InstrPtr_eqb d' nullDef
          && match d with stmtDef id => isImplicit env id | _ => false end
       then true
  else InstrPtr_eqb d d'.

(** [dynamic_cast<const Binary*>] and [dynamic_cast<const Ternary*>]
    succeed on the class and on what derives from it. *)
Definition isBinaryClass (e : Exp) : bool :=
  match e with
  | Binary _ _ _ | Ternary _ _ _ _ => true
  | _ => false
  end.

Definition isTernaryClass (e : Exp) : bool :=
  match e with
  | Ternary _ _ _ _ => true
  | _ => false
  end.

(** The comparison of two [Const] nodes once their tags agree
    ([Const::operator==] from the conscript test on).  [opLongConst] and
    [opFuncConst] reach [assert(false)] and the [return false] after it. *)
Definition constPayloadEq (u : ConstValue) (cs : Z) (u' : ConstValue) (cs' : Z) : bool :=
  if (negb (cs =? 0) && negb (cs =? cs')) || negb (cs' =? 0) then false
  else
    match u, u' with
    | IntVal i, IntVal j => i =? j
    | FltVal d, FltVal d' => Flt_eqb d d'
    | StrVal s, StrVal s' => String.eqb s s'
    | _, _ => false
    end.

(** [exp_eq env this o] is [*this == o], dispatched on the class of [this].
    [Location] and [FlagDef] inherit [Unary::operator==].  Where the code
    reads a child of [o] that the class of [o] does not have (possible only
    when a tag sits on a node of the wrong shape), the answer is [false]. *)
Fixpoint exp_eq (env : Env) (this o : Exp) {struct this} : bool :=
  let unaryEq (op : OPER) (s1 : Exp) :=
    if OPER_eqb (getOper o) opWild then true
    else if OPER_eqb (getOper o) opWildRegOf && OPER_eqb op opRegOf then true
    else if OPER_eqb (getOper o) opWildMemOf && OPER_eqb op opMemOf then true
    else if OPER_eqb (getOper o) opWildAddrOf && OPER_eqb op opAddrOf then true
    else if negb (OPER_eqb op (getOper o)) then false
    else match getSubExp1 o with
         | Some o1 => exp_eq env s1 o1
         | None => false
         end in
  match this with
  | Const u cs =>
      if OPER_eqb (getOper o) opWild then true
      else if OPER_eqb (getOper o) opWildIntConst && OPER_eqb (getOper this) opIntConst then true
      else if OPER_eqb (getOper o) opWildStrConst && OPER_eqb (getOper this) opStrConst then true
      else if negb (OPER_eqb (getOper this) (getOper o)) then false
      else match o with
           | Const u' cs' => constPayloadEq u cs u' cs'
           | _ => false
           end
  | Terminal op =>
      if OPER_eqb op opWildIntConst then OPER_eqb (getOper o) opIntConst
      else if OPER_eqb op opWildStrConst then OPER_eqb (getOper o) opStrConst
      else if OPER_eqb op opWildMemOf then OPER_eqb (getOper o) opMemOf
      else if OPER_eqb op opWildRegOf then OPER_eqb (getOper o) opRegOf
      else if OPER_eqb op opWildAddrOf then OPER_eqb (getOper o) opAddrOf
      else OPER_eqb op opWild || OPER_eqb (getOper o) opWild || OPER_eqb op (getOper o)
  | Unary op s1 => unaryEq op s1
  | Location op s1 _ => unaryEq op s1
  | FlagDef s1 _ => unaryEq opFlagDef s1
  | Binary op s1 s2 =>
      if OPER_eqb (getOper o) opWild then true
      else if negb (isBinaryClass o) then false
      else if negb (OPER_eqb op (getOper o)) then false
      else match getSubExp1 o, getSubExp2 o with
           | Some o1, Some o2 =>
               if negb (exp_eq env s1 o1) then false else exp_eq env s2 o2
           | _, _ => false
           end
  | Ternary op s1 s2 s3 =>
      if OPER_eqb (getOper o) opWild then true
      else if negb (isTernaryClass o) then false
      else if negb (OPER_eqb op (getOper o)) then false
      else match getSubExp1 o, getSubExp2 o, getSubExp3 o with
           | Some o1, Some o2, Some o3 =>
               if negb (exp_eq env s1 o1) then false
               else if negb (exp_eq env s2 o2) then false
               else exp_eq env s3 o3
           | _, _, _ => false
           end
  | TypedExp ty s1 =>
      if OPER_eqb (getOper o) opWild then true
      else if negb (OPER_eqb (getOper o) opTypedExp) then false
      else match o with
           | TypedExp ty' o1 =>
               if negb (type_eq env ty ty') then false else exp_eq env s1 o1
           | _ => false
           end
  | RefExp s1 d =>
      if OPER_eqb (getOper o) opWild then true
      else if negb (OPER_eqb (getOper o) opSubscript) then false
      else match o with
           | RefExp o1 d' =>
               if negb (exp_eq env s1 o1) then false else defEq env d d'
           | _ => false
           end
  | TypeVal ty =>
      if OPER_eqb (getOper o) opWild then true
      else if negb (OPER_eqb (getOper o) opTypeVal) then false
      else match o with
           | TypeVal ty' => type_eq env ty ty'
           | _ => false
           end
  end.

(** ** Calls with and without a result

    A call either returns, or runs into an operation for which C++ defines
    no result (a division by zero, a shift count outside 0..31, a read
    through a cast to a class the node does not have, a write through a
    pointer into released memory); the model keeps the two apart, and
    apart from running out of the recursion budget [fuel] of the
    simplifier. *)

Inductive Failure : Type :=
  | OutOfFuel
  | Undefined.

Inductive Res (A : Type) : Type :=
  | Ok (a : A)
  | Fail (f : Failure).

Arguments Ok {A} a.
Arguments Fail {A} f.

Definition bind {A B : Type} (m : Res A) (k : A -> Res B) : Res B :=
  match m with
  | Ok a => k a
  | Fail f => Fail f
  end.

Notation "x <- m ;; k" := (bind m (fun x => k))
  (at level 61, m at next level, right associativity).
Notation "' pat <- m ;; k" := (bind m (fun x => match x with pat => k end))
  (at level 61, pat pattern, m at next level, right associativity).

Definition fromOption {A : Type} (o : option A) : Res A :=
  match o with
  | Some a => Ok a
  | None => Fail Undefined
  end.

(** ** Search and replace

    [doSearch] collects pointers to the slots ([SharedExp*]) that hold a
    match.  A slot is named here by the path that leads to it from the slot
    of the root: the list of child numbers (1, 2, 3) taken on the way. *)

Definition Path : Type := list nat.

Fixpoint getAt (top : Exp) (p : Path) : option Exp :=
  match p with
  | [] => Some top
  | i :: r =>
      match i, top with
      | 1%nat, Unary _ a | 1%nat, Binary _ a _ | 1%nat, Ternary _ a _ _
      | 1%nat, TypedExp _ a | 1%nat, RefExp a _ | 1%nat, Location _ a _
      | 1%nat, FlagDef a _ => getAt a r
      | 2%nat, Binary _ _ b | 2%nat, Ternary _ _ b _ => getAt b r
      | 3%nat, Ternary _ _ _ c => getAt c r
      | _, _ => None
      end
  end.

(** [setAt top p n]: the tree after [*slot = n] for the slot at [p]. *)
Fixpoint setAt (top : Exp) (p : Path) (n : Exp) : Exp :=
  match p with
  | [] => n
  | i :: r =>
      match i, top with
      | 1%nat, Unary op a => Unary op (setAt a r n)
      | 1%nat, Binary op a b => Binary op (setAt a r n) b
      | 1%nat, Ternary op a b c => Ternary op (setAt a r n) b c
      | 1%nat, TypedExp ty a => TypedExp ty (setAt a r n)
      | 1%nat, RefExp a d => RefExp (setAt a r n) d
      | 1%nat, Location op a pr => Location op (setAt a r n) pr
      | 1%nat, FlagDef a rtl => FlagDef (setAt a r n) rtl
      | 2%nat, Binary op a b => Binary op a (setAt b r n)
      | 2%nat, Ternary op a b c => Ternary op a (setAt b r n) c
      | 3%nat, Ternary op a b c => Ternary op a b (setAt c r n)
      | _, _ => top
      end
  end.

(** [li.size()] as the tests [once && li.size()] read it. *)
Definition nonEmpty {A : Type} (l : list A) : bool :=
  match l with
  | [] => false
  | _ :: _ => true
  end.

(** [Exp::doSearch] with the virtual [doSearchChildren] of the class of
    [pSrc] in place; [here] is the slot of [pSrc], [li] the list so far. *)
Fixpoint doSearch (env : Env) (search pSrc : Exp) (here : Path)
                  (li : list Path) (once : bool) {struct pSrc} : list Path :=
  let compare := exp_eq env search pSrc in
  let li := if compare then li ++ [here] else li in
  if compare && once then li
  else if negb compare || negb (OPER_eqb (getOper pSrc) opSubscript) then
    let unaryChildren (op : OPER) (s1 : Exp) :=
      if negb (OPER_eqb op opInitValueOf)
      then doSearch env search s1 (here ++ [1%nat]) li once
      else li in
    match pSrc with
    | Const _ _ | Terminal _ | TypeVal _ => li
    | Unary op s1 => unaryChildren op s1
    | Location op s1 _ => unaryChildren op s1
    | TypedExp _ s1 => unaryChildren opTypedExp s1
    | RefExp s1 _ => unaryChildren opSubscript s1
    | FlagDef s1 _ => unaryChildren opFlagDef s1
    | Binary _ s1 s2 =>
        let li := doSearch env search s1 (here ++ [1%nat]) li once in
        if once && nonEmpty li then li
        else doSearch env search s2 (here ++ [2%nat]) li once
    | Ternary _ s1 s2 s3 =>
        let li := doSearch env search s1 (here ++ [1%nat]) li once in
        if once && nonEmpty li then li
        else
          let li := doSearch env search s2 (here ++ [2%nat]) li once in
          if once && nonEmpty li then li
          else doSearch env search s3 (here ++ [3%nat]) li once
    end
  else li.

(** [doSearchChildren] of the class of [e]. *)
Definition doSearchChildren (env : Env) (search e : Exp) (here : Path)
                            (li : list Path) (once : bool) : list Path :=
  let unaryChildren (op : OPER) (s1 : Exp) :=
    if negb (OPER_eqb op opInitValueOf)
    then doSearch env search s1 (here ++ [1%nat]) li once
    else li in
  match e with
  | Const _ _ | Terminal _ | TypeVal _ => li
  | Unary op s1 => unaryChildren op s1
  | Location op s1 _ => unaryChildren op s1
  | TypedExp _ s1 => unaryChildren opTypedExp s1
  | RefExp s1 _ => unaryChildren opSubscript s1
  | FlagDef s1 _ => unaryChildren opFlagDef s1
  | Binary _ s1 s2 =>
      let li := doSearch env search s1 (here ++ [1%nat]) li once in
      if once && nonEmpty li then li
      else doSearch env search s2 (here ++ [2%nat]) li once
  | Ternary _ s1 s2 s3 =>
      let li := doSearch env search s1 (here ++ [1%nat]) li once in
      if once && nonEmpty li then li
      else
        let li := doSearch env search s2 (here ++ [2%nat]) li once in
        if once && nonEmpty li then li
        else doSearch env search s3 (here ++ [3%nat]) li once
  end.

(** [isPrefix p q]: the slot at [q] lies in the subtree held by the slot
    at [p]. *)
Fixpoint isPrefix (p q : Path) : bool :=
  match p, q with
  | [], _ => true
  | _ :: _, [] => false
  | i :: p', j :: q' => Nat.eqb i j && isPrefix p' q'
  end.

(** [released w pp]: the assignment to the slot at [w] releases the node
    that holds the slot at [pp].  A slot other than the root's is a member
    ([subExp1], [subExp2], [subExp3]) of its parent node; the assignment
    [*pp = replace->clone()] to the slot at [w] drops the reference to the
    subtree this slot held and with it, in a tree that owns its nodes
    alone, every node of the subtree; the slots strictly below [w] are
    members of these nodes.  The slot of the root is the local [top] of
    [searchReplaceAll]: the assignment to it releases nothing, the object
    [this] being held by the caller. *)
Definition released (w pp : Path) : bool :=
  nonEmpty w && isPrefix w pp && (List.length w <? List.length pp)%nat.

(** Whether the slot of the root is among the slots overwritten. *)
Definition rootWritten (written : list Path) : bool :=
  existsb (fun w => negb (nonEmpty w)) written.

(** The loop of [searchReplaceAll] over the slots found; [written] are the
    slots overwritten so far.  The assignment to a slot whose node an
    earlier assignment released is a write through a dangling pointer, for
    which C++ defines no result (the source notes that with wildcards "a
    replacement will be made to something that is already deleted").
    Once the slot of the root is overwritten, [top] is the replacement
    and the slots that follow are members of the nodes of [this]: the
    assignments to them change the tree of the caller, not what is
    returned. *)
Fixpoint replaceSlots (top : Exp) (li written : list Path) (replace : Exp)
                      (once : bool) : Res Exp :=
  match li with
  | [] => Ok top
  | pp :: rest =>
      if existsb (fun w => released w pp) written then Fail Undefined
      else
        let top' := if rootWritten written then top
                    else setAt top pp (clone replace) in
        if once then Ok top'
        else replaceSlots top' rest (pp :: written) replace once
  end.

(** [Exp::searchReplaceAll]; [thisIsSearch] is the test [this == &search]
    (the pattern is the very object searched).  Returns the result and
    [change]. *)
Definition searchReplaceAll (env : Env) (this search replace : Exp)
                            (once thisIsSearch : bool) : Res (Exp * bool) :=
  if thisIsSearch then Ok (clone replace, true)
  else
    let li := doSearch env search this [] [] false in
    top <- replaceSlots this li [] replace once ;;
    Ok (top, nonEmpty li).

Definition searchReplace (env : Env) (this search replace : Exp)
                         (thisIsSearch : bool) : Res (Exp * bool) :=
  searchReplaceAll env this search replace true thisIsSearch.

(** [Exp::search]: whether a match was found, and the first match. *)
Definition search (env : Env) (this pattern : Exp) : bool * option Exp :=
  let li := doSearch env pattern this [] [] false in
  match li with
  | [] => (false, None)
  | p :: _ => (true, getAt this p)
  end.

(** [Exp::searchAll]: [result] with the matches appended. *)
Definition searchAll (env : Env) (this pattern : Exp) (result : list Exp)
  : bool * list Exp :=
  let li := doSearch env pattern this [] [] false in
  (nonEmpty li,
   result ++ flat_map (fun p => match getAt this p with
                                | Some e => [e]
                                | None => []
                                end) li).

(** ** Arithmetic partition *)

(** The three bags [partitionTerms] fills: [positives], [negatives]
    (lists of sub-expressions, not cloned) and [integers]. *)
Record Partition : Type := mkPartition {
  positives : list Exp;
  negatives : list Exp;
  integers : list Z
}.

Definition emptyPartition : Partition := mkPartition [] [] [].

(** [Exp::partitionTerms]: a switch on the tag.  [opPlus] and [opMinus]
    read two children, [opTypedExp] one; a node that carries such a tag
    without the children (a shape the constructors exclude) is taken by
    the [default] branch. *)
Fixpoint partitionTerms (e : Exp) (acc : Partition) (negate : bool) {struct e}
  : Partition :=
  let other :=
    if negate
    then mkPartition (positives acc) (negatives acc ++ [e]) (integers acc)
    else mkPartition (positives acc ++ [e]) (negatives acc) (integers acc) in
  let binary (op : OPER) (p1 p2 : Exp) :=
    if OPER_eqb op opPlus then
      partitionTerms p2 (partitionTerms p1 acc negate) negate
    else if OPER_eqb op opMinus then
      partitionTerms p2 (partitionTerms p1 acc negate) (negb negate)
    else if OPER_eqb op opTypedExp then partitionTerms p1 acc negate
    else other in
  let unary (op : OPER) (p1 : Exp) :=
    if OPER_eqb op opTypedExp then partitionTerms p1 acc negate else other in
  match e with
  | Binary op p1 p2 => binary op p1 p2
  | Ternary op p1 p2 _ => binary op p1 p2
  | TypedExp _ p1 => partitionTerms p1 acc negate
  | Unary op p1 => unary op p1
  | Location op p1 _ => unary op p1
  | Const (IntVal k) _ =>
      mkPartition (positives acc) (negatives acc)
        (integers acc ++ [if negate then Int32.wrap32 (- k) else k])
  | _ => other
  end.

(** [Exp::Accumulate]: the sum of a list as a right-leaning chain of
    [opPlus]. *)
Fixpoint Accumulate (exprs : list Exp) : Exp :=
  match exprs with
  | [] => Const_get 0
  | [e] => clone e
  | e :: rest => Binary opPlus (clone e) (Accumulate rest)
  end.

(** ** Signature engine *)

(** [class Parameter]. *)
Record SigParameter : Type := mkParameter {
  param_type : SharedType;
  param_name : string;
  param_exp : Exp;
  param_boundMax : string
}.

Record Return : Type := mkReturn {
  ret_type : SharedType;
  ret_exp : Exp
}.

(** The data members of [class Signature] that [signature.cpp] sets. *)
Record Signature : Type := mkSignature {
  name : string;
  params : list SigParameter;
  returns : list Return;
  rettype : SharedType;
  ellipsis : bool;
  unknown : bool;
  forced : bool
}.

(** The dynamic class of a signature object: the base class and the
    conventions declared in [signature.cpp]. *)
Inductive SigClass : Type :=
  | BaseSignature
  | Win32Signature
  | Win32TcSignature
  | PentiumSignature
  | SparcSignature
  | SparcLibSignature
  | PPCSignature
  | MIPSSignature
  | ST20Signature.

(** What a call returns or throws. *)
Inductive SigException : Type :=
  | StackRegisterNotDefinedException.

Inductive Outcome (A : Type) : Type :=
  | Returns (a : A)
  | Throws (ex : SigException).

Arguments Returns {A} a.
Arguments Throws {A} ex.

(** [Signature::getStackRegister()], the base-class body. *)
Definition Signature_getStackRegister (sig : Signature) : Outcome Z :=
  Throws StackRegisterNotDefinedException.

(** The virtual [getStackRegister()] of each class. *)
Definition getStackRegister (cls : SigClass) (sig : Signature) : Outcome Z :=
  match cls with
  | BaseSignature => Signature_getStackRegister sig
  | Win32Signature | Win32TcSignature | PentiumSignature => Returns 28
  | SparcSignature | SparcLibSignature => Returns 14
  | PPCSignature => Returns 1
  | MIPSSignature => Returns 29
  | ST20Signature => Returns 3
  end.

(** [Signature::getParamExp]; [None] where [assert(n < params.size())]
    fails or the index is negative. *)
Definition getParamExp (sig : Signature) (n : Z) : option Exp :=
  if n <? 0 then None
  else option_map param_exp (nth_error (params sig) (Z.to_nat n)).

Definition Signature_getArgumentExp (sig : Signature) (n : Z) : option Exp :=
  getParamExp sig n.

(** [params.size() != 0 && *params[0]->getExp() == *e]. *)
Definition firstParamIs (env : Env) (sig : Signature) (e : Exp) : bool :=
  match params sig with
  | [] => false
  | p :: _ => exp_eq env (param_exp p) e
  end.

Definition numParams (sig : Signature) : Z := Z.of_nat (List.length (params sig)).

(** [Win32Signature::getArgumentExp] (the same body serves
    [PentiumSignature]); [int] arithmetic wraps. *)
Definition Win32Signature_getArgumentExp (env : Env) (sig : Signature) (n : Z)
  : option Exp :=
  if n <? numParams sig then Signature_getArgumentExp sig n
  else
    let esp := Location_regOf 28 in
    let n := if firstParamIs env sig esp then Int32.wrap32 (n - 1) else n in
    Some (Location_memOf
            (Binary opPlus esp (Const_get (Int32.wrap32 (Int32.wrap32 (n + 1) * 4))))).

Definition Win32TcSignature_getArgumentExp (env : Env) (sig : Signature) (n : Z)
  : option Exp :=
  if n <? numParams sig then Signature_getArgumentExp sig n
  else
    let esp := Location_regOf 28 in
    let n := if firstParamIs env sig esp then Int32.wrap32 (n - 1) else n in
    if n =? 0 then Some (Location_regOf 25)
    else Some (Location_memOf
                 (Binary opPlus esp (Const_get (Int32.wrap32 (n * 4))))).

(** [left->access<Const,1>()->getInt()] under [left->isRegOfK()]. *)
Definition regOfK (e : Exp) : option Z :=
  if isRegOfK e then
    match getSubExp1 e with
    | Some s => getInt s
    | None => None
    end
  else None.

Definition memberZ (r : Z) (l : list Z) : bool := existsb (Z.eqb r) l.

(** [isPreserved] of the Pentium family ([Win32Signature] and
    [PentiumSignature] have the same body; [Win32TcSignature] inherits
    it). *)
Definition Pentium_isPreserved (e : Exp) : bool :=
  match regOfK e with
  | Some r => memberZ r [29; 27; 30; 31; 3; 5; 6; 7; 11; 15]
  | None => false
  end.

Definition Sparc_isPreserved (e : Exp) : bool :=
  match regOfK e with
  | Some r => memberZ r [14; 24; 25; 26; 27; 28; 29; 30; 31]
  | None => false
  end.

Definition PPC_isPreserved (e : Exp) : bool :=
  match regOfK e with
  | Some r => r =? 1
  | None => false
  end.

Definition MIPS_isPreserved (e : Exp) : bool :=
  match regOfK e with
  | Some r => r =? 29
  | None => false
  end.

(** Modelled from the spec: [ST20Signature] and the base class take
    [isPreserved] from [signature.h], which is not among the sources.  The
    table of conventions gives r0, r1, r2 as callee-saved for ST20; the base
    signature promises nothing. *)
Definition ST20_isPreserved (e : Exp) : bool :=
  match regOfK e with
  | Some r => memberZ r [0; 1; 2]
  | None => false
  end.

Definition isPreserved (cls : SigClass) (e : Exp) : bool :=
  match cls with
  | BaseSignature => false
  | Win32Signature | Win32TcSignature | PentiumSignature => Pentium_isPreserved e
  | SparcSignature | SparcLibSignature => Sparc_isPreserved e
  | PPCSignature => PPC_isPreserved e
  | MIPSSignature => MIPS_isPreserved e
  | ST20Signature => ST20_isPreserved e
  end.

(** [nparams] of the two Win32 [getProven]: the parameters without an
    implicit stack-pointer first parameter. *)
Definition provenParams (env : Env) (sig : Signature) : Z :=
  if (0 <? numParams sig) && firstParamIs env sig (Location_regOf 28)
  then numParams sig - 1 else numParams sig.

Definition Win32Signature_getProven (env : Env) (sig : Signature) (left : Exp)
  : option Exp :=
  let nparams := provenParams env sig in
  match regOfK left with
  | Some r =>
      if r =? 28 then
        Some (Binary opPlus (Location_regOf 28)
                (Const_get (Int32.wrap32 (4 + nparams * 4))))
      else if r =? 27 then Some (Location_regOf 27)
      else if r =? 29 then Some (Location_regOf 29)
      else if r =? 30 then Some (Location_regOf 30)
      else if r =? 31 then Some (Location_regOf 31)
      else None
  | None => None
  end.

Definition Win32TcSignature_getProven (env : Env) (sig : Signature) (left : Exp)
  : option Exp :=
  match regOfK left with
  | Some 28 =>
      Some (Binary opPlus (Location_regOf 28)
              (Const_get (Int32.wrap32 (4 + provenParams env sig * 4 - 4))))
  | _ => Win32Signature_getProven env sig left
  end.

Definition PentiumSignature_getProven (left : Exp) : option Exp :=
  match regOfK left with
  | Some r =>
      if r =? 28 then Some (Binary opPlus (Location_regOf 28) (Const_get 4))
      else if memberZ r [29; 30; 31; 27] then Some (Location_regOf r)
      else None
  | None => None
  end.

Definition PPCSignature_getProven (left : Exp) : option Exp :=
  match regOfK left with
  | Some r => if r =? 1 then Some left else None
  | None => None
  end.

Definition ST20Signature_getProven (left : Exp) : option Exp :=
  match regOfK left with
  | Some r =>
      if r =? 3 then Some left
      else if memberZ r [0; 1; 2] then Some (Location_regOf r)
      else None
  | None => None
  end.

Definition SparcSignature_getProven (left : Exp) : option Exp :=
  match regOfK left with
  | Some r =>
      if memberZ r [14; 24; 25; 26; 27; 28; 29; 30; 31] then Some left else None
  | None => None
  end.

Definition SparcLibSignature_getProven (left : Exp) : option Exp :=
  match regOfK left with
  | Some r =>
      if memberZ r [14; 24; 25; 26; 27; 28; 29; 30; 31; 2; 3; 4]
      then Some left else None
  | None => None
  end.

Definition MIPSSignature_getProven (left : Exp) : option Exp :=
  match regOfK left with
  | Some r => if r =? 29 then Some left else None
  | None => None
  end.

(** The virtual [getProven]; [None] is the [nullptr] answer.  The base
    class body is in [signature.h]; it is taken to give no answer. *)
Definition getProven (env : Env) (cls : SigClass) (sig : Signature) (left : Exp)
  : option Exp :=
  match cls with
  | BaseSignature => None
  | Win32Signature => Win32Signature_getProven env sig left
  | Win32TcSignature => Win32TcSignature_getProven env sig left
  | PentiumSignature => PentiumSignature_getProven left
  | SparcSignature => SparcSignature_getProven left
  | SparcLibSignature => SparcLibSignature_getProven left
  | PPCSignature => PPCSignature_getProven left
  | MIPSSignature => MIPSSignature_getProven left
  | ST20Signature => ST20Signature_getProven left
  end.

(** ** The polymorphic simplifier

    [polySimplify] rewrites a node in place and reports through [bMod]
    whether a counted rewrite took place.  A call returns [Ok], or fails
    as [Undefined] where C++ defines no result, or as [OutOfFuel] when the
    recursion budget [fuel] is used up.  [int] addition, subtraction,
    multiplication and negation wrap. *)

(** Reads that presuppose the class of the node. *)
Definition sub1 (e : Exp) : Res Exp := fromOption (getSubExp1 e).
Definition sub2 (e : Exp) : Res Exp := fromOption (getSubExp2 e).
Definition sub3 (e : Exp) : Res Exp := fromOption (getSubExp3 e).
Definition intOf (e : Exp) : Res Z := fromOption (getInt e).

(** [setOper]: the tag of [Const], [TypedExp], [RefExp], [TypeVal] and
    [FlagDef] follows from the class here; the simplifier sets the tag of
    nodes that carry a comparison or arithmetic tag only. *)
Definition setOper (op : OPER) (e : Exp) : Exp :=
  match e with
  | Terminal _ => Terminal op
  | Unary _ a => Unary op a
  | Binary _ a b => Binary op a b
  | Ternary _ a b c => Ternary op a b c
  | Location _ a p => Location op a p
  | _ => e
  end.

(** [Const::setInt]: the conscript stays. *)
Definition setInt (k : Z) (e : Exp) : Res Exp :=
  match e with
  | Const (IntVal _) cs => Ok (Const (IntVal k) cs)
  | _ => Fail Undefined
  end.

(** [setSubExp2] on a node of class [Binary] or [Ternary]. *)
Definition setSubExp2 (n : Exp) (e : Exp) : Res Exp :=
  match e with
  | Binary op a _ => Ok (Binary op a n)
  | Ternary op a _ c => Ok (Ternary op a n c)
  | _ => Fail Undefined
  end.

Definition boolZ (b : bool) : Z := if b then 1 else 0.

Definition isOneOf (op : OPER) (l : list OPER) : bool := existsb (OPER_eqb op) l.

(** *** Constant folding of [k1 op k2], the first [switch] of
    [Binary::polySimplify].  [Ok None] is [change = false]. *)
Definition foldBinary (op : OPER) (k1 k2 : Z) : Res (option Z) :=
  let u1 := Int32.to_unsigned k1 in
  let u2 := Int32.to_unsigned k2 in
  match op with
  | opPlus => Ok (Some (Int32.wrap32 (k1 + k2)))
  | opMinus => Ok (Some (Int32.wrap32 (k1 - k2)))
  | opDiv => if k2 =? 0 then Fail Undefined else Ok (Some (Int32.wrap32 (u1 / u2)))
  | opDivs =>
      if (k2 =? 0) || ((k1 =? Int32.min_signed) && (k2 =? -1)) then Fail Undefined
      else Ok (Some (Z.quot k1 k2))
  | opMod => if k2 =? 0 then Fail Undefined else Ok (Some (Int32.wrap32 (u1 mod u2)))
  | opMods =>
      if (k2 =? 0) || ((k1 =? Int32.min_signed) && (k2 =? -1)) then Fail Undefined
      else Ok (Some (Z.rem k1 k2))
  | opMult => Ok (Some (Int32.wrap32 (u1 * u2)))
  | opMults => Ok (Some (Int32.wrap32 (k1 * k2)))
  | opShiftL =>
      if 32 <=? k2 then Ok (Some 0)
      else if k2 <? 0 then Fail Undefined
      else Ok (Some (Int32.wrap32 (Z.shiftl k1 k2)))
  | opShiftR =>
      if (k2 <? 0) || (32 <=? k2) then Fail Undefined
      else Ok (Some (Z.shiftr k1 k2))
  | opShiftRA =>
      if (k2 <? 1) || (32 <=? k2) then Fail Undefined
      else Ok (Some (Z.lor (Z.shiftr k1 k2)
                           (Int32.wrap32 (Z.shiftl (Z.shiftl 1 k2 - 1) (32 - k2)))))
  | opBitOr => Ok (Some (Z.lor k1 k2))
  | opBitAnd => Ok (Some (Z.land k1 k2))
  | opBitXor => Ok (Some (Z.lxor k1 k2))
  | opEquals => Ok (Some (boolZ (k1 =? k2)))
  | opNotEqual => Ok (Some (boolZ (negb (k1 =? k2))))
  | opLess => Ok (Some (boolZ (k1 <? k2)))
  | opGtr => Ok (Some (boolZ (k2 <? k1)))
  | opLessEq => Ok (Some (boolZ (k1 <=? k2)))
  | opGtrEq => Ok (Some (boolZ (k2 <=? k1)))
  | opLessUns => Ok (Some (boolZ (u1 <? u2)))
  | opGtrUns => Ok (Some (boolZ (u2 <? u1)))
  | opLessEqUns => Ok (Some (boolZ (u1 <=? u2)))
  | opGtrEqUns => Ok (Some (boolZ (u2 <=? u1)))
  | _ => Ok None
  end.

(** A rule of [Binary::polySimplify]: looks at the tag and the two
    (already simplified) children; [Ok (Some res)] is
    [bMod = true; return res]. *)
Definition Rule : Type := Env -> OPER -> Exp -> Exp -> Res (option Exp).

Definition noRule : Res (option Exp) := Ok None.
Definition fire (e : Exp) : Res (option Exp) := Ok (Some e).

(** k1 op k2, where k1 and k2 are integer constants *)
Definition rule_fold : Rule := fun env op s1 s2 =>
  if isIntConst s1 && isIntConst s2 then
    k1 <- intOf s1 ;; k2 <- intOf s2 ;;
    r <- foldBinary op k1 k2 ;;
    match r with
    | Some k => fire (Const_get k)
    | None => noRule
    end
  else noRule.

(** x ^ x or x - x: result is zero *)
Definition rule_selfZero : Rule := fun env op s1 s2 =>
  if isOneOf op [opBitXor; opMinus] && exp_eq env s1 s2
  then fire (Const_get 0) else noRule.

(** x | x or x & x: result is x *)
Definition rule_selfSame : Rule := fun env op s1 s2 =>
  if isOneOf op [opBitOr; opBitAnd] && exp_eq env s1 s2
  then fire s1 else noRule.

(** x == x: result is true *)
Definition rule_selfEquals : Rule := fun env op s1 s2 =>
  if OPER_eqb op opEquals && exp_eq env s1 s2
  then fire (Terminal opTrue) else noRule.

(** The three commutations; none counts as a modification. *)
Definition commuteIntConst (op : OPER) (s : Exp * Exp) : Exp * Exp :=
  let '(s1, s2) := s in
  if isIntConst s1 && isOneOf op [opPlus; opMult; opMults; opBitOr; opBitAnd]
  then (s2, s1) else s.

Definition commuteBoolConst (op : OPER) (s : Exp * Exp) : Exp * Exp :=
  let '(s1, s2) := s in
  if isBoolConst s1 && negb (isBoolConst s2) && isOneOf op [opAnd; opOr]
  then (s2, s1) else s.

(** [subExp2] is addr-of a subscripted global, and the tag is [opPlus]. *)
Definition isAddrOfSubscriptedGlobal (e : Exp) : Res bool :=
  if isAddrOf e then
    a <- sub1 e ;;
    if isSubscript a then
      g <- sub1 a ;; Ok (isGlobal g)
    else Ok false
  else Ok false.

Definition commuteGlobalAddr (op : OPER) (s : Exp * Exp) : Res (Exp * Exp) :=
  let '(s1, s2) := s in
  b <- isAddrOfSubscriptedGlobal s2 ;;
  if b && OPER_eqb op opPlus then Ok (s2, s1) else Ok s.

(** (x + a) + b where a and b are constants, becomes x + a+b *)
Definition rule_plusPlusConst : Rule := fun env op s1 s2 =>
  if OPER_eqb op opPlus && isOp opPlus s1 && isIntConst s2 then
    a <- sub2 s1 ;;
    if isIntConst a then
      n <- intOf s2 ;; ka <- intOf a ;;
      a' <- setInt (Int32.wrap32 (ka + n)) a ;;
      r <- setSubExp2 a' s1 ;;
      fire r
    else noRule
  else noRule.

(** (x - a) + b where a and b are constants, becomes x + -a+b *)
Definition rule_minusPlusConst : Rule := fun env op s1 s2 =>
  if OPER_eqb op opPlus && isOp opMinus s1 && isIntConst s2 then
    a <- sub2 s1 ;;
    if isIntConst a then
      n <- intOf s2 ;; ka <- intOf a ;;
      a' <- setInt (Int32.wrap32 (Int32.wrap32 (- ka) + n)) a ;;
      r <- setSubExp2 a' (setOper opPlus s1) ;;
      fire r
    else noRule
  else noRule.

(** (x * k) - x, becomes x * (k-1); same with + *)
Definition rule_multMinusSelf : Rule := fun env op s1 s2 =>
  if isOneOf op [opMinus; opPlus] && (isOp opMults s1 || isOp opMult s1) then
    x <- sub1 s1 ;;
    if exp_eq env s2 x then
      k <- sub2 s1 ;;
      r <- setSubExp2 (Binary op k (Const_get 1)) s1 ;;
      fire r
    else noRule
  else noRule.

(** x + (x * k), becomes x * (k+1) *)
Definition rule_plusMultSelf : Rule := fun env op s1 s2 =>
  if OPER_eqb op opPlus && (isOp opMults s2 || isOp opMult s2) then
    x <- sub1 s2 ;;
    if exp_eq env s1 x then
      k <- sub2 s2 ;;
      r <- setSubExp2 (Binary opPlus k (Const_get 1)) s2 ;;
      fire r
    else noRule
  else noRule.

(** Turn a + -K into a - K, and a - -K into a + K (K an int const > 0);
    does not count as a change.  Returns the tag and the second child. *)
Definition flipNegConst (op : OPER) (s2 : Exp) : Res (OPER * Exp) :=
  if isOneOf op [opPlus; opMinus] && isIntConst s2 then
    k <- intOf s2 ;;
    if k <? 0 then
      s2' <- setInt (Int32.wrap32 (- k)) s2 ;;
      Ok (if OPER_eqb op opPlus then opMinus else opPlus, s2')
    else Ok (op, s2)
  else Ok (op, s2).

(** [opSub2 == opIntConst && getInt() == k]. *)
Definition isConstK (k : Z) (e : Exp) : Res bool :=
  if isIntConst e then (i <- intOf e ;; Ok (i =? k)) else Ok false.

(** [opSub2 == opIntConst && getInt() != 0]. *)
Definition isConstNonZero (e : Exp) : Res bool :=
  if isIntConst e then (i <- intOf e ;; Ok (negb (i =? 0))) else Ok false.

(** exp + 0  or  exp - 0  or  exp | 0 *)
Definition rule_plusZero : Rule := fun env op s1 s2 =>
  if isOneOf op [opPlus; opMinus; opBitOr] then
    z <- isConstK 0 s2 ;; if z then fire s1 else noRule
  else noRule.

(** exp or false *)
Definition rule_orFalse : Rule := fun env op s1 s2 =>
  if OPER_eqb op opOr && isFalse s2 then fire s1 else noRule.

(** exp * 0  or  exp & 0 *)
Definition rule_multZero : Rule := fun env op s1 s2 =>
  if isOneOf op [opMult; opMults; opBitAnd] then
    z <- isConstK 0 s2 ;; if z then fire (Const_get 0) else noRule
  else noRule.

(** exp and false *)
Definition rule_andFalse : Rule := fun env op s1 s2 =>
  if OPER_eqb op opAnd && isFalse s2 then fire (Terminal opFalse) else noRule.

(** exp * 1 *)
Definition rule_multOne : Rule := fun env op s1 s2 =>
  if isOneOf op [opMult; opMults] then
    z <- isConstK 1 s2 ;; if z then fire s1 else noRule
  else noRule.

(** (x * y) / y, becomes x *)
Definition rule_divSelf : Rule := fun env op s1 s2 =>
  if isOneOf op [opDiv; opDivs] && (isOp opMult s1 || isOp opMults s1) then
    y <- sub2 s1 ;;
    if exp_eq env s2 y then (x <- sub1 s1 ;; fire x) else noRule
  else noRule.

(** exp / 1, becomes exp *)
Definition rule_divOne : Rule := fun env op s1 s2 =>
  if isOneOf op [opDiv; opDivs] then
    z <- isConstK 1 s2 ;; if z then fire s1 else noRule
  else noRule.

(** exp % 1, becomes 0 *)
Definition rule_modOne : Rule := fun env op s1 s2 =>
  if isOneOf op [opMod; opMods] then
    z <- isConstK 1 s2 ;; if z then fire (Const_get 0) else noRule
  else noRule.

(** (x * y) % y, becomes 0 *)
Definition rule_modSelf : Rule := fun env op s1 s2 =>
  if isOneOf op [opMod; opMods] && (isOp opMult s1 || isOp opMults s1) then
    y <- sub2 s1 ;;
    if exp_eq env s2 y then fire (Const_get 0) else noRule
  else noRule.

(** exp AND -1 (bitwise AND) *)
Definition rule_andMinusOne : Rule := fun env op s1 s2 =>
  if OPER_eqb op opBitAnd then
    z <- isConstK (-1) s2 ;; if z then fire s1 else noRule
  else noRule.

(** exp AND TRUE (logical AND) *)
Definition rule_andTrue : Rule := fun env op s1 s2 =>
  if OPER_eqb op opAnd then
    nz <- isConstNonZero s2 ;; if nz || isTrue s2 then fire s1 else noRule
  else noRule.

(** exp OR TRUE (logical OR) *)
Definition rule_orTrue : Rule := fun env op s1 s2 =>
  if OPER_eqb op opOr then
    nz <- isConstNonZero s2 ;;
    if nz || isTrue s2 then fire (Terminal opTrue) else noRule
  else noRule.

(** [exp] << k and [exp] >> k where 0 <= k < 32: become a multiply and a
    divide by 1 << k; the node itself is retagged. *)
Definition rule_shift (shiftOp newOp : OPER) : Rule := fun env op s1 s2 =>
  if OPER_eqb op shiftOp && isIntConst s2 then
    k <- intOf s2 ;;
    if (0 <=? k) && (k <? 32) then
      s2' <- setInt (Int32.wrap32 (Z.shiftl 1 k)) s2 ;;
      fire (Binary newOp s1 s2')
    else noRule
  else noRule.

(** (x == y) == 1, becomes x == y;  (x == y) == 0, becomes x != y;
    (x == y) != 1, becomes x != y;  (x > y) == 0, becomes x <= y;
    (x >u y) == 0, becomes x <=u y: the node takes over the children of
    its first child and the tag [newOp]. *)
Definition rule_cmpConst (top : OPER) (k : Z) (inner newOp : OPER) : Rule :=
  fun env op s1 s2 =>
  if OPER_eqb op top then
    z <- isConstK k s2 ;;
    if z && isOp inner s1 then
      x <- sub1 s1 ;; y <- sub2 s1 ;;
      fire (Binary newOp x y)
    else noRule
  else noRule.

(** x + -y == 0, becomes x == y *)
Definition rule_plusNegEqZero : Rule := fun env op s1 s2 =>
  if OPER_eqb op opEquals then
    z <- isConstK 0 s2 ;;
    if z && isOp opPlus s1 then
      c <- sub2 s1 ;;
      if isIntConst c then
        n <- intOf c ;;
        if n <? 0 then
          c' <- setInt (Int32.wrap32 (- n)) c ;;
          x <- sub1 s1 ;;
          fire (Binary opEquals x c')
        else noRule
      else noRule
    else noRule
  else noRule.

(** (x == y) != 0, becomes x == y *)
Definition rule_eqNeZero : Rule := fun env op s1 s2 =>
  if OPER_eqb op opNotEqual then
    z <- isConstK 0 s2 ;;
    if z && isOp opEquals s1 then fire s1 else noRule
  else noRule.

(** (0 - x) != 0, becomes x != 0 *)
Definition rule_zeroMinusNeZero : Rule := fun env op s1 s2 =>
  if OPER_eqb op opNotEqual then
    z <- isConstK 0 s2 ;;
    if z && isOp opMinus s1 then
      l <- sub1 s1 ;;
      lz <- isConstK 0 l ;;
      if lz then
        x <- sub2 s1 ;;
        fire (Binary opNotEqual (clone x) (clone s2))
      else noRule
    else noRule
  else noRule.

(** (x <= y) || (x == y), becomes x <= y *)
Definition rule_leOrEq : Rule := fun env op s1 s2 =>
  if OPER_eqb op opOr && isOp opEquals s2
     && isOneOf (getOper s1) [opGtrEq; opLessEq; opGtrEqUns; opLessEqUns] then
    if isBinaryClass s1 && isBinaryClass s2 then
      a <- sub1 s1 ;; b <- sub2 s1 ;; c <- sub1 s2 ;; d <- sub2 s2 ;;
      if (exp_eq env a c && exp_eq env b d) || (exp_eq env a d && exp_eq env b c)
      then fire s1 else noRule
    else Fail Undefined
  else noRule.

(** check for (x & x), becomes x *)
Definition rule_andSelf : Rule := fun env op s1 s2 =>
  if OPER_eqb op opBitAnd && exp_eq env s1 s2 then fire s1 else noRule.

(** check for a + a*n, becomes a*(n+1) where n is an int *)
Definition rule_plusMultN : Rule := fun env op s1 s2 =>
  if OPER_eqb op opPlus && isOp opMult s2 then
    a <- sub1 s2 ;;
    if exp_eq env s1 a then
      c <- sub2 s2 ;;
      if isIntConst c then
        n <- intOf c ;;
        c' <- setInt (Int32.wrap32 (n + 1)) c ;;
        r <- setSubExp2 c' s2 ;;
        fire r
      else noRule
    else noRule
  else noRule.

(** check for a*n*m, becomes a*(n*m) where n and m are ints *)
Definition rule_multMultConst : Rule := fun env op s1 s2 =>
  if OPER_eqb op opMult && isOp opMult s1 && isIntConst s2 then
    c <- sub2 s1 ;;
    if isIntConst c then
      m <- intOf s2 ;; n <- intOf c ;;
      c' <- setInt (Int32.wrap32 (n * m)) c ;;
      r <- setSubExp2 c' s1 ;;
      fire r
    else noRule
  else noRule.

(** check for !(a == b) becomes a != b, and !(a != b) becomes a == b *)
Definition rule_lnot (inner newOp : OPER) : Rule := fun env op s1 s2 =>
  if OPER_eqb op opLNot && isOp inner s1 then fire (setOper newOp s1) else noRule.

(** [accessMember]: the chain of member accesses and array indexings
    around [parent]. *)
Definition accessMember (parent : Exp) (path : list AccessStep) : Exp :=
  fold_left (fun res step =>
               match step with
               | MemberStep nam => Binary opMemberAccess res (Const_getStr nam)
               | IndexStep i => Binary opArrayIndex res (Const_get i)
               end) path parent.

(** [convertFromOffsetToCompound]; [None] is the [nullptr] result. *)
Definition convertFromOffsetToCompound (parent : Exp) (c : CompoundAccess)
  : option Exp :=
  match c with
  | MemberChain path => Some (Unary opAddrOf (accessMember (Location_memOf parent) path))
  | _ => None
  end.

(** [subExp1] as a subscript: its definition when there is one, with the
    expression it wraps (the arguments of [def->getTypeFor]). *)
Definition defOfSubscript (s1 : Exp) : Res (option (nat * Exp)) :=
  match s1 with
  | RefExp base nullDef => Ok None
  | RefExp base wildDef => Fail Undefined
  | RefExp base (stmtDef d) => Ok (Some (d, base))
  | _ => if isSubscript s1 then Fail Undefined else Ok None
  end.

(** check for exp + n where exp is a pointer to a compound type: becomes
    the address of the member at offset n.  When
    [convertFromOffsetToCompound] answers [nullptr], [res] is left null and
    no later rule sets it: the function returns a null expression. *)
Definition rule_compound : Rule := fun env op s1 s2 =>
  ty <- defOfSubscript s1 ;;
  match ty with
  | Some (d, base) =>
      if OPER_eqb op opPlus && isIntConst s2 then
        n <- intOf s2 ;;
        match memberPath env d base (Int32.to_unsigned n) with
        | NotCompoundPointer => noRule
        | c => r <- fromOption (convertFromOffsetToCompound s1 c) ;; fire r
        end
      else noRule
  | None => noRule
  end.

(** 0.0 - x becomes the float negation of x *)
Definition rule_fminusZero : Rule := fun env op s1 s2 =>
  if OPER_eqb op opFMinus then
    match s1 with
    | Const (FltVal d) _ =>
        if Flt_eqb d (FltBits 0) then fire (Unary opFNeg s2) else noRule
    | _ => if isOp opFltConst s1 then Fail Undefined else noRule
    end
  else noRule.

(** (x * n) + n becomes (x + 1) * n; same with - *)
Definition rule_multPlusSame : Rule := fun env op s1 s2 =>
  if isOneOf op [opPlus; opMinus] && (isOp opMults s1 || isOp opMult s1)
     && isIntConst s2 then
    c <- sub2 s1 ;;
    if isIntConst c then
      n1 <- intOf s2 ;; n2 <- intOf c ;;
      if n1 =? n2 then
        x <- sub1 s1 ;;
        fire (Binary (getOper s1) (Binary op (clone x) (Const_get 1)) (Const_get n1))
      else noRule
    else noRule
  else noRule.

(** (y + (x * n)) + n becomes y + ((x + 1) * n); same with - *)
Definition rule_plusMultPlusSame : Rule := fun env op s1 s2 =>
  if isOneOf op [opPlus; opMinus] && isOp opPlus s1 && isIntConst s2 then
    m <- sub2 s1 ;;
    if isOp opMults m || isOp opMult m then
      c <- sub2 m ;;
      if isIntConst c then
        n1 <- intOf s2 ;; n2 <- intOf c ;;
        if n1 =? n2 then
          y <- sub1 s1 ;; x <- sub1 m ;;
          fire (Binary opPlus y
                  (Binary (getOper m) (Binary op (clone x) (Const_get 1)) (Const_get n1)))
        else noRule
      else noRule
    else noRule
  else noRule.

(** [a % c] and [a / c] on [int]. *)
Definition signedRem (a c : Z) : Res Z :=
  if (c =? 0) || ((a =? Int32.min_signed) && (c =? -1)) then Fail Undefined
  else Ok (Z.rem a c).

Definition signedQuot (a c : Z) : Res Z :=
  if (c =? 0) || ((a =? Int32.min_signed) && (c =? -1)) then Fail Undefined
  else Ok (Z.quot a c).

(** The operands of ((x * a) + (y * b)) op c with a, b, c integers:
    x, a, y, b, c. *)
Definition sumOfProducts (topOp : OPER) (op : OPER) (s1 s2 : Exp)
  : Res (option (Exp * Z * Exp * Z * Z)) :=
  if OPER_eqb op topOp && isOp opPlus s1 && isIntConst s2 then
    l <- sub1 s1 ;;
    if isOp opMult l then
      r <- sub2 s1 ;;
      if isOp opMult r then
        ca <- sub2 l ;;
        if isIntConst ca then
          cb <- sub2 r ;;
          if isIntConst cb then
            a <- intOf ca ;; b <- intOf cb ;; c <- intOf s2 ;;
            x <- sub1 l ;; y <- sub1 r ;;
            Ok (Some (x, a, y, b, c))
          else Ok None
        else Ok None
      else Ok None
    else Ok None
  else Ok None.

(** ((x * a) + (y * b)) / c where a and b divide evenly by c becomes
    (x * a/c) + (y * b/c) *)
Definition rule_divDistribute : Rule := fun env op s1 s2 =>
  m <- sumOfProducts opDiv op s1 s2 ;;
  match m with
  | Some (x, a, y, b, c) =>
      ra <- signedRem a c ;;
      if ra =? 0 then
        rb <- signedRem b c ;;
        if rb =? 0 then
          qa <- signedQuot a c ;; qb <- signedQuot b c ;;
          fire (Binary opPlus (Binary opMult x (Const_get qa))
                              (Binary opMult y (Const_get qb)))
        else noRule
      else noRule
  | None => noRule
  end.

(** ((x * a) + (y * b)) % c: 0 if both a and b divide evenly by c,
    (y * b) % c if a does, (x * a) % c if b does *)
Definition rule_modDistribute : Rule := fun env op s1 s2 =>
  m <- sumOfProducts opMod op s1 s2 ;;
  match m with
  | Some (x, a, y, b, c) =>
      ra <- signedRem a c ;;
      rb <- (if ra =? 0 then signedRem b c else Ok 1) ;;
      if (ra =? 0) && (rb =? 0) then fire (Const_get 0)
      else if ra =? 0 then
        r <- sub2 s1 ;; fire (Binary opMod (clone r) (Const_get c))
      else
        rb <- signedRem b c ;;
        if rb =? 0 then
          l <- sub1 s1 ;; fire (Binary opMod (clone l) (Const_get c))
        else noRule
  | None => noRule
  end.

(** 0 - (0 <u exp1) & exp2 => exp2 *)
Definition rule_zeroMinusLessUnsAnd : Rule := fun env op s1 s2 =>
  if OPER_eqb op opBitAnd && isOp opMinus s1 then
    leftOfMinus <- sub1 s1 ;;
    z <- isConstK 0 leftOfMinus ;;
    if z then
      rightOfMinus <- sub2 s1 ;;
      if isOp opLessUns rightOfMinus then
        leftOfLess <- sub1 rightOfMinus ;;
        z' <- isConstK 0 leftOfLess ;;
        if z' then fire s2 else noRule
      else noRule
    else noRule
  else noRule.

(** Replace opSize(n, loc) with loc *)
Definition rule_sizeLocation : Rule := fun env op s1 s2 =>
  if OPER_eqb op opSize && isLocation s2 then fire s2 else noRule.

(** The first rule of a list that fires. *)
Fixpoint firstRule (rules : list Rule) (env : Env) (op : OPER) (s1 s2 : Exp)
  : Res (option Exp) :=
  match rules with
  | [] => noRule
  | r :: rest =>
      o <- r env op s1 s2 ;;
      match o with
      | Some res => fire res
      | None => firstRule rest env op s1 s2
      end
  end.

(** The rules of [Binary::polySimplify] in the order of the source: up to
    the commutations, up to the sign flip, up to the descent into the
    operands of [opOr] and [opAnd], and after it. *)
Definition rulesBeforeCommute : list Rule :=
  [ rule_fold; rule_selfZero; rule_selfSame; rule_selfEquals ].

Definition rulesBeforeFlip : list Rule :=
  [ rule_plusPlusConst; rule_minusPlusConst; rule_multMinusSelf; rule_plusMultSelf ].

Definition rulesBeforeDescent : list Rule :=
  [ rule_plusZero; rule_orFalse; rule_multZero; rule_andFalse; rule_multOne
  ; rule_divSelf; rule_divOne; rule_modOne; rule_modSelf; rule_andMinusOne
  ; rule_andTrue; rule_orTrue
  ; rule_shift opShiftL opMult; rule_shift opShiftR opDiv
  ; rule_cmpConst opEquals 1 opEquals opEquals
  ; rule_plusNegEqZero
  ; rule_cmpConst opEquals 0 opEquals opNotEqual
  ; rule_cmpConst opNotEqual 1 opEquals opNotEqual
  ; rule_eqNeZero
  ; rule_zeroMinusNeZero
  ; rule_cmpConst opEquals 0 opGtr opLessEq
  ; rule_cmpConst opEquals 0 opGtrUns opLessEqUns
  ; rule_leOrEq ].

Definition rulesAfterDescent : list Rule :=
  [ rule_andSelf; rule_plusMultN; rule_multMultConst
  ; rule_lnot opEquals opNotEqual; rule_lnot opNotEqual opEquals
  ; rule_compound; rule_fminusZero; rule_multPlusSame; rule_plusMultPlusSame
  ; rule_divDistribute; rule_modDistribute; rule_zeroMinusLessUnsAnd
  ; rule_sizeLocation ].

(** What the first part of [Binary::polySimplify] hands on: a result with
    [bMod = true], or the node as it stands (tag and children) when the
    descent into [opOr] and [opAnd] is reached. *)
Inductive Progress : Type :=
  | Rewritten (res : Exp)
  | Pending (op : OPER) (s1 s2 : Exp).

Definition binaryBeforeDescent (env : Env) (op : OPER) (s1 s2 : Exp) : Res Progress :=
  r <- firstRule rulesBeforeCommute env op s1 s2 ;;
  match r with
  | Some res => Ok (Rewritten res)
  | None =>
      let s := commuteBoolConst op (commuteIntConst op (s1, s2)) in
      ' (s1, s2) <- commuteGlobalAddr op s ;;
      r <- firstRule rulesBeforeFlip env op s1 s2 ;;
      match r with
      | Some res => Ok (Rewritten res)
      | None =>
          ' (op, s2) <- flipNegConst op s2 ;;
          r <- firstRule rulesBeforeDescent env op s1 s2 ;;
          match r with
          | Some res => Ok (Rewritten res)
          | None => Ok (Pending op s1 s2)
          end
      end
  end.

(** *** [Unary::polySimplify] after the child has been simplified *)

(** not(a = b) becomes a != b, and so on for the other comparisons. *)
Definition negatedComparison (op : OPER) : option OPER :=
  match op with
  | opEquals => Some opNotEqual
  | opNotEqual => Some opEquals
  | opLess => Some opGtrEq
  | opLessEq => Some opGtr
  | opGtr => Some opLessEq
  | opGtrEq => Some opLess
  | opLessUns => Some opGtrEqUns
  | opLessEqUns => Some opGtrUns
  | opGtrUns => Some opLessEqUns
  | opGtrEqUns => Some opLessUns
  | _ => None
  end.

(** -k, ~k, !k, or k itself under [opSize]. *)
Definition foldUnary (op : OPER) (k : Z) : Z :=
  match op with
  | opNeg => Int32.wrap32 (- k)
  | opNot => Z.lnot k
  | opLNot => boolZ (k =? 0)
  | _ => k
  end.

Definition unaryRules (op : OPER) (s1 : Exp) : Res (option Exp) :=
  match (if isOneOf op [opNot; opLNot] then negatedComparison (getOper s1) else None) with
  | Some op' => fire (setOper op' s1)
  | None =>
      if isOneOf op [opNeg; opNot; opLNot; opSize] then
        if isIntConst s1 then
          k <- intOf s1 ;;
          r <- setInt (foldUnary op k) s1 ;;
          fire r
        else if OPER_eqb op (getOper s1) then
          x <- sub1 s1 ;; fire x
        else noRule
      else if OPER_eqb op opAddrOf then
        if isOp opMemOf s1 then (x <- sub1 s1 ;; fire x) else noRule
      else noRule
  end.

(** The tail of [Location::polySimplify]: m[a[x]] becomes x. *)
Definition locationRule (res : Exp) : Res (option Exp) :=
  if isOp opMemOf res then
    a <- sub1 res ;;
    if isOp opAddrOf a then (x <- sub1 a ;; fire x) else noRule
  else noRule.

(** *** [Ternary::polySimplify] after the children have been simplified *)

Definition ternaryRules (env : Env) (op : OPER) (s1 s2 s3 : Exp) : Res (option Exp) :=
  (* p ? 1 : 0 -> p *)
  r1 <- (if OPER_eqb op opTern && isIntConst s2 && isIntConst s3 then
           k2 <- intOf s2 ;; k3 <- intOf s3 ;;
           Ok ((k2 =? 1) && (k3 =? 0))
         else Ok false) ;;
  if r1 then fire s1 else
  (* 1 ? x : y -> x *)
  r2 <- (if OPER_eqb op opTern then isConstK 1 s1 else Ok false) ;;
  if r2 then fire s2 else
  (* 0 ? x : y -> y *)
  r3 <- (if OPER_eqb op opTern then isConstK 0 s1 else Ok false) ;;
  if r3 then fire s3 else
  if isOneOf op [opSgnEx; opZfill] && isIntConst s3 then fire s3 else
  r5 <- (if OPER_eqb op opFsize && isOp opItof s3 then
           a <- sub2 s3 ;;
           if exp_eq env s1 a then (b <- sub1 s3 ;; Ok (exp_eq env s2 b))
           else Ok false
         else Ok false) ;;
  if r5 then fire s3 else
  if OPER_eqb op opFsize && isOp opFltConst s3 then fire s3 else
  r7 <- (if OPER_eqb op opItof && isIntConst s3 then isConstK 32 s2 else Ok false) ;;
  if r7 then
    n <- intOf s3 ;;
    fire (Const_getFlt (floatOfBits env (Int32.to_unsigned n)))
  else
  r8 <- (if OPER_eqb op opFsize && isOp opMemOf s3 then
           a <- sub1 s3 ;;
           if isIntConst a then
             u <- intOf a ;;
             match s3 with
             | Location _ _ (Some p) =>
                 size <- intOf s1 ;;
                 Ok (floatConstant env (Some p) (Int32.to_unsigned u) size)
             | Location _ _ None => Ok None
             | _ => Fail Undefined
             end
           else Ok None
         else Ok None) ;;
  match r8 with
  | Some d => fire (Ternary op s1 s2 (Const_getFlt d))
  | None =>
      if isOneOf op [opTruncu; opTruncs] && isIntConst s3 then
        from <- intOf s1 ;; to <- intOf s2 ;; val <- intOf s3 ;;
        if from =? 32 then
          if to =? 16 then fire (Const_get (Z.land val 65535))
          else if to =? 8 then fire (Const_get (Z.land val 255))
          else noRule
        else noRule
      else noRule
  end.

(** *** [RefExp::polySimplify] when the child reported no change *)

Definition refRules (env : Env) (s1 : Exp) (def : InstrPtr) : Res (option Exp) :=
  if isOp opDF s1 && InstrPtr_eqb def nullDef then fire (Const_get 0)
  else if isRegN 0 s1 then
    match def with
    | nullDef => noRule
    | wildDef => Fail Undefined
    | stmtDef d =>
        match stmtKind env d with
        | STMT_ASSIGN =>
            if isRegN 24 (assignLeft env d)
            then fire (TypedExp (IntegerType 16) (RefExp (Location_regOf 24) def))
            else noRule
        | _ => noRule
        end
    end
  else noRule.

(** *** One pass

    [polyStep rec recS env e bMod] is the body of [e->polySimplify(bMod)]
    for the class of [e]: the result and the flag on return.  [rec] stands
    for the calls of [polySimplify] on sub-expressions and [recS] for the
    calls of [simplify]; [unaryStep] is [Unary::polySimplify], which
    [Location] and [FlagDef] inherit. *)
Definition unaryStep (rec : Exp -> bool -> Res (Exp * bool)) (mk : Exp -> Exp)
                     (op : OPER) (s1 : Exp) (bMod : bool) : Res (Exp * bool) :=
  ' (s1, bMod) <- rec s1 bMod ;;
  r <- unaryRules op s1 ;;
  match r with
  | Some res => Ok (res, true)
  | None =>
      if isOneOf op [opMemOf; opRegOf] then
        ' (s1, bMod) <- rec s1 bMod ;;
        Ok (mk s1, bMod)
      else Ok (mk s1, bMod)
  end.

Definition polyStep (rec : Exp -> bool -> Res (Exp * bool)) (recS : Exp -> Res Exp)
                    (env : Env) (e : Exp) (bMod : bool) : Res (Exp * bool) :=
  match e with
  | Const _ _ | Terminal _ | TypeVal _ =>
      Ok (e, if baseClearsMod env then false else bMod)
  | Unary op s1 => unaryStep rec (Unary op) op s1 bMod
  | FlagDef s1 rtl => unaryStep rec (fun a => FlagDef a rtl) opFlagDef s1 bMod
  | Location op s1 p =>
      ' (res, bMod) <- unaryStep rec (fun a => Location op a p) op s1 bMod ;;
      r <- locationRule res ;;
      match r with
      | Some res => Ok (res, true)
      | None => Ok (res, bMod)
      end
  | Binary op s1 s2 =>
      ' (s1, bMod) <- rec s1 bMod ;;
      ' (s2, bMod) <- rec s2 bMod ;;
      pr <- binaryBeforeDescent env op s1 s2 ;;
      match pr with
      | Rewritten res => Ok (res, true)
      | Pending op s1 s2 =>
          if isOneOf op [opOr; opAnd] then
            ' (s1, bMod) <- rec s1 bMod ;;
            ' (s2, bMod) <- rec s2 bMod ;;
            Ok (Binary op s1 s2, bMod)
          else
            r <- firstRule rulesAfterDescent env op s1 s2 ;;
            match r with
            | Some res => Ok (res, true)
            | None => Ok (Binary op s1 s2, bMod)
            end
      end
  | Ternary op s1 s2 s3 =>
      ' (s1, bMod) <- rec s1 bMod ;;
      ' (s2, bMod) <- rec s2 bMod ;;
      ' (s3, bMod) <- rec s3 bMod ;;
      r <- ternaryRules env op s1 s2 s3 ;;
      match r with
      | Some res => Ok (res, true)
      | None => Ok (Ternary op s1 s2 s3, bMod)
      end
  | TypedExp ty s1 =>
      if isOp opRegOf s1 then Ok (s1, true)
      else
        s1 <- recS s1 ;;
        Ok (TypedExp ty s1, bMod)
  | RefExp s1 def =>
      ' (tmp, bMod) <- rec s1 bMod ;;
      if bMod then Ok (RefExp tmp def, bMod)
      else
        r <- refRules env tmp def ;;
        match r with
        | Some res => Ok (res, true)
        | None => Ok (RefExp tmp def, bMod)
        end
  end.

(** The loop of [Exp::simplify] around a pass [pass] (with the flag
    cleared before it); [again] is the next iteration. *)
Definition driverStep (pass : Exp -> bool -> Res (Exp * bool)) (again : Exp -> Res Exp)
                      (e : Exp) : Res Exp :=
  ' (res, bMod) <- pass e false ;;
  if bMod then again res else Ok res.

(** *** The recursion

    [polySimplify fuel env e bMod] is [e->polySimplify(bMod)], and
    [simplify fuel env e] is [e->simplify()], the driver loop; [fuel]
    bounds the depth of the calls and the number of iterations of the
    loop. *)
Fixpoint polySimplify (fuel : nat) (env : Env) (e : Exp) (bMod : bool) {struct fuel}
  : Res (Exp * bool) :=
  match fuel with
  | O => Fail OutOfFuel
  | S fuel => polyStep (polySimplify fuel env) (simplify fuel env) env e bMod
  end

with simplify (fuel : nat) (env : Env) (e : Exp) {struct fuel} : Res Exp :=
  match fuel with
  | O => Fail OutOfFuel
  | S fuel => driverStep (polySimplify fuel env) (simplify fuel env) e
  end.

(** ** Environments used in examples

    [plainEnv]: types are compared by identity of the handle, every
    statement is an ordinary one, no expression has a compound type, no
    floating constant is known.  [implicitEnv]: the same, with every
    statement an implicit assignment. *)

Fixpoint SharedType_eqb (a b : SharedType) : bool :=
  match a, b with
  | VoidType, VoidType => true
  | IntegerType x, IntegerType y => x =? y
  | SizeType x, SizeType y => x =? y
  | PointerType x, PointerType y => SharedType_eqb x y
  | TypeObject x, TypeObject y => Nat.eqb x y
  | _, _ => false
  end.

Definition plainEnv : Env :=
  mkEnv SharedType_eqb (fun _ => STMT_OTHER) (fun _ => Terminal opNil)
        (fun _ _ _ => NotCompoundPointer) (fun _ _ _ => None)
        (fun _ => FltBits 0) false.

Definition implicitEnv : Env :=
  mkEnv SharedType_eqb (fun _ => STMT_IMPASSIGN) (fun _ => Terminal opNil)
        (fun _ _ _ => NotCompoundPointer) (fun _ _ _ => None)
        (fun _ => FltBits 0) false.

(** [plainEnv] with a base [polySimplify] that clears the flag. *)
Definition clearingEnv : Env :=
  mkEnv SharedType_eqb (fun _ => STMT_OTHER) (fun _ => Terminal opNil)
        (fun _ _ _ => NotCompoundPointer) (fun _ _ _ => None)
        (fun _ => FltBits 0) true.

(** A signature with no parameters and no returns. *)
Definition emptySignature : Signature :=
  mkSignature "f" [] [] VoidType false true false.

(** ** Integer evaluation of sums

    Modelled from the spec: the 32-bit two's-complement evaluation under
    which the partition of a +/- tree is read.  A node tagged [opPlus] or
    [opMinus] is the wrapped sum or difference of its first two children, a
    typed wrapper is transparent, an integer constant is its value, and
    every other sub-expression has the value [rho] gives it. *)
Fixpoint evalArith (rho : Exp -> Z) (e : Exp) {struct e} : Z :=
  let binary (op : OPER) (a b : Exp) :=
    if OPER_eqb op opPlus then Int32.wrap32 (evalArith rho a + evalArith rho b)
    else if OPER_eqb op opMinus then Int32.wrap32 (evalArith rho a - evalArith rho b)
    else if OPER_eqb op opTypedExp then evalArith rho a
    else Int32.wrap32 (rho e) in
  let unary (op : OPER) (a : Exp) :=
    if OPER_eqb op opTypedExp then evalArith rho a else Int32.wrap32 (rho e) in
  match e with
  | Binary op a b => binary op a b
  | Ternary op a b _ => binary op a b
  | TypedExp _ a => evalArith rho a
  | Unary op a => unary op a
  | Location op a _ => unary op a
  | Const (IntVal k) _ => Int32.wrap32 k
  | _ => Int32.wrap32 (rho e)
  end.

Definition sumZ (l : list Z) : Z := fold_right Z.add 0 l.

(** (sum of positives) - (sum of negatives) + (sum of integers). *)
Definition partitionValue (rho : Exp -> Z) (p : Partition) : Z :=
  sumZ (map (evalArith rho) (positives p))
  - sumZ (map (evalArith rho) (negatives p))
  + sumZ (integers p).

(** Congruence modulo 2^32. *)
Definition congruent (a b : Z) : Prop := exists k : Z, a = b + k * Int32.modulus.


(** The sign under which [partitionTerms] files a term. *)
Definition signOf (negate : bool) : Z := if negate then -1 else 1.

(** ** Notions used to state the properties of search and equality *)

(** The classes whose [doSearchChildren] is [Unary::doSearchChildren]. *)
Definition isUnaryClass (e : Exp) : bool :=
  match e with
  | Unary _ _ | Location _ _ _ | TypedExp _ _ | RefExp _ _ | FlagDef _ _ => true
  | _ => false
  end.

(** [belowInitValueOf top p]: on the way from [top] to the slot at [p], the
    path enters the child of a unary node tagged [opInitValueOf]. *)
Fixpoint belowInitValueOf (top : Exp) (p : Path) : bool :=
  match p with
  | [] => false
  | i :: r =>
      (isUnaryClass top && OPER_eqb (getOper top) opInitValueOf)
      || match getAt top [i] with
         | Some c => belowInitValueOf c r
         | None => false
         end
  end.

(** The slots [doSearch] reports when all occurrences are asked for,
    relative to the slot of [e]: a match, then (unless the match is a
    subscript, or the node is a unary [opInitValueOf]) the matches in the
    children. *)
Fixpoint hits (env : Env) (pattern e : Exp) {struct e} : list Path :=
  let compare := exp_eq env pattern e in
  let unaryHits (op : OPER) (s1 : Exp) :=
    if negb (OPER_eqb op opInitValueOf)
    then map (cons 1%nat) (hits env pattern s1) else [] in
  (if compare then [[]] else [])
  ++ (if negb compare || negb (OPER_eqb (getOper e) opSubscript) then
        match e with
        | Const _ _ | Terminal _ | TypeVal _ => []
        | Unary op s1 => unaryHits op s1
        | Location op s1 _ => unaryHits op s1
        | TypedExp _ s1 => unaryHits opTypedExp s1
        | RefExp s1 _ => unaryHits opSubscript s1
        | FlagDef s1 _ => unaryHits opFlagDef s1
        | Binary _ s1 s2 =>
            map (cons 1%nat) (hits env pattern s1)
            ++ map (cons 2%nat) (hits env pattern s2)
        | Ternary _ s1 s2 s3 =>
            map (cons 1%nat) (hits env pattern s1)
            ++ map (cons 2%nat) (hits env pattern s2)
            ++ map (cons 3%nat) (hits env pattern s3)
        end
      else []).

(** [nestedHits env pattern e]: one of the slots that the search reports
    is a member of a node inside the subtree held by another reported
    slot, other than the root's. *)
Definition nestedHits (env : Env) (pattern e : Exp) : bool :=
  let li := doSearch env pattern e [] [] false in
  existsb (fun w => existsb (released w) li) li.

(** No slot of [l] is a member of a node released by the assignment to a
    slot of [W] or of [l]. *)
Definition unreleased (l W : list Path) : Prop :=
  forall pp w, In pp l -> In w W \/ In w l -> released w pp = false.

(** No slot of [l] is a member of a node released by the assignment to a
    slot that comes later in [l]. *)
Fixpoint outerFirst (l : list Path) : Prop :=
  match l with
  | [] => True
  | pp :: rest => (forall w, In w rest -> released w pp = false) /\ outerFirst rest
  end.

(** [e] with every outermost match of [pattern] that the search reaches
    replaced by [replace]. *)
Fixpoint replaceOutermost (env : Env) (pattern replace e : Exp) {struct e} : Exp :=
  if exp_eq env pattern e then replace
  else
    match e with
    | Const _ _ | Terminal _ | TypeVal _ => e
    | Unary op s1 =>
        if OPER_eqb op opInitValueOf then e
        else Unary op (replaceOutermost env pattern replace s1)
    | Location op s1 p =>
        if OPER_eqb op opInitValueOf then e
        else Location op (replaceOutermost env pattern replace s1) p
    | TypedExp ty s1 => TypedExp ty (replaceOutermost env pattern replace s1)
    | RefExp s1 d => RefExp (replaceOutermost env pattern replace s1) d
    | FlagDef s1 rtl => FlagDef (replaceOutermost env pattern replace s1) rtl
    | Binary op s1 s2 =>
        Binary op (replaceOutermost env pattern replace s1)
                  (replaceOutermost env pattern replace s2)
    | Ternary op s1 s2 s3 =>
        Ternary op (replaceOutermost env pattern replace s1)
                   (replaceOutermost env pattern replace s2)
                   (replaceOutermost env pattern replace s3)
    end.

(** Number of nodes. *)
Fixpoint size (e : Exp) : nat :=
  match e with
  | Const _ _ | Terminal _ | TypeVal _ => 1
  | Unary _ a | Location _ a _ | TypedExp _ a | RefExp a _ | FlagDef a _ => S (size a)
  | Binary _ a b => S (size a + size b)
  | Ternary _ a b c => S (size a + size b + size c)
  end.

(** The tags of the wildcard family. *)
Definition isWildTag (op : OPER) : bool :=
  isOneOf op [opWild; opWildIntConst; opWildStrConst; opWildMemOf; opWildRegOf;
              opWildAddrOf].

(** Number of children a tag goes with on a node whose class does not fix
    the tag (invariant 1: shape matches tag): 0 for the terminals, 2 for
    the binary operators, 3 for the ternary ones, 1 otherwise.  The tags
    of [Const], [TypedExp], [RefExp] and [TypeVal] go with no such node. *)
Definition tagArity (op : OPER) : option nat :=
  match op with
  | opPC | opFlags | opFflags | opCF | opZF | opOF | opNF | opDF | opAFP
  | opAGP | opAnull | opFpush | opFpop | opNil | opTrue | opFalse
  | opDefineAll | opWild | opWildIntConst | opWildStrConst | opWildMemOf
  | opWildRegOf | opWildAddrOf => Some 0%nat
  | opSize | opList | opFlagCall | opExpTable | opNameTable | opMemberAccess
  | opArrayIndex | opPlus | opMinus | opMult | opMults | opDiv | opDivs
  | opMod | opMods | opFPlus | opFMinus | opFMult | opFDiv | opPow | opAnd
  | opOr | opBitAnd | opBitOr | opBitXor | opEquals | opNotEqual | opLess
  | opGtr | opLessEq | opGtrEq | opLessUns | opGtrUns | opLessEqUns
  | opGtrEqUns | opUpper | opLower | opShiftL | opShiftR | opShiftRA
  | opRotateL | opRotateR | opRotateLC | opRotateRC => Some 2%nat
  | opTruncu | opTruncs | opZfill | opSgnEx | opFsize | opItof | opFtoi
  | opFround | opFtrunc | opOpTable | opTern | opAt => Some 3%nat
  | opIntConst | opLongConst | opFltConst | opStrConst | opFuncConst
  | opTypedExp | opSubscript | opTypeVal => None
  | _ => Some 1%nat
  end.

Definition hasArity (n : nat) (op : OPER) : bool :=
  match tagArity op with
  | Some k => Nat.eqb k n
  | None => false
  end.

(** [plain e]: [e] is a stored expression in the sense of the data model:
    every tag sits on a node of its shape, no tag is a wildcard, no
    subscript carries the wildcard definition, and every constant is an
    integer, a string or a floating constant other than NaN with conscript
    zero. *)
Fixpoint plain (e : Exp) : bool :=
  match e with
  | Const (IntVal _) cs | Const (StrVal _) cs => cs =? 0
  | Const (FltVal d) cs => (cs =? 0) && negb (Flt_isNaN d)
  | Const _ _ => false
  | Terminal op => hasArity 0 op && negb (isWildTag op)
  | Unary op a => hasArity 1 op && plain a
  | Location op a _ => hasArity 1 op && plain a
  | FlagDef a _ => plain a
  | Binary op a b => hasArity 2 op && plain a && plain b
  | Ternary op a b c => hasArity 3 op && plain a && plain b && plain c
  | TypedExp _ a => plain a
  | RefExp a d => negb (InstrPtr_eqb d wildDef) && plain a
  | TypeVal _ => true
  end.

(** [definedRefs e]: no subscript of [e] has the null definition. *)
Fixpoint definedRefs (e : Exp) : bool :=
  match e with
  | Const _ _ | Terminal _ | TypeVal _ => true
  | Unary _ a | Location _ a _ | FlagDef a _ | TypedExp _ a => definedRefs a
  | RefExp a d => negb (InstrPtr_eqb d nullDef) && definedRefs a
  | Binary _ a b => definedRefs a && definedRefs b
  | Ternary _ a b c => definedRefs a && definedRefs b && definedRefs c
  end.

(** [Type::operator==] is an equivalence relation. *)
Record TypeEqEquivalence (env : Env) : Prop := mkTypeEqEquivalence {
  type_eq_refl : forall t, type_eq env t t = true;
  type_eq_sym : forall t u, type_eq env t u = true -> type_eq env u t = true;
  type_eq_trans : forall t u v,
      type_eq env t u = true -> type_eq env u v = true -> type_eq env t v = true
}.


(** ** Classes of nodes

    The class of a node fixes the arity of the tags it may carry; two
    stored nodes with the same tag have the same class. *)

(** Arity of the tag of a node, by its class. *)
Definition classArity (e : Exp) : option nat :=
  match e with
  | Terminal _ => Some 0%nat
  | Unary _ _ | Location _ _ _ | FlagDef _ _ => Some 1%nat
  | Binary _ _ _ => Some 2%nat
  | Ternary _ _ _ _ => Some 3%nat
  | Const _ _ | TypedExp _ _ | RefExp _ _ | TypeVal _ => None
  end.

(** Two nodes of the same class ([Location] and [FlagDef] derive from
    [Unary]). *)
Definition sameClass (e1 e2 : Exp) : bool :=
  match e1, e2 with
  | Const _ _, Const _ _ | Terminal _, Terminal _ | Binary _ _ _, Binary _ _ _
  | Ternary _ _ _ _, Ternary _ _ _ _ | TypedExp _ _, TypedExp _ _
  | RefExp _ _, RefExp _ _ | TypeVal _, TypeVal _ => true
  | (Unary _ _ | Location _ _ _ | FlagDef _ _),
    (Unary _ _ | Location _ _ _ | FlagDef _ _) => true
  | _, _ => false
  end.

(** ** Shifts as the spec reads them

    Modelled from the spec: the value of a right shift of a 32-bit
    two's-complement integer under the spec's conventions.  A shift amount
    of 32 or more produces zero, and the arithmetic right shift
    sign-extends: the high bits of the result are copies of the sign bit
    of [k1].  ([Z.shiftr] on a signed [Z] rounds towards minus infinity,
    which is sign extension.)  Used only to name the value the spec gives
    where the fold of [Binary::polySimplify] gives another. *)
Definition specShiftRA (k1 k2 : Z) : Z :=
  if 32 <=? k2 then 0 else Int32.wrap32 (Z.shiftr k1 k2).


(** ** A measure for the termination of the driver

    [weight] is a number that no pass of [polySimplify] increases and that
    every rewrite counted as a modification decreases.  A sum or a
    difference counts its operands twice (whatever the class of the node
    that carries the tag), since the rules that distribute over a sum
    copy a factor; the link of a member access or an array
    index adds nothing, since the rule for pointers to compounds builds a
    chain of them whose length only the type knows; the shifts that become
    a product or a quotient and the quotient that becomes a sum are
    heavier than the nodes they become; and an integer constant that is
    zero (as a 32-bit integer) is heavier than one that is not, since the
    rule for [r0] trades the zero for a typed wrapper. *)

Definition constWeight (k : Z) : nat :=
  if Int32.wrap32 k =? 0 then 3%nat else 1%nat.

Definition isConstNode (e : Exp) : bool :=
  match e with
  | Const _ _ => true
  | _ => false
  end.

Definition binaryWeight (op : OPER) (constRight : bool) (a b : nat) : nat :=
  match op with
  | opPlus | opMinus => 2 * a + 2 * b + 2
  | opMemberAccess | opArrayIndex => a + (if constRight then 0 else b)
  | opShiftL => a + b + 5
  | opShiftR => a + b + 9
  | opDiv => a + b + 8
  | _ => a + b + 4
  end.

Definition ternaryWeight (op : OPER) (a b c : nat) : nat :=
  match op with
  | opPlus | opMinus => 2 * a + 2 * b + 2 * c + 4
  | _ => a + b + c + 4
  end.

Fixpoint weight (e : Exp) : nat :=
  match e with
  | Const (IntVal k) _ => constWeight k
  | Const _ _ | Terminal _ | TypeVal _ => 1
  | Unary _ a | Location _ a _ | FlagDef a _ | RefExp a _ => weight a + 3
  | TypedExp _ a => weight a + 1
  | Binary op a b => binaryWeight op (isConstNode b) (weight a) (weight b)
  | Ternary op a b c => ternaryWeight op (weight a) (weight b) (weight c)
  end.


(** ** Notions used to state termination *)

(** [decreases r]: when the rule [r] fires, its result is lighter than the
    node it rewrites. *)
Definition decreases (r : Rule) : Prop :=
  forall env op s1 s2 res,
    r env op s1 s2 = Ok (Some res) -> (weight res < weight (Binary op s1 s2))%nat.

(** [passSpec pass]: what [pass] returns is no heavier than what it is
    given, lighter when the flag is set on return and was not before, and
    a constant is returned as it is. *)
Definition passSpec (pass : Exp -> bool -> Res (Exp * bool)) : Prop :=
  forall e b e' b',
    pass e b = Ok (e', b') ->
    (weight e' <= weight e)%nat
    /\ (b' = true -> b = true \/ (weight e' < weight e)%nat)
    /\ (isConstNode e = true -> e' = e).

(** [driverSpec driver]: what [driver] returns is no heavier than what
    it is given. *)
Definition driverSpec (driver : Exp -> Res Exp) : Prop :=
  forall e e', driver e = Ok e' -> (weight e' <= weight e)%nat.

(** [fuelFree r]: [r] is a result or undefined behaviour, not the end of
    the fuel. *)
Definition fuelFree {A : Type} (r : Res A) : Prop := r <> Fail OutOfFuel.

Definition ruleFuelFree (r : Rule) : Prop :=
  forall env op s1 s2, fuelFree (r env op s1 s2).

(** [settles f]: from some fuel on, [f] gives one and the same answer,
    which is a result or undefined behaviour. *)
Definition settles {A : Type} (f : nat -> Res A) : Prop :=
  exists n r, fuelFree r /\ forall m, (n <= m)%nat -> f m = r.

(** [polySimplify] and [simplify] settle on [e]. *)
Definition passSettles (env : Env) (e : Exp) : Prop :=
  forall b, settles (fun n => polySimplify n env e b).

Definition driverSettles (env : Env) (e : Exp) : Prop :=
  settles (fun n => simplify n env e).


(** ** Closed integer expressions *)

(** The binary operators that the first [switch] of
    [Binary::polySimplify] folds. *)
Definition foldable (op : OPER) : bool :=
  isOneOf op [opPlus; opMinus; opDiv; opDivs; opMod; opMods; opMult; opMults;
              opShiftL; opShiftR; opShiftRA; opBitOr; opBitAnd; opBitXor;
              opEquals; opNotEqual; opLess; opGtr; opLessEq; opGtrEq;
              opLessUns; opGtrUns; opLessEqUns; opGtrEqUns].

(** Closed integer expressions: integer constants (as [Const::get] makes
    them) under the folded binary operators and under negation, bitwise
    complement and logical negation. *)
Fixpoint closedInt (e : Exp) : bool :=
  match e with
  | Const (IntVal _) cs => cs =? 0
  | Binary op a b => foldable op && closedInt a && closedInt b
  | Unary op a => isOneOf op [opNeg; opNot; opLNot] && closedInt a
  | _ => false
  end.

(** An integer constant as [Const::get] makes it. *)
Definition isIntLiteral (e : Exp) : Prop := exists k, e = Const_get k.

(** ** Address expressions *)

(** A register or a memory location. *)
Definition isLoc (e : Exp) : bool :=
  match e with
  | Location op _ _ => isOneOf op [opRegOf; opMemOf]
  | _ => false
  end.

(** An integer constant as [Const::get] makes it, of a value of [int]
    other than [INT_MIN]. *)
Definition isOffset (e : Exp) : bool :=
  match e with
  | Const (IntVal k) cs =>
      (cs =? 0) && (Int32.min_signed <? k) && (k <=? Int32.max_signed)
  | _ => false
  end.

(** The same, above zero. *)
Definition isPosOffset (e : Exp) : bool :=
  match e with
  | Const (IntVal k) cs => (cs =? 0) && (0 <? k) && (k <=? Int32.max_signed)
  | _ => false
  end.

(** Address expressions: closed integer expressions; registers [r[x]] and
    memory locations [m[x]] of an address expression [x]; the sum and the
    difference of a location and an offset, [l + K], [K + l] and [l - K];
    the sum and the difference of two locations. *)
Fixpoint addrExp (e : Exp) : bool :=
  closedInt e
  || match e with
     | Location op a _ => isOneOf op [opRegOf; opMemOf] && addrExp a
     | Binary op a b =>
         (isOneOf op [opPlus; opMinus] && isLoc a && addrExp a
          && (isOffset b || (isLoc b && addrExp b)))
         || (OPER_eqb op opPlus && isOffset a && isLoc b && addrExp b)
     | _ => false
     end.

(** The address expressions that a pass of [polySimplify] leaves as they
    are: integer constants; locations of such expressions; [l + K] and
    [l - K] with [K] above zero; [l + l'] and, for [l] not equal to [l'],
    [l - l']. *)
Fixpoint settledAddr (env : Env) (e : Exp) : bool :=
  match e with
  | Const (IntVal _) cs => cs =? 0
  | Location op a _ => isOneOf op [opRegOf; opMemOf] && settledAddr env a
  | Binary op a b =>
      isOneOf op [opPlus; opMinus] && isLoc a && settledAddr env a
      && (isPosOffset b
          || (isLoc b && settledAddr env b
              && negb (OPER_eqb op opMinus && exp_eq env a b)))
  | _ => false
  end.


(** ** The arithmetic simplifier, [simplifyArith] *)

(** The inner [while] of the cancellation loop of [Binary::simplifyArith]:
    from [nn] on, the first negative that [*pp] equals.  The answer is the
    negatives [nn] has stepped over and those behind the erased one. *)
Fixpoint firstEqual (env : Env) (p : Exp) (negRest : list Exp)
  : option (list Exp * list Exp) :=
  match negRest with
  | [] => None
  | n :: ns =>
      if exp_eq env p n then Some ([], ns)
      else match firstEqual env p ns with
           | Some (pre, post) => Some (n :: pre, post)
           | None => None
           end
  end.

(** The cancellation loop.  [posRest] are the positives from [pp] on,
    [negDone] the negatives before [nn] and [negRest] those from [nn] on.
    [nn] is set to [negatives.begin()] before the loop only: after a
    positive that equals none of the negatives left, [nn] stays at the
    end.  The answer is what is left of the positives from [pp] on and of
    the negatives. *)
Fixpoint cancelPairs (env : Env) (posRest negDone negRest : list Exp)
  : list Exp * list Exp :=
  match posRest with
  | [] => ([], negDone ++ negRest)
  | p :: ps =>
      match firstEqual env p negRest with
      | Some (pre, post) => cancelPairs env ps (negDone ++ pre) post
      | None =>
          let (pos, neg) := cancelPairs env ps (negDone ++ negRest) [] in
          (p :: pos, neg)
      end
  end.

(** [std::accumulate(integers.begin(), integers.end(), 0)] on [int]. *)
Definition accumulateInts (l : list Z) : Z :=
  fold_left (fun sum k => Int32.wrap32 (sum + k)) l 0.

(** The tail of [Binary::simplifyArith]: the result built from what is
    left of the bags and the sum of the integers. *)
Definition reassemble (pos neg : list Exp) (sum : Z) : Exp :=
  let signed (e : Exp) :=
    if sum <? 0 then Binary opMinus e (Const_get (Int32.wrap32 (- sum)))
    else Binary opPlus e (Const_get sum) in
  match pos, neg with
  | [], [] => Const_get sum
  | [], _ :: _ => Binary opMinus (Const_get sum) (Accumulate neg)
  | _ :: _, [] => if sum =? 0 then Accumulate pos else signed (Accumulate pos)
  | _ :: _, _ :: _ =>
      if sum =? 0 then Binary opMinus (Accumulate pos) (Accumulate neg)
      else signed (Binary opMinus (Accumulate pos) (Accumulate neg))
  end.

(** [Binary::simplifyArith] on a sum or a difference whose children have
    been simplified. *)
Definition simplifySum (env : Env) (this : Exp) : Exp :=
  let parts := partitionTerms this emptyPartition false in
  let (pos, neg) := cancelPairs env (positives parts) [] (negatives parts) in
  reassemble pos neg (accumulateInts (integers parts)).

(** [simplifyArith].  [Unary::simplifyArith] serves [Location], [RefExp]
    (whose tag is [opSubscript]), [TypedExp] and [FlagDef] as well.  The
    body of the base class, which [Const], [Terminal] and [TypeVal]
    inherit, is in [exp.h]; it is taken to return the node. *)
Fixpoint simplifyArith (env : Env) (e : Exp) {struct e} : Exp :=
  let descends (op : OPER) :=
    isOneOf op [opMemOf; opRegOf; opAddrOf; opSubscript] in
  match e with
  | Unary op a => if descends op then Unary op (simplifyArith env a) else e
  | Location op a p =>
      if descends op then Location op (simplifyArith env a) p else e
  | RefExp a d => RefExp (simplifyArith env a) d
  | TypedExp _ _ | FlagDef _ _ => e
  | Ternary op a b c =>
      Ternary op (simplifyArith env a) (simplifyArith env b) (simplifyArith env c)
  | Binary op a b =>
      let this := Binary op (simplifyArith env a) (simplifyArith env b) in
      if negb (OPER_eqb op opPlus) && negb (OPER_eqb op opMinus) then this
      else simplifySum env this
  | Const _ _ | Terminal _ | TypeVal _ => e
  end.

(** A term that [partitionTerms] files in a bag as it is: not an integer
    constant, not a typed wrapper, not a sum or difference. *)
Definition isTerm (e : Exp) : bool :=
  match e with
  | Const (IntVal _) _ => false
  | TypedExp _ _ => false
  | Binary op _ _ | Ternary op _ _ _ =>
      negb (isOneOf op [opPlus; opMinus; opTypedExp])
  | Unary op _ | Location op _ _ => negb (OPER_eqb op opTypedExp)
  | _ => true
  end.

(** A valuation that tells terms apart by their tag, and the example of
    the source: [(%sp + 100) - (%sp + 92)]. *)
Definition tagValuation (e : Exp) : Z := Z.of_nat (oper_code (getOper e)).

Definition stackDifference : Exp :=
  Binary opMinus (Binary opPlus (Location_regOf 28) (Const_get 100))
                 (Binary opPlus (Location_regOf 28) (Const_get 92)).

(** A stored term: what the bags of a stored expression hold. *)
Definition storedTerm (x : Exp) : Prop := plain x = true /\ isTerm x = true.

(** ** Argument locations of the other conventions *)

(** [PPCSignature::getArgumentExp]: r3 to r10, then [m[r1 + 8]] and up. *)
Definition PPCSignature_getArgumentExp (sig : Signature) (n : Z) : option Exp :=
  if n <? numParams sig then Signature_getArgumentExp sig n
  else if n >=? 8 then
    Some (Location_memOf
            (Binary opPlus (Location_regOf 1)
               (Const_get (Int32.wrap32 (8 + Int32.wrap32 (Int32.wrap32 (n - 8) * 4))))))
  else Some (Location_regOf (Int32.wrap32 (3 + n))).

(** [SparcSignature::getArgumentExp] ([SparcLibSignature] inherits it):
    r8 to r13, then [m[r14 + 92]] and up. *)
Definition SparcSignature_getArgumentExp (sig : Signature) (n : Z) : option Exp :=
  if n <? numParams sig then Signature_getArgumentExp sig n
  else if n >=? 6 then
    Some (Location_memOf
            (Binary opPlus (Location_regOf 14)
               (Const_get (Int32.wrap32 (92 + Int32.wrap32 (Int32.wrap32 (n - 6) * 4))))))
  else Some (Location_regOf (Int32.wrap32 (8 + n))).

(** [MIPSSignature::getArgumentExp]: r8 to r11, then [m[r29 + 16]] and
    up. *)
Definition MIPSSignature_getArgumentExp (sig : Signature) (n : Z) : option Exp :=
  if n <? numParams sig then Signature_getArgumentExp sig n
  else if n >=? 4 then
    Some (Location_memOf
            (Binary opPlus (Location_regOf 29)
               (Const_get (Int32.wrap32 (4 * 4 + Int32.wrap32 (Int32.wrap32 (n - 4) * 4))))))
  else Some (Location_regOf (Int32.wrap32 (8 + n))).

(** [ST20Signature::getArgumentExp]: the body of the Win32 one with r3
    for the stack pointer. *)
Definition ST20Signature_getArgumentExp (env : Env) (sig : Signature) (n : Z)
  : option Exp :=
  if n <? numParams sig then Signature_getArgumentExp sig n
  else
    let sp := Location_regOf 3 in
    let n := if firstParamIs env sig sp then Int32.wrap32 (n - 1) else n in
    Some (Location_memOf
            (Binary opPlus sp (Const_get (Int32.wrap32 (Int32.wrap32 (n + 1) * 4))))).

(** The virtual [getArgumentExp]. *)
Definition getArgumentExp (env : Env) (cls : SigClass) (sig : Signature) (n : Z)
  : option Exp :=
  match cls with
  | BaseSignature => Signature_getArgumentExp sig n
  | Win32Signature | PentiumSignature => Win32Signature_getArgumentExp env sig n
  | Win32TcSignature => Win32TcSignature_getArgumentExp env sig n
  | SparcSignature | SparcLibSignature => SparcSignature_getArgumentExp sig n
  | PPCSignature => PPCSignature_getArgumentExp sig n
  | MIPSSignature => MIPSSignature_getArgumentExp sig n
  | ST20Signature => ST20Signature_getArgumentExp env sig n
  end.

(** The virtual [getStackWildcard]: [m[sp - WILD]], on the SPARC
    [m[sp + WILD]].  The base class has no stack register to build it
    from; its body is in [signature.h] and is taken to give no answer. *)
Definition getStackWildcard (cls : SigClass) : option Exp :=
  let below (sp : Z) :=
    Some (Location_memOf (Binary opMinus (Location_regOf sp) (Terminal opWild))) in
  match cls with
  | BaseSignature => None
  | Win32Signature | Win32TcSignature | PentiumSignature => below 28
  | PPCSignature => below 1
  | ST20Signature => below 3
  | MIPSSignature => below 29
  | SparcSignature | SparcLibSignature =>
      Some (Location_memOf (Binary opPlus (Location_regOf 14) (Terminal opWild)))
  end.

(** [Signature::isStackLocal] with [SparcSignature::isAddrOfStackLocal]
    for the virtual [isAddrOfStackLocal]: on the SPARC [m[sp + K]] is a
    local for [K < 92] and a memory parameter from 92 on.  A read of a
    child or of a definition that the class of the node does not have
    answers [false]. *)
Fixpoint Sparc_isStackLocal (env : Env) (e : Exp) {struct e} : bool :=
  let body (s1 : Exp) :=
    if isSubscript e then Sparc_isStackLocal env s1
    else if negb (isMemOf e) then false
    else Sparc_isAddrOfStackLocal env s1 in
  match e with
  | Unary _ s1 | Binary _ s1 _ | Ternary _ s1 _ _ | TypedExp _ s1 | RefExp s1 _
  | Location _ s1 _ | FlagDef s1 _ => body s1
  | Const _ _ | Terminal _ | TypeVal _ => false
  end
with Sparc_isAddrOfStackLocal (env : Env) (e : Exp) {struct e} : bool :=
  let sp := Location_regOf 14 in
  let op := getOper e in
  let implicitSp (x : Exp) :=
    match x with
    | RefExp x1 d => isImplicitDef env d && exp_eq env x1 sp
    | _ => false
    end in
  if OPER_eqb op opAddrOf then
    match e with
    | Unary _ s1 | Binary _ s1 _ | Ternary _ s1 _ _ | TypedExp _ s1 | RefExp s1 _
    | Location _ s1 _ | FlagDef s1 _ => Sparc_isStackLocal env s1
    | Const _ _ | Terminal _ | TypeVal _ => false
    end
  else if negb (OPER_eqb op opMinus) && negb (OPER_eqb op opPlus) then
    exp_eq env e sp || (isSubscript e && implicitSp e)
  else
    match getSubExp1 e, getSubExp2 e with
    | Some s1, Some s2 =>
        if negb (isIntConst s2) then false
        else
          let base :=
            if isSubscript s1 then
              match s1 with
              | RefExp x1 d => if isImplicitDef env d then Some x1 else None
              | _ => None
              end
            else Some s1 in
          match base, getInt s2 with
          | Some b, Some K => if negb (exp_eq env b sp) then false else K <? 92
          | _, _ => false
          end
    | _, _ => false
    end.

(** ** The parameter and return lists *)

(** [QString("param%1").arg(n)]. *)
Definition paramName (n : nat) : string :=
  "param" ++ NilEmpty.string_of_uint (Nat.to_uint n).

Definition paramNames (sig : Signature) : list string :=
  map param_name (params sig).

(** The [while (!ok)] loop of [Signature::addParameter]: the first of
    [paramName n], [paramName (n + 1)], ... that no parameter carries. *)
Fixpoint freshParamName (fuel : nat) (names : list string) (n : nat) : Res string :=
  match fuel with
  | O => Fail OutOfFuel
  | S fuel' =>
      let s := paramName n in
      if existsb (String.eqb s) names then freshParamName fuel' names (S n)
      else Ok s
  end.

Definition setParams (sig : Signature) (ps : list SigParameter) : Signature :=
  mkSignature (name sig) ps (returns sig) (rettype sig) (ellipsis sig)
              (unknown sig) (forced sig).

(** [Signature::addParameter(type, nam, e, boundMax)] followed by
    [addParameter(std::shared_ptr<Parameter>)], which it calls and which
    calls it back when the name is empty.  [nam] is [None] for the null
    string, [e] is [None] for [nullptr], where [assert(e)] fails.  Types
    are never null here. *)
Fixpoint Signature_addParameter (fuel : nat) (sig : Signature) (type : SharedType)
    (nam : option string) (e : option Exp) (boundMax : string) : Res Signature :=
  match fuel with
  | O => Fail OutOfFuel
  | S fuel' =>
      match e with
      | None => Fail Undefined
      | Some ex =>
          new_name <- match nam with
                      | Some s => Ok s
                      | None => freshParamName fuel' (paramNames sig)
                                  (S (List.length (params sig)))
                      end ;;
          if String.eqb new_name EmptyString
          then Signature_addParameter fuel' sig type None e boundMax
          else Ok (setParams sig
                     (params sig ++ [mkParameter type new_name ex boundMax]))
      end
  end.

(** The virtual [addParameter(type, nam, e, boundMax)]: a convention puts
    a parameter without an expression where [getArgumentExp] puts the
    next argument. *)
Definition addParameter (fuel : nat) (env : Env) (cls : SigClass) (sig : Signature)
    (type : SharedType) (nam : option string) (e : option Exp) (boundMax : string)
  : Res Signature :=
  match cls with
  | BaseSignature => Signature_addParameter fuel sig type nam e boundMax
  | _ =>
      let e := match e with
               | Some _ => e
               | None => getArgumentExp env cls sig (numParams sig)
               end in
      Signature_addParameter fuel sig type nam e boundMax
  end.

(** [params[j] = x]. *)
Fixpoint setNth {A : Type} (j : nat) (x : A) (l : list A) : list A :=
  match l, j with
  | [], _ => []
  | _ :: r, O => x :: r
  | y :: r, S j' => y :: setNth j' x r
  end.

(** The loop [for (j = i + 1; j < size; j++) v[j - 1] = v[j]] and the
    [resize(size - 1)] behind it, for [j] from 1 on; [count] bounds the
    iterations left. *)
Fixpoint shiftDown {A : Type} (count j : nat) (v : list A) : list A :=
  match count with
  | O => v
  | S count' =>
      match nth_error v j with
      | Some x => shiftDown count' (S j) (setNth (j - 1) x v)
      | None => v
      end
  end.

(** [size_t] is 64 bits wide. *)
Definition size_max : Z := 18446744073709551615.

(** The body of [Signature::removeParameter(size_t i)] on a vector.
    [i + 1] wraps to 0 for the largest [i], where [v[j - 1]] reads outside
    the vector; on the empty vector [resize(size - 1)] asks for more than
    a vector can hold and throws. *)
Definition eraseAt {A : Type} (i : Z) (v : list A) : Res (list A) :=
  let size := List.length v in
  let j := (i + 1) mod (size_max + 1) in
  if (j =? 0) && (0 <? Z.of_nat size) then Fail Undefined
  else if Nat.eqb size 0 then Fail Undefined
  else Ok (firstn (size - 1) (shiftDown (size - Z.to_nat j) (Z.to_nat j) v)).

(** [Signature::removeParameter(size_t i)]. *)
Definition removeParameterAt (sig : Signature) (i : Z) : Res Signature :=
  ps <- eraseAt i (params sig) ;; Ok (setParams sig ps).

(** [Signature::findParam(const SharedExp &)]: the first index whose
    expression equals [e], else -1. *)
Fixpoint findFrom {A : Type} (test : A -> bool) (l : list A) (i : Z) : Z :=
  match l with
  | [] => -1
  | x :: r => if test x then i else findFrom test r (i + 1)
  end.

Definition findParam (env : Env) (sig : Signature) (e : Exp) : Z :=
  findFrom (fun p => exp_eq env (param_exp p) e) (params sig) 0.

(** [Signature::removeParameter(const SharedExp &)]. *)
Definition removeParameter (env : Env) (sig : Signature) (e : Exp) : Res Signature :=
  let i := findParam env sig e in
  if negb (i =? -1) then removeParameterAt sig i else Ok sig.

(** [Signature::setNumParams]: truncation, or [addParameter()] (type
    void, no name, no expression) until there are [n] parameters. *)
Definition setNumParams (fuel : nat) (env : Env) (cls : SigClass) (sig : Signature)
    (n : nat) : Res Signature :=
  if Nat.ltb n (List.length (params sig))
  then Ok (setParams sig (firstn n (params sig)))
  else
    (fix grow (k : nat) (sig : Signature) : Res Signature :=
       match k with
       | O => Ok sig
       | S k' =>
           sig' <- addParameter fuel env cls sig VoidType None None EmptyString ;;
           grow k' sig'
       end) (n - List.length (params sig))%nat sig.

(** [Signature::findReturn] and [Signature::getTypeFor]. *)
Definition findReturn (env : Env) (sig : Signature) (e : Exp) : Z :=
  findFrom (fun r => exp_eq env (ret_exp r) e) (returns sig) 0.

Fixpoint getTypeForFrom (env : Env) (rs : list Return) (e : Exp)
  : option SharedType :=
  match rs with
  | [] => None
  | r :: rest => if exp_eq env (ret_exp r) e then Some (ret_type r)
                 else getTypeForFrom env rest e
  end.

Definition getTypeFor (env : Env) (sig : Signature) (e : Exp) : option SharedType :=
  getTypeForFrom env (returns sig) e.

(** A signature with three register parameters and one return. *)
Definition sparcThree : Signature :=
  mkSignature "f"
    [mkParameter (IntegerType 32) "param1" (Location_regOf 8) EmptyString;
     mkParameter (IntegerType 32) "param2" (Location_regOf 9) EmptyString;
     mkParameter (IntegerType 32) "param3" (Location_regOf 10) EmptyString]
    [mkReturn (IntegerType 32) (Location_regOf 8)]
    (IntegerType 32) false false false.

(** ** Equality of signatures *)

(** [Parameter::operator==]: type, name and expression. *)
Definition Parameter_eq (env : Env) (a b : SigParameter) : bool :=
  if negb (type_eq env (param_type a) (param_type b)) then false
  else if negb (String.eqb (param_name a) (param_name b)) then false
  else if negb (exp_eq env (param_exp a) (param_exp b)) then false
  else true.

(** [Return::operator==]: type and expression. *)
Definition Return_eq (env : Env) (a b : Return) : bool :=
  if negb (type_eq env (ret_type a) (ret_type b)) then false
  else if negb (exp_eq env (ret_exp a) (ret_exp b)) then false
  else true.

(** The loops of [Signature::operator==] over two vectors of the same
    size. *)
Fixpoint allEqual {A : Type} (eqb : A -> A -> bool) (l1 l2 : list A) : bool :=
  match l1, l2 with
  | x :: r1, y :: r2 => if negb (eqb x y) then false else allEqual eqb r1 r2
  | _, _ => true
  end.

(** [Signature::operator==]: the name is not compared, nor the return
    type or the flags. *)
Definition Signature_eq (env : Env) (a b : Signature) : bool :=
  if negb (Nat.eqb (List.length (params a)) (List.length (params b))) then false
  else if negb (allEqual (Parameter_eq env) (params a) (params b)) then false
  else if negb (Nat.eqb (List.length (returns a)) (List.length (returns b))) then false
  else allEqual (Return_eq env) (returns a) (returns b).

(** A signature whose parameter and return expressions are stored
    expressions without null definitions. *)
Definition storedParam (p : SigParameter) : Prop :=
  plain (param_exp p) = true /\ definedRefs (param_exp p) = true.

Definition storedReturn (r : Return) : Prop :=
  plain (ret_exp r) = true /\ definedRefs (ret_exp r) = true.

Definition storedSignature (sig : Signature) : Prop :=
  Forall storedParam (params sig) /\ Forall storedReturn (returns sig).

(** ** Equality ignoring subscripts, [operator*=] *)

(** [other]: the right operand, or its child when its tag is
    [opSubscript]. *)
Definition stripSubscript (o : Exp) : option Exp :=
  if OPER_eqb (getOper o) opSubscript then getSubExp1 o else Some o.

(** [exp_eqStar env this o] is [*this *= o], dispatched on the class of
    [this]; [Location] and [FlagDef] inherit [Unary::operator*=].  Only
    one subscript is taken off [o] at each level.  As for [exp_eq], a
    read of a child that the class of the node does not have answers
    [false]. *)
Fixpoint exp_eqStar (env : Env) (this o : Exp) {struct this} : bool :=
  match stripSubscript o with
  | None => false
  | Some other =>
      let unaryStar (op : OPER) (s1 : Exp) :=
        if OPER_eqb (getOper other) opWild then true
        else if OPER_eqb (getOper other) opWildRegOf && OPER_eqb op opRegOf then true
        else if OPER_eqb (getOper other) opWildMemOf && OPER_eqb op opMemOf then true
        else if OPER_eqb (getOper other) opWildAddrOf && OPER_eqb op opAddrOf then true
        else if negb (OPER_eqb op (getOper other)) then false
        else match getSubExp1 other with
             | Some o1 => exp_eqStar env s1 o1
             | None => false
             end in
      match this with
      | Const _ _ | Terminal _ | TypeVal _ => exp_eq env this other
      | Unary op s1 => unaryStar op s1
      | Location op s1 _ => unaryStar op s1
      | FlagDef s1 _ => unaryStar opFlagDef s1
      | Binary op s1 s2 =>
          if OPER_eqb (getOper other) opWild then true
          else if negb (OPER_eqb op (getOper other)) then false
          else match getSubExp1 other, getSubExp2 other with
               | Some o1, Some o2 =>
                   if negb (exp_eqStar env s1 o1) then false
                   else exp_eqStar env s2 o2
               | _, _ => false
               end
      | Ternary op s1 s2 s3 =>
          if OPER_eqb (getOper other) opWild then true
          else if negb (OPER_eqb op (getOper other)) then false
          else match getSubExp1 other, getSubExp2 other, getSubExp3 other with
               | Some o1, Some o2, Some o3 =>
                   if negb (exp_eqStar env s1 o1) then false
                   else if negb (exp_eqStar env s2 o2) then false
                   else exp_eqStar env s3 o3
               | _, _, _ => false
               end
      | TypedExp ty s1 =>
          if OPER_eqb (getOper other) opWild then true
          else if negb (OPER_eqb (getOper other) opTypedExp) then false
          else match other with
               | TypedExp ty' o1 =>
                   if negb (type_eq env ty ty') then false
                   else exp_eqStar env s1 o1
               | _ => false
               end
      | RefExp s1 _ => exp_eqStar env s1 other
      end
  end.

(** ** Cancelling address-of against memory-of, [simplifyAddr] *)

(** [simplifyAddr]: [m[a[x]]], [a[m[x]]] and [a[size(k, m[x])]] become
    [x] (which is not simplified further); every other node simplifies
    its children.  [Unary::simplifyAddr] serves [Location], [TypedExp],
    [RefExp] and [FlagDef]; the body of the base class, which [Const],
    [Terminal] and [TypeVal] inherit, is in [exp.h] and is taken to
    return the node.  A read of a child that the class of a node does not
    have is undefined. *)
Fixpoint simplifyAddr (e : Exp) {struct e} : Res Exp :=
  let unary (op : OPER) (s1 : Exp) (rebuild : Exp -> Exp) :=
    if OPER_eqb op opMemOf && isAddrOf s1 then sub1 s1
    else if negb (OPER_eqb op opAddrOf) then
      s <- simplifyAddr s1 ;; Ok (rebuild s)
    else if OPER_eqb (getOper s1) opMemOf then sub1 s1
    else
      sized <- (if OPER_eqb (getOper s1) opSize then
                  sub <- sub2 s1 ;;
                  if OPER_eqb (getOper sub) opMemOf
                  then x <- sub1 sub ;; Ok (Some x)
                  else Ok None
                else Ok None) ;;
      match sized with
      | Some x => Ok x
      | None => s <- simplifyAddr s1 ;; Ok (rebuild s)
      end in
  match e with
  | Unary op s1 => unary op s1 (Unary op)
  | Location op s1 p => unary op s1 (fun s => Location op s p)
  | TypedExp ty s1 => unary opTypedExp s1 (TypedExp ty)
  | RefExp s1 d => unary opSubscript s1 (fun s => RefExp s d)
  | FlagDef s1 rtl => unary opFlagDef s1 (fun s => FlagDef s rtl)
  | Binary op s1 s2 =>
      a <- simplifyAddr s1 ;; b <- simplifyAddr s2 ;; Ok (Binary op a b)
  | Ternary op s1 s2 s3 =>
      a <- simplifyAddr s1 ;; b <- simplifyAddr s2 ;; c <- simplifyAddr s3 ;;
      Ok (Ternary op a b c)
  | Const _ _ | Terminal _ | TypeVal _ => Ok e
  end.

(** Some node of [e] carries the tag [op]. *)
Fixpoint mentions (op : OPER) (e : Exp) : bool :=
  OPER_eqb (getOper e) op
  || match e with
     | Const _ _ | Terminal _ | TypeVal _ => false
     | Unary _ a | Location _ a _ | TypedExp _ a | RefExp a _ | FlagDef a _ =>
         mentions op a
     | Binary _ a b => mentions op a || mentions op b
     | Ternary _ a b c => mentions op a || mentions op b || mentions op c
     end.

(** ** [fixSuccessor] *)

(** The pattern [succ(r[WILD])] that [fixSuccessor] searches for. *)
Definition successorPattern : Exp :=
  Unary opSuccessor (Location_get opRegOf (Terminal opWild) None).

(** [c->setInt(c->getInt() + 1)] on the child of the cloned [r[K]]. *)
Definition incrementRegister (s1 : Exp) : Res Exp :=
  s2 <- sub1 s1 ;;
  k <- intOf s2 ;;
  c <- setInt (Int32.wrap32 (k + 1)) s2 ;;
  match s1 with
  | Unary op _ => Ok (Unary op c)
  | Location op _ p => Ok (Location op c p)
  | TypedExp ty _ => Ok (TypedExp ty c)
  | RefExp _ d => Ok (RefExp c d)
  | FlagDef _ rtl => Ok (FlagDef c rtl)
  | Binary op _ b => Ok (Binary op c b)
  | Ternary op _ b t => Ok (Ternary op c b t)
  | Const _ _ | Terminal _ | TypeVal _ => Fail Undefined
  end.

(** [Exp::fixSuccessor].  [search] hands back the first match; it is the
    very node searched when its slot is the root, which is what
    [searchReplace] tests with [this == &search].  The two [assert]s stop
    the program when they fail. *)
Definition fixSuccessor (env : Env) (this : Exp) : Res Exp :=
  match doSearch env successorPattern this [] [] false with
  | [] => Ok this
  | p :: _ =>
      result <- fromOption (getAt this p) ;;
      s1 <- sub1 result ;;
      if negb (OPER_eqb (getOper s1) opRegOf) then Fail Undefined
      else
        s2 <- sub1 s1 ;;
        if negb (OPER_eqb (getOper s2) opIntConst) then Fail Undefined
        else
          replace <- incrementRegister (clone s1) ;;
          res <- searchReplace env this result replace
                   (match p with [] => true | _ :: _ => false end) ;;
          Ok (fst res)
  end.


(* ================================================================== *)
(** * Properties *)
(* ================================================================== *)

(** ** Machine integers and operator tags *)

Lemma wrap32_range x : Int32.in_range (Int32.wrap32 x).
Proof.
  unfold Int32.in_range, Int32.wrap32, Int32.min_signed, Int32.max_signed, Int32.modulus, Int32.half_modulus.
  pose proof (Z.mod_pos_bound x 4294967296 ltac:(lia)) as H.
  destruct (Z.ltb_spec (x mod 4294967296) 2147483648); lia.
Qed.

Lemma wrap32_id x : Int32.in_range x -> Int32.wrap32 x = x.
Proof.
  unfold Int32.in_range, Int32.wrap32, Int32.min_signed, Int32.max_signed, Int32.modulus, Int32.half_modulus.
  intros H.
  destruct (Z_lt_le_dec x 0) as [Hneg | Hpos].
  - replace (x mod 4294967296) with (x + 4294967296).
    + destruct (Z.ltb_spec (x + 4294967296) 2147483648); lia.
    + apply Z.mod_unique with (q := -1); lia.
  - rewrite Z.mod_small by lia.
    destruct (Z.ltb_spec x 2147483648); lia.
Qed.

Lemma wrap32_mod x : (Int32.wrap32 x) mod Int32.modulus = x mod Int32.modulus.
Proof.
  unfold Int32.wrap32, Int32.modulus, Int32.half_modulus.
  destruct (Z.ltb_spec (x mod 4294967296) 2147483648).
  - apply Z.mod_mod; lia.
  - rewrite <- (Z.mod_mod x 4294967296) at 2 by lia.
    replace (x mod 4294967296 - 4294967296)
      with (x mod 4294967296 + (-1) * 4294967296) by lia.
    apply Z.mod_add; lia.
Qed.

Lemma wrap32_eq_mod x y :
  x mod Int32.modulus = y mod Int32.modulus -> Int32.wrap32 x = Int32.wrap32 y.
Proof. unfold Int32.wrap32. intros ->. reflexivity. Qed.

Lemma oper_code_nth (o : OPER) : nth_error all_opers (oper_code o) = Some o.
Proof. destruct o; reflexivity. Qed.

Lemma oper_code_inj (a b : OPER) : oper_code a = oper_code b -> a = b.
Proof.
  intros H. pose proof (oper_code_nth a) as Ha.
  rewrite H, oper_code_nth in Ha. congruence.
Qed.

Lemma OPER_eqb_eq (a b : OPER) : OPER_eqb a b = true <-> a = b.
Proof.
  unfold OPER_eqb. rewrite Nat.eqb_eq. split.
  - apply oper_code_inj.
  - intros ->. reflexivity.
Qed.

Lemma OPER_eqb_refl (a : OPER) : OPER_eqb a a = true.
Proof. apply OPER_eqb_eq. reflexivity. Qed.

Lemma OPER_eqb_neq (a b : OPER) : OPER_eqb a b = false <-> a <> b.
Proof.
  rewrite <- OPER_eqb_eq. destruct (OPER_eqb a b); split; congruence.
Qed.

Lemma OPER_eqb_sym (a b : OPER) : OPER_eqb a b = OPER_eqb b a.
Proof. unfold OPER_eqb. apply Nat.eqb_sym. Qed.

(** ** Signature engine *)

(** C9: the base signature, whatever its parameter and return lists hold,
    answers [getStackRegister()] by raising the stack-register-not-defined
    signal; it returns no register index. *)
Theorem base_getStackRegister_throws :
  forall sig : Signature,
    getStackRegister BaseSignature sig = Throws StackRegisterNotDefinedException.
Proof.
  intros sig. unfold getStackRegister, Signature_getStackRegister.
  destruct sig; reflexivity.
Qed.

Lemma firstParamIs_nil env sig e : params sig = [] -> firstParamIs env sig e = false.
Proof. unfold firstParamIs. intros ->. reflexivity. Qed.

Lemma numParams_nil sig : params sig = [] -> numParams sig = 0.
Proof. unfold numParams. intros ->. reflexivity. Qed.

(** C8, as the code has it: with no parameters set, the Win32 signature
    places argument [n] (for [n >= 0], as long as [4 * (n + 1)] fits an
    [int]) in the stack slot [m[r28 + 4 * (n + 1)]]; argument 0 is
    [m[r28 + 4]].  The answer depends on [n] and the parameter list only. *)
Theorem win32_getArgumentExp_no_params :
  forall (env : Env) (sig : Signature) (n : Z),
    params sig = [] ->
    0 <= n ->
    4 * (n + 1) <= Int32.max_signed ->
    Win32Signature_getArgumentExp env sig n
    = Some (Location_memOf
              (Binary opPlus (Location_regOf 28) (Const_get (4 * (n + 1))))).
Proof.
  intros env sig n Hp Hn Hmax.
  unfold Win32Signature_getArgumentExp.
  rewrite (numParams_nil sig Hp), (firstParamIs_nil env sig _ Hp).
  destruct (Z.ltb_spec n 0) as [Hlt | _]; [lia |].
  unfold Int32.max_signed in Hmax.
  rewrite (wrap32_id (n + 1))
    by (unfold Int32.in_range, Int32.min_signed, Int32.max_signed; lia).
  rewrite (wrap32_id ((n + 1) * 4))
    by (unfold Int32.in_range, Int32.min_signed, Int32.max_signed; lia).
  do 4 f_equal. lia.
Qed.

Lemma win32_getArgumentExp_no_params_witness :
  Win32Signature_getArgumentExp plainEnv emptySignature 3
  = Some (Location_memOf
            (Binary opPlus (Location_regOf 28) (Const_get (4 * (3 + 1))))).
Proof.
  apply (win32_getArgumentExp_no_params plainEnv emptySignature 3).
  - reflexivity.
  - lia.
  - unfold Int32.max_signed. lia.
Defined.

(** C8 as stated fails: argument 0 is [m[r28 + 4]], which is not the slot
    [m[r28 + (4 + 4 * (0 + 1))]] = [m[r28 + 8]] of the table. *)
Lemma win32_getArgumentExp_zero_is_not_table_slot :
  Win32Signature_getArgumentExp plainEnv emptySignature 0
  = Some (Location_memOf (Binary opPlus (Location_regOf 28) (Const_get 4)))
  /\ exp_eq plainEnv
       (Location_memOf (Binary opPlus (Location_regOf 28) (Const_get 4)))
       (Location_memOf
          (Binary opPlus (Location_regOf 28) (Const_get (4 + 4 * (0 + 1)))))
     = false.
Proof. split; reflexivity. Qed.

(** C7 at its failing input: the Pentium conventions report [bx] (r3) as
    preserved, and [getProven] gives no answer for it. *)
Lemma pentium_preserved_bx_not_proven :
  isPreserved PentiumSignature (Location_regOf 3) = true
  /\ getProven plainEnv PentiumSignature emptySignature (Location_regOf 3) = None
  /\ isPreserved Win32Signature (Location_regOf 3) = true
  /\ getProven plainEnv Win32Signature emptySignature (Location_regOf 3) = None.
Proof. repeat split; reflexivity. Qed.

(** The part of C7 that holds: apart from the 16-bit and 8-bit aliases that
    the Pentium conventions list as preserved, a preserved register is
    proven to keep its value. *)
Lemma preserved_proven_outside_aliases :
  forall (env : Env) (cls : SigClass) (sig : Signature) (r : Z),
    isPreserved cls (Location_regOf r) = true ->
    memberZ r [3; 5; 6; 7; 11; 15] = false \/
    (cls <> Win32Signature /\ cls <> Win32TcSignature /\ cls <> PentiumSignature) ->
    getProven env cls sig (Location_regOf r) = Some (Location_regOf r).
Proof.
  intros env cls sig r Hpres Hside.
  unfold isPreserved, Pentium_isPreserved, Sparc_isPreserved, PPC_isPreserved,
    MIPS_isPreserved, ST20_isPreserved in Hpres.
  unfold getProven, Win32Signature_getProven, Win32TcSignature_getProven,
    PentiumSignature_getProven, SparcSignature_getProven,
    SparcLibSignature_getProven, PPCSignature_getProven,
    MIPSSignature_getProven, ST20Signature_getProven.
  change (regOfK (Location_regOf r)) with (Some r) in *.
  unfold memberZ in *. cbn [existsb] in *.
  assert (Hcases : forall k, (r =? k) = true -> r = k)
    by (intros k; apply Z.eqb_eq).
  destruct cls; try discriminate Hpres;
    repeat match type of Hpres with
           | (?a || ?b) = true =>
               apply Bool.orb_true_iff in Hpres; destruct Hpres as [Hpres | Hpres]
           | (?a =? ?b) = true => apply Hcases in Hpres; subst r
           | false = true => discriminate Hpres
           end;
    try reflexivity;
    destruct Hside as [Hs | (H1 & H2 & H3)];
    try discriminate Hs; congruence.
Qed.

(** ** Arithmetic partition *)

Lemma congruent_refl a : congruent a a.
Proof. exists 0. lia. Qed.

Lemma congruent_wrap32 a : congruent (Int32.wrap32 a) a.
Proof.
  unfold congruent, Int32.wrap32, Int32.modulus, Int32.half_modulus.
  pose proof (Z.div_mod a 4294967296 ltac:(lia)) as H.
  destruct (Z.ltb_spec (a mod 4294967296) 2147483648).
  - exists (- (a / 4294967296)). lia.
  - exists (- (a / 4294967296) - 1). lia.
Qed.

Lemma congruent_wrap32_eq a b : congruent a b -> Int32.wrap32 a = Int32.wrap32 b.
Proof.
  intros [k ->]. apply wrap32_eq_mod. apply Z.mod_add.
  unfold Int32.modulus. lia.
Qed.

Lemma sumZ_app l1 l2 : sumZ (l1 ++ l2) = sumZ l1 + sumZ l2.
Proof. induction l1 as [| x l1 IH]; simpl; [reflexivity | rewrite IH; lia]. Qed.

Lemma evalArith_wrapped rho e : Int32.wrap32 (evalArith rho e) = evalArith rho e.
Proof.
  apply wrap32_id.
  induction e; simpl;
    repeat match goal with
           | |- context [OPER_eqb ?a ?b] => destruct (OPER_eqb a b)
           | |- context [match ?u with IntVal _ => _ | _ => _ end] => destruct u
           end;
    try apply wrap32_range; assumption.
Qed.

(** Adding the terms of [e] to a partition adds the value of [e], with the
    sign [negate] asks for, modulo 2^32. *)
Lemma partitionTerms_value rho e :
  forall acc negate,
    congruent (partitionValue rho (partitionTerms e acc negate))
              (partitionValue rho acc + signOf negate * evalArith rho e).
Proof.
  assert (Hother : forall (e0 : Exp) (acc : Partition) (negate : bool),
    congruent
      (partitionValue rho
         (if negate
          then mkPartition (positives acc) (negatives acc ++ [e0]) (integers acc)
          else mkPartition (positives acc ++ [e0]) (negatives acc) (integers acc)))
      (partitionValue rho acc + signOf negate * evalArith rho e0)).
  { intros e0 acc negate. exists 0.
    destruct negate; unfold partitionValue, signOf;
      cbn [positives negatives integers];
      rewrite map_app, sumZ_app; cbn [map sumZ fold_right]; lia. }
  induction e as [u cs | op | op a IHa | op a IHa b IHb | op a IHa b IHb c IHc
                 | ty a IHa | a IHa d | ty | op a IHa p | a IHa rtl];
    intros acc negate.
  - (* Const *)
    destruct u; try apply (Hother (Const _ cs)).
    cbn [partitionTerms evalArith]. unfold partitionValue.
    cbn [positives negatives integers]. rewrite sumZ_app.
    cbn [sumZ fold_right].
    destruct negate; unfold signOf.
    + destruct (congruent_wrap32 (- i)) as [k1 H1].
      destruct (congruent_wrap32 i) as [k2 H2].
      exists (k1 + k2). unfold congruent. lia.
    + destruct (congruent_wrap32 i) as [k2 H2]. exists (- k2). lia.
  - apply (Hother (Terminal op)).
  - (* Unary *)
    pose proof (Hother (Unary op a) acc negate) as Ho.
    simpl in Ho |- *. destruct (OPER_eqb op opTypedExp); [apply IHa | exact Ho].
  - (* Binary *)
    pose proof (Hother (Binary op a b) acc negate) as Ho.
    simpl in Ho |- *.
    destruct (OPER_eqb op opPlus); [| destruct (OPER_eqb op opMinus);
                                      [| destruct (OPER_eqb op opTypedExp)]].
    + destruct (IHb (partitionTerms a acc negate) negate) as [k1 H1].
      destruct (IHa acc negate) as [k2 H2].
      destruct (congruent_wrap32 (evalArith rho a + evalArith rho b)) as [k3 H3].
      rewrite H1, H2, H3.
      exists (k1 + k2 - signOf negate * k3). lia.
    + destruct (IHb (partitionTerms a acc negate) (negb negate)) as [k1 H1].
      destruct (IHa acc negate) as [k2 H2].
      destruct (congruent_wrap32 (evalArith rho a - evalArith rho b)) as [k3 H3].
      rewrite H1, H2, H3.
      exists (k1 + k2 - signOf negate * k3).
      destruct negate; unfold signOf; cbn [negb]; lia.
    + apply IHa.
    + exact Ho.
  - (* Ternary *)
    pose proof (Hother (Ternary op a b c) acc negate) as Ho.
    simpl in Ho |- *.
    destruct (OPER_eqb op opPlus); [| destruct (OPER_eqb op opMinus);
                                      [| destruct (OPER_eqb op opTypedExp)]].
    + destruct (IHb (partitionTerms a acc negate) negate) as [k1 H1].
      destruct (IHa acc negate) as [k2 H2].
      destruct (congruent_wrap32 (evalArith rho a + evalArith rho b)) as [k3 H3].
      rewrite H1, H2, H3.
      exists (k1 + k2 - signOf negate * k3). lia.
    + destruct (IHb (partitionTerms a acc negate) (negb negate)) as [k1 H1].
      destruct (IHa acc negate) as [k2 H2].
      destruct (congruent_wrap32 (evalArith rho a - evalArith rho b)) as [k3 H3].
      rewrite H1, H2, H3.
      exists (k1 + k2 - signOf negate * k3).
      destruct negate; unfold signOf; cbn [negb]; lia.
    + apply IHa.
    + exact Ho.
  - (* TypedExp *) simpl. apply IHa.
  - apply (Hother (RefExp a d)).
  - apply (Hother (TypeVal ty)).
  - (* Location *)
    pose proof (Hother (Location op a p) acc negate) as Ho.
    simpl in Ho |- *. destruct (OPER_eqb op opTypedExp); [apply IHa | exact Ho].
  - apply (Hother (FlagDef a rtl)).
Qed.

(** C5: the bags [partitionTerms] produces for an expression evaluate, as
    (sum of positives) - (sum of negatives) + (sum of integers) under
    32-bit two's-complement arithmetic, to the value of the expression. *)
Theorem partitionTerms_correct :
  forall (rho : Exp -> Z) (e : Exp),
    Int32.wrap32 (partitionValue rho (partitionTerms e emptyPartition false))
    = evalArith rho e.
Proof.
  intros rho e.
  rewrite <- (evalArith_wrapped rho e).
  apply congruent_wrap32_eq.
  destruct (partitionTerms_value rho e emptyPartition false) as [k Hk].
  exists k. rewrite Hk. unfold partitionValue, signOf, emptyPartition.
  cbn [positives negatives integers map sumZ fold_right]. lia.
Qed.

(** ** Strict equality on stored expressions *)

Lemma arity_not_wild n op : hasArity (S n) op = true -> isWildTag op = false.
Proof. destruct op; cbn; intros H; try reflexivity; discriminate H. Qed.

Lemma arity_unique n m op : hasArity n op = true -> hasArity m op = true -> n = m.
Proof.
  unfold hasArity. destruct (tagArity op); [| discriminate].
  intros H1 H2. apply Nat.eqb_eq in H1, H2. congruence.
Qed.

Lemma isWildTag_false op :
  isWildTag op = false ->
  OPER_eqb op opWild = false /\ OPER_eqb op opWildIntConst = false
  /\ OPER_eqb op opWildStrConst = false /\ OPER_eqb op opWildMemOf = false
  /\ OPER_eqb op opWildRegOf = false /\ OPER_eqb op opWildAddrOf = false.
Proof.
  unfold isWildTag, isOneOf. cbn [existsb]. intros H.
  repeat (apply Bool.orb_false_iff in H; destruct H as [? H]).
  repeat split; assumption.
Qed.

Lemma plain_not_wild e : plain e = true -> isWildTag (getOper e) = false.
Proof.
  destruct e as [u cs | op | op a | op a b | op a b c | ty a | a d | ty | op a p | a rtl];
    cbn [plain getOper]; intros H.
  - destruct u; reflexivity.
  - apply Bool.andb_true_iff in H. destruct H as [_ H].
    apply Bool.negb_true_iff in H. exact H.
  - apply Bool.andb_true_iff in H. destruct H as [H _]. eapply arity_not_wild; eauto.
  - apply Bool.andb_true_iff in H. destruct H as [H _].
    apply Bool.andb_true_iff in H. destruct H as [H _]. eapply arity_not_wild; eauto.
  - repeat (apply Bool.andb_true_iff in H; destruct H as [H _]). eapply arity_not_wild; eauto.
  - reflexivity.
  - reflexivity.
  - reflexivity.
  - apply Bool.andb_true_iff in H. destruct H as [H _]. eapply arity_not_wild; eauto.
  - reflexivity.
Qed.

Ltac bool_hyps :=
  repeat match goal with
         | H : _ && _ = true |- _ => apply Bool.andb_true_iff in H; destruct H
         | H : negb _ = true |- _ => apply Bool.negb_true_iff in H
         | H : (_ =? _) = true |- _ => apply Z.eqb_eq in H
         end.

Lemma Flt_eqb_sym a b : Flt_eqb a b = Flt_eqb b a.
Proof.
  destruct a as [x], b as [y]. unfold Flt_eqb.
  rewrite (Z.eqb_sym x y).
  destruct (Flt_isNaN (FltBits x)), (Flt_isNaN (FltBits y)),
    (Flt_isZero (FltBits x)), (Flt_isZero (FltBits y)), (y =? x); reflexivity.
Qed.

Lemma string_eqb_sym a b : String.eqb a b = String.eqb b a.
Proof.
  destruct (String.eqb_spec a b), (String.eqb_spec b a); congruence.
Qed.

Lemma constPayloadEq_zero u cs u' cs' :
  constPayloadEq u cs u' cs' = true -> cs = 0 /\ cs' = 0.
Proof.
  unfold constPayloadEq.
  destruct (Z.eqb_spec cs' 0) as [-> | Hn]; cbn.
  - destruct (Z.eqb_spec cs 0) as [-> | Hn]; cbn; [auto | discriminate].
  - rewrite Bool.orb_true_r. discriminate.
Qed.

Lemma constPayloadEq_sym u cs u' cs' :
  constPayloadEq u cs u' cs' = true -> constPayloadEq u' cs' u cs = true.
Proof.
  intros H. destruct (constPayloadEq_zero _ _ _ _ H) as [-> ->].
  unfold constPayloadEq in *. cbn in *.
  destruct u, u'; try discriminate.
  - rewrite Z.eqb_sym. trivial.
  - rewrite Flt_eqb_sym. trivial.
  - rewrite string_eqb_sym. trivial.
Qed.

(* the wildcard tests on a plain right operand *)
Ltac no_wild o Hp :=
  let W := fresh "W" in
  pose proof (isWildTag_false _ (plain_not_wild o Hp)) as W;
  destruct W as (? & ? & ? & ? & ? & ?).

Lemma InstrPtr_eqb_eq a b : InstrPtr_eqb a b = true <-> a = b.
Proof.
  destruct a, b; cbn; split; intros H; try discriminate; try reflexivity.
  - apply Nat.eqb_eq in H. congruence.
  - inversion H. apply Nat.eqb_refl.
Qed.



Lemma hasArity_tagArity n op : hasArity n op = true -> tagArity op = Some n.
Proof.
  unfold hasArity. destruct (tagArity op); [| discriminate].
  intros H. apply Nat.eqb_eq in H. congruence.
Qed.

Lemma plain_arity e : plain e = true -> tagArity (getOper e) = classArity e.
Proof.
  destruct e as [u cs | op | op a | op a b | op a b c | ty a | a d | ty | op a p | a rtl];
    cbn [plain getOper classArity]; intros H; bool_hyps;
    try (apply hasArity_tagArity; assumption); try reflexivity.
  destruct u; reflexivity.
Qed.

Ltac rewrite_false H :=
  repeat match goal with
         | E : OPER_eqb ?a ?b = false |- _ =>
             match type of H with context [OPER_eqb a b] => rewrite E in H end
         end.

Ltac tag_of H :=
  match type of H with
  | context [OPER_eqb ?a ?b] =>
      let E := fresh "E" in
      destruct (OPER_eqb a b) eqn:E; cbn [negb andb orb] in H;
      [apply OPER_eqb_eq in E | try discriminate H]
  end.

Lemma exp_eq_tag env e1 e2 :
  plain e1 = true -> plain e2 = true -> exp_eq env e1 e2 = true ->
  getOper e1 = getOper e2.
Proof.
  intros P1 P2 H. no_wild e2 P2. no_wild e1 P1.
  destruct e1 as [u cs | op | op a | op a b | op a b c | ty a | a d | ty | op a p | a rtl];
    cbn [exp_eq] in H; cbn [getOper] in *; rewrite_false H; cbn [negb andb orb] in H;
    tag_of H; try congruence.
  all: destruct (negb _); discriminate H.
Qed.


Lemma plain_tag_class e1 e2 :
  plain e1 = true -> plain e2 = true -> getOper e1 = getOper e2 ->
  sameClass e1 e2 = true.
Proof.
  intros P1 P2 T.
  pose proof (plain_arity _ P1) as A1. pose proof (plain_arity _ P2) as A2.
  rewrite T in A1. rewrite A1 in A2. clear A1.
  destruct e1 as [u cs | op | op a | op a b | op a b c | ty a | a d | ty | op a p | a rtl];
    destruct e2 as [u' cs' | op' | op' a' | op' a' b' | op' a' b' c' | ty' a' | a' d' | ty'
                   | op' a' p' | a' rtl'];
    cbn [classArity sameClass] in *; try reflexivity; try discriminate A2;
    cbn [getOper] in T; try discriminate T;
    match goal with u : ConstValue |- _ => destruct u; discriminate T end.
Qed.

Lemma exp_eq_class env e1 e2 :
  plain e1 = true -> plain e2 = true -> exp_eq env e1 e2 = true ->
  sameClass e1 e2 = true.
Proof.
  intros P1 P2 H. apply plain_tag_class; auto. eapply exp_eq_tag; eauto.
Qed.


Ltac rewrite_false_all :=
  repeat match goal with
         | E : OPER_eqb ?a ?b = false |- context [OPER_eqb ?a ?b] => rewrite E
         | E : OPER_eqb ?a ?b = false, H : context [OPER_eqb ?a ?b] |- _ =>
             lazymatch H with E => fail | _ => rewrite E in H end
         end.

Ltac split_eq H :=
  repeat match type of H with
         | (if negb ?c then false else _) = true =>
             let E := fresh "E" in
             destruct c eqn:E; cbn [negb] in H; [| discriminate H]
         end.

Ltac unfold_eq :=
  cbn [exp_eq getOper getSubExp1 getSubExp2 getSubExp3 isBinaryClass isTernaryClass
       negb andb orb] in *.

Lemma defEq_sym env d d' :
  InstrPtr_eqb d wildDef = false -> InstrPtr_eqb d' wildDef = false ->
  defEq env d d' = true -> defEq env d' d = true.
Proof.
  unfold defEq. intros W W'. rewrite W, W'.
  destruct d as [| | i], d' as [| | j]; cbn; try discriminate; try reflexivity.
  - intros H. rewrite H. reflexivity.
  - intros H. destruct (isImplicit env i); [reflexivity | discriminate].
  - destruct (Nat.eqb_spec i j) as [-> | N]; [| discriminate].
    intros _. rewrite Nat.eqb_refl. reflexivity.
Qed.

Lemma defEq_refl env d : InstrPtr_eqb d wildDef = false -> defEq env d d = true.
Proof.
  unfold defEq. intros W. rewrite W.
  destruct d as [| | i]; cbn; try reflexivity.
  rewrite Nat.eqb_refl. reflexivity.
Qed.

Lemma defEq_trans env d1 d2 d3 :
  InstrPtr_eqb d1 wildDef = false -> InstrPtr_eqb d2 wildDef = false ->
  InstrPtr_eqb d3 wildDef = false -> InstrPtr_eqb d2 nullDef = false ->
  defEq env d1 d2 = true -> defEq env d2 d3 = true -> defEq env d1 d3 = true.
Proof.
  unfold defEq. intros W1 W2 W3 N2. rewrite W1, W2, W3.
  destruct d1 as [| | i], d2 as [| | j], d3 as [| | k]; cbn in *;
    try discriminate; try reflexivity.
  - intros H1 H2. destruct (Nat.eqb_spec j k) as [-> | N]; [| discriminate].
    exact H1.
  - intros H1 H2. destruct (Nat.eqb_spec i j) as [-> | N]; [| discriminate].
    exact H2.
  - intros H1 H2.
    destruct (Nat.eqb_spec i j) as [-> | N]; [| discriminate]. exact H2.
Qed.

Lemma exp_eq_Const env u cs u' cs' :
  exp_eq env (Const u cs) (Const u' cs')
  = OPER_eqb (getOper (Const u cs)) (getOper (Const u' cs'))
    && constPayloadEq u cs u' cs'.
Proof. destruct u, u'; reflexivity. Qed.

Lemma exp_eq_sym_plain env (TE : TypeEqEquivalence env) :
  forall e1 e2, plain e1 = true -> plain e2 = true ->
                exp_eq env e1 e2 = true -> exp_eq env e2 e1 = true.
Proof.
  induction e1 as [u cs | op | op a IHa | op a IHa b IHb | op a IHa b IHb c IHc
                  | ty a IHa | a IHa d | ty | op a IHa p | a IHa rtl];
    intros e2 P1 P2 H;
    pose proof (exp_eq_class env _ _ P1 P2 H) as C;
    pose proof (exp_eq_tag env _ _ P1 P2 H) as T;
    no_wild e2 P2;
    match type of P1 with plain ?e = true => no_wild e P1 end;
    destruct e2 as [u' cs' | op' | op' a' | op' a' b' | op' a' b' c' | ty' a' | a' d' | ty'
                   | op' a' p' | a' rtl'];
    cbn [sameClass] in C; try discriminate C; clear C.
  1: { rewrite exp_eq_Const in *. bool_hyps.
       rewrite OPER_eqb_sym, constPayloadEq_sym by assumption.
       apply andb_true_intro; split; [assumption | reflexivity]. }
  all: unfold_eq.
  all: rewrite_false_all.
  all: cbn [plain] in P1, P2; bool_hyps.
  all: try (rewrite <- T in *).
  all: rewrite ?OPER_eqb_refl in *; cbn [andb orb negb] in *.
  all: split_eq H.
  all: repeat match goal with
         | IH : forall e2, plain ?a = true -> _, E : exp_eq _ ?a ?a' = true |- _ =>
             rewrite (IH a' ltac:(assumption) ltac:(assumption) E); clear E
         | TE' : TypeEqEquivalence _, E : type_eq _ ?t ?t' = true |- _ =>
             rewrite (type_eq_sym _ TE' _ _ E); clear E
         end; cbn [negb].
  all: try reflexivity.
  apply defEq_sym; assumption.
Qed.

Lemma Flt_eqb_refl d : Flt_isNaN d = false -> Flt_eqb d d = true.
Proof.
  destruct d as [x]. unfold Flt_eqb. intros ->. rewrite Z.eqb_refl. reflexivity.
Qed.

Lemma Flt_eqb_trans a b c : Flt_eqb a b = true -> Flt_eqb b c = true -> Flt_eqb a c = true.
Proof.
  destruct a as [x], b as [y], c as [z]. unfold Flt_eqb. intros H1 H2.
  destruct (Flt_isNaN (FltBits x)), (Flt_isNaN (FltBits y)), (Flt_isNaN (FltBits z));
    try discriminate. cbn [negb andb] in *.
  destruct (Z.eqb_spec x y) as [-> | _]; [exact H2 |].
  destruct (Z.eqb_spec y z) as [<- | _]; [cbn [orb] in H1; rewrite H1; apply Bool.orb_true_r |].
  cbn [orb] in *. bool_hyps.
  repeat match goal with H : _ = true |- _ => rewrite H end.
  apply Bool.orb_true_r.
Qed.

Lemma constPayloadEq_refl u cs : plain (Const u cs) = true -> constPayloadEq u cs u cs = true.
Proof.
  unfold constPayloadEq. cbn [plain].
  destruct u; intros H; try discriminate; bool_hyps; subst; cbn.
  - apply Z.eqb_refl.
  - apply Flt_eqb_refl; assumption.
  - apply String.eqb_refl.
Qed.

Lemma constPayloadEq_trans u1 c1 u2 c2 u3 c3 :
  constPayloadEq u1 c1 u2 c2 = true -> constPayloadEq u2 c2 u3 c3 = true ->
  constPayloadEq u1 c1 u3 c3 = true.
Proof.
  intros H1 H2.
  destruct (constPayloadEq_zero _ _ _ _ H1) as [-> ->].
  destruct (constPayloadEq_zero _ _ _ _ H2) as [_ ->].
  unfold constPayloadEq in *. cbn in *.
  destruct u1, u2; try discriminate; destruct u3; try discriminate.
  - apply Z.eqb_eq in H1, H2. apply Z.eqb_eq. congruence.
  - eapply Flt_eqb_trans; eauto.
  - apply String.eqb_eq in H1, H2. apply String.eqb_eq. congruence.
Qed.

Lemma exp_eq_refl_plain env (TE : TypeEqEquivalence env) :
  forall e, plain e = true -> exp_eq env e e = true.
Proof.
  induction e as [u cs | op | op a IHa | op a IHa b IHb | op a IHa b IHb c IHc
                 | ty a IHa | a IHa d | ty | op a IHa p | a IHa rtl];
    intros P.
  1: { rewrite exp_eq_Const, OPER_eqb_refl. apply constPayloadEq_refl, P. }
  all: match type of P with plain ?e = true => no_wild e P end.
  all: unfold_eq; rewrite_false_all.
  all: cbn [plain] in P; bool_hyps.
  all: rewrite ?OPER_eqb_refl; cbn [andb orb negb].
  all: repeat match goal with
         | IH : plain ?a = true -> _ |- _ => rewrite (IH ltac:(assumption)); clear IH
         | TE' : TypeEqEquivalence _ |- context [type_eq _ ?t ?t] =>
             rewrite (type_eq_refl _ TE' t)
         end; cbn [negb].
  all: try reflexivity.
  apply defEq_refl; assumption.
Qed.

Lemma exp_eq_trans_plain env (TE : TypeEqEquivalence env) :
  forall e1 e2 e3,
    plain e1 = true -> plain e2 = true -> plain e3 = true -> definedRefs e2 = true ->
    exp_eq env e1 e2 = true -> exp_eq env e2 e3 = true -> exp_eq env e1 e3 = true.
Proof.
  induction e1 as [u cs | op | op a IHa | op a IHa b IHb | op a IHa b IHb c IHc
                  | ty a IHa | a IHa d | ty | op a IHa p | a IHa rtl];
    intros e2 e3 P1 P2 P3 D H12 H23;
    pose proof (exp_eq_class env _ _ P1 P2 H12) as C12;
    pose proof (exp_eq_class env _ _ P2 P3 H23) as C23;
    pose proof (exp_eq_tag env _ _ P1 P2 H12) as T12;
    pose proof (exp_eq_tag env _ _ P2 P3 H23) as T23;
    no_wild e3 P3; no_wild e2 P2;
    destruct e2 as [u' cs' | op' | op' a' | op' a' b' | op' a' b' c' | ty' a' | a' d' | ty'
                   | op' a' p' | a' rtl'];
    cbn [sameClass] in C12; try discriminate C12; clear C12;
    destruct e3 as [u2 cs2 | op2 | op2 a2 | op2 a2 b2 | op2 a2 b2 c2 | ty2 a2 | a2 d2 | ty2
                   | op2 a2 p2 | a2 rtl2];
    cbn [sameClass] in C23; try discriminate C23; clear C23.
  1: { rewrite exp_eq_Const in *. bool_hyps.
       apply andb_true_intro; split.
       - apply OPER_eqb_eq. etransitivity; apply OPER_eqb_eq; eassumption.
       - eapply constPayloadEq_trans; eassumption. }
  all: unfold_eq; rewrite_false_all.
  all: cbn [plain definedRefs] in P1, P2, P3, D; bool_hyps.
  all: try (rewrite <- T23 in *); try (rewrite <- T12 in *).
  all: rewrite ?OPER_eqb_refl in *; cbn [andb orb negb] in *.
  all: split_eq H12; split_eq H23.
  all: repeat match goal with
         | IH : forall e2 e3, plain ?a = true -> _,
             E : exp_eq _ ?a ?a' = true, E' : exp_eq _ ?a' ?a2 = true |- _ =>
             rewrite (IH a' a2 ltac:(assumption) ltac:(assumption) ltac:(assumption)
                        ltac:(assumption) E E'); clear IH
         | TE' : TypeEqEquivalence _,
             E : type_eq _ ?t ?t' = true, E' : type_eq _ ?t' ?t2 = true |- _ =>
             rewrite (type_eq_trans _ TE' _ _ _ E E'); clear E
         end; cbn [negb].
  all: try reflexivity.
  - exact H12.
  - eapply (defEq_trans env d d' d2); eassumption.
Qed.

Lemma SharedType_eqb_eq a b : SharedType_eqb a b = true <-> a = b.
Proof.
  revert b. induction a as [| x | x | t IH | x]; intros [| y | y | u | y]; cbn;
    split; intros H; try discriminate; try reflexivity.
  - apply Z.eqb_eq in H. congruence.
  - inversion H. apply Z.eqb_refl.
  - apply Z.eqb_eq in H. congruence.
  - inversion H. apply Z.eqb_refl.
  - apply IH in H. congruence.
  - inversion H; subst. apply IH. reflexivity.
  - apply Nat.eqb_eq in H. congruence.
  - inversion H. apply Nat.eqb_refl.
Qed.

Lemma plainEnv_type_eq : TypeEqEquivalence plainEnv.
Proof.
  constructor; cbn.
  - intros t. apply SharedType_eqb_eq. reflexivity.
  - intros t u H. apply SharedType_eqb_eq in H. apply SharedType_eqb_eq. congruence.
  - intros t u v H1 H2. apply SharedType_eqb_eq in H1, H2.
    apply SharedType_eqb_eq. congruence.
Qed.

Lemma conscript_mismatch env u u' cs :
  cs <> 0 ->
  exp_eq env (Const u cs) (Const u' 0) = false
  /\ exp_eq env (Const u 0) (Const u' cs) = false.
Proof.
  intros N. rewrite !exp_eq_Const. unfold constPayloadEq.
  apply Z.eqb_neq in N. rewrite N. cbn [negb andb orb Z.eqb].
  split; apply Bool.andb_false_r.
Qed.

(** C1, as the code has it: when the comparison of types is an equivalence,
    [operator==] is reflexive and symmetric on stored expressions (no
    wildcard, every constant with conscript zero), it is transitive when
    no subscript of the middle expression has the null definition, and a
    constant with a non-zero conscript and one with conscript zero compare
    unequal in both orders. *)
Theorem exp_eq_equivalence_on_plain :
  forall env : Env,
    TypeEqEquivalence env ->
    (forall e, plain e = true -> exp_eq env e e = true)
    /\ (forall e1 e2,
           plain e1 = true -> plain e2 = true ->
           exp_eq env e1 e2 = true -> exp_eq env e2 e1 = true)
    /\ (forall e1 e2 e3,
           plain e1 = true -> plain e2 = true -> plain e3 = true ->
           definedRefs e2 = true ->
           exp_eq env e1 e2 = true -> exp_eq env e2 e3 = true ->
           exp_eq env e1 e3 = true)
    /\ (forall u u' cs,
           cs <> 0 ->
           exp_eq env (Const u cs) (Const u' 0) = false
           /\ exp_eq env (Const u 0) (Const u' cs) = false).
Proof.
  intros env TE. repeat split.
  - apply exp_eq_refl_plain, TE.
  - apply exp_eq_sym_plain, TE.
  - apply exp_eq_trans_plain, TE.
  - apply (conscript_mismatch env u u' cs); assumption.
  - apply (conscript_mismatch env u u' cs); assumption.
Qed.

(** The equivalence at [m[r28 + 4]], [r24{7}] and two constants. *)
Lemma exp_eq_equivalence_on_plain_witness :
  TypeEqEquivalence plainEnv
  /\ exp_eq plainEnv (Location_memOf (Binary opPlus (Location_regOf 28) (Const_get 4)))
                     (Location_memOf (Binary opPlus (Location_regOf 28) (Const_get 4)))
     = true
  /\ exp_eq plainEnv (RefExp (Location_regOf 24) (stmtDef 7))
                     (RefExp (Location_regOf 24) (stmtDef 7)) = true
  /\ exp_eq plainEnv (Const (IntVal 5) 1) (Const (IntVal 5) 0) = false.
Proof.
  destruct (exp_eq_equivalence_on_plain plainEnv plainEnv_type_eq)
    as (R & S & T & K).
  split; [exact plainEnv_type_eq |].
  split; [apply R; reflexivity |].
  split.
  - apply (T _ (RefExp (Location_regOf 24) (stmtDef 7)));
      try reflexivity; apply R; reflexivity.
  - apply (K (IntVal 5) (IntVal 5) 1). lia.
Defined.

(** C1 fails as stated: with statements 1 and 2 implicit assignments, the
    subscripts [r24{1}] and [r24{2}] both equal [r24{-}] (null definition),
    yet differ from one another; none of the three is a wildcard. *)
Lemma exp_eq_not_transitive :
  plain (RefExp (Location_regOf 24) (stmtDef 1)) = true
  /\ plain (RefExp (Location_regOf 24) nullDef) = true
  /\ plain (RefExp (Location_regOf 24) (stmtDef 2)) = true
  /\ exp_eq implicitEnv (RefExp (Location_regOf 24) (stmtDef 1))
                        (RefExp (Location_regOf 24) nullDef) = true
  /\ exp_eq implicitEnv (RefExp (Location_regOf 24) nullDef)
                        (RefExp (Location_regOf 24) (stmtDef 2)) = true
  /\ exp_eq implicitEnv (RefExp (Location_regOf 24) (stmtDef 1))
                        (RefExp (Location_regOf 24) (stmtDef 2)) = false.
Proof. repeat split; reflexivity. Qed.

(** ** Search and replace *)

Lemma map_under (here : Path) (i : nat) (l : list Path) :
  map (app (here ++ [i])) l = map (app here) (map (cons i) l).
Proof.
  rewrite map_map. apply map_ext. intros p. rewrite <- app_assoc. reflexivity.
Qed.

Ltac norm_paths :=
  cbn [map app]; rewrite ?map_under, ?map_app, ?app_nil_r, <- ?app_assoc; cbn [map app].

Lemma doSearch_all env s :
  forall e here li,
    doSearch env s e here li false = li ++ map (app here) (hits env s e).
Proof.
  induction e as [u cs | op | op a IHa | op a IHa b IHb | op a IHa b IHb c IHc
                 | ty a IHa | a IHa d | ty | op a IHa p | a IHa rtl];
    intros here li; cbn [doSearch hits getOper];
    rewrite Bool.andb_false_r; cbn [andb];
    destruct (exp_eq env s _); cbn [negb orb];
    repeat match goal with |- context [OPER_eqb ?a ?b] => destruct (OPER_eqb a b) end;
    cbn [negb orb]; rewrite ?IHa, ?IHb, ?IHc; norm_paths; reflexivity.
Qed.

Lemma getAt_nil e : getAt e [] = Some e.
Proof. destruct e; reflexivity. Qed.

Lemma hits_not_below env s :
  forall e p, In p (hits env s e) -> belowInitValueOf e p = false.
Proof.
  induction e as [u cs | op | op a IHa | op a IHa b IHb | op a IHa b IHb c IHc
                 | ty a IHa | a IHa d | ty | op a IHa pr | a IHa rtl];
    intros p H; cbn [hits getOper] in H;
    destruct (exp_eq env s _); cbn [negb orb] in H;
    repeat match type of H with context [OPER_eqb ?a ?b] =>
             let E := fresh "E" in destruct (OPER_eqb a b) eqn:E end;
    cbn [negb orb app In] in H;
    rewrite ?in_app_iff, ?in_map_iff in H; cbn [In] in H;
    repeat match goal with
      | H : _ \/ _ |- _ => destruct H
      | H : False |- _ => destruct H
      | H : exists _, _ |- _ => destruct H as (? & ? & ?)
      end; subst; try reflexivity;
    cbn [belowInitValueOf isUnaryClass getOper getAt andb orb];
    rewrite ?getAt_nil, ?E, ?E0; cbn [orb]; auto.
Qed.

Lemma doSearch_sound env s :
  forall e here li once p,
    In p (doSearch env s e here li once) ->
    In p li \/ exists q, p = here ++ q /\ In q (hits env s e).
Proof.
  induction e as [u cs | op | op a IHa | op a IHa b IHb | op a IHa b IHb c IHc
                 | ty a IHa | a IHa d | ty | op a IHa pr | a IHa rtl];
    intros here li once p H; cbn [doSearch hits getOper] in *;
    destruct (exp_eq env s _); cbn [negb orb andb] in *;
    destruct once; cbn [negb orb andb] in *;
    repeat match type of H with context [OPER_eqb ?a ?b] =>
             let E := fresh "E" in destruct (OPER_eqb a b) eqn:E end;
    cbn [negb orb app] in *;
    repeat match type of H with context [nonEmpty ?l] => destruct (nonEmpty l) end.
  all: repeat match goal with
         | IH : forall here li once p, In p (doSearch _ _ ?a here li once) -> _,
             H : In _ (doSearch _ _ ?a _ _ _) |- _ =>
             apply IH in H; destruct H as [H | (? & ? & H)]
         end.
  all: rewrite ?in_app_iff in H; cbn [In] in H.
  all: repeat match goal with
         | H : _ \/ _ |- _ => destruct H
         | H : False |- _ => destruct H
         end; subst; auto.
  all: right.
  all: try (exists []; rewrite app_nil_r; cbn [In app]; auto; fail).
  all: rewrite <- app_assoc; cbn [app]; eexists; split; [reflexivity |].
  all: cbn [In]; rewrite ?in_app_iff, ?in_map_iff; eauto 8.
Qed.

Lemma setAt_nil top n : setAt top [] n = n.
Proof. destruct top; reflexivity. Qed.

(** Every slot of [hits] is a slot of the tree, and what it holds matches. *)
Lemma hits_getAt env s :
  forall e p, In p (hits env s e) ->
              exists t, getAt e p = Some t /\ exp_eq env s t = true.
Proof.
  induction e as [u cs | op | op a IHa | op a IHa b IHb | op a IHa b IHb c IHc
                 | ty a IHa | a IHa d | ty | op a IHa pr | a IHa rtl];
    intros p Hp; cbn [hits] in Hp; apply in_app_or in Hp;
    (destruct Hp as [Hp | Hp];
     [ destruct (exp_eq env s _) eqn:E; [| destruct Hp];
       destruct Hp as [<- | []]; eexists; split; [apply getAt_nil | exact E]
     | ]);
    destruct (negb _ || negb _); try destruct Hp;
    repeat match goal with
           | H : In _ (if ?c then _ else _) |- _ => destruct c; [| destruct H]
           | H : In _ (_ ++ _) |- _ => apply in_app_or in H; destruct H as [H | H]
           | H : In _ (map _ _) |- _ =>
               apply in_map_iff in H; destruct H as (q & <- & H)
           end;
    match goal with
    | IH : forall p, In p (hits env s ?x) -> _, H : In _ (hits env s ?x) |- _ =>
        destruct (IH _ H) as (t & Ht & Et); exists t; split; [exact Ht | exact Et]
    end.
Qed.

(** ** The slots that are overwritten *)

Lemma unreleased_head pp l W :
  unreleased (pp :: l) W -> existsb (fun w => released w pp) W = false.
Proof.
  intros H. destruct (existsb _ W) eqn:E; [| reflexivity].
  apply existsb_exists in E. destruct E as (w & Hw & E).
  rewrite (H pp w (or_introl eq_refl) (or_introl Hw)) in E. discriminate E.
Qed.

Lemma unreleased_tail pp l W : unreleased (pp :: l) W -> unreleased l (pp :: W).
Proof.
  intros H p w Hp [[<- | Hw] | Hw]; apply H; cbn [In]; auto.
Qed.

Lemma unreleased_app l1 l2 :
  unreleased (l1 ++ l2) [] -> unreleased l1 [] /\ unreleased l2 [].
Proof.
  intros H. split; intros p w Hp [[] | Hw]; apply H;
    rewrite ?in_app_iff; auto.
Qed.

Lemma released_cons i w p :
  nonEmpty w = true -> released (i :: w) (i :: p) = released w p.
Proof.
  intros N. unfold released. cbn [nonEmpty isPrefix List.length]. rewrite N, Nat.eqb_refl.
  reflexivity.
Qed.

Lemma released_root p : released [] p = false.
Proof. reflexivity. Qed.

Lemma released_child i p : nonEmpty p = true -> released [i] (i :: p) = true.
Proof.
  intros N. unfold released. cbn [nonEmpty isPrefix List.length]. rewrite Nat.eqb_refl.
  destruct p; [discriminate N | reflexivity].
Qed.

Lemma unreleased_child i l : unreleased (map (cons i) l) [] -> unreleased l [].
Proof.
  intros H p w Hp [[] | Hw].
  destruct w as [| j w]; [apply released_root |].
  rewrite <- (released_cons i) by reflexivity.
  apply H; [apply in_map; exact Hp | right; apply in_map; exact Hw].
Qed.

Lemma nonEmpty_map_cons (i : nat) (l : list Path) :
  forallb nonEmpty (map (cons i) l) = true.
Proof. induction l as [| p l IH]; [reflexivity | exact IH]. Qed.

Lemma hits_no_match_nonEmpty env s e :
  exp_eq env s e = false -> forallb nonEmpty (hits env s e) = true.
Proof.
  intros C. destruct e; cbn [hits]; rewrite C; cbn [app negb orb];
    repeat match goal with
           | |- context [if ?c then _ else _] => destruct c
           end;
    rewrite ?forallb_app, ?nonEmpty_map_cons; reflexivity.
Qed.

Lemma hits_match_nonEmpty env s e :
  exp_eq env s e = true ->
  exists tl, hits env s e = [] :: tl /\ forallb nonEmpty tl = true.
Proof.
  intros C. destruct e; cbn [hits]; rewrite C; cbn [app negb orb];
    (eexists; split; [reflexivity |]);
    repeat match goal with
           | |- context [if ?c then _ else _] => destruct c
           end;
    rewrite ?forallb_app, ?nonEmpty_map_cons; reflexivity.
Qed.

Lemma rootWritten_nonEmpty W : forallb nonEmpty W = true -> rootWritten W = false.
Proof.
  unfold rootWritten. induction W as [| w W IH]; cbn [forallb existsb]; [reflexivity |].
  intros H. apply andb_true_iff in H. destruct H as [Hw HW].
  rewrite Hw, (IH HW). reflexivity.
Qed.

Lemma other_child_unreleased (i j : nat) (l : list Path) (p : Path) :
  Nat.eqb i j = false ->
  existsb (fun v => released v (j :: p)) (rev (map (cons i) l) ++ []) = false.
Proof.
  intros Hij. destruct (existsb _ _) eqn:E; [| reflexivity].
  apply existsb_exists in E. destruct E as (v & Hin & Hp).
  rewrite app_nil_r in Hin.
  apply in_rev in Hin. apply in_map_iff in Hin. destruct Hin as (q & <- & _).
  unfold released in Hp. cbn [nonEmpty isPrefix andb] in Hp.
  rewrite Hij in Hp. discriminate Hp.
Qed.

Lemma other_child_root (i : nat) (l : list Path) :
  rootWritten (rev (map (cons i) l) ++ []) = false.
Proof.
  apply rootWritten_nonEmpty. rewrite app_nil_r. apply forallb_forall.
  intros p Hp. apply in_rev in Hp. apply in_map_iff in Hp.
  destruct Hp as (q & <- & _). reflexivity.
Qed.

Section ReplaceSlots.
Variable r : Exp.

Lemma replaceSlots_app :
  forall l1 l2 top w,
    replaceSlots top (l1 ++ l2) w r false
    = (t <- replaceSlots top l1 w r false ;;
       replaceSlots t l2 (rev l1 ++ w) r false).
Proof.
  induction l1 as [| pp l1 IH]; intros l2 top w; cbn [app replaceSlots rev bind].
  - reflexivity.
  - destruct (existsb _ w); [reflexivity |].
    rewrite IH, <- app_assoc. reflexivity.
Qed.

(** After the slot of the root, the assignments leave [top] alone. *)
Lemma replaceSlots_root_written :
  forall l top W,
    rootWritten W = true -> unreleased l W ->
    replaceSlots top l W r false = Ok top.
Proof.
  induction l as [| pp l IH]; intros top W HW H; cbn [replaceSlots].
  - reflexivity.
  - rewrite (unreleased_head _ _ _ H), HW.
    apply IH; [| apply unreleased_tail; exact H].
    unfold rootWritten in *. cbn [existsb]. rewrite HW. apply orb_true_r.
Qed.

(** The assignments to slots below child [i] of a node, none of them the
    slot of the child, are the assignments in the child. *)
Lemma replaceSlots_lift (i : nat) (k : Exp -> Exp) :
  (forall x p n, setAt (k x) (i :: p) n = k (setAt x p n)) ->
  forall l W w x,
    (forall p, existsb (fun v => released v (i :: p)) W
               = existsb (fun v => released v p) w) ->
    rootWritten W = false -> rootWritten w = false ->
    forallb nonEmpty l = true ->
    replaceSlots (k x) (map (cons i) l) W r false
    = (t <- replaceSlots x l w r false ;; Ok (k t)).
Proof.
  intros Hk. induction l as [| pp l IH]; intros W w x HW RW Rw N;
    cbn [map replaceSlots bind].
  - reflexivity.
  - cbn [forallb] in N. apply andb_true_iff in N. destruct N as [Npp N].
    rewrite HW, RW, Rw, Hk.
    destruct (existsb _ w) eqn:E; [reflexivity |].
    apply IH; [| | | exact N].
    + intros p. cbn [existsb]. rewrite HW, released_cons by exact Npp. reflexivity.
    + unfold rootWritten in *. cbn [existsb nonEmpty negb orb]. exact RW.
    + unfold rootWritten in *. cbn [existsb]. rewrite Npp, Rw. reflexivity.
Qed.

(** The assignments below child [i]: the slot of the child alone when the
    child matches, the assignments in the child otherwise. *)
Lemma replaceSlots_child env s (i : nat) (k : Exp -> Exp) x :
  (forall y p n, setAt (k y) (i :: p) n = k (setAt y p n)) ->
  (unreleased (hits env s x) [] ->
   replaceSlots x (hits env s x) [] r false = Ok (replaceOutermost env s r x)) ->
  forall W,
    rootWritten W = false ->
    (forall p, existsb (fun v => released v (i :: p)) W = false) ->
    unreleased (map (cons i) (hits env s x)) [] ->
    replaceSlots (k x) (map (cons i) (hits env s x)) W r false
    = Ok (k (replaceOutermost env s r x)).
Proof.
  intros Hk IH W RW HW U.
  destruct (exp_eq env s x) eqn:C.
  - destruct (hits_match_nonEmpty env s x C) as (tl & E & N).
    rewrite E in U |- *.
    destruct tl as [| p tl].
    + cbn [map replaceSlots]. rewrite HW, RW, Hk, setAt_nil.
      destruct x; cbn [replaceOutermost]; rewrite C; reflexivity.
    + exfalso. cbn [forallb] in N. apply andb_true_iff in N. destruct N as [Np _].
      pose proof (U (i :: p) [i]) as R. cbn [map In] in R.
      rewrite (released_child i p Np) in R.
      discriminate R; auto.
  - rewrite (replaceSlots_lift i k Hk) with (w := []);
      [ | intros p; rewrite HW; reflexivity | exact RW | reflexivity
        | apply hits_no_match_nonEmpty; exact C ].
    rewrite IH by (apply unreleased_child with (i := i); exact U).
    reflexivity.
Qed.

End ReplaceSlots.

(** When no assignment goes to a released slot, the loop replaces the
    outermost matches. *)
Lemma replaceSlots_outermost env s r :
  forall e,
    unreleased (hits env s e) [] ->
    replaceSlots e (hits env s e) [] r false = Ok (replaceOutermost env s r e).
Proof.
  induction e as [u cs | op | op a IHa | op a IHa b IHb | op a IHa b IHb c IHc
                 | ty a IHa | a IHa d | ty | op a IHa pr | a IHa rtl];
    intros U;
    match goal with
    | |- replaceSlots ?e _ _ _ _ = _ => destruct (exp_eq env s e) eqn:C
    end;
    try (destruct (hits_match_nonEmpty env s _ C) as (tl & E & _);
         rewrite E in U |- *; cbn [replaceSlots existsb rootWritten];
         rewrite setAt_nil; unfold clone;
         rewrite replaceSlots_root_written;
         [ cbn [replaceOutermost]; rewrite C; reflexivity
         | reflexivity
         | apply unreleased_tail; exact U ]);
    cbn [hits replaceOutermost getOper] in U |- *; rewrite C in U |- *;
    cbn [negb orb app] in U |- *;
    try reflexivity.
  - (* Unary *)
    destruct (OPER_eqb op opInitValueOf); cbn [negb] in U |- *; [reflexivity |].
    apply (replaceSlots_child r env s 1 (Unary op)); auto.
  - (* Binary *)
    destruct (unreleased_app _ _ U) as [Ua Ub].
    rewrite replaceSlots_app.
    rewrite (replaceSlots_child r env s 1 (fun x => Binary op x b)); auto.
    cbn [bind].
    apply (replaceSlots_child r env s 2 (Binary op (replaceOutermost env s r a))); auto.
    + apply other_child_root.
    + intros p. apply other_child_unreleased. reflexivity.
  - (* Ternary *)
    destruct (unreleased_app _ _ U) as [Ua Ubc].
    destruct (unreleased_app _ _ Ubc) as [Ub Uc].
    rewrite replaceSlots_app.
    rewrite (replaceSlots_child r env s 1 (fun x => Ternary op x b c)); auto.
    cbn [bind]. rewrite replaceSlots_app.
    rewrite (replaceSlots_child r env s 2
               (fun x => Ternary op (replaceOutermost env s r a) x c)); auto.
    2: apply other_child_root.
    2: intros p; apply other_child_unreleased; reflexivity.
    cbn [bind].
    apply (replaceSlots_child r env s 3 (Ternary op (replaceOutermost env s r a)
                                                   (replaceOutermost env s r b))); auto.
    + apply rootWritten_nonEmpty. apply forallb_forall. intros p Hp.
      rewrite app_nil_r in Hp. apply in_app_or in Hp.
      destruct Hp as [Hp | Hp]; apply in_rev in Hp; apply in_map_iff in Hp;
        destruct Hp as (q & <- & _); reflexivity.
    + intros p. rewrite existsb_app.
      rewrite <- (app_nil_r (rev (map (cons 2%nat) _))).
      rewrite !other_child_unreleased by reflexivity. reflexivity.
  - (* TypedExp *)
    change (OPER_eqb opTypedExp opInitValueOf) with false in U |- *.
    cbn [negb] in U |- *.
    apply (replaceSlots_child r env s 1 (TypedExp ty)); auto.
  - (* RefExp *)
    change (OPER_eqb opSubscript opInitValueOf) with false in U |- *.
    cbn [negb] in U |- *.
    apply (replaceSlots_child r env s 1 (fun x => RefExp x d)); auto.
  - (* Location *)
    destruct (OPER_eqb op opInitValueOf); cbn [negb] in U |- *; [reflexivity |].
    apply (replaceSlots_child r env s 1 (fun x => Location op x pr)); auto.
  - (* FlagDef *)
    change (OPER_eqb opFlagDef opInitValueOf) with false in U |- *.
    cbn [negb] in U |- *.
    apply (replaceSlots_child r env s 1 (fun x => FlagDef x rtl)); auto.
Qed.

Lemma doSearch_hits env s e : doSearch env s e [] [] false = hits env s e.
Proof. rewrite doSearch_all. cbn [app]. apply map_id. Qed.

Lemma nestedHits_unreleased env s e :
  nestedHits env s e = false -> unreleased (hits env s e) [].
Proof.
  unfold nestedHits. rewrite doSearch_hits. intros H pp w Hpp [[] | Hw].
  destruct (released w pp) eqn:R; [| reflexivity].
  assert (X : existsb (fun w => existsb (released w) (hits env s e)) (hits env s e)
              = true).
  { apply existsb_exists. exists w. split; [exact Hw |].
    apply existsb_exists. exists pp. split; assumption. }
  congruence.
Qed.

Lemma searchReplaceAll_outermost env e s r :
  nestedHits env s e = false ->
  searchReplaceAll env e s r false false
  = Ok (replaceOutermost env s r e, nonEmpty (hits env s e)).
Proof.
  intros N. unfold searchReplaceAll. rewrite doSearch_hits.
  rewrite replaceSlots_outermost by (apply nestedHits_unreleased; exact N).
  reflexivity.
Qed.

(** With [once], the first slot alone is overwritten. *)
Lemma searchReplaceAll_once env e s r :
  searchReplaceAll env e s r true false
  = Ok (match hits env s e with
        | [] => e
        | pp :: _ => setAt e pp r
        end, nonEmpty (hits env s e)).
Proof.
  unfold searchReplaceAll. rewrite doSearch_hits.
  destruct (hits env s e); reflexivity.
Qed.

(** ** Replacing and replacing back *)

Lemma exp_eq_size env :
  forall e1 e2, plain e1 = true -> plain e2 = true ->
                exp_eq env e1 e2 = true -> size e1 = size e2.
Proof.
  induction e1 as [u cs | op | op a IHa | op a IHa b IHb | op a IHa b IHb c IHc
                  | ty a IHa | a IHa d | ty | op a IHa p | a IHa rtl];
    intros e2 P1 P2 H;
    pose proof (exp_eq_class env _ _ P1 P2 H) as C;
    pose proof (exp_eq_tag env _ _ P1 P2 H) as T;
    no_wild e2 P2;
    destruct e2 as [u' cs' | op' | op' a' | op' a' b' | op' a' b' c' | ty' a' | a' d' | ty'
                   | op' a' p' | a' rtl'];
    cbn [sameClass] in C; try discriminate C; clear C; try reflexivity.
  all: unfold_eq; rewrite_false_all.
  all: cbn [plain] in P1, P2; bool_hyps.
  all: try (rewrite <- T in * ).
  all: rewrite ?OPER_eqb_refl in *; cbn [andb orb negb] in *.
  all: split_eq H.
  all: cbn [size].
  all: repeat match goal with
         | IH : forall e2, plain ?a = true -> _, E : exp_eq _ ?a ?a' = true |- _ =>
             rewrite (IH a' ltac:(assumption) ltac:(assumption) E); clear E
         end.
  all: reflexivity.
Qed.

Ltac nil_hyps :=
  repeat match goal with
         | H : _ ++ _ = [] |- _ => apply app_eq_nil in H; destruct H
         | H : map _ _ = [] |- _ => apply map_eq_nil in H
         end.

Lemma hits_nil_no_match env s e : hits env s e = [] -> exp_eq env s e = false.
Proof.
  destruct e; cbn [hits]; destruct (exp_eq env s _); cbn [app];
    intros H; try discriminate; reflexivity.
Qed.

Lemma replaceOutermost_id env s r :
  forall e, hits env s e = [] -> replaceOutermost env s r e = e.
Proof.
  induction e as [u cs | op | op a IHa | op a IHa b IHb | op a IHa b IHb c IHc
                 | ty a IHa | a IHa d | ty | op a IHa pr | a IHa rtl];
    intros H; pose proof (hits_nil_no_match _ _ _ H) as C;
    cbn [hits replaceOutermost getOper] in *; rewrite C in *;
    cbn [negb orb app] in H; try reflexivity;
    try change (OPER_eqb opTypedExp opInitValueOf) with false in H;
    try change (OPER_eqb opSubscript opInitValueOf) with false in H;
    try change (OPER_eqb opFlagDef opInitValueOf) with false in H;
    try (destruct (OPER_eqb op opInitValueOf); [reflexivity |]);
    cbn [negb] in H; nil_hyps;
    rewrite ?IHa, ?IHb, ?IHc by assumption; reflexivity.
Qed.

Lemma hits_head env s e : exp_eq env s e = true -> hits env s e <> [].
Proof.
  intros C H. apply hits_nil_no_match in H. congruence.
Qed.

(** Where the pattern occurs, the result holds the replacement: it is at
    least as large, and larger when the match is not at the root. *)
Lemma replaceOutermost_size env s r :
  forall e,
    hits env s e <> [] ->
    (size r <= size (replaceOutermost env s r e))%nat
    /\ (exp_eq env s e = false -> (size r < size (replaceOutermost env s r e))%nat).
Proof.
  induction e as [u cs | op | op a IHa | op a IHa b IHb | op a IHa b IHb c IHc
                 | ty a IHa | a IHa d | ty | op a IHa pr | a IHa rtl];
    intros H;
    match goal with
    | |- context [size (replaceOutermost _ _ _ ?e)] => destruct (exp_eq env s e) eqn:C
    end;
    cbn [hits replaceOutermost getOper] in *; rewrite ?C in *; cbn [negb orb app] in H;
    try (split; [lia | discriminate]); try (exfalso; apply H; reflexivity);
    try change (OPER_eqb opTypedExp opInitValueOf) with false in H;
    try change (OPER_eqb opSubscript opInitValueOf) with false in H;
    try change (OPER_eqb opFlagDef opInitValueOf) with false in H;
    try (destruct (OPER_eqb op opInitValueOf); [exfalso; apply H; reflexivity |]);
    cbn [negb size] in *.
  all: repeat match goal with
         | IH : hits _ _ ?a <> [] -> _ |- _ =>
             destruct (hits env s a) eqn:?;
             [clear IH | destruct IH as [? _]; [discriminate | split; [| intros _]; lia]]
         end.
  all: exfalso; apply H; reflexivity.
Qed.

Lemma plain_replaceOutermost env s r :
  plain r = true ->
  forall e, plain e = true -> plain (replaceOutermost env s r e) = true.
Proof.
  intros Pr.
  induction e as [u cs | op | op a IHa | op a IHa b IHb | op a IHa b IHb c IHc
                 | ty a IHa | a IHa d | ty | op a IHa pr | a IHa rtl];
    intros P; cbn [replaceOutermost]; destruct (exp_eq env s _); try assumption;
    try (destruct (OPER_eqb op opInitValueOf); [assumption |]);
    cbn [plain] in *; bool_hyps;
    repeat match goal with
      | IH : plain ?a = true -> _, H : plain ?a = true |- _ => specialize (IH H)
      end;
    repeat match goal with H : _ = _ |- _ => rewrite H; clear H end; reflexivity.
Qed.

(** A stored node equals the node with the same tag whose children equal
    its own. *)
Lemma replace_same env (TE : TypeEqEquivalence env) p :
  forall e, plain e = true -> exp_eq env (replaceOutermost env p p e) e = true.
Proof.
  induction e as [u cs | op | op a IHa | op a IHa b IHb | op a IHa b IHb c IHc
                 | ty a IHa | a IHa d | ty | op a IHa pr | a IHa rtl];
    intros P; cbn [replaceOutermost];
    match goal with
    | |- context [if exp_eq env p ?e then _ else _] => destruct (exp_eq env p e) eqn:C
    end; try assumption;
    try (destruct (OPER_eqb op opInitValueOf); [apply exp_eq_refl_plain; assumption |]);
    try (apply exp_eq_refl_plain; assumption).
  all: match type of P with plain ?e = true => no_wild e P end.
  all: unfold_eq; rewrite_false_all.
  all: cbn [plain] in P; bool_hyps.
  all: rewrite ?OPER_eqb_refl; cbn [andb orb negb].
  all: repeat match goal with
         | IH : plain ?a = true -> _ |- _ => rewrite (IH ltac:(assumption)); clear IH
         | TE' : TypeEqEquivalence _ |- context [type_eq _ ?t ?t] =>
             rewrite (type_eq_refl _ TE' t)
         end; cbn [negb].
  all: try reflexivity.
  apply defEq_refl; assumption.
Qed.

Lemma replaceOutermost_root env s r e :
  exp_eq env s e = true -> replaceOutermost env s r e = r.
Proof. intros H. destruct e; cbn [replaceOutermost]; rewrite H; reflexivity. Qed.

Lemma no_match_after_replace env p q e :
  plain q = true -> plain e = true ->
  hits env q e = [] -> exp_eq env p e = false ->
  exp_eq env q (replaceOutermost env p q e) = false.
Proof.
  intros Pq Pe Hq C.
  destruct (exp_eq env q (replaceOutermost env p q e)) eqn:Cq; [exfalso | reflexivity].
  pose proof (exp_eq_size env _ _ Pq (plain_replaceOutermost env p q Pq e Pe) Cq) as S.
  destruct (hits env p e) eqn:Hp.
  - rewrite (replaceOutermost_id env p q e Hp) in Cq.
    rewrite (hits_nil_no_match env q e Hq) in Cq. discriminate Cq.
  - assert (N : hits env p e <> []) by (rewrite Hp; discriminate).
    destruct (replaceOutermost_size env p q e N) as [_ L].
    specialize (L C). lia.
Qed.

Lemma replace_round_trip env (TE : TypeEqEquivalence env) p q :
  plain q = true ->
  forall e, plain e = true -> hits env q e = [] ->
            exp_eq env (replaceOutermost env q p (replaceOutermost env p q e)) e = true.
Proof.
  intros Pq.
  induction e as [u cs | op | op a IHa | op a IHa b IHb | op a IHa b IHb c IHc
                 | ty a IHa | a IHa d | ty | op a IHa pr | a IHa rtl];
    intros P Hq;
    match goal with
    | |- exp_eq _ _ ?e = true => destruct (exp_eq env p e) eqn:C
    end;
    try (rewrite (replaceOutermost_root _ _ _ _ C),
           (replaceOutermost_root env q p q (exp_eq_refl_plain env TE q Pq)); exact C);
    pose proof (no_match_after_replace env p q _ Pq P Hq C) as Cq;
    pose proof (hits_nil_no_match _ _ _ Hq) as Cqe;
    cbn [replaceOutermost] in Cq |- *; rewrite ?C in Cq |- *;
    cbn [replaceOutermost] in Cq |- *; rewrite ?Cq, ?Cqe;
    try (apply exp_eq_refl_plain; assumption).
  all: try (destruct (OPER_eqb op opInitValueOf) eqn:EI;
            cbn [replaceOutermost] in Cq |- *; rewrite ?Cq, ?Cqe, ?EI;
            [apply exp_eq_refl_plain; assumption |]).
  all: cbn [hits getOper] in Hq; rewrite Cqe in Hq; cbn [negb orb app] in Hq;
    rewrite ?EI in Hq;
    try change (OPER_eqb opTypedExp opInitValueOf) with false in Hq;
    try change (OPER_eqb opSubscript opInitValueOf) with false in Hq;
    try change (OPER_eqb opFlagDef opInitValueOf) with false in Hq;
    cbn [negb] in Hq; nil_hyps.
  all: match type of P with plain ?e = true => no_wild e P end.
  all: clear C Cq Cqe; unfold_eq; rewrite_false_all.
  all: cbn [plain] in P; bool_hyps.
  all: rewrite ?OPER_eqb_refl; cbn [andb orb negb].
  all: repeat match goal with
         | IH : plain ?a = true -> _ |- _ =>
             rewrite (IH ltac:(assumption) ltac:(assumption)); clear IH
         | TE' : TypeEqEquivalence _ |- context [type_eq _ ?t ?t] =>
             rewrite (type_eq_refl _ TE' t)
         end; cbn [negb].
  all: try reflexivity.
  apply defEq_refl; assumption.
Qed.

Lemma search_none_hits env e q : fst (search env e q) = false -> hits env q e = [].
Proof.
  unfold search. rewrite doSearch_all. cbn [app]. rewrite map_id.
  destruct (hits env q e); [reflexivity | discriminate].
Qed.

Lemma doSearch_not_below env s top once :
  forallb (fun p => negb (belowInitValueOf top p)) (doSearch env s top [] [] once) = true.
Proof.
  apply forallb_forall. intros p H.
  apply doSearch_sound in H. destruct H as [[] | (q & -> & H)].
  cbn [app]. rewrite (hits_not_below env s top q H). reflexivity.
Qed.


Lemma isPrefix_app p : forall h, isPrefix p h = true -> exists q, h = p ++ q.
Proof.
  induction p as [| i p IH]; intros h H; cbn [isPrefix] in H.
  - exists h. reflexivity.
  - destruct h as [| j h]; [discriminate H |].
    apply andb_true_iff in H. destruct H as [Hij Hp].
    apply Nat.eqb_eq in Hij. subst j.
    destruct (IH h Hp) as [q ->]. exists q. reflexivity.
Qed.

Lemma isPrefix_refl p : isPrefix p p = true.
Proof. induction p as [| i p IH]; cbn; [reflexivity |]. rewrite Nat.eqb_refl. exact IH. Qed.

Lemma getAt_cons top i r :
  getAt top (i :: r) = match getAt top [i] with
                       | Some c => getAt c r
                       | None => None
                       end.
Proof.
  destruct top; destruct i as [| [| [| [| i]]]]; cbn [getAt]; try reflexivity;
    rewrite getAt_nil; reflexivity.
Qed.

Lemma below_after_initValueOf top path c i q :
  getAt top path = Some (Unary opInitValueOf c) ->
  belowInitValueOf top (path ++ i :: q) = true.
Proof.
  revert top.
  induction path as [| j path IH]; intros top H.
  - rewrite getAt_nil in H. inversion H. reflexivity.
  - cbn [app belowInitValueOf]. rewrite getAt_cons in H.
    destruct (getAt top [j]) as [c' |]; [| discriminate H].
    rewrite (IH c' H). apply orb_true_r.
Qed.

Lemma getAt_setAt_diverge n :
  forall h top path,
    isPrefix h path = false -> isPrefix path h = false ->
    getAt (setAt top h n) path = getAt top path.
Proof.
  induction h as [| i h IH]; intros top path H1 H2; [discriminate H1 |].
  destruct path as [| j path]; [discriminate H2 |].
  cbn [isPrefix] in H1, H2.
  destruct (Nat.eqb_spec i j) as [-> | Nij].
  - rewrite Nat.eqb_refl in H2. cbn [andb] in H1, H2.
    destruct top; destruct j as [| [| [| [| j]]]]; cbn [setAt getAt]; try reflexivity;
      apply IH; assumption.
  - destruct top; destruct i as [| [| [| [| i]]]]; cbn [setAt]; try reflexivity;
      destruct j as [| [| [| [| j]]]]; cbn [getAt]; try reflexivity; congruence.
Qed.

(** ** Slots inside one another *)

Lemma getAt_app top p q :
  getAt top (p ++ q) = match getAt top p with
                       | Some c => getAt c q
                       | None => None
                       end.
Proof.
  revert top. induction p as [| i p IH]; intros top; cbn [app].
  - rewrite getAt_nil. reflexivity.
  - rewrite getAt_cons, (getAt_cons top i p).
    destruct (getAt top [i]) as [c |]; [apply IH | reflexivity].
Qed.

Lemma getAt_child_size top i c : getAt top [i] = Some c -> (size c < size top)%nat.
Proof.
  destruct top; destruct i as [| [| [| [| i]]]]; cbn [getAt]; intros H;
    try discriminate H; rewrite getAt_nil in H; inversion H; subst; cbn [size]; lia.
Qed.

Lemma getAt_size p : forall top c, getAt top p = Some c -> (size c <= size top)%nat.
Proof.
  induction p as [| i p IH]; intros top c H.
  - rewrite getAt_nil in H. inversion H. lia.
  - rewrite getAt_cons in H. destruct (getAt top [i]) as [d |] eqn:E; [| discriminate H].
    pose proof (getAt_child_size _ _ _ E). pose proof (IH _ _ H). lia.
Qed.

Lemma getAt_child_plain top i c :
  plain top = true -> getAt top [i] = Some c -> plain c = true.
Proof.
  destruct top; destruct i as [| [| [| [| i]]]]; cbn [getAt plain]; intros P H;
    try discriminate H; rewrite getAt_nil in H; inversion H; subst; bool_hyps;
    assumption.
Qed.

Lemma getAt_plain p :
  forall top c, plain top = true -> getAt top p = Some c -> plain c = true.
Proof.
  induction p as [| i p IH]; intros top c P H.
  - rewrite getAt_nil in H. inversion H. subst. exact P.
  - rewrite getAt_cons in H. destruct (getAt top [i]) as [d |] eqn:E; [| discriminate H].
    apply (IH d c); [| exact H]. apply (getAt_child_plain top i d); assumption.
Qed.

Lemma released_split w pp : released w pp = true -> exists i q, pp = w ++ i :: q.
Proof.
  unfold released. intros H. apply andb_true_iff in H. destruct H as [H L].
  apply andb_true_iff in H. destruct H as [_ P].
  destruct (isPrefix_app _ _ P) as [q ->].
  destruct q as [| i q]; [| exists i, q; reflexivity].
  rewrite app_nil_r in L. apply Nat.ltb_lt in L. lia.
Qed.

(** The matches of a stored pattern in a stored expression have the size
    of the pattern, so none lies inside another. *)
Lemma stored_pattern_not_nested env s e :
  plain s = true -> plain e = true -> nestedHits env s e = false.
Proof.
  intros Ps Pe. unfold nestedHits. rewrite doSearch_hits.
  destruct (existsb _ _) eqn:E; [exfalso | reflexivity].
  apply existsb_exists in E. destruct E as (w & Hw & E).
  apply existsb_exists in E. destruct E as (pp & Hpp & R).
  destruct (released_split _ _ R) as (i & q & ->).
  destruct (hits_getAt env s e _ Hw) as (a & Ga & Ea).
  destruct (hits_getAt env s e _ Hpp) as (b & Gb & Eb).
  rewrite getAt_app, Ga, getAt_cons in Gb.
  destruct (getAt a [i]) as [c |] eqn:Gc; [| discriminate Gb].
  pose proof (getAt_child_size _ _ _ Gc) as S1.
  pose proof (getAt_size _ _ _ Gb) as S2.
  pose proof (getAt_plain _ _ _ Pe Ga) as Pa.
  pose proof (getAt_plain _ _ _ (getAt_child_plain _ _ _ Pa Gc) Gb) as Pb.
  pose proof (exp_eq_size env _ _ Ps Pa Ea) as S3.
  pose proof (exp_eq_size env _ _ Ps Pb Eb) as S4. lia.
Qed.

(** [doSearch] reports a slot before the slots inside it. *)

Lemma outerFirst_app l1 l2 :
  outerFirst l1 -> outerFirst l2 ->
  (forall pp w, In pp l1 -> In w l2 -> released w pp = false) ->
  outerFirst (l1 ++ l2).
Proof.
  induction l1 as [| x l1 IH]; cbn [app outerFirst]; intros O1 O2 X; [exact O2 |].
  destruct O1 as [H O1]. split.
  - intros w Hw. apply in_app_or in Hw. destruct Hw as [Hw | Hw];
      [apply H; exact Hw | apply X; [left; reflexivity | exact Hw]].
  - apply IH; [exact O1 | exact O2 |]. intros pp w Hpp Hw. apply X; [right |]; assumption.
Qed.

Lemma outerFirst_map_cons i l :
  forallb nonEmpty (tl l) = true -> outerFirst l -> outerFirst (map (cons i) l).
Proof.
  induction l as [| x l IH]; cbn [map outerFirst tl]; intros N O; [exact I |].
  destruct O as [H O]. split.
  - intros w Hw. apply in_map_iff in Hw. destruct Hw as (w' & <- & Hw').
    rewrite released_cons; [apply H; exact Hw' |].
    rewrite forallb_forall in N. apply N. exact Hw'.
  - apply IH; [| exact O]. destruct l as [| y l]; [reflexivity |].
    cbn [tl forallb] in N |- *. apply andb_true_iff in N. apply N.
Qed.

Lemma released_other_child i j w pp :
  Nat.eqb i j = false -> released (i :: w) (j :: pp) = false.
Proof.
  intros Hij. unfold released. cbn [nonEmpty isPrefix andb]. rewrite Hij. reflexivity.
Qed.

Lemma released_to_root w : released w [] = false.
Proof. destruct w; reflexivity. Qed.

Lemma released_irrefl w : released w w = false.
Proof.
  unfold released. rewrite Nat.ltb_irrefl. apply andb_false_r.
Qed.

Lemma hits_tail_nonEmpty env s e : forallb nonEmpty (tl (hits env s e)) = true.
Proof.
  destruct (exp_eq env s e) eqn:C.
  - destruct (hits_match_nonEmpty env s e C) as (l & -> & N). exact N.
  - pose proof (hits_no_match_nonEmpty env s e C) as N.
    destruct (hits env s e) as [| x l]; [reflexivity |].
    cbn [tl forallb] in N |- *. apply andb_true_iff in N. apply N.
Qed.

Lemma outerFirst_children i j l1 l2 :
  Nat.eqb i j = false ->
  forall pp w, In pp (map (cons i) l1) -> In w (map (cons j) l2) ->
               released w pp = false.
Proof.
  intros Hij pp w Hpp Hw.
  apply in_map_iff in Hpp. destruct Hpp as (p' & <- & _).
  apply in_map_iff in Hw. destruct Hw as (w' & <- & _).
  apply released_other_child. rewrite Nat.eqb_sym. exact Hij.
Qed.

Lemma outerFirst_root (c : bool) l :
  outerFirst l -> outerFirst ((if c then [[]] else []) ++ l).
Proof.
  intros O. destruct c; cbn [app outerFirst]; [| exact O].
  split; [intros w _; apply released_to_root | exact O].
Qed.

Lemma hits_outerFirst env s : forall e, outerFirst (hits env s e).
Proof.
  induction e as [u cs | op | op a IHa | op a IHa b IHb | op a IHa b IHb c IHc
                 | ty a IHa | a IHa d | ty | op a IHa pr | a IHa rtl];
    cbn [hits]; apply outerFirst_root;
    destruct (negb _ || negb _); try exact I;
    repeat match goal with
           | |- outerFirst (if ?c then _ else _) => destruct c
           | |- outerFirst [] => exact I
           | |- outerFirst (map _ _) =>
               apply outerFirst_map_cons; [apply hits_tail_nonEmpty | assumption]
           | |- outerFirst (_ ++ _) => apply outerFirst_app
           end.
  - apply outerFirst_children. reflexivity.
  - apply outerFirst_children. reflexivity.
  - intros pp w Hpp Hw. apply in_app_or in Hw.
    destruct Hw as [Hw | Hw]; eapply outerFirst_children; try eassumption; reflexivity.
Qed.

Lemma outerFirst_split l :
  outerFirst l ->
  forall w pp, In w l -> In pp l -> released w pp = true ->
               exists l1 l2, l = l1 ++ pp :: l2 /\ In w l1.
Proof.
  induction l as [| x l IH]; intros O w pp Hw Hpp R; [destruct Hw |].
  destruct O as [H O]. destruct Hpp as [-> | Hpp].
  - exfalso. destruct Hw as [-> | Hw].
    + rewrite released_irrefl in R. discriminate R.
    + rewrite (H w Hw) in R. discriminate R.
  - destruct Hw as [-> | Hw].
    + destruct (in_split _ _ Hpp) as (l1 & l2 & ->).
      exists (w :: l1), l2. split; [reflexivity | left; reflexivity].
    + destruct (IH O w pp Hw Hpp R) as (l1 & l2 & -> & Hin).
      exists (x :: l1), l2. split; [reflexivity | right; exact Hin].
Qed.

Lemma replaceSlots_released r :
  forall l1 top W pp l2 w,
    In w W \/ In w l1 -> released w pp = true ->
    replaceSlots top (l1 ++ pp :: l2) W r false = Fail Undefined.
Proof.
  induction l1 as [| x l1 IH]; intros top W pp l2 w Hw R; cbn [app replaceSlots].
  - destruct Hw as [Hw | []].
    assert (X : existsb (fun w => released w pp) W = true)
      by (apply existsb_exists; exists w; split; assumption).
    rewrite X. reflexivity.
  - destruct (existsb _ W); [reflexivity |].
    apply (IH _ _ _ _ w); [| exact R].
    destruct Hw as [Hw | [-> | Hw]]; cbn [In]; auto.
Qed.

(** With matches inside one another, the loop writes to a released slot. *)
Lemma searchReplaceAll_nested env e s r :
  nestedHits env s e = true ->
  searchReplaceAll env e s r false false = Fail Undefined.
Proof.
  unfold nestedHits, searchReplaceAll. rewrite doSearch_hits. intros N.
  apply existsb_exists in N. destruct N as (w & Hw & N).
  apply existsb_exists in N. destruct N as (pp & Hpp & R).
  destruct (outerFirst_split _ (hits_outerFirst env s e) w pp Hw Hpp R)
    as (l1 & l2 & E & Hin).
  rewrite E, (replaceSlots_released r l1 e [] pp l2 w (or_intror Hin) R).
  reflexivity.
Qed.

Lemma search_some_hits env e q :
  fst (search env e q) = true -> nonEmpty (hits env q e) = true.
Proof.
  unfold search. rewrite doSearch_hits.
  destruct (hits env q e); [discriminate | reflexivity].
Qed.

(** ** Replacing and replacing back, through [searchReplaceAll] *)

(** C6, as the code has it.  [searchReplaceAll] returns when no match
    lies inside another match below the root, which is so for every
    stored pattern [p] (no wildcard, constants with conscript zero); with
    matches inside one another it assigns to a slot of a released node.
    When it returns, the comparison of types is an equivalence and [e] is
    a stored expression: replacing every match of [p] in [e] by [p] gives
    an expression equal to [e]; and for a stored [q] that [search] does
    not find in [e], replacing [p] by [q] and then [q] by [p] gives an
    expression equal to [e]. *)
Theorem search_replace_round_trip :
  forall (env : Env) (e p q : Exp),
    TypeEqEquivalence env ->
    plain e = true ->
    (plain p = true -> nestedHits env p e = false)
    /\ (nestedHits env p e = true ->
        searchReplaceAll env e p p false false = Fail Undefined
        /\ searchReplaceAll env e p q false false = Fail Undefined)
    /\ (nestedHits env p e = false ->
        (fst (search env e p) = true ->
         exists r, searchReplaceAll env e p p false false = Ok (r, true)
                   /\ exp_eq env r e = true)
        /\ (plain q = true ->
            fst (search env e q) = false ->
            exists r1 c1 r2 c2,
              searchReplaceAll env e p q false false = Ok (r1, c1)
              /\ searchReplaceAll env r1 q p false false = Ok (r2, c2)
              /\ exp_eq env r2 e = true)).
Proof.
  intros env e p q TE Pe. split; [| split].
  - intros Pp. apply stored_pattern_not_nested; assumption.
  - intros N. split; apply searchReplaceAll_nested; exact N.
  - intros N. split.
    + intros Hp. exists (replaceOutermost env p p e). split.
      * rewrite (searchReplaceAll_outermost env e p p N).
        rewrite (search_some_hits env e p Hp). reflexivity.
      * apply replace_same; assumption.
    + intros Pq Hq.
      exists (replaceOutermost env p q e), (nonEmpty (hits env p e)),
        (replaceOutermost env q p (replaceOutermost env p q e)),
        (nonEmpty (hits env q (replaceOutermost env p q e))).
      split; [apply searchReplaceAll_outermost; exact N |].
      split.
      * apply searchReplaceAll_outermost.
        apply stored_pattern_not_nested; [exact Pq |].
        apply plain_replaceOutermost; assumption.
      * apply replace_round_trip; try assumption.
        apply search_none_hits. exact Hq.
Qed.

(** The round trip on [m[r28 + 4]] with [p] = [r28] and [q] = [r29]. *)
Lemma search_replace_round_trip_witness :
  nestedHits plainEnv (Location_regOf 28)
    (Location_memOf (Binary opPlus (Location_regOf 28) (Const_get 4))) = false
  /\ (exists r,
        searchReplaceAll plainEnv
          (Location_memOf (Binary opPlus (Location_regOf 28) (Const_get 4)))
          (Location_regOf 28) (Location_regOf 28) false false = Ok (r, true)
        /\ exp_eq plainEnv r
             (Location_memOf (Binary opPlus (Location_regOf 28) (Const_get 4))) = true)
  /\ (exists r1 c1 r2 c2,
        searchReplaceAll plainEnv
          (Location_memOf (Binary opPlus (Location_regOf 28) (Const_get 4)))
          (Location_regOf 28) (Location_regOf 29) false false = Ok (r1, c1)
        /\ searchReplaceAll plainEnv r1 (Location_regOf 29) (Location_regOf 28)
             false false = Ok (r2, c2)
        /\ exp_eq plainEnv r2
             (Location_memOf (Binary opPlus (Location_regOf 28) (Const_get 4))) = true).
Proof.
  destruct (search_replace_round_trip plainEnv
              (Location_memOf (Binary opPlus (Location_regOf 28) (Const_get 4)))
              (Location_regOf 28) (Location_regOf 29) plainEnv_type_eq eq_refl)
    as (H0 & _ & H).
  split; [apply H0; reflexivity |].
  destruct (H (H0 eq_refl)) as [H1 H2].
  split; [apply H1; reflexivity | apply H2; reflexivity].
Defined.

(** C6 fails as stated in two ways.  A wildcard does not equal itself:
    with [q] the integer wildcard, which [search] does not find in [%pc],
    replacing [%pc] by [q] gives [q], in which no match of [q] is found,
    so that replacing [q] by [%pc] leaves [q], which is not equal to
    [%pc].  And matches of a wildcard pattern lie inside one another: in
    [-(m[m[r28]])] the pattern [opWildMemOf] matches [m[m[r28]]] and the
    [m[r28]] inside it; the assignment to the first slot releases the node
    that holds the second slot, the assignment to which has no defined
    result. *)
Lemma search_replace_wildcard_no_round_trip :
  fst (search plainEnv (Terminal opPC) (Terminal opWildIntConst)) = false
  /\ searchReplaceAll plainEnv (Terminal opPC) (Terminal opPC)
       (Terminal opWildIntConst) false false
     = Ok (Terminal opWildIntConst, true)
  /\ searchReplaceAll plainEnv (Terminal opWildIntConst) (Terminal opWildIntConst)
       (Terminal opPC) false false
     = Ok (Terminal opWildIntConst, false)
  /\ exp_eq plainEnv (Terminal opWildIntConst) (Terminal opPC) = false
  /\ exp_eq plainEnv (Terminal opPC) (Terminal opWildIntConst) = false
  /\ plain (Unary opNeg (Location_memOf (Location_memOf (Location_regOf 28)))) = true
  /\ search plainEnv (Unary opNeg (Location_memOf (Location_memOf (Location_regOf 28))))
       (Terminal opWildMemOf)
     = (true, Some (Location_memOf (Location_memOf (Location_regOf 28))))
  /\ doSearch plainEnv (Terminal opWildMemOf)
       (Unary opNeg (Location_memOf (Location_memOf (Location_regOf 28)))) [] [] false
     = [[1%nat]; [1%nat; 1%nat]]
  /\ searchReplaceAll plainEnv
       (Unary opNeg (Location_memOf (Location_memOf (Location_regOf 28))))
       (Terminal opWildMemOf) (Terminal opWildMemOf) false false
     = Fail Undefined.
Proof. repeat split; reflexivity. Qed.

(** ** What lies below [opInitValueOf] *)

Lemma replaceSlots_keeps r once path v :
  forall li written top t,
    getAt top path = Some v ->
    (forall h, In h li -> isPrefix h path = false /\ isPrefix path h = false) ->
    replaceSlots top li written r once = Ok t ->
    getAt t path = Some v.
Proof.
  induction li as [| pp li IH]; intros written top t G D H; cbn [replaceSlots] in H.
  - inversion H. subst. exact G.
  - destruct (existsb _ written); [discriminate H |].
    destruct (D pp (or_introl eq_refl)) as [D1 D2].
    assert (G' : getAt (if rootWritten written then top
                        else setAt top pp (clone r)) path = Some v).
    { destruct (rootWritten written); [exact G |].
      rewrite getAt_setAt_diverge by assumption. exact G. }
    destruct once; [inversion H; subst; exact G' |].
    apply (IH (pp :: written) _ t G'); [| exact H]. intros h Hh. apply D. right. exact Hh.
Qed.

Lemma initValueOf_kept env pattern replace top c once path r ch :
  getAt top path = Some (Unary opInitValueOf c) ->
  existsb (fun h => isPrefix h path) (doSearch env pattern top [] [] false) = false ->
  searchReplaceAll env top pattern replace once false = Ok (r, ch) ->
  getAt r path = Some (Unary opInitValueOf c).
Proof.
  intros G N H. unfold searchReplaceAll in H.
  destruct (replaceSlots top _ [] replace once) as [t | f] eqn:E; cbn [bind] in H;
    [| discriminate H].
  inversion H. subst.
  apply (replaceSlots_keeps replace once path _ _ _ _ _ G) in E; [exact E |].
  intros h Hh. split.
  - destruct (isPrefix h path) eqn:E'; [| reflexivity].
    assert (X : existsb (fun h => isPrefix h path) (doSearch env pattern top [] [] false)
                = true) by (apply existsb_exists; exists h; split; assumption).
    congruence.
  - destruct (isPrefix path h) eqn:E'; [| reflexivity]. exfalso.
    destruct (isPrefix_app _ _ E') as [q ->].
    destruct q as [| i q].
    + rewrite app_nil_r in Hh.
      assert (X : existsb (fun h => isPrefix h path) (doSearch env pattern top [] [] false)
                  = true).
      { apply existsb_exists. exists path. split; [exact Hh | apply isPrefix_refl]. }
      congruence.
    + pose proof (doSearch_not_below env pattern top false) as B.
      rewrite forallb_forall in B. specialize (B _ Hh).
      rewrite (below_after_initValueOf top path c i q G) in B. discriminate B.
Qed.

Lemma searchReplaceAll_returns env top pattern replace once :
  once || negb (nestedHits env pattern top) = true ->
  exists r ch, searchReplaceAll env top pattern replace once false = Ok (r, ch).
Proof.
  intros H. destruct once.
  - rewrite searchReplaceAll_once. eexists. eexists. reflexivity.
  - cbn [orb] in H. apply negb_true_iff in H.
    rewrite (searchReplaceAll_outermost env top pattern replace H).
    eexists. eexists. reflexivity.
Qed.

(** C10: no slot that [doSearch] reports lies below a unary node tagged
    [opInitValueOf], whatever the pattern, the expression and [once]; the
    children of such a node contribute nothing; [searchReplaceAll] on
    such a node either replaces the whole node (when the node itself
    matches) or returns it as it is, with [change] false; and inside any
    expression, a node tagged [opInitValueOf] that is not itself part of
    a match is found unchanged, child included, in what
    [searchReplaceAll] returns, which it does with [once] and whenever
    the matches (all of them outside the node) do not lie inside one
    another; when they do, the loop assigns to a slot of a released node
    and nothing is returned. *)
Theorem search_skips_initValueOf :
  forall (env : Env) (pattern replace top c : Exp) (once : bool),
    forallb (fun p => negb (belowInitValueOf top p))
            (doSearch env pattern top [] [] once) = true
    /\ doSearchChildren env pattern (Unary opInitValueOf c) [] [] once = []
    /\ searchReplaceAll env (Unary opInitValueOf c) pattern replace once false
       = Ok (if exp_eq env pattern (Unary opInitValueOf c)
             then (replace, true)
             else (Unary opInitValueOf c, false))
    /\ (forall path,
          getAt top path = Some (Unary opInitValueOf c) ->
          existsb (fun h => isPrefix h path) (doSearch env pattern top [] [] false)
          = false ->
          if once || negb (nestedHits env pattern top)
          then exists r ch,
                 searchReplaceAll env top pattern replace once false = Ok (r, ch)
                 /\ getAt r path = Some (Unary opInitValueOf c)
          else searchReplaceAll env top pattern replace once false = Fail Undefined).
Proof.
  intros env pattern replace top c once. split; [apply doSearch_not_below |].
  split; [reflexivity |]. split.
  - unfold searchReplaceAll. cbn [doSearch getOper].
    destruct (exp_eq env pattern (Unary opInitValueOf c)); cbn [andb negb orb app];
      change (OPER_eqb opInitValueOf opSubscript) with false;
      change (OPER_eqb opInitValueOf opInitValueOf) with true;
      cbn [negb replaceSlots existsb rootWritten setAt nonEmpty bind];
      destruct once; reflexivity.
  - intros path G N.
    destruct (once || negb (nestedHits env pattern top)) eqn:D.
    + destruct (searchReplaceAll_returns env top pattern replace once D) as (r & ch & E).
      exists r, ch. split; [exact E |].
      apply (initValueOf_kept env pattern replace top c once path r ch G N E).
    + apply orb_false_iff in D. destruct D as [-> D].
      apply negb_false_iff in D. apply searchReplaceAll_nested. exact D.
Qed.

(** ** Constant folding of shifts *)

(** C2 at a failing input: the fold of [8 >>A 1] ORs the mask
    [((1 << 1) - 1) << 31] into the result whatever the sign of the left
    operand, so [simplify] returns the constant [-2147483644], where sign
    extension of the positive 8 gives 4; and a right shift by 32 has no
    guard like the one of the left shift, whose fold gives zero. *)
Theorem simplify_shiftRA_sets_high_bits :
  simplify 3 plainEnv (Binary opShiftRA (Const_get 8) (Const_get 1))
  = Ok (Const_get (-2147483644))
  /\ specShiftRA 8 1 = 4
  /\ simplify 3 plainEnv (Binary opShiftL (Const_get 8) (Const_get 32))
     = Ok (Const_get 0)
  /\ simplify 3 plainEnv (Binary opShiftR (Const_get 8) (Const_get 32))
     = Fail Undefined
  /\ simplify 3 plainEnv (Binary opShiftRA (Const_get 8) (Const_get 32))
     = Fail Undefined
  /\ simplify 3 clearingEnv (Binary opShiftRA (Const_get 8) (Const_get 1))
     = Ok (Const_get (-2147483644)).
Proof. repeat split; reflexivity. Qed.

(** ** Idempotence *)


(** ** Termination of the driver *)

(** *** Every rule that counts as a modification makes the node lighter *)

Lemma constWeight_bounds k : (1 <= constWeight k <= 3)%nat.
Proof. unfold constWeight. destruct (_ =? _); lia. Qed.

Lemma weight_pos e : (1 <= weight e)%nat.
Proof.
  induction e as [u cs | op | op a IHa | op a IHa b IHb | op a IHa b IHb c IHc
                 | ty a IHa | a IHa d | ty | op a IHa p | a IHa rtl];
    cbn [weight]; try lia.
  - destruct u; try lia. apply constWeight_bounds.
  - unfold binaryWeight. destruct op; try lia; destruct (isConstNode b); lia.
  - unfold ternaryWeight. destruct op; lia.
Qed.

Ltac inv_ok H := inversion H; subst; clear H.

Ltac brk H :=
  lazymatch type of H with
  | bind ?m _ = _ =>
      let E := fresh "E" in destruct m eqn:E; cbn [bind] in H; [| discriminate H]
  | (if ?c then _ else _) = _ => let E := fresh "E" in destruct c eqn:E
  | match ?x with _ => _ end = _ => destruct x eqn:?
  | fire _ = _ => unfold fire in H
  | noRule = _ => unfold noRule in H
  | Ok _ = Ok _ => inv_ok H
  | Fail _ = Ok _ => discriminate H
  end.

Ltac bools :=
  repeat match goal with
    | H : _ && _ = true |- _ => apply andb_true_iff in H; destruct H
    | H : _ || _ = true |- _ => apply orb_true_iff in H; destruct H
    | H : isOneOf _ _ = true |- _ => unfold isOneOf in H; cbn [existsb] in H
    | H : false = true |- _ => discriminate H
    | H : isIntConst _ = true |- _ => unfold isIntConst in H
    | H : isOp _ _ = true |- _ => unfold isOp in H
    | H : OPER_eqb _ _ = true |- _ => apply OPER_eqb_eq in H
    | H : (_ =? _) = true |- _ => apply Z.eqb_eq in H
    end.

Ltac shapes :=
  repeat match goal with
    | H : sub1 ?s = Ok _ |- _ =>
        is_var s; unfold sub1, fromOption in H; destruct s; cbn [getSubExp1] in H;
        try discriminate H; inv_ok H
    | H : sub2 ?s = Ok _ |- _ =>
        is_var s; unfold sub2, fromOption in H; destruct s; cbn [getSubExp2] in H;
        try discriminate H; inv_ok H
    | H : sub3 ?s = Ok _ |- _ =>
        is_var s; unfold sub3, fromOption in H; destruct s; cbn [getSubExp3] in H;
        try discriminate H; inv_ok H
    | H : sub1 (_ _) = Ok _ |- _ =>
        unfold sub1, fromOption in H; cbn [getSubExp1] in H; try discriminate H; inv_ok H
    | H : sub2 (_ _) = Ok _ |- _ =>
        unfold sub2, fromOption in H; cbn [getSubExp2] in H; try discriminate H; inv_ok H
    | H : sub3 (_ _) = Ok _ |- _ =>
        unfold sub3, fromOption in H; cbn [getSubExp3] in H; try discriminate H; inv_ok H
    | H : intOf (_ _) = Ok _ |- _ =>
        unfold intOf, fromOption in H; cbn [getInt] in H; try discriminate H; inv_ok H
    | H : setInt _ (_ _) = Ok _ |- _ =>
        cbn [setInt] in H; try discriminate H; inv_ok H
    | H : intOf ?s = Ok _ |- _ =>
        is_var s; unfold intOf, fromOption in H; destruct s as [[] ? | | | | | | | | |];
        cbn [getInt] in H; try discriminate H; inv_ok H
    | H : setInt _ ?s = Ok _ |- _ =>
        is_var s; destruct s as [[] ? | | | | | | | | |]; cbn [setInt] in H;
        try discriminate H; inv_ok H
    | H : setSubExp2 _ ?s = Ok _ |- _ =>
        is_var s; destruct s; cbn [setSubExp2 setOper] in H; try discriminate H; inv_ok H
    | H : setSubExp2 _ (?f _) = Ok _ |- _ =>
        cbn [setSubExp2 setOper] in H; try discriminate H; inv_ok H
    | H : Ok _ = Ok _ |- _ => inv_ok H
    | H : isConstK _ _ = Ok _ |- _ => unfold isConstK in H; repeat brk H
    | H : isConstNonZero _ = Ok _ |- _ => unfold isConstNonZero in H; repeat brk H
    end.

Ltac weigh :=
  unfold clone, Const_get, Const_getStr, Const_getFlt in *;
  cbn [weight binaryWeight ternaryWeight isConstNode getOper setOper] in *;
  change (constWeight 0) with 3%nat in *; change (constWeight 1) with 1%nat in *;
  repeat match goal with
    | |- context [constWeight ?k] =>
        lazymatch goal with
        | _ : (1 <= constWeight k <= 3)%nat |- _ => fail
        | _ => pose proof (constWeight_bounds k)
        end
    | |- context [weight ?e] =>
        lazymatch goal with
        | _ : (1 <= weight e)%nat |- _ => fail
        | _ => pose proof (weight_pos e)
        end
    end.

Ltac rule_tac H :=
  repeat brk H; shapes; bools; subst; cbn [getOper] in *; bools; subst;
  try discriminate; weigh; try lia.


Lemma rule_fold_decreases : decreases rule_fold.
Proof.
  intros env op s1 s2 res H. unfold rule_fold in H.
  rule_tac H.
  destruct op; cbn [foldBinary] in E2; try discriminate E2; cbn [binaryWeight]; lia.
Qed.

Lemma rule_selfZero_decreases : decreases rule_selfZero.
Proof. intros env op s1 s2 res H. unfold rule_selfZero in H. rule_tac H. Qed.

Lemma rule_selfSame_decreases : decreases rule_selfSame.
Proof. intros env op s1 s2 res H. unfold rule_selfSame in H. rule_tac H. Qed.

Lemma rule_selfEquals_decreases : decreases rule_selfEquals.
Proof. intros env op s1 s2 res H. unfold rule_selfEquals in H. rule_tac H. Qed.

Lemma rule_plusPlusConst_decreases : decreases rule_plusPlusConst.
Proof. intros env op s1 s2 res H. unfold rule_plusPlusConst in H. rule_tac H. Qed.

Lemma rule_minusPlusConst_decreases : decreases rule_minusPlusConst.
Proof. intros env op s1 s2 res H. unfold rule_minusPlusConst in H. rule_tac H. Qed.

Lemma rule_multMinusSelf_decreases : decreases rule_multMinusSelf.
Proof. intros env op s1 s2 res H. unfold rule_multMinusSelf in H. rule_tac H. Qed.

Lemma rule_plusMultSelf_decreases : decreases rule_plusMultSelf.
Proof. intros env op s1 s2 res H. unfold rule_plusMultSelf in H. rule_tac H. Qed.

Lemma wrap32_zero_iff x : Int32.wrap32 x = 0 <-> x mod Int32.modulus = 0.
Proof.
  unfold Int32.wrap32, Int32.modulus, Int32.half_modulus.
  pose proof (Z.mod_pos_bound x 4294967296 ltac:(lia)) as B.
  destruct (Z.ltb_spec (x mod 4294967296) 2147483648); lia.
Qed.

Lemma constWeight_wrap32 x : constWeight (Int32.wrap32 x) = constWeight x.
Proof.
  unfold constWeight.
  rewrite (wrap32_id (Int32.wrap32 x)) by apply wrap32_range.
  reflexivity.
Qed.

Lemma constWeight_opp x : constWeight (- x) = constWeight x.
Proof.
  unfold constWeight.
  destruct (Z.eqb_spec (Int32.wrap32 (- x)) 0) as [H | H];
    destruct (Z.eqb_spec (Int32.wrap32 x) 0) as [H' | H']; try reflexivity;
    exfalso; rewrite wrap32_zero_iff in H, H'; unfold Int32.modulus in *;
    rewrite Z.mod_divide in H, H' by lia.
  - apply H'. apply Z.divide_opp_r in H. rewrite Z.opp_involutive in H. exact H.
  - apply H. apply Z.divide_opp_r. exact H'.
Qed.

Lemma constWeight_pow2 k : 0 <= k < 32 -> constWeight (Z.shiftl 1 k) = 1%nat.
Proof.
  intros Hk. unfold constWeight.
  destruct (Z.eqb_spec (Int32.wrap32 (Z.shiftl 1 k)) 0) as [H | H]; [| reflexivity].
  exfalso. rewrite wrap32_zero_iff in H. unfold Int32.modulus in H.
  rewrite Z.shiftl_1_l in H.
  assert (B : 0 < 2 ^ k < 4294967296).
  { split; [apply Z.pow_pos_nonneg; lia |].
    change 4294967296 with (2 ^ 32). apply Z.pow_lt_mono_r; lia. }
  rewrite Z.mod_small in H by lia. lia.
Qed.

Lemma flipNegConst_weight op s2 op' s2' s1 :
  flipNegConst op s2 = Ok (op', s2') ->
  weight (Binary op' s1 s2') = weight (Binary op s1 s2).
Proof.
  intros H. unfold flipNegConst in H. rule_tac H;
    rewrite ?OPER_eqb_refl; cbn [binaryWeight];
    rewrite constWeight_wrap32, constWeight_opp; reflexivity.
Qed.

Lemma rule_plusZero_decreases : decreases rule_plusZero.
Proof. intros env op s1 s2 res H. unfold rule_plusZero in H. rule_tac H. Qed.

Lemma rule_orFalse_decreases : decreases rule_orFalse.
Proof. intros env op s1 s2 res H. unfold rule_orFalse in H. rule_tac H. Qed.

Lemma rule_multZero_decreases : decreases rule_multZero.
Proof. intros env op s1 s2 res H. unfold rule_multZero in H. rule_tac H. Qed.

Lemma rule_andFalse_decreases : decreases rule_andFalse.
Proof. intros env op s1 s2 res H. unfold rule_andFalse in H. rule_tac H. Qed.

Lemma rule_multOne_decreases : decreases rule_multOne.
Proof. intros env op s1 s2 res H. unfold rule_multOne in H. rule_tac H. Qed.

Lemma rule_divSelf_decreases : decreases rule_divSelf.
Proof. intros env op s1 s2 res H. unfold rule_divSelf in H. rule_tac H. Qed.

Lemma rule_divOne_decreases : decreases rule_divOne.
Proof. intros env op s1 s2 res H. unfold rule_divOne in H. rule_tac H. Qed.

Lemma rule_modOne_decreases : decreases rule_modOne.
Proof. intros env op s1 s2 res H. unfold rule_modOne in H. rule_tac H. Qed.

Lemma rule_modSelf_decreases : decreases rule_modSelf.
Proof. intros env op s1 s2 res H. unfold rule_modSelf in H. rule_tac H. Qed.

Lemma rule_andMinusOne_decreases : decreases rule_andMinusOne.
Proof. intros env op s1 s2 res H. unfold rule_andMinusOne in H. rule_tac H. Qed.

Lemma rule_andTrue_decreases : decreases rule_andTrue.
Proof. intros env op s1 s2 res H. unfold rule_andTrue in H. rule_tac H. Qed.

Lemma rule_orTrue_decreases : decreases rule_orTrue.
Proof. intros env op s1 s2 res H. unfold rule_orTrue in H. rule_tac H. Qed.

Lemma rule_shiftL_decreases : decreases (rule_shift opShiftL opMult).
Proof.
  intros env op s1 s2 res H. unfold rule_shift in H. rule_tac H.
  rewrite constWeight_wrap32, constWeight_pow2 by lia. lia.
Qed.

Lemma rule_shiftR_decreases : decreases (rule_shift opShiftR opDiv).
Proof.
  intros env op s1 s2 res H. unfold rule_shift in H. rule_tac H.
  rewrite constWeight_wrap32, constWeight_pow2 by lia. lia.
Qed.

Lemma rule_cmpConst_decreases top k inner newOp :
  In (top, newOp) [(opEquals, opEquals); (opEquals, opNotEqual); (opNotEqual, opNotEqual);
                   (opEquals, opLessEq); (opEquals, opLessEqUns)] ->
  In inner [opEquals; opGtr; opGtrUns] ->
  decreases (rule_cmpConst top k inner newOp).
Proof.
  intros Hin Hinner env op s1 s2 res H. unfold rule_cmpConst in H.
  cbn [In] in Hin, Hinner.
  repeat match goal with
         | H : _ \/ _ |- _ => destruct H
         | H : False |- _ => destruct H
         | H : (_, _) = (_, _) |- _ => inv_ok H
         end; subst; rule_tac H.
Qed.

Lemma rule_plusNegEqZero_decreases : decreases rule_plusNegEqZero.
Proof. intros env op s1 s2 res H. unfold rule_plusNegEqZero in H. rule_tac H. Qed.

Lemma rule_eqNeZero_decreases : decreases rule_eqNeZero.
Proof. intros env op s1 s2 res H. unfold rule_eqNeZero in H. rule_tac H. Qed.

Lemma rule_zeroMinusNeZero_decreases : decreases rule_zeroMinusNeZero.
Proof. intros env op s1 s2 res H. unfold rule_zeroMinusNeZero in H. rule_tac H. Qed.

Lemma rule_leOrEq_decreases : decreases rule_leOrEq.
Proof. intros env op s1 s2 res H. unfold rule_leOrEq in H. rule_tac H. Qed.

Lemma rule_andSelf_decreases : decreases rule_andSelf.
Proof. intros env op s1 s2 res H. unfold rule_andSelf in H. rule_tac H. Qed.

Lemma rule_plusMultN_decreases : decreases rule_plusMultN.
Proof. intros env op s1 s2 res H. unfold rule_plusMultN in H. rule_tac H. Qed.

Lemma rule_multMultConst_decreases : decreases rule_multMultConst.
Proof. intros env op s1 s2 res H. unfold rule_multMultConst in H. rule_tac H. Qed.

Lemma rule_fminusZero_decreases : decreases rule_fminusZero.
Proof. intros env op s1 s2 res H. unfold rule_fminusZero in H. rule_tac H. Qed.

Lemma rule_multPlusSame_decreases : decreases rule_multPlusSame.
Proof. intros env op s1 s2 res H. unfold rule_multPlusSame in H. rule_tac H. Qed.

Lemma rule_plusMultPlusSame_decreases : decreases rule_plusMultPlusSame.
Proof. intros env op s1 s2 res H. unfold rule_plusMultPlusSame in H. rule_tac H. Qed.

Lemma rule_zeroMinusLessUnsAnd_decreases : decreases rule_zeroMinusLessUnsAnd.
Proof. intros env op s1 s2 res H. unfold rule_zeroMinusLessUnsAnd in H. rule_tac H. Qed.

Lemma rule_sizeLocation_decreases : decreases rule_sizeLocation.
Proof. intros env op s1 s2 res H. unfold rule_sizeLocation in H. rule_tac H. Qed.

Lemma rule_lnot_decreases inner newOp :
  In (inner, newOp) [(opEquals, opNotEqual); (opNotEqual, opEquals)] ->
  decreases (rule_lnot inner newOp).
Proof.
  intros Hin env op s1 s2 res H. unfold rule_lnot in H. cbn [In] in Hin.
  repeat match goal with
         | H : _ \/ _ |- _ => destruct H
         | H : False |- _ => destruct H
         | H : (_, _) = (_, _) |- _ => inv_ok H
         end; rule_tac H; destruct s1; cbn [getOper] in *; subst; weigh; try lia;
    try discriminate.
Qed.

Ltac open_sum :=
  match goal with
  | H : sumOfProducts _ _ _ _ = Ok _ |- _ => unfold sumOfProducts in H; repeat brk H
  end.

Lemma rule_divDistribute_decreases : decreases rule_divDistribute.
Proof.
  intros env op s1 s2 res H. unfold rule_divDistribute in H.
  repeat brk H; open_sum; shapes; bools; subst; cbn [getOper] in *; bools; subst;
    try discriminate; weigh; try lia.
Qed.

Lemma rule_modDistribute_decreases : decreases rule_modDistribute.
Proof.
  intros env op s1 s2 res H. unfold rule_modDistribute in H.
  repeat brk H; open_sum; shapes; bools; subst; cbn [getOper] in *; bools; subst;
    try discriminate; weigh; try lia.
Qed.

Lemma accessMember_weight path : forall parent,
  weight (accessMember parent path) = weight parent.
Proof.
  unfold accessMember.
  induction path as [| step path IH]; intros parent; cbn [fold_left].
  - reflexivity.
  - rewrite IH. destruct step; cbn [weight binaryWeight isConstNode Const_getStr Const_get];
      lia.
Qed.

Lemma rule_compound_decreases : decreases rule_compound.
Proof.
  intros env op s1 s2 res H. unfold rule_compound in H.
  repeat brk H; bools; subst.
  all: unfold defOfSubscript in *.
  all: destruct s1; try discriminate;
    repeat match goal with
      | H : (if ?c then _ else _) = Ok _ |- _ => destruct c; try discriminate H
      | H : match ?d with nullDef => _ | wildDef => _ | stmtDef _ => _ end = _ |- _ =>
          destruct d; try discriminate H
      | H : Ok _ = Ok _ |- _ => inv_ok H
      end.
  all: unfold convertFromOffsetToCompound, fromOption in *; try discriminate.
  all: repeat match goal with H : Ok _ = Ok _ |- _ => inv_ok H end.
  all: unfold Location_memOf, Location_get; cbn [weight];
    rewrite ?accessMember_weight; weigh; lia.
Qed.

(** *** The rules of the other classes *)

Lemma setOper_weight_cmp op' s1 :
  negatedComparison (getOper s1) = Some op' -> weight (setOper op' s1) = weight s1.
Proof.
  intros H. destruct s1; cbn [getOper setOper weight] in *; try reflexivity;
    match goal with
    | op : OPER |- _ => destruct op; cbn [negatedComparison] in H; try discriminate H;
                        inv_ok H; reflexivity
    end.
Qed.

Lemma unaryRules_decreases op s1 res :
  unaryRules op s1 = Ok (Some res) -> (weight res < weight s1 + 3)%nat.
Proof.
  intros H. unfold unaryRules in H.
  destruct (if isOneOf op [opNot; opLNot] then negatedComparison (getOper s1) else None)
    as [op' |] eqn:N.
  - unfold fire in H. inv_ok H.
    destruct (isOneOf op [opNot; opLNot]); [| discriminate N].
    rewrite (setOper_weight_cmp _ _ N). lia.
  - rule_tac H.
Qed.

Lemma locationRule_decreases res r :
  locationRule res = Ok (Some r) -> (weight r < weight res)%nat.
Proof. intros H. unfold locationRule in H. rule_tac H. Qed.


Ltac brk_all :=
  repeat match goal with
    | E : (if _ then _ else _) = Ok true |- _ => progress (repeat brk E)
    | E : (if _ then _ else _) = Ok (Some _) |- _ => progress (repeat brk E)
    | E : bind _ _ = Ok true |- _ => progress (repeat brk E)
    | E : bind _ _ = Ok (Some _) |- _ => progress (repeat brk E)
    end.

Lemma ternaryWeight_lower op a b c : (a + b + c + 4 <= ternaryWeight op a b c)%nat.
Proof. unfold ternaryWeight. destruct op; lia. Qed.

Lemma ternaryRules_decreases env op s1 s2 s3 res :
  ternaryRules env op s1 s2 s3 = Ok (Some res) ->
  (weight res < weight (Ternary op s1 s2 s3))%nat.
Proof.
  intros H. unfold ternaryRules in H.
  repeat brk H; brk_all; shapes; bools; subst; cbn [getOper] in *; bools; subst;
    try discriminate; weigh;
    try match goal with
    | |- context [ternaryWeight ?op ?a ?b ?c] =>
        pose proof (ternaryWeight_lower op a b c)
    end; try lia.
  all: unfold ternaryWeight; destruct op; lia.
Qed.

Lemma isRegN_zero_weight s1 : isRegN 0 s1 = true -> (6 <= weight s1)%nat.
Proof.
  unfold isRegN, isIntConstEq. intros H. bools.
  destruct s1; cbn [getOper getSubExp1] in *; try discriminate; subst;
    match goal with
    | H : match getInt ?s with _ => _ end = true |- _ =>
        destruct s as [[] ? | | | | | | | | |]; cbn [getInt] in H; try discriminate H
    end; bools; subst; weigh; lia.
Qed.

Lemma refRules_decreases env s1 def res :
  refRules env s1 def = Ok (Some res) -> (weight res < weight s1 + 3)%nat.
Proof.
  intros H. unfold refRules in H.
  repeat brk H; bools; subst; weigh; try lia.
  pose proof (isRegN_zero_weight _ E0).
  change (weight (Location_regOf 24)) with 4%nat. lia.
Qed.

(** *** The silent canonicalisations keep the weight *)

Lemma commuteIntConst_weight op s1 s2 s1' s2' :
  commuteIntConst op (s1, s2) = (s1', s2') ->
  weight (Binary op s1' s2') = weight (Binary op s1 s2).
Proof.
  unfold commuteIntConst. destruct (isIntConst s1 && isOneOf op _) eqn:E; intros H;
    inv_ok H; [| reflexivity].
  bools; subst; cbn [weight binaryWeight]; lia.
Qed.

Lemma commuteBoolConst_weight op s1 s2 s1' s2' :
  commuteBoolConst op (s1, s2) = (s1', s2') ->
  weight (Binary op s1' s2') = weight (Binary op s1 s2).
Proof.
  unfold commuteBoolConst.
  destruct (isBoolConst s1 && negb (isBoolConst s2) && isOneOf op _) eqn:E; intros H;
    inv_ok H; [| reflexivity].
  bools; subst; cbn [weight binaryWeight]; lia.
Qed.

Lemma commuteGlobalAddr_weight op s1 s2 s1' s2' :
  commuteGlobalAddr op (s1, s2) = Ok (s1', s2') ->
  weight (Binary op s1' s2') = weight (Binary op s1 s2).
Proof.
  unfold commuteGlobalAddr. intros H. repeat brk H; [| reflexivity].
  bools; subst; cbn [weight binaryWeight]; lia.
Qed.

Lemma firstRule_decreases rules :
  Forall decreases rules -> decreases (firstRule rules).
Proof.
  induction 1 as [| r rules Hr _ IH]; intros env op s1 s2 res H; cbn [firstRule] in H.
  - discriminate H.
  - repeat brk H.
    + eapply Hr; eassumption.
    + eapply IH; eassumption.
Qed.

Lemma rulesBeforeCommute_decrease : Forall decreases rulesBeforeCommute.
Proof.
  repeat constructor;
    auto using rule_fold_decreases, rule_selfZero_decreases, rule_selfSame_decreases,
      rule_selfEquals_decreases.
Qed.

Lemma rulesBeforeFlip_decrease : Forall decreases rulesBeforeFlip.
Proof.
  repeat constructor;
    auto using rule_plusPlusConst_decreases, rule_minusPlusConst_decreases,
      rule_multMinusSelf_decreases, rule_plusMultSelf_decreases.
Qed.

Lemma rulesBeforeDescent_decrease : Forall decreases rulesBeforeDescent.
Proof.
  repeat constructor;
    auto using rule_plusZero_decreases, rule_orFalse_decreases, rule_multZero_decreases,
      rule_andFalse_decreases, rule_multOne_decreases, rule_divSelf_decreases,
      rule_divOne_decreases, rule_modOne_decreases, rule_modSelf_decreases,
      rule_andMinusOne_decreases, rule_andTrue_decreases, rule_orTrue_decreases,
      rule_shiftL_decreases, rule_shiftR_decreases, rule_plusNegEqZero_decreases,
      rule_eqNeZero_decreases, rule_zeroMinusNeZero_decreases, rule_leOrEq_decreases;
    apply rule_cmpConst_decreases; cbn [In]; auto 10.
Qed.

Lemma rulesAfterDescent_decrease : Forall decreases rulesAfterDescent.
Proof.
  repeat constructor;
    auto using rule_andSelf_decreases, rule_plusMultN_decreases,
      rule_multMultConst_decreases, rule_compound_decreases, rule_fminusZero_decreases,
      rule_multPlusSame_decreases, rule_plusMultPlusSame_decreases,
      rule_divDistribute_decreases, rule_modDistribute_decreases,
      rule_zeroMinusLessUnsAnd_decreases, rule_sizeLocation_decreases;
    apply rule_lnot_decreases; cbn [In]; auto.
Qed.

Lemma binaryBeforeDescent_weight env op s1 s2 pr :
  binaryBeforeDescent env op s1 s2 = Ok pr ->
  match pr with
  | Rewritten res => (weight res < weight (Binary op s1 s2))%nat
  | Pending op' s1' s2' => weight (Binary op' s1' s2') = weight (Binary op s1 s2)
  end.
Proof.
  intros H. unfold binaryBeforeDescent in H.
  destruct (firstRule rulesBeforeCommute env op s1 s2) as [[res |] |] eqn:R1;
    cbn [bind] in H; try discriminate H.
  { inv_ok H. eapply (firstRule_decreases _ rulesBeforeCommute_decrease); eassumption. }
  destruct (commuteIntConst op (s1, s2)) as [a1 a2] eqn:C1.
  destruct (commuteBoolConst op (a1, a2)) as [b1 b2] eqn:C2.
  destruct (commuteGlobalAddr op (b1, b2)) as [[c1 c2] |] eqn:C3;
    cbn [bind] in H; try discriminate H.
  assert (W : weight (Binary op c1 c2) = weight (Binary op s1 s2)).
  { rewrite (commuteGlobalAddr_weight _ _ _ _ _ C3),
      (commuteBoolConst_weight _ _ _ _ _ C2).
    apply (commuteIntConst_weight _ _ _ _ _ C1). }
  destruct (firstRule rulesBeforeFlip env op c1 c2) as [[res |] |] eqn:R2;
    cbn [bind] in H; try discriminate H.
  { inv_ok H. rewrite <- W.
    eapply (firstRule_decreases _ rulesBeforeFlip_decrease); eassumption. }
  destruct (flipNegConst op c2) as [[op' c2'] |] eqn:F; cbn [bind] in H;
    try discriminate H.
  pose proof (flipNegConst_weight _ _ _ _ c1 F) as W'.
  destruct (firstRule rulesBeforeDescent env op' c1 c2') as [[res |] |] eqn:R3;
    cbn [bind] in H; try discriminate H; inv_ok H.
  - rewrite <- W, <- W'.
    eapply (firstRule_decreases _ rulesBeforeDescent_decrease); eassumption.
  - rewrite W'. exact W.
Qed.



(** *** A pass does not increase the weight *)



Lemma Binary_weight_mono op s1 s2 s1' s2' :
  (weight s1' <= weight s1)%nat -> (weight s2' <= weight s2)%nat ->
  (isConstNode s2 = true -> s2' = s2) ->
  (weight (Binary op s1' s2') <= weight (Binary op s1 s2))%nat
  /\ ((weight s1' < weight s1)%nat \/ (weight s2' < weight s2)%nat ->
      (weight (Binary op s1' s2') < weight (Binary op s1 s2))%nat).
Proof.
  intros H1 H2 HC. cbn [weight]. pose proof (weight_pos s2).
  destruct (isConstNode s2) eqn:C.
  - rewrite (HC eq_refl) in *. rewrite C. unfold binaryWeight. destruct op; lia.
  - unfold binaryWeight. destruct (isConstNode s2'); destruct op; lia.
Qed.

Lemma Ternary_weight_mono op a b c a' b' c' :
  (weight a' <= weight a)%nat -> (weight b' <= weight b)%nat ->
  (weight c' <= weight c)%nat ->
  (weight (Ternary op a' b' c') <= weight (Ternary op a b c))%nat
  /\ ((weight a' < weight a)%nat \/ (weight b' < weight b)%nat
      \/ (weight c' < weight c)%nat ->
      (weight (Ternary op a' b' c') < weight (Ternary op a b c))%nat).
Proof.
  intros. cbn [weight]. unfold ternaryWeight. destruct op; lia.
Qed.

Section OnePass.
Variable rec : Exp -> bool -> Res (Exp * bool).
Variable recS : Exp -> Res Exp.
Variable env : Env.
Hypothesis Hrec : passSpec rec.
Hypothesis HrecS : driverSpec recS.

Ltac flags :=
  repeat match goal with
         | F : ?b = true -> _, T : ?b = true |- _ => specialize (F T)
         | F : true = true -> _ |- _ => specialize (F eq_refl)
         | H : _ \/ _ |- _ => destruct H
         end.

Ltac call E s' b' L F K :=
  match goal with
  | H : context [rec ?s ?b] |- _ =>
      let f := fresh "f" in
      destruct (rec s b) as [[s' b'] | f] eqn:E; cbn [bind] in H; [| discriminate H];
      destruct (Hrec _ _ _ _ E) as (L & F & K)
  end.

Lemma unaryStep_spec mk op s1 b e' b' :
  (forall a, weight (mk a) = (weight a + 3)%nat) ->
  unaryStep rec mk op s1 b = Ok (e', b') ->
  (weight e' <= weight s1 + 3)%nat
  /\ (b' = true -> b = true \/ (weight e' < weight s1 + 3)%nat).
Proof.
  intros Hmk H. unfold unaryStep in H.
  call E1 x1 c1 L1 F1 K1.
  destruct (unaryRules op x1) as [[res |] | f'] eqn:R; cbn [bind] in H;
    try discriminate H.
  - inv_ok H. pose proof (unaryRules_decreases _ _ _ R). split; [lia |]. intros _. lia.
  - destruct (isOneOf op [opMemOf; opRegOf]).
    + call E2 x2 c2 L2 F2 K2. inv_ok H. rewrite Hmk. split; [lia |].
      intros T. flags; auto; right; lia.
    + inv_ok H. rewrite Hmk. split; [lia |].
      intros T. flags; auto; right; lia.
Qed.

Lemma polyStep_spec : passSpec (polyStep rec recS env).
Proof.
  intros e b e' b' H.
  destruct e as [u cs | op | op a | op s1 s2 | op s1 s2 s3 | ty a | a d | ty | op a p
                | a rtl]; cbn [polyStep] in H.
  - inv_ok H. repeat split; try lia. destruct (baseClearsMod env); auto; discriminate.
  - inv_ok H. repeat split; try lia. destruct (baseClearsMod env); auto; discriminate.
  - (* Unary *)
    destruct (unaryStep_spec (Unary op) _ _ _ _ _ (fun _ => eq_refl) H) as [L F].
    cbn [weight isConstNode]. repeat split; try assumption. discriminate.
  - (* Binary *)
    call E1 x1 c1 L1 F1 K1. call E2 x2 c2 L2 F2 K2.
    destruct (Binary_weight_mono op s1 s2 x1 x2 L1 L2 K2) as [M MS].
    destruct (binaryBeforeDescent env op x1 x2) as [[res | op' y1 y2] | f'] eqn:B;
      cbn [bind] in H; try discriminate H;
      pose proof (binaryBeforeDescent_weight _ _ _ _ _ B) as W; cbn beta iota in W.
    { inv_ok H. repeat split; try lia; try discriminate. }
    destruct (isOneOf op' [opOr; opAnd]) eqn:OA.
    + call E3 x3 c3 L3 F3 K3. call E4 x4 c4 L4 F4 K4. inv_ok H.
      destruct (Binary_weight_mono op' y1 y2 x3 x4 L3 L4 K4) as [M' MS'].
      repeat split; try lia; try discriminate.
      intros T. flags; auto; right; lia.
    + destruct (firstRule rulesAfterDescent env op' y1 y2) as [[res |] | f'] eqn:R;
        cbn [bind] in H; try discriminate H; inv_ok H.
      * pose proof (firstRule_decreases _ rulesAfterDescent_decrease _ _ _ _ _ R).
        repeat split; try lia; try discriminate.
      * repeat split; try lia; try discriminate.
        intros T. flags; auto; right; lia.
  - (* Ternary *)
    call E1 x1 c1 L1 F1 K1. call E2 x2 c2 L2 F2 K2. call E3 x3 c3 L3 F3 K3.
    destruct (Ternary_weight_mono op s1 s2 s3 x1 x2 x3 L1 L2 L3) as [M MS].
    destruct (ternaryRules env op x1 x2 x3) as [[res |] | f'] eqn:R;
      cbn [bind] in H; try discriminate H; inv_ok H.
    + pose proof (ternaryRules_decreases _ _ _ _ _ _ R).
      repeat split; try lia; try discriminate.
    + repeat split; try lia; try discriminate.
      intros T. flags; auto; right; lia.
  - (* TypedExp *)
    destruct (isOp opRegOf a).
    + inv_ok H. cbn [weight]. repeat split; try lia; try discriminate.
    + destruct (recS a) as [a' | f'] eqn:S; cbn [bind] in H; try discriminate H.
      inv_ok H. pose proof (HrecS _ _ S). cbn [weight].
      repeat split; try lia; try discriminate. auto.
  - (* RefExp *)
    call E1 x1 c1 L1 F1 K1. destruct c1.
    + inv_ok H. cbn [weight]. repeat split; try lia; try discriminate.
      intros _. flags; auto; right; lia.
    + destruct (refRules env x1 d) as [[res |] | f'] eqn:R; cbn [bind] in H;
        try discriminate H; inv_ok H; cbn [weight].
      * pose proof (refRules_decreases _ _ _ _ R).
        repeat split; try lia; try discriminate.
      * repeat split; try lia; discriminate.
  - inv_ok H. repeat split; try lia. destruct (baseClearsMod env); auto; discriminate.
  - (* Location *)
    destruct (unaryStep rec (fun a0 => Location op a0 p) op a b) as [[res b1] | f'] eqn:U;
      cbn [bind] in H; try discriminate H.
    destruct (unaryStep_spec (fun a0 => Location op a0 p) _ _ _ _ _ (fun _ => eq_refl) U)
      as [L F].
    destruct (locationRule res) as [[r |] | f'] eqn:R; cbn [bind] in H;
      try discriminate H; inv_ok H; cbn [weight].
    + pose proof (locationRule_decreases _ _ R).
      repeat split; try lia; try discriminate.
    + repeat split; try assumption; discriminate.
  - (* FlagDef *)
    destruct (unaryStep_spec (fun a0 => FlagDef a0 rtl) _ _ _ _ _ (fun _ => eq_refl) H)
      as [L F].
    cbn [weight isConstNode]. repeat split; try assumption. discriminate.
Qed.

Lemma driverStep_spec : driverSpec (driverStep rec recS).
Proof.
  intros e e' H. unfold driverStep in H.
  call E1 x1 c1 L1 F1 K1. destruct c1.
  - pose proof (HrecS _ _ H). lia.
  - inv_ok H. exact L1.
Qed.

End OnePass.

Lemma simplify_weight env :
  forall fuel, passSpec (polySimplify fuel env) /\ driverSpec (simplify fuel env).
Proof.
  induction fuel as [| fuel [IHp IHs]].
  - split; intros e; intros; discriminate.
  - split; cbn [polySimplify simplify].
    + apply polyStep_spec; assumption.
    + apply driverStep_spec; assumption.
Qed.


(** *** The rules read no fuel *)


Lemma fuelFree_Ok {A : Type} (a : A) : fuelFree (Ok a).
Proof. discriminate. Qed.

Lemma fuelFree_Undefined {A : Type} : fuelFree (@Fail A Undefined).
Proof. discriminate. Qed.

Lemma fuelFree_bind {A B : Type} (m : Res A) (k : A -> Res B) :
  fuelFree m -> (forall a, fuelFree (k a)) -> fuelFree (bind m k).
Proof.
  intros Hm Hk. destruct m as [a | f]; cbn [bind]; [apply Hk |].
  destruct f; [exfalso; apply Hm; reflexivity | discriminate].
Qed.

Lemma fuelFree_fromOption {A : Type} (o : option A) : fuelFree (fromOption o).
Proof. destruct o; discriminate. Qed.

Lemma fuelFree_setInt k e : fuelFree (setInt k e).
Proof. destruct e as [[] ? | | | | | | | | |]; discriminate. Qed.

Lemma fuelFree_setSubExp2 n e : fuelFree (setSubExp2 n e).
Proof. destruct e; discriminate. Qed.

Ltac ff :=
  repeat first
    [ apply fuelFree_Ok
    | apply fuelFree_Undefined
    | apply fuelFree_fromOption
    | apply fuelFree_setInt
    | apply fuelFree_setSubExp2
    | apply fuelFree_bind; [| intros ?]
    | match goal with
      | |- fuelFree (if ?c then _ else _) => destruct c
      | |- fuelFree (match ?x with _ => _ end) => destruct x
      end
    | progress unfold fire, noRule, sub1, sub2, sub3, intOf, isConstK, isConstNonZero,
        isAddrOfSubscriptedGlobal, signedRem, signedQuot ].

Lemma fuelFree_foldBinary op k1 k2 : fuelFree (foldBinary op k1 k2).
Proof. unfold foldBinary. destruct op; ff. Qed.


Lemma fuelFree_firstRule rules :
  Forall ruleFuelFree rules -> ruleFuelFree (firstRule rules).
Proof.
  induction 1 as [| r rules Hr _ IH]; intros env op s1 s2; cbn [firstRule].
  - discriminate.
  - apply fuelFree_bind; [apply Hr |]. intros [res |]; [discriminate | apply IH].
Qed.

Lemma fuelFree_rulesBeforeCommute : Forall ruleFuelFree rulesBeforeCommute.
Proof.
  repeat constructor; intros env op s1 s2.
  - unfold rule_fold. ff. apply fuelFree_foldBinary.
  - unfold rule_selfZero. ff.
  - unfold rule_selfSame. ff.
  - unfold rule_selfEquals. ff.
Qed.

Lemma fuelFree_rulesBeforeFlip : Forall ruleFuelFree rulesBeforeFlip.
Proof.
  repeat constructor; intros env op s1 s2.
  - unfold rule_plusPlusConst. ff.
  - unfold rule_minusPlusConst. ff.
  - unfold rule_multMinusSelf. ff.
  - unfold rule_plusMultSelf. ff.
Qed.

Lemma fuelFree_rulesBeforeDescent : Forall ruleFuelFree rulesBeforeDescent.
Proof.
  unfold rulesBeforeDescent.
  repeat constructor; intros env op s1 s2;
    unfold rule_plusZero, rule_orFalse, rule_multZero, rule_andFalse, rule_multOne,
      rule_divSelf, rule_divOne, rule_modOne, rule_modSelf, rule_andMinusOne,
      rule_andTrue, rule_orTrue, rule_shift, rule_cmpConst, rule_plusNegEqZero,
      rule_eqNeZero, rule_zeroMinusNeZero, rule_leOrEq; ff.
Qed.

Lemma fuelFree_rulesAfterDescent : Forall ruleFuelFree rulesAfterDescent.
Proof.
  unfold rulesAfterDescent.
  repeat constructor; intros env op s1 s2;
    unfold rule_andSelf, rule_plusMultN, rule_multMultConst, rule_lnot, rule_compound,
      rule_fminusZero, rule_multPlusSame, rule_plusMultPlusSame, rule_divDistribute,
      rule_modDistribute, rule_zeroMinusLessUnsAnd, rule_sizeLocation,
      sumOfProducts, defOfSubscript, convertFromOffsetToCompound; ff.
Qed.

Lemma fuelFree_binaryBeforeDescent env op s1 s2 :
  fuelFree (binaryBeforeDescent env op s1 s2).
Proof.
  unfold binaryBeforeDescent.
  apply fuelFree_bind; [apply (fuelFree_firstRule _ fuelFree_rulesBeforeCommute) |].
  intros [res |]; [discriminate |].
  destruct (commuteBoolConst op (commuteIntConst op (s1, s2))) as [a1 a2].
  apply fuelFree_bind; [unfold commuteGlobalAddr; ff |].
  intros [c1 c2].
  apply fuelFree_bind; [apply (fuelFree_firstRule _ fuelFree_rulesBeforeFlip) |].
  intros [res |]; [discriminate |].
  apply fuelFree_bind; [unfold flipNegConst; ff |].
  intros [op' c2'].
  apply fuelFree_bind; [apply (fuelFree_firstRule _ fuelFree_rulesBeforeDescent) |].
  intros [res |]; discriminate.
Qed.

Lemma fuelFree_unaryRules op s1 : fuelFree (unaryRules op s1).
Proof. unfold unaryRules. ff. Qed.

Lemma fuelFree_locationRule res : fuelFree (locationRule res).
Proof. unfold locationRule. ff. Qed.

Lemma fuelFree_ternaryRules env op s1 s2 s3 : fuelFree (ternaryRules env op s1 s2 s3).
Proof. unfold ternaryRules. ff. Qed.

Lemma fuelFree_refRules env s1 def : fuelFree (refRules env s1 def).
Proof. unfold refRules. ff. Qed.


(** *** Enough fuel *)


Lemma settles_const {A : Type} (r : Res A) : fuelFree r -> settles (fun _ => r).
Proof. intros H. exists 0%nat, r. split; [exact H | reflexivity]. Qed.

Lemma settles_bind {A B : Type} (f : nat -> Res A) (k : nat -> A -> Res B) :
  settles f ->
  (forall a, (exists n, f n = Ok a) -> settles (fun n => k n a)) ->
  settles (fun n => bind (f n) (k n)).
Proof.
  intros (n1 & r1 & F1 & S1) Hk.
  destruct r1 as [a | fl].
  - destruct (Hk a) as (n2 & r2 & F2 & S2).
    { exists n1. apply S1. lia. }
    exists (Nat.max n1 n2), r2. split; [exact F2 |].
    intros m Hm. rewrite S1 by lia. cbn [bind]. apply S2. lia.
  - exists n1, (Fail fl). split.
    + destruct fl; [exfalso; apply F1; reflexivity | discriminate].
    + intros m Hm. rewrite S1 by lia. reflexivity.
Qed.

Lemma settles_shift {A : Type} (f : nat -> Res A) :
  settles (fun n => f (S n)) -> settles f.
Proof.
  intros (n & r & F & S'). exists (S n), r. split; [exact F |].
  intros m Hm. destruct m as [| m]; [lia |]. apply S'. lia.
Qed.

Section Termination.
Variable env : Env.



Lemma pass_result n e b e' b' :
  polySimplify n env e b = Ok (e', b') ->
  (weight e' <= weight e)%nat
  /\ (b' = true -> b = true \/ (weight e' < weight e)%nat)
  /\ (isConstNode e = true -> e' = e).
Proof. apply (proj1 (simplify_weight env n)). Qed.

Lemma leaf_settles e :
  match e with Const _ _ | Terminal _ | TypeVal _ => True | _ => False end ->
  passSettles env e.
Proof.
  intros L b. apply settles_shift. cbn [polySimplify].
  destruct e; try contradiction; cbn [polyStep]; apply settles_const, fuelFree_Ok.
Qed.

Lemma unaryStep_settles mk op s1 b :
  passSettles env s1 ->
  (forall y, (weight y <= weight s1)%nat -> passSettles env y) ->
  settles (fun n => unaryStep (polySimplify n env) mk op s1 b).
Proof.
  intros H1 Hw. unfold unaryStep.
  apply settles_bind; [apply H1 |].
  intros [x1 c1] [n E1]. destruct (pass_result _ _ _ _ _ E1) as (L1 & _ & _).
  apply settles_bind; [apply settles_const, fuelFree_unaryRules |].
  intros [res |] _; [apply settles_const, fuelFree_Ok |].
  destruct (isOneOf op [opMemOf; opRegOf]).
  - apply settles_bind; [apply (Hw x1 L1) |].
    intros [x2 c2] _. apply settles_const, fuelFree_Ok.
  - apply settles_const, fuelFree_Ok.
Qed.

Lemma binary_children_weight op s1 s2 :
  (weight s1 <= weight (Binary op s1 s2))%nat
  /\ (isConstNode s2 = false -> (weight s2 <= weight (Binary op s1 s2))%nat).
Proof.
  cbn [weight]. unfold binaryWeight. split; [destruct op, (isConstNode s2); lia |].
  intros ->. destruct op; lia.
Qed.

Lemma descent_weight op s1 s2 :
  isOneOf op [opOr; opAnd] = true ->
  (weight s1 < weight (Binary op s1 s2))%nat /\ (weight s2 < weight (Binary op s1 s2))%nat.
Proof.
  intros H. bools; subst; cbn [weight binaryWeight]; lia.
Qed.

Lemma const_settles s : isConstNode s = true -> passSettles env s.
Proof. intros H. apply leaf_settles. destruct s; try discriminate H. exact I. Qed.

Lemma pass_settles_below w :
  (forall y, (weight y < w)%nat -> passSettles env y /\ driverSettles env y) ->
  forall e, (weight e <= w)%nat -> passSettles env e.
Proof.
  intros IH.
  induction e as [u cs | op | op a IHa | op s1 IH1 s2 IH2 | op s1 IH1 s2 IH2 s3 IH3
                 | ty a IHa | a IHa d | ty | op a IHa p | a IHa rtl];
    intros W; try (apply leaf_settles; exact I); intros b; apply settles_shift;
    cbn [polySimplify polyStep]; cbn [weight] in W.
  - (* Unary *)
    apply unaryStep_settles; [apply IHa; lia |].
    intros y Hy. apply IH. lia.
  - (* Binary *)
    destruct (binary_children_weight op s1 s2) as [W1 W2]. cbn [weight] in W1, W2.
    apply settles_bind; [apply IH1; lia |].
    intros [x1 c1] [n1 E1]. destruct (pass_result _ _ _ _ _ E1) as (L1 & _ & _).
    apply settles_bind.
    { destruct (isConstNode s2) eqn:C; [apply const_settles; exact C |].
      apply IH2. specialize (W2 eq_refl). lia. }
    intros [x2 c2] [n2 E2]. destruct (pass_result _ _ _ _ _ E2) as (L2 & _ & K2).
    destruct (Binary_weight_mono op s1 s2 x1 x2 L1 L2 K2) as [M _]. cbn [weight] in M.
    apply settles_bind; [apply settles_const, fuelFree_binaryBeforeDescent |].
    intros [res | op' y1 y2] [_ B]; [apply settles_const, fuelFree_Ok |].
    pose proof (binaryBeforeDescent_weight _ _ _ _ _ B) as W'. cbn beta iota in W'.
    cbn [weight] in W'.
    destruct (isOneOf op' [opOr; opAnd]) eqn:OA.
    + destruct (descent_weight op' y1 y2 OA) as [D1 D2]. cbn [weight] in D1, D2.
      apply settles_bind; [apply IH; lia |].
      intros [x3 c3] _.
      apply settles_bind; [apply IH; lia |].
      intros [x4 c4] _. apply settles_const, fuelFree_Ok.
    + apply settles_bind.
      { apply settles_const, (fuelFree_firstRule _ fuelFree_rulesAfterDescent). }
      intros [res |] _; apply settles_const, fuelFree_Ok.
  - (* Ternary *)
    pose proof (ternaryWeight_lower op (weight s1) (weight s2) (weight s3)).
    apply settles_bind; [apply IH1; lia |]. intros [x1 c1] _.
    apply settles_bind; [apply IH2; lia |]. intros [x2 c2] _.
    apply settles_bind; [apply IH3; lia |]. intros [x3 c3] _.
    apply settles_bind; [apply settles_const, fuelFree_ternaryRules |].
    intros [res |] _; apply settles_const, fuelFree_Ok.
  - (* TypedExp *)
    destruct (isOp opRegOf a); [apply settles_const, fuelFree_Ok |].
    apply settles_bind; [apply IH; lia |].
    intros a' _. apply settles_const, fuelFree_Ok.
  - (* RefExp *)
    apply settles_bind; [apply IHa; lia |].
    intros [x1 c1] _. destruct c1; [apply settles_const, fuelFree_Ok |].
    apply settles_bind; [apply settles_const, fuelFree_refRules |].
    intros [res |] _; apply settles_const, fuelFree_Ok.
  - (* Location *)
    apply settles_bind.
    { apply unaryStep_settles; [apply IHa; lia |]. intros y Hy. apply IH. lia. }
    intros [res c] _.
    apply settles_bind; [apply settles_const, fuelFree_locationRule |].
    intros [r |] _; apply settles_const, fuelFree_Ok.
  - (* FlagDef *)
    apply unaryStep_settles; [apply IHa; lia |].
    intros y Hy. apply IH. lia.
Qed.

Lemma settles_by_weight :
  forall w e, (weight e < w)%nat -> passSettles env e /\ driverSettles env e.
Proof.
  induction w as [| w IH]; intros e W; [lia |].
  assert (P : passSettles env e) by (apply (pass_settles_below w IH); lia).
  split; [exact P |].
  apply settles_shift. cbn [simplify]. unfold driverStep.
  apply settles_bind; [apply P |].
  intros [res c] [n E]. destruct (pass_result _ _ _ _ _ E) as (L & F & _).
  destruct c; [| apply settles_const, fuelFree_Ok].
  apply IH. destruct (F eq_refl) as [? | ?]; [discriminate | lia].
Qed.

Lemma simplify_last :
  forall n e r, simplify n env e = Ok r ->
                exists k last, polySimplify k env last false = Ok (r, false).
Proof.
  induction n as [| n IH]; intros e r H; cbn [simplify] in H; [discriminate |].
  unfold driverStep in H.
  destruct (polySimplify n env e false) as [[res c] | f] eqn:E; cbn [bind] in H;
    [| discriminate].
  destruct c.
  - eapply IH; eassumption.
  - inversion H; subst. exists n, e. exact E.
Qed.

End Termination.


(** ** Idempotence where the result is settled *)

(** *** Closed integer expressions fold to a constant *)

Lemma foldable_folds op k1 k2 :
  foldable op = true -> foldBinary op k1 k2 <> Ok None.
Proof.
  intros H. destruct op; cbn in H; try discriminate H; cbn [foldBinary];
    repeat match goal with |- context [if ?c then _ else _] => destruct c end;
    discriminate.
Qed.

Lemma binaryBeforeDescent_literals env op k1 k2 pr :
  foldable op = true ->
  binaryBeforeDescent env op (Const_get k1) (Const_get k2) = Ok pr ->
  exists k, pr = Rewritten (Const_get k).
Proof.
  intros Hf H. pose proof (foldable_folds op k1 k2 Hf) as N.
  unfold binaryBeforeDescent in H. cbn [rulesBeforeCommute firstRule] in H.
  unfold rule_fold at 1 in H. cbn [isIntConst isOp getOper Const_get OPER_eqb andb] in H.
  change (isIntConst (Const_get k1) && isIntConst (Const_get k2)) with true in H.
  cbn [intOf fromOption getInt Const_get bind] in H.
  unfold intOf, fromOption in H. cbn [getInt Const_get bind] in H.
  destruct (foldBinary op k1 k2) as [[k |] | f]; cbn [bind fire] in H;
    try discriminate H; [| contradiction].
  inversion H. exists k. reflexivity.
Qed.

Lemma unaryRules_literal op k r :
  isOneOf op [opNeg; opNot; opLNot] = true ->
  unaryRules op (Const_get k) = Ok r -> exists k', r = Some (Const_get k').
Proof.
  intros Ho H. unfold unaryRules in H. cbn [getOper Const_get negatedComparison] in H.
  replace (if isOneOf op [opNot; opLNot] then @None OPER else None) with (@None OPER) in H
    by (destruct (isOneOf op [opNot; opLNot]); reflexivity).
  assert (O : isOneOf op [opNeg; opNot; opLNot; opSize] = true).
  { unfold isOneOf in *. cbn [existsb] in *.
    destruct (OPER_eqb op opNeg), (OPER_eqb op opNot), (OPER_eqb op opLNot);
      try discriminate Ho; reflexivity. }
  rewrite O in H.
  change (isIntConst (Const (IntVal k) 0)) with true in H.
  unfold intOf, fromOption in H. cbn [getInt bind setInt fire] in H.
  inversion H. eexists. reflexivity.
Qed.

Lemma closedInt_literal k : closedInt (Const_get k) = true.
Proof. reflexivity. Qed.

Section ClosedPass.
Variable rec : Exp -> bool -> Res (Exp * bool).
Variable recS : Exp -> Res Exp.
Variable env : Env.
Hypothesis Hrec :
  forall e b r, closedInt e = true -> rec e b = Ok r -> isIntLiteral (fst r).

Lemma polyStep_closed e b r :
  closedInt e = true -> polyStep rec recS env e b = Ok r -> isIntLiteral (fst r).
Proof.
  intros C H.
  destruct e as [u cs | op | op a | op s1 s2 | op s1 s2 s3 | ty a | a d | ty | op a p
                | a rtl]; cbn [closedInt] in C; try discriminate C; cbn [polyStep] in H.
  - destruct u; try discriminate C. apply Z.eqb_eq in C. subst cs.
    inversion H. eexists. reflexivity.
  - apply andb_true_iff in C. destruct C as [Co Ca].
    unfold unaryStep in H.
    destruct (rec a b) as [[x1 c1] | f] eqn:E1; cbn [bind] in H; [| discriminate H].
    destruct (Hrec _ _ _ Ca E1) as [k Hk]. cbn [fst] in Hk. subst x1.
    destruct (unaryRules op (Const_get k)) as [o | f] eqn:R; cbn [bind] in H;
      [| discriminate H].
    destruct (unaryRules_literal _ _ _ Co R) as [k' ->].
    inversion H. exists k'. reflexivity.
  - apply andb_true_iff in C. destruct C as [C C2].
    apply andb_true_iff in C. destruct C as [Co C1].
    destruct (rec s1 b) as [[x1 c1] | f] eqn:E1; cbn [bind] in H; [| discriminate H].
    destruct (Hrec _ _ _ C1 E1) as [k1 Hk1]. cbn [fst] in Hk1. subst x1.
    destruct (rec s2 c1) as [[x2 c2] | f] eqn:E2; cbn [bind] in H; [| discriminate H].
    destruct (Hrec _ _ _ C2 E2) as [k2 Hk2]. cbn [fst] in Hk2. subst x2.
    destruct (binaryBeforeDescent env op (Const_get k1) (Const_get k2)) as [pr | f] eqn:B;
      cbn [bind] in H; [| discriminate H].
    destruct (binaryBeforeDescent_literals _ _ _ _ _ Co B) as [k ->].
    inversion H. exists k. reflexivity.
Qed.

End ClosedPass.

Lemma simplify_closed env :
  forall n,
    (forall e b r, closedInt e = true -> polySimplify n env e b = Ok r ->
                   isIntLiteral (fst r))
    /\ (forall e r, closedInt e = true -> simplify n env e = Ok r -> isIntLiteral r).
Proof.
  induction n as [| n [IHp IHs]].
  - split; intros; discriminate.
  - split; cbn [polySimplify simplify].
    + intros e b r C H. eapply polyStep_closed; eassumption.
    + intros e r C H. unfold driverStep in H.
      destruct (polySimplify n env e false) as [[res c] | f] eqn:E; cbn [bind] in H;
        [| discriminate H].
      destruct (IHp _ _ _ C E) as [k Hk]. cbn [fst] in Hk. subst res.
      destruct c.
      * apply (IHs _ _ (closedInt_literal k) H).
      * inversion H. exists k. reflexivity.
Qed.

Lemma exp_eq_literal env k : exp_eq env (Const_get k) (Const_get k) = true.
Proof.
  unfold Const_get. rewrite exp_eq_Const, OPER_eqb_refl. unfold constPayloadEq.
  cbn. apply Z.eqb_refl.
Qed.

(** *** What the rules do with an address expression *)

Lemma isLoc_inv e :
  isLoc e = true ->
  exists op a p, e = Location op a p /\ (op = opRegOf \/ op = opMemOf).
Proof.
  destruct e; cbn [isLoc]; try discriminate. intros H.
  exists op, e, proc. split; [reflexivity |].
  unfold isOneOf in H. cbn [existsb] in H.
  destruct (OPER_eqb op opRegOf) eqn:E1.
  - left. apply OPER_eqb_eq. exact E1.
  - destruct (OPER_eqb op opMemOf) eqn:E2; [| discriminate H].
    right. apply OPER_eqb_eq. exact E2.
Qed.

Lemma plus_or_minus op :
  isOneOf op [opPlus; opMinus] = true -> op = opPlus \/ op = opMinus.
Proof.
  unfold isOneOf. cbn [existsb]. intros H.
  destruct (OPER_eqb op opPlus) eqn:E1; [left; apply OPER_eqb_eq; exact E1 |].
  destruct (OPER_eqb op opMinus) eqn:E2; [right; apply OPER_eqb_eq; exact E2 |].
  discriminate H.
Qed.

Lemma isOffset_inv e :
  isOffset e = true ->
  exists k, e = Const (IntVal k) 0 /\ Int32.min_signed < k <= Int32.max_signed.
Proof.
  destruct e as [[k | | | | ] cs | | | | | | | | |]; cbn [isOffset]; try discriminate.
  intros H. apply andb_true_iff in H. destruct H as [H H3].
  apply andb_true_iff in H. destruct H as [H1 H2].
  apply Z.eqb_eq in H1. apply Z.ltb_lt in H2. apply Z.leb_le in H3. subst cs.
  exists k. split; [reflexivity | lia].
Qed.

Lemma isPosOffset_inv e :
  isPosOffset e = true ->
  exists k, e = Const (IntVal k) 0 /\ 0 < k <= Int32.max_signed.
Proof.
  destruct e as [[k | | | | ] cs | | | | | | | | |]; cbn [isPosOffset]; try discriminate.
  intros H. apply andb_true_iff in H. destruct H as [H H3].
  apply andb_true_iff in H. destruct H as [H1 H2].
  apply Z.eqb_eq in H1. apply Z.ltb_lt in H2. apply Z.leb_le in H3. subst cs.
  exists k. split; [reflexivity | lia].
Qed.

(** What [Binary::polySimplify] does with [l + K] and [l - K]. *)
Lemma before_loc_offset env op s1 k :
  isOneOf op [opPlus; opMinus] = true -> isLoc s1 = true ->
  Int32.min_signed < k <= Int32.max_signed ->
  binaryBeforeDescent env op s1 (Const (IntVal k) 0)
  = if k =? 0 then Ok (Rewritten s1)
    else if k <? 0
         then Ok (Pending (if OPER_eqb op opPlus then opMinus else opPlus) s1
                          (Const (IntVal (- k)) 0))
         else Ok (Pending op s1 (Const (IntVal k) 0)).
Proof.
  intros Ho Hl Hk. destruct (isLoc_inv _ Hl) as (op1 & a & p & -> & Hop1).
  destruct (plus_or_minus _ Ho) as [-> | ->], Hop1 as [-> | ->]; cbn.
  all: destruct (k <? 0) eqn:Kn; cbn.
  all: try (apply Z.ltb_lt in Kn;
            rewrite (wrap32_id (- k)) by (unfold Int32.in_range, Int32.min_signed,
                                           Int32.max_signed in *; lia);
            replace (- k =? 0) with false by (symmetry; apply Z.eqb_neq; lia);
            replace (k =? 0) with false by (symmetry; apply Z.eqb_neq; lia);
            reflexivity).
  all: destruct (k =? 0); reflexivity.
Qed.

(** ... with [K + l]: the constant goes to the right. *)
Lemma before_offset_loc env k s2 :
  isLoc s2 = true ->
  binaryBeforeDescent env opPlus (Const (IntVal k) 0) s2
  = binaryBeforeDescent env opPlus s2 (Const (IntVal k) 0).
Proof.
  intros Hl. destruct (isLoc_inv _ Hl) as (op1 & a & p & -> & Hop1).
  destruct Hop1 as [-> | ->]; reflexivity.
Qed.

Lemma exp_eq_loc_offset env s1 k cs :
  isLoc s1 = true -> exp_eq env s1 (Const (IntVal k) cs) = false.
Proof.
  intros Hl. destruct (isLoc_inv _ Hl) as (op1 & a & p & -> & Hop1).
  destruct Hop1 as [-> | ->]; reflexivity.
Qed.

(** ... with [l + l'] and [l - l']. *)
Lemma before_loc_loc env op s1 s2 :
  isOneOf op [opPlus; opMinus] = true -> isLoc s1 = true -> isLoc s2 = true ->
  binaryBeforeDescent env op s1 s2
  = if OPER_eqb op opMinus && exp_eq env s1 s2
    then Ok (Rewritten (Const_get 0))
    else Ok (Pending op s1 s2).
Proof.
  intros Ho H1 H2.
  destruct (isLoc_inv _ H1) as (op1 & a1 & p1 & -> & Hop1).
  destruct (isLoc_inv _ H2) as (op2 & a2 & p2 & -> & Hop2).
  destruct (plus_or_minus _ Ho) as [-> | ->], Hop1 as [-> | ->], Hop2 as [-> | ->];
    unfold binaryBeforeDescent; cbn [rulesBeforeCommute firstRule];
    unfold rule_fold, rule_selfZero, rule_selfSame, rule_selfEquals;
    cbn -[exp_eq];
    try reflexivity;
    destruct (exp_eq env _ _); reflexivity.
Qed.

Lemma after_loc env op s1 s2 :
  isOneOf op [opPlus; opMinus] = true -> isLoc s1 = true ->
  isPosOffset s2 = true \/ isLoc s2 = true ->
  firstRule rulesAfterDescent env op s1 s2 = Ok None.
Proof.
  intros Ho H1 H2.
  destruct (isLoc_inv _ H1) as (op1 & a1 & p1 & -> & Hop1).
  destruct H2 as [H2 | H2].
  - destruct (isPosOffset_inv _ H2) as (k & -> & Hk).
    destruct (plus_or_minus _ Ho) as [-> | ->], Hop1 as [-> | ->]; reflexivity.
  - destruct (isLoc_inv _ H2) as (op2 & a2 & p2 & -> & Hop2).
    destruct (plus_or_minus _ Ho) as [-> | ->], Hop1 as [-> | ->], Hop2 as [-> | ->];
      reflexivity.
Qed.

Lemma settledAddr_not_addrOf env e : settledAddr env e = true -> isOp opAddrOf e = false.
Proof.
  destruct e as [[k | | | | ] cs | | | op a b | | | | | op a p |]; cbn [settledAddr];
    try discriminate; intros H.
  - reflexivity.
  - apply andb_true_iff in H. destruct H as [H _].
    apply andb_true_iff in H. destruct H as [H _].
    apply andb_true_iff in H. destruct H as [H _].
    destruct (plus_or_minus _ H) as [-> | ->]; reflexivity.
  - apply andb_true_iff in H. destruct H as [H _].
    assert (L : isLoc (Location op a p) = true) by exact H.
    destruct (isLoc_inv _ L) as (op' & a' & p' & E & [-> | ->]); inversion E; subst;
      reflexivity.
Qed.

Lemma unaryRules_loc op s1 :
  isOneOf op [opRegOf; opMemOf] = true -> unaryRules op s1 = Ok None.
Proof.
  intros H. assert (L : isLoc (Location op s1 None) = true) by exact H.
  destruct (isLoc_inv _ L) as (op' & a' & p' & E & [-> | ->]); inversion E; subst;
    reflexivity.
Qed.

Lemma loc_descends op :
  isOneOf op [opRegOf; opMemOf] = true -> isOneOf op [opMemOf; opRegOf] = true.
Proof.
  unfold isOneOf. cbn [existsb]. rewrite !orb_false_r. intros H.
  rewrite orb_comm. exact H.
Qed.

Lemma locationRule_settled env op a p :
  isOneOf op [opRegOf; opMemOf] = true -> settledAddr env a = true ->
  locationRule (Location op a p) = Ok None.
Proof.
  intros H Ha. pose proof (settledAddr_not_addrOf env a Ha) as N.
  assert (L : isLoc (Location op a p) = true) by exact H.
  destruct (isLoc_inv _ L) as (op' & a' & p' & E & [-> | ->]); inversion E; subst.
  - reflexivity.
  - unfold locationRule. cbn [isOp getOper OPER_eqb].
    change (isOp opMemOf (Location opMemOf a' p')) with true. cbv iota.
    unfold sub1. cbn [getSubExp1 fromOption bind]. rewrite N. reflexivity.
Qed.

Lemma not_descent op : isOneOf op [opPlus; opMinus] = true -> isOneOf op [opOr; opAnd] = false.
Proof. intros H. destruct (plus_or_minus _ H) as [-> | ->]; reflexivity. Qed.

Lemma flipped_sum op :
  isOneOf op [opPlus; opMinus] = true ->
  isOneOf (if OPER_eqb op opPlus then opMinus else opPlus) [opPlus; opMinus] = true.
Proof. intros H. destruct (plus_or_minus _ H) as [-> | ->]; reflexivity. Qed.

Lemma closedInt_not_loc e : closedInt e = true -> isLoc e = false.
Proof. destruct e; cbn [closedInt isLoc]; try discriminate; reflexivity. Qed.

Lemma isPosOffset_settled env e : isPosOffset e = true -> settledAddr env e = true.
Proof.
  intros H. destruct (isPosOffset_inv _ H) as (k & -> & _). reflexivity.
Qed.

Lemma isOffset_settled env e : isOffset e = true -> settledAddr env e = true.
Proof.
  intros H. destruct (isOffset_inv _ H) as (k & -> & _). reflexivity.
Qed.

Lemma isPosOffset_literal k :
  0 < k <= Int32.max_signed -> isPosOffset (Const (IntVal k) 0) = true.
Proof.
  intros H. cbn [isPosOffset]. rewrite Z.eqb_refl.
  rewrite (proj2 (Z.ltb_lt 0 k)) by lia. rewrite (proj2 (Z.leb_le _ _)) by lia.
  reflexivity.
Qed.

Section AddrPass.
Variable rec : Exp -> bool -> Res (Exp * bool).
Variable recS : Exp -> Res Exp.
Variable env : Env.

Hypothesis HrecC :
  forall e b r, closedInt e = true -> rec e b = Ok r -> isIntLiteral (fst r).
Hypothesis HrecT :
  forall e b r, addrExp e = true -> rec e b = Ok r ->
                settledAddr env (fst r) = true
                /\ (isLoc e = true -> isLoc (fst r) = true).
Hypothesis HrecN :
  forall e b, settledAddr env e = true ->
              rec e b = Fail OutOfFuel
              \/ exists b', rec e b = Ok (e, b') /\ (b = false -> b' = false).

(** A pass leaves a settled address expression as it is, and the flag
    clear when it was. *)
Lemma polyStep_settled e b :
  settledAddr env e = true ->
  polyStep rec recS env e b = Fail OutOfFuel
  \/ exists b', polyStep rec recS env e b = Ok (e, b') /\ (b = false -> b' = false).
Proof.
  intros H.
  destruct e as [[k | | | | ] cs | | | op s1 s2 | | | | | op a p |];
    cbn [settledAddr] in H; try discriminate H; cbn [polyStep].
  - right. eexists. split; [reflexivity |]. intros ->.
    destruct (baseClearsMod env); reflexivity.
  - apply andb_true_iff in H. destruct H as [H H2].
    apply andb_true_iff in H. destruct H as [H Hs1].
    apply andb_true_iff in H. destruct H as [Ho Hl1].
    assert (Hs2 : settledAddr env s2 = true).
    { apply orb_true_iff in H2. destruct H2 as [H2 | H2].
      - apply isPosOffset_settled. exact H2.
      - apply andb_true_iff in H2. destruct H2 as [H2 _].
        apply andb_true_iff in H2. apply H2. }
    destruct (HrecN s1 b Hs1) as [E1 | (b1 & E1 & F1)]; rewrite E1; cbn [bind];
      [left; reflexivity |].
    destruct (HrecN s2 b1 Hs2) as [E2 | (b2 & E2 & F2)]; rewrite E2; cbn [bind];
      [left; reflexivity |].
    assert (B : binaryBeforeDescent env op s1 s2 = Ok (Pending op s1 s2)).
    { apply orb_true_iff in H2. destruct H2 as [H2 | H2].
      - destruct (isPosOffset_inv _ H2) as (k & -> & Hk).
        rewrite before_loc_offset
          by (try assumption; unfold Int32.min_signed, Int32.max_signed in *; lia).
        replace (k =? 0) with false by (symmetry; apply Z.eqb_neq; lia).
        replace (k <? 0) with false by (symmetry; apply Z.ltb_ge; lia).
        reflexivity.
      - apply andb_true_iff in H2. destruct H2 as [H2 Hne].
        apply andb_true_iff in H2. destruct H2 as [Hl2 _].
        rewrite before_loc_loc by assumption.
        apply negb_true_iff in Hne. rewrite Hne. reflexivity. }
    rewrite B. cbn [bind]. rewrite (not_descent op Ho).
    rewrite after_loc; [| exact Ho | exact Hl1 |].
    + cbn [bind]. right. exists b2. split; [reflexivity |].
      intros Hb. apply F2, F1, Hb.
    + apply orb_true_iff in H2. destruct H2 as [H2 | H2]; [left; exact H2 |].
      right. apply andb_true_iff in H2. destruct H2 as [H2 _].
      apply andb_true_iff in H2. apply H2.
  - apply andb_true_iff in H. destruct H as [Ho Ha].
    unfold unaryStep.
    destruct (HrecN a b Ha) as [E1 | (b1 & E1 & F1)]; rewrite E1; cbn [bind];
      [left; reflexivity |].
    rewrite (unaryRules_loc op a Ho). cbn [bind]. rewrite (loc_descends op Ho).
    destruct (HrecN a b1 Ha) as [E2 | (b2 & E2 & F2)]; rewrite E2; cbn [bind];
      [left; reflexivity |].
    rewrite (locationRule_settled env op a p Ho Ha). cbn [bind].
    right. exists b2. split; [reflexivity |]. intros Hb. apply F2, F1, Hb.
Qed.

Ltac ok_rec H E :=
  match type of H with
  | context [rec ?e ?b] =>
      destruct (rec e b) as [[? ?] | ?] eqn:E; cbn [bind] in H; [| discriminate H]
  end.

Lemma rec_settled e b x c :
  settledAddr env e = true -> rec e b = Ok (x, c) -> x = e.
Proof.
  intros S E. destruct (HrecN e b S) as [F | (b' & F & _)]; rewrite F in E.
  - discriminate E.
  - inversion E. reflexivity.
Qed.

(** What [Binary::polySimplify] leaves of [l + K] and [l - K] once the
    operands are settled. *)
Lemma sum_offset_result op s1 k c r :
  isOneOf op [opPlus; opMinus] = true ->
  isLoc s1 = true -> settledAddr env s1 = true ->
  Int32.min_signed < k <= Int32.max_signed ->
  (pr <- binaryBeforeDescent env op s1 (Const (IntVal k) 0) ;;
   match pr with
   | Rewritten res => Ok (res, true)
   | Pending op s1 s2 =>
       if isOneOf op [opOr; opAnd] then
         ' (s1, bMod) <- rec s1 c ;;
         ' (s2, bMod) <- rec s2 bMod ;;
         Ok (Binary op s1 s2, bMod)
       else
         r <- firstRule rulesAfterDescent env op s1 s2 ;;
         match r with
         | Some res => Ok (res, true)
         | None => Ok (Binary op s1 s2, c)
         end
   end) = Ok r ->
  settledAddr env (fst r) = true.
Proof.
  intros Ho Hl Hs Hk H.
  rewrite before_loc_offset in H by assumption.
  destruct (k =? 0) eqn:K0; cbn [bind] in H.
  { inversion H. exact Hs. }
  apply Z.eqb_neq in K0.
  destruct (k <? 0) eqn:Kn; cbn [bind] in H.
  - apply Z.ltb_lt in Kn.
    assert (P : isPosOffset (Const (IntVal (- k)) 0) = true).
    { apply isPosOffset_literal.
      unfold Int32.min_signed, Int32.max_signed in *. lia. }
    rewrite (not_descent _ (flipped_sum op Ho)) in H.
    rewrite after_loc in H; [| apply flipped_sum; exact Ho | exact Hl | left; exact P].
    cbn [bind] in H. inversion H. cbn [fst settledAddr].
    rewrite (flipped_sum op Ho), Hl, Hs, P. reflexivity.
  - apply Z.ltb_ge in Kn.
    assert (P : isPosOffset (Const (IntVal k) 0) = true).
    { apply isPosOffset_literal. lia. }
    rewrite (not_descent _ Ho) in H.
    rewrite after_loc in H; [| exact Ho | exact Hl | left; exact P].
    cbn [bind] in H. inversion H. cbn [fst settledAddr].
    rewrite Ho, Hl, Hs, P. reflexivity.
Qed.

(** A pass takes an address expression to a settled one. *)
Lemma polyStep_addr e b r :
  addrExp e = true -> polyStep rec recS env e b = Ok r ->
  settledAddr env (fst r) = true /\ (isLoc e = true -> isLoc (fst r) = true).
Proof.
  intros H R.
  destruct (closedInt e) eqn:C.
  { destruct (polyStep_closed rec recS env HrecC e b r C R) as [k ->].
    split; [reflexivity |]. rewrite (closedInt_not_loc e C). discriminate. }
  destruct e as [u cs | | | op s1 s2 | | | | | op a p |];
    cbn [addrExp] in H; rewrite C in H; cbn [orb] in H; try discriminate H;
    cbn [polyStep] in R.
  - (* Binary *)
    split; [| discriminate].
    ok_rec R E1. ok_rec R E2.
    apply orb_true_iff in H. destruct H as [H | H].
    + apply andb_true_iff in H. destruct H as [H H2].
      apply andb_true_iff in H. destruct H as [H Ha1].
      apply andb_true_iff in H. destruct H as [Ho Hl1].
      destruct (HrecT _ _ _ Ha1 E1) as [S1 L1]. cbn [fst] in S1, L1.
      specialize (L1 Hl1).
      apply orb_true_iff in H2. destruct H2 as [H2 | H2].
      * pose proof (rec_settled _ _ _ _ (isOffset_settled env s2 H2) E2) as ->.
        destruct (isOffset_inv _ H2) as (k & -> & Hk).
        apply (sum_offset_result op e k b1 r Ho L1 S1 Hk R).
      * apply andb_true_iff in H2. destruct H2 as [Hl2 Ha2].
        destruct (HrecT _ _ _ Ha2 E2) as [S2 L2]. cbn [fst] in S2, L2.
        specialize (L2 Hl2).
        rewrite before_loc_loc in R by assumption.
        destruct (OPER_eqb op opMinus && exp_eq env e e0) eqn:D; cbn [bind] in R.
        { inversion R. reflexivity. }
        rewrite (not_descent op Ho) in R.
        rewrite after_loc in R; [| exact Ho | exact L1 | right; exact L2].
        cbn [bind] in R. inversion R. cbn [fst settledAddr].
        rewrite Ho, L1, S1, L2, S2, D. cbn. apply orb_true_r.
    + apply andb_true_iff in H. destruct H as [H Ha2].
      apply andb_true_iff in H. destruct H as [H Hl2].
      apply andb_true_iff in H. destruct H as [Ho Hk1].
      apply OPER_eqb_eq in Ho. subst op.
      pose proof (rec_settled _ _ _ _ (isOffset_settled env s1 Hk1) E1) as ->.
      destruct (HrecT _ _ _ Ha2 E2) as [S2 L2]. cbn [fst] in S2, L2.
      specialize (L2 Hl2).
      destruct (isOffset_inv _ Hk1) as (k & -> & Hk).
      rewrite before_offset_loc in R by exact L2.
      apply (sum_offset_result opPlus e0 k b1 r eq_refl L2 S2 Hk R).
  - (* Location *)
    apply andb_true_iff in H. destruct H as [Ho Ha].
    unfold unaryStep in R.
    ok_rec R E1.
    destruct (HrecT _ _ _ Ha E1) as [S1 _]. cbn [fst] in S1.
    rewrite (unaryRules_loc op e Ho) in R. cbn [bind] in R.
    rewrite (loc_descends op Ho) in R.
    ok_rec R E2.
    pose proof (rec_settled _ _ _ _ S1 E2) as ->.
    rewrite (locationRule_settled env op e p Ho S1) in R. cbn [bind] in R.
    inversion R. cbn [fst settledAddr isLoc]. rewrite Ho, S1. split; reflexivity.
Qed.

End AddrPass.

(** *** More fuel, same result *)

Lemma polyStep_more rec rec' recS recS' env :
  (forall e b r, rec e b = Ok r -> rec' e b = Ok r) ->
  (forall e r, recS e = Ok r -> recS' e = Ok r) ->
  forall e b r, polyStep rec recS env e b = Ok r -> polyStep rec' recS' env e b = Ok r.
Proof.
  intros Hr Hs e b r H.
  destruct e; cbn [polyStep] in *; unfold unaryStep in *;
    repeat match type of H with
           | context [bind (rec ?x ?c) _] =>
               let E := fresh "E" in
               destruct (rec x c) as [[? ?] | ?] eqn:E; cbn [bind] in H;
               [rewrite (Hr _ _ _ E); cbn [bind] | discriminate H]
           | context [bind (recS ?x) _] =>
               let E := fresh "E" in
               destruct (recS x) as [? | ?] eqn:E; cbn [bind] in H;
               [rewrite (Hs _ _ E); cbn [bind] | discriminate H]
           | context [bind ?m _] =>
               lazymatch m with
               | context [rec] => fail
               | context [recS] => fail
               | _ => destruct m; cbn [bind] in H |- *; [| discriminate H]
               end
           | context [match ?t with _ => _ end] => destruct t
           end;
    exact H.
Qed.

Lemma simplify_more env :
  forall n,
    (forall e b r, polySimplify n env e b = Ok r -> polySimplify (S n) env e b = Ok r)
    /\ (forall e r, simplify n env e = Ok r -> simplify (S n) env e = Ok r).
Proof.
  induction n as [| n [IHp IHs]].
  - split; intros; discriminate.
  - split.
    + intros e b r H. cbn [polySimplify] in H.
      change (polySimplify (S (S n)) env e b)
        with (polyStep (polySimplify (S n) env) (simplify (S n) env) env e b).
      apply (polyStep_more _ _ _ _ env IHp IHs). exact H.
    + intros e r H. cbn [simplify] in H. unfold driverStep in H.
      change (simplify (S (S n)) env e)
        with (driverStep (polySimplify (S n) env) (simplify (S n) env) e).
      unfold driverStep.
      destruct (polySimplify n env e false) as [[x c] | f] eqn:E; cbn [bind] in H;
        [| discriminate H].
      rewrite (IHp _ _ _ E). cbn [bind].
      destruct c; [apply IHs; exact H | exact H].
Qed.

Lemma simplify_more_fuel env n m e r :
  (n <= m)%nat -> simplify n env e = Ok r -> simplify m env e = Ok r.
Proof.
  intros L H. induction L as [| m L IH]; [exact H |].
  apply (proj2 (simplify_more env m)). exact IH.
Qed.

Lemma polySimplify_more_fuel env n m e b r :
  (n <= m)%nat -> polySimplify n env e b = Ok r -> polySimplify m env e b = Ok r.
Proof.
  intros L H. induction L as [| m L IH]; [exact H |].
  apply (proj1 (simplify_more env m)). exact IH.
Qed.

Lemma simplify_deterministic env n m e r r' :
  simplify n env e = Ok r -> simplify m env e = Ok r' -> r = r'.
Proof.
  intros H H'.
  pose proof (simplify_more_fuel env n (Nat.max n m) e r (Nat.le_max_l n m) H) as A.
  pose proof (simplify_more_fuel env m (Nat.max n m) e r' (Nat.le_max_r n m) H') as B.
  rewrite A in B. inversion B. reflexivity.
Qed.


(** *** Address expressions settle *)

Lemma simplify_addr env :
  forall n,
    (forall e b r, addrExp e = true -> polySimplify n env e b = Ok r ->
                   settledAddr env (fst r) = true
                   /\ (isLoc e = true -> isLoc (fst r) = true))
    /\ (forall e b, settledAddr env e = true ->
                    polySimplify n env e b = Fail OutOfFuel
                    \/ exists b', polySimplify n env e b = Ok (e, b')
                                  /\ (b = false -> b' = false)).
Proof.
  induction n as [| n [IHT IHN]].
  - split; [intros; discriminate | intros; left; reflexivity].
  - split; cbn [polySimplify].
    + intros e b r. apply polyStep_addr; [| exact IHT | exact IHN].
      apply (proj1 (simplify_closed env n)).
    + intros e b. apply polyStep_settled. exact IHN.
Qed.

Lemma simplify_settled env n e :
  settledAddr env e = true ->
  simplify n env e = Fail OutOfFuel \/ simplify n env e = Ok e.
Proof.
  intros H. destruct n as [| n]; [left; reflexivity |].
  cbn [simplify]. unfold driverStep.
  destruct (proj2 (simplify_addr env n) e false H) as [E | (b' & E & F)];
    rewrite E; cbn [bind]; [left; reflexivity |].
  rewrite (F eq_refl). right. reflexivity.
Qed.

Lemma simplify_addr_settled env :
  forall n e r, addrExp e = true -> simplify n env e = Ok r -> settledAddr env r = true.
Proof.
  induction n as [| n IH]; intros e r A H; [discriminate H |].
  cbn [simplify] in H. unfold driverStep in H.
  destruct (polySimplify n env e false) as [[x c] | f] eqn:E; cbn [bind] in H;
    [| discriminate H].
  destruct (proj1 (simplify_addr env n) e false _ A E) as [Hs _]. cbn [fst] in Hs.
  destruct c; [| inversion H; subst; exact Hs].
  destruct (simplify_settled env n x Hs) as [F | F]; rewrite F in H;
    [discriminate H | inversion H; subst; exact Hs].
Qed.

Lemma exp_eq_settled env :
  forall e, settledAddr env e = true -> exp_eq env e e = true.
Proof.
  induction e as [u cs | op | op a IHa | op a IHa b IHb | op a IHa b IHb c IHc
                 | ty a IHa | a IHa d | ty | op a IHa p | a IHa rtl];
    cbn [settledAddr]; try discriminate; intros H.
  - destruct u; try discriminate H. apply Z.eqb_eq in H. subst cs.
    apply exp_eq_literal.
  - apply andb_true_iff in H. destruct H as [H H2].
    apply andb_true_iff in H. destruct H as [H Sa].
    apply andb_true_iff in H. destruct H as [Ho La].
    assert (Sb : settledAddr env b = true).
    { apply orb_true_iff in H2. destruct H2 as [H2 | H2].
      - apply isPosOffset_settled. exact H2.
      - apply andb_true_iff in H2. destruct H2 as [H2 _].
        apply andb_true_iff in H2. apply H2. }
    specialize (IHa Sa). specialize (IHb Sb).
    destruct (plus_or_minus _ Ho) as [-> | ->]; unfold_eq;
      change (OPER_eqb opPlus opWild) with false;
      change (OPER_eqb opMinus opWild) with false;
      change (OPER_eqb opPlus opPlus) with true;
      change (OPER_eqb opMinus opMinus) with true;
      cbn [negb]; rewrite IHa, IHb; reflexivity.
  - apply andb_true_iff in H. destruct H as [Ho Sa]. specialize (IHa Sa).
    assert (L : isLoc (Location op a p) = true) by exact Ho.
    destruct (isLoc_inv _ L) as (op' & a' & p' & E & [-> | ->]); inversion E; subst;
      unfold_eq; cbn -[exp_eq]; exact IHa.
Qed.



(** ** What a search reports *)

(** X1: [search] and [searchAll] agree, and what they report matches:
    either both report nothing, or [search] returns the first of the
    sub-expressions [searchAll] lists, and the pattern equals every one of
    them. *)
Theorem search_first_of_searchAll :
  forall (env : Env) (e pattern : Exp),
    (search env e pattern = (false, None)
     /\ searchAll env e pattern [] = (false, []))
    \/ (exists t rest,
           search env e pattern = (true, Some t)
           /\ searchAll env e pattern [] = (true, t :: rest)
           /\ Forall (fun x => exp_eq env pattern x = true) (t :: rest)).
Proof.
  intros env e pattern. unfold search, searchAll.
  rewrite doSearch_all. cbn [app].
  assert (Hmap : forall l : list Path, map (app []) l = l).
  { intros l. rewrite <- (map_id l) at 2. apply map_ext. reflexivity. }
  rewrite Hmap.
  pose proof (hits_getAt env pattern e) as Hall.
  destruct (hits env pattern e) as [| p ps].
  - left. split; reflexivity.
  - right. destruct (Hall p (or_introl eq_refl)) as (t & Ht & Et).
    exists t.
    exists (flat_map (fun q => match getAt e q with Some x => [x] | None => [] end) ps).
    cbn [nonEmpty flat_map]. rewrite Ht. cbn [app].
    split; [reflexivity | split; [reflexivity |]].
    constructor; [exact Et |].
    apply Forall_forall. intros x Hx. apply in_flat_map in Hx.
    destruct Hx as (q & Hq & Hx).
    destruct (Hall q (or_intror Hq)) as (t' & Ht' & Et').
    rewrite Ht' in Hx. destruct Hx as [<- | []]. exact Et'.
Qed.

Lemma no_hits_not_nested env s e : hits env s e = [] -> nestedHits env s e = false.
Proof. unfold nestedHits. rewrite doSearch_hits. intros ->. reflexivity. Qed.



(** X3: replacing in a stored expression by a stored expression gives a
    stored expression: no wildcard, no tag on a node of the wrong shape
    and no constant with a conscript comes in, whatever the pattern whose
    matches do not lie inside one another; for a pattern whose matches
    do, [searchReplaceAll] assigns to a slot of a released node and
    returns nothing. *)
Theorem searchReplaceAll_keeps_plain :
  forall (env : Env) (e pattern replace : Exp),
    plain e = true -> plain replace = true ->
    if nestedHits env pattern e
    then searchReplaceAll env e pattern replace false false = Fail Undefined
    else exists r ch,
           searchReplaceAll env e pattern replace false false = Ok (r, ch)
           /\ plain r = true.
Proof.
  intros env e pattern replace He Hr.
  destruct (nestedHits env pattern e) eqn:N.
  - apply searchReplaceAll_nested. exact N.
  - rewrite (searchReplaceAll_outermost env e pattern replace N).
    eexists. eexists. split; [reflexivity |].
    apply plain_replaceOutermost; assumption.
Qed.

Lemma searchReplaceAll_keeps_plain_witness :
  plain (Binary opPlus (Location_regOf 24) (Const_get 4)) = true
  /\ plain (Location_regOf 25) = true
  /\ exists r ch,
       searchReplaceAll plainEnv
         (Binary opPlus (Location_regOf 24) (Const_get 4))
         (Terminal opWildRegOf) (Location_regOf 25) false false = Ok (r, ch)
       /\ plain r = true.
Proof.
  split; [reflexivity | split; [reflexivity |]].
  exact (searchReplaceAll_keeps_plain plainEnv
           (Binary opPlus (Location_regOf 24) (Const_get 4))
           (Terminal opWildRegOf) (Location_regOf 25) eq_refl eq_refl).
Defined.

(** ** The arithmetic simplifier *)

Lemma congruent_sym a b : congruent a b -> congruent b a.
Proof. intros [k H]. exists (- k). lia. Qed.

Lemma congruent_trans a b c : congruent a b -> congruent b c -> congruent a c.
Proof. intros [k H] [l H']. exists (k + l). lia. Qed.

Lemma congruent_add a b c d :
  congruent a b -> congruent c d -> congruent (a + c) (b + d).
Proof. intros [k H] [l H']. exists (k + l). lia. Qed.

Lemma congruent_sub a b c d :
  congruent a b -> congruent c d -> congruent (a - c) (b - d).
Proof. intros [k H] [l H']. exists (k - l). lia. Qed.

Lemma congruent_opp a b : congruent a b -> congruent (- a) (- b).
Proof. intros [k H]. exists (- k). lia. Qed.

Lemma congruent_eval rho e a :
  congruent (evalArith rho e) a -> congruent a (evalArith rho e).
Proof. apply congruent_sym. Qed.

(** A filed term is filed as it is. *)
Lemma partitionTerms_isTerm e acc negate :
  isTerm e = true ->
  partitionTerms e acc negate
  = if negate
    then mkPartition (positives acc) (negatives acc ++ [e]) (integers acc)
    else mkPartition (positives acc ++ [e]) (negatives acc) (integers acc).
Proof.
  destruct e as [[] cs | op | op a | op a b | op a b c | ty a | a d | ty
                | op a p | a rtl]; cbn [isTerm partitionTerms];
    try discriminate; try reflexivity; unfold isOneOf; cbn [existsb];
    rewrite ?(OPER_eqb_sym op); intros H;
    repeat match goal with
           | |- context [OPER_eqb ?x ?y] => destruct (OPER_eqb x y)
           end; try reflexivity; discriminate H.
Qed.

Lemma evalArith_isTerm rho e :
  isTerm e = true -> evalArith rho e = Int32.wrap32 (rho e).
Proof.
  destruct e as [[] cs | op | op a | op a b | op a b c | ty a | a d | ty
                | op a p | a rtl]; cbn [isTerm evalArith];
    try discriminate; try reflexivity; unfold isOneOf; cbn [existsb];
    rewrite ?(OPER_eqb_sym op); intros H;
    repeat match goal with
           | |- context [OPER_eqb ?x ?y] => destruct (OPER_eqb x y)
           end; try reflexivity; discriminate H.
Qed.

Lemma Accumulate_cons x y l :
  Accumulate (x :: y :: l) = Binary opPlus x (Accumulate (y :: l)).
Proof. reflexivity. Qed.

(** The sum of a list of terms is filed term by term. *)
Lemma partitionTerms_sum_of_terms :
  forall (x : Exp) (l : list Exp),
    Forall (fun t => isTerm t = true) (x :: l) ->
    partitionTerms (Accumulate (x :: l)) emptyPartition false
    = mkPartition (x :: l) [] [].
Proof.
  intros x l H.
  enough (G : forall acc,
             partitionTerms (Accumulate (x :: l)) acc false
             = mkPartition (positives acc ++ x :: l) (negatives acc) (integers acc))
    by (rewrite G; reflexivity).
  revert x H. induction l as [| y l IH]; intros x H acc.
  - apply Forall_cons_iff in H as [Hx _]. cbn [Accumulate]. unfold clone.
    rewrite partitionTerms_isTerm by exact Hx. reflexivity.
  - apply Forall_cons_iff in H as [Hx Hl].
    rewrite Accumulate_cons. cbn [partitionTerms].
    change (OPER_eqb opPlus opPlus) with true. cbn iota.
    rewrite (partitionTerms_isTerm x) by exact Hx.
    rewrite (IH y Hl). cbn [positives negatives integers].
    rewrite <- app_assoc. reflexivity.
Qed.

(** X4: [Accumulate] and [partitionTerms] are inverse to each other on
    terms: the partition of the sum that [Accumulate] builds from a
    non-empty list of terms (no integer constant, typed wrapper, sum or
    difference among them) has that list as its positives, in order, and
    nothing else. *)
Theorem partitionTerms_Accumulate :
  forall (x : Exp) (l : list Exp),
    Forall (fun t => isTerm t = true) (x :: l) ->
    partitionTerms (Accumulate (x :: l)) emptyPartition false
    = mkPartition (x :: l) [] [].
Proof. exact partitionTerms_sum_of_terms. Qed.

Lemma partitionTerms_Accumulate_witness :
  Forall (fun t => isTerm t = true) [Location_regOf 8; Location_regOf 9; Terminal opPC]
  /\ partitionTerms (Accumulate [Location_regOf 8; Location_regOf 9; Terminal opPC])
                    emptyPartition false
     = mkPartition [Location_regOf 8; Location_regOf 9; Terminal opPC] [] [].
Proof.
  assert (H : Forall (fun t => isTerm t = true)
                     [Location_regOf 8; Location_regOf 9; Terminal opPC])
    by (repeat constructor).
  split; [exact H |].
  exact (partitionTerms_Accumulate (Location_regOf 8)
           [Location_regOf 9; Terminal opPC] H).
Defined.

Lemma evalArith_Accumulate rho l :
  congruent (evalArith rho (Accumulate l)) (sumZ (map (evalArith rho) l)).
Proof.
  induction l as [| x [| y l] IH].
  - exists 0. reflexivity.
  - cbn [Accumulate map sumZ fold_right]. unfold clone. exists 0. lia.
  - rewrite Accumulate_cons.
    change (evalArith rho (Binary opPlus x (Accumulate (y :: l))))
      with (Int32.wrap32 (evalArith rho x + evalArith rho (Accumulate (y :: l)))).
    eapply congruent_trans; [apply congruent_wrap32 |].
    change (sumZ (map (evalArith rho) (x :: y :: l)))
      with (evalArith rho x + sumZ (map (evalArith rho) (y :: l))).
    apply congruent_add; [apply congruent_refl | exact IH].
Qed.

Lemma accumulateInts_sum l : congruent (accumulateInts l) (sumZ l).
Proof.
  unfold accumulateInts.
  enough (G : forall s, congruent (fold_left (fun sum k => Int32.wrap32 (sum + k)) l s)
                                  (s + sumZ l)) by apply (G 0).
  induction l as [| k l IH]; intros s; cbn [fold_left sumZ fold_right].
  - exists 0. lia.
  - eapply congruent_trans; [apply IH |].
    destruct (congruent_wrap32 (s + k)) as [j Hj]. exists j.
    fold (sumZ l). lia.
Qed.

Lemma firstEqual_spec env p :
  forall negRest pre post,
    firstEqual env p negRest = Some (pre, post) ->
    exists n, negRest = pre ++ n :: post /\ exp_eq env p n = true.
Proof.
  induction negRest as [| n ns IH]; intros pre post H; cbn [firstEqual] in H.
  - discriminate H.
  - destruct (exp_eq env p n) eqn:E.
    + inversion H; subst. exists n. split; [reflexivity | exact E].
    + destruct (firstEqual env p ns) as [[pre' post'] |]; [| discriminate H].
      inversion H; subst. destruct (IH pre' post eq_refl) as (m & -> & Em).
      exists m. split; [reflexivity | exact Em].
Qed.

(** What the cancellation leaves is taken from the bags, and a pair it
    removes has equal members. *)
Lemma cancelPairs_value env (V : Exp -> Z) :
  forall posRest negDone negRest pos neg,
    (forall p n, In p posRest -> In n negRest -> exp_eq env p n = true -> V p = V n) ->
    cancelPairs env posRest negDone negRest = (pos, neg) ->
    sumZ (map V pos) - sumZ (map V neg)
    = sumZ (map V posRest) - sumZ (map V (negDone ++ negRest)).
Proof.
  induction posRest as [| p ps IH]; intros negDone negRest pos neg HV H;
    cbn [cancelPairs] in H.
  - inversion H; subst. reflexivity.
  - destruct (firstEqual env p negRest) as [[pre post] |] eqn:F.
    + destruct (firstEqual_spec env p negRest pre post F) as (n & -> & En).
      rewrite (IH (negDone ++ pre) post pos neg); [| | exact H].
      * assert (Hpn : V p = V n).
        { apply HV; [left; reflexivity | | exact En].
          apply in_or_app. right. left. reflexivity. }
        rewrite <- app_assoc.
        rewrite !map_app, !sumZ_app. cbn [map].
        change (sumZ (V p :: map V ps)) with (V p + sumZ (map V ps)).
        change (sumZ (V n :: map V post)) with (V n + sumZ (map V post)).
        rewrite ?sumZ_app. lia.
      * intros p' n' Hp Hn. apply HV; [right; exact Hp |].
        apply in_or_app. right. right. exact Hn.
    + destruct (cancelPairs env ps (negDone ++ negRest) []) as [pos' neg'] eqn:C.
      inversion H; subst.
      pose proof (IH (negDone ++ negRest) [] pos' neg
                     (fun p' n' _ (Hn : In n' []) _ => match Hn with end) C) as G.
      rewrite app_nil_r in G. cbn [map].
      change (sumZ (V p :: map V pos')) with (V p + sumZ (map V pos')).
      change (sumZ (V p :: map V ps)) with (V p + sumZ (map V ps)). lia.
Qed.

Lemma firstEqual_incl env p :
  forall negRest pre post,
    firstEqual env p negRest = Some (pre, post) -> incl (pre ++ post) negRest.
Proof.
  intros negRest pre post H.
  destruct (firstEqual_spec env p negRest pre post H) as (n & -> & _).
  intros x Hx. apply in_app_or in Hx. apply in_or_app.
  destruct Hx as [Hx | Hx]; [left; exact Hx | right; right; exact Hx].
Qed.

Lemma cancelPairs_incl env :
  forall posRest negDone negRest pos neg,
    cancelPairs env posRest negDone negRest = (pos, neg) ->
    incl pos posRest /\ incl neg (negDone ++ negRest).
Proof.
  induction posRest as [| p ps IH]; intros negDone negRest pos neg H;
    cbn [cancelPairs] in H.
  - inversion H; subst. split; [apply incl_refl | apply incl_refl].
  - destruct (firstEqual env p negRest) as [[pre post] |] eqn:F.
    + destruct (IH _ _ _ _ H) as [Hp Hn].
      destruct (firstEqual_spec env p negRest pre post F) as (n & -> & _).
      split; [apply incl_tl; exact Hp |].
      intros x Hx. apply Hn in Hx. rewrite <- app_assoc in Hx.
      apply in_app_or in Hx. apply in_or_app.
      destruct Hx as [Hx | Hx]; [left; exact Hx | right].
      apply in_app_or in Hx. apply in_or_app.
      destruct Hx as [Hx | Hx]; [left; exact Hx | right; right; exact Hx].
    + destruct (cancelPairs env ps (negDone ++ negRest) []) as [pos' neg'] eqn:C.
      inversion H; subst. destruct (IH _ _ _ _ C) as [Hp Hn].
      rewrite app_nil_r in Hn.
      split; [| exact Hn].
      intros x [<- | Hx]; [left; reflexivity | right; apply Hp; exact Hx].
Qed.


Lemma partitionTerms_terms :
  forall e acc negate,
    plain e = true ->
    Forall storedTerm (positives acc) -> Forall storedTerm (negatives acc) ->
    Forall storedTerm (positives (partitionTerms e acc negate))
    /\ Forall storedTerm (negatives (partitionTerms e acc negate)).
Proof.
  assert (Hother : forall (e0 : Exp) (acc : Partition) (negate : bool),
    plain e0 = true -> isTerm e0 = true ->
    Forall storedTerm (positives acc) -> Forall storedTerm (negatives acc) ->
    let r := if negate
             then mkPartition (positives acc) (negatives acc ++ [e0]) (integers acc)
             else mkPartition (positives acc ++ [e0]) (negatives acc) (integers acc) in
    Forall storedTerm (positives r) /\ Forall storedTerm (negatives r)).
  { intros e0 acc negate Hp Ht HP HN.
    assert (Hone : Forall storedTerm [e0])
      by (apply Forall_cons; [split; assumption | apply Forall_nil]).
    destruct negate; cbn [positives negatives]; split; try assumption;
      apply Forall_app; split; assumption. }
  induction e as [u cs | op | op a IHa | op a IHa b IHb | op a IHa b IHb c IHc
                 | ty a IHa | a IHa d | ty | op a IHa p | a IHa rtl];
    intros acc negate Hp HP HN.
  - destruct u; try (apply Hother; [exact Hp | reflexivity | exact HP | exact HN]).
    cbn [partitionTerms positives negatives]. split; assumption.
  - apply Hother; [exact Hp | reflexivity | exact HP | exact HN].
  - cbn [plain] in Hp. apply andb_true_iff in Hp as [Hop Ha].
    pose proof (Hother (Unary op a) acc negate) as Ho.
    cbn [partitionTerms plain isTerm] in Ho |- *.
    destruct (OPER_eqb op opTypedExp); [apply IHa; assumption |].
    apply Ho; [rewrite Hop, Ha; reflexivity | reflexivity | exact HP | exact HN].
  - pose proof (Hother (Binary op a b) acc negate Hp) as Ho.
    cbn [plain] in Hp. apply andb_true_iff in Hp as [Hp Hb].
    apply andb_true_iff in Hp as [Hop Ha].
    cbn [partitionTerms isTerm] in Ho |- *. unfold isOneOf in Ho.
    cbn [existsb] in Ho. rewrite !(OPER_eqb_sym op) in Ho.
    destruct (OPER_eqb opPlus op) eqn:E1; rewrite (OPER_eqb_sym opPlus) in E1;
      rewrite E1.
    { destruct (IHa acc negate Ha HP HN) as [HP' HN'].
      apply IHb; assumption. }
    destruct (OPER_eqb opMinus op) eqn:E2; rewrite (OPER_eqb_sym opMinus) in E2;
      rewrite E2.
    { destruct (IHa acc negate Ha HP HN) as [HP' HN'].
      apply IHb; assumption. }
    destruct (OPER_eqb opTypedExp op) eqn:E3; rewrite (OPER_eqb_sym opTypedExp) in E3;
      rewrite E3.
    { apply IHa; assumption. }
    apply Ho; [reflexivity | exact HP | exact HN].
  - pose proof (Hother (Ternary op a b c) acc negate Hp) as Ho.
    cbn [plain] in Hp. apply andb_true_iff in Hp as [Hp Hc].
    apply andb_true_iff in Hp as [Hp Hb].
    apply andb_true_iff in Hp as [Hop Ha].
    cbn [partitionTerms isTerm] in Ho |- *. unfold isOneOf in Ho.
    cbn [existsb] in Ho. rewrite !(OPER_eqb_sym op) in Ho.
    destruct (OPER_eqb opPlus op) eqn:E1; rewrite (OPER_eqb_sym opPlus) in E1;
      rewrite E1.
    { destruct (IHa acc negate Ha HP HN) as [HP' HN'].
      apply IHb; assumption. }
    destruct (OPER_eqb opMinus op) eqn:E2; rewrite (OPER_eqb_sym opMinus) in E2;
      rewrite E2.
    { destruct (IHa acc negate Ha HP HN) as [HP' HN'].
      apply IHb; assumption. }
    destruct (OPER_eqb opTypedExp op) eqn:E3; rewrite (OPER_eqb_sym opTypedExp) in E3;
      rewrite E3.
    { apply IHa; assumption. }
    apply Ho; [reflexivity | exact HP | exact HN].
  - cbn [partitionTerms]. apply IHa; [exact Hp | exact HP | exact HN].
  - apply Hother; [exact Hp | reflexivity | exact HP | exact HN].
  - apply Hother; [exact Hp | reflexivity | exact HP | exact HN].
  - pose proof (Hother (Location op a p) acc negate Hp) as Ho.
    cbn [plain] in Hp. apply andb_true_iff in Hp as [Hop Ha].
    cbn [partitionTerms isTerm] in Ho |- *.
    destruct (OPER_eqb op opTypedExp); [apply IHa; assumption |].
    apply Ho; [reflexivity | exact HP | exact HN].
  - apply Hother; [exact Hp | reflexivity | exact HP | exact HN].
Qed.

Lemma Accumulate_plain l :
  Forall (fun x => plain x = true) l -> plain (Accumulate l) = true.
Proof.
  induction l as [| x [| y l] IH]; intros H.
  - reflexivity.
  - apply Forall_cons_iff in H as [Hx _]. exact Hx.
  - apply Forall_cons_iff in H as [Hx Hl]. rewrite Accumulate_cons.
    cbn [plain]. rewrite Hx, (IH Hl). reflexivity.
Qed.

Lemma reassemble_plain pos neg sum :
  Forall (fun x => plain x = true) pos -> Forall (fun x => plain x = true) neg ->
  plain (reassemble pos neg sum) = true.
Proof.
  intros HP HN. pose proof (Accumulate_plain pos HP) as Ap.
  pose proof (Accumulate_plain neg HN) as An.
  unfold reassemble.
  destruct pos, neg; destruct (sum =? 0); destruct (sum <? 0);
    cbn [plain]; rewrite ?Ap, ?An; reflexivity.
Qed.

Lemma reassemble_value rho pos neg sum :
  congruent (evalArith rho (reassemble pos neg sum))
            (sumZ (map (evalArith rho) pos) - sumZ (map (evalArith rho) neg) + sum).
Proof.
  pose proof (evalArith_Accumulate rho pos) as Ap.
  pose proof (evalArith_Accumulate rho neg) as An.
  assert (Hdiff : congruent
            (evalArith rho (Binary opMinus (Accumulate pos) (Accumulate neg)))
            (sumZ (map (evalArith rho) pos) - sumZ (map (evalArith rho) neg))).
  { change (evalArith rho (Binary opMinus (Accumulate pos) (Accumulate neg)))
      with (Int32.wrap32 (evalArith rho (Accumulate pos)
                          - evalArith rho (Accumulate neg))).
    eapply congruent_trans; [apply congruent_wrap32 |].
    apply congruent_sub; assumption. }
  assert (Hsigned : forall e v,
            congruent (evalArith rho e) v ->
            congruent
              (evalArith rho
                 (if sum <? 0
                  then Binary opMinus e (Const_get (Int32.wrap32 (- sum)))
                  else Binary opPlus e (Const_get sum)))
              (v + sum)).
  { intros e v He. destruct (sum <? 0).
    - change (evalArith rho (Binary opMinus e (Const_get (Int32.wrap32 (- sum)))))
        with (Int32.wrap32 (evalArith rho e
                            - Int32.wrap32 (Int32.wrap32 (- sum)))).
      eapply congruent_trans; [apply congruent_wrap32 |].
      replace (v + sum) with (v - (- sum)) by lia.
      apply congruent_sub; [exact He |].
      eapply congruent_trans; apply congruent_wrap32.
    - change (evalArith rho (Binary opPlus e (Const_get sum)))
        with (Int32.wrap32 (evalArith rho e + Int32.wrap32 sum)).
      eapply congruent_trans; [apply congruent_wrap32 |].
      apply congruent_add; [exact He | apply congruent_wrap32]. }
  unfold reassemble.
  destruct pos as [| p pos], neg as [| n neg].
  - cbn [map sumZ fold_right evalArith Const_get]. 
    eapply congruent_trans; [apply congruent_wrap32 |]. exists 0. lia.
  - change (evalArith rho (Binary opMinus (Const_get sum) (Accumulate (n :: neg))))
      with (Int32.wrap32 (Int32.wrap32 sum - evalArith rho (Accumulate (n :: neg)))).
    eapply congruent_trans; [apply congruent_wrap32 |].
    replace (sumZ (map (evalArith rho) []) - sumZ (map (evalArith rho) (n :: neg)) + sum)
      with (sum - sumZ (map (evalArith rho) (n :: neg))) by (cbn [map sumZ fold_right]; lia).
    apply congruent_sub; [apply congruent_wrap32 | exact An].
  - destruct (Z.eqb_spec sum 0) as [-> | _].
    + eapply congruent_trans; [exact Ap |].
      exists 0. cbn [map sumZ fold_right]. lia.
    + replace (sumZ (map (evalArith rho) (p :: pos)) - sumZ (map (evalArith rho) []) + sum)
        with (sumZ (map (evalArith rho) (p :: pos)) + sum)
        by (cbn [map sumZ fold_right]; lia).
      apply Hsigned. exact Ap.
  - destruct (Z.eqb_spec sum 0) as [-> | _].
    + eapply congruent_trans; [exact Hdiff |]. exists 0. lia.
    + apply Hsigned. exact Hdiff.
Qed.

Lemma simplifySum_plain env this :
  plain this = true -> plain (simplifySum env this) = true.
Proof.
  intros Hp. unfold simplifySum.
  destruct (partitionTerms_terms this emptyPartition false Hp
              (Forall_nil _) (Forall_nil _)) as [HP HN].
  destruct (cancelPairs env _ [] _) as [pos neg] eqn:C.
  destruct (cancelPairs_incl env _ _ _ _ _ C) as [Ip In].
  apply reassemble_plain; apply Forall_forall; intros x Hx.
  - apply Ip in Hx. rewrite Forall_forall in HP. apply (HP x Hx).
  - apply In in Hx. rewrite Forall_forall in HN. apply (HN x Hx).
Qed.

Lemma simplifySum_value env rho this :
  plain this = true ->
  (forall a b, plain a = true -> plain b = true -> exp_eq env a b = true ->
               rho a = rho b) ->
  evalArith rho (simplifySum env this) = evalArith rho this.
Proof.
  intros Hp Hrho.
  rewrite <- (evalArith_wrapped rho (simplifySum env this)).
  rewrite <- (evalArith_wrapped rho this).
  apply congruent_wrap32_eq. unfold simplifySum.
  destruct (partitionTerms_terms this emptyPartition false Hp
              (Forall_nil _) (Forall_nil _)) as [HP HN].
  pose proof (partitionTerms_value rho this emptyPartition false) as Hv.
  destruct (cancelPairs env _ [] _) as [pos neg] eqn:C.
  rewrite Forall_forall in HP, HN.
  pose proof (cancelPairs_value env (evalArith rho) _ _ _ _ _
                (fun p n Hp' Hn' E =>
                   eq_trans (evalArith_isTerm rho p (proj2 (HP p Hp')))
                     (eq_trans
                        (f_equal Int32.wrap32
                           (Hrho p n (proj1 (HP p Hp')) (proj1 (HN n Hn')) E))
                        (eq_sym (evalArith_isTerm rho n (proj2 (HN n Hn'))))))
                C) as Hc.
  cbn [app] in Hc.
  eapply congruent_trans; [apply reassemble_value |].
  rewrite Hc.
  eapply congruent_trans;
    [apply congruent_add; [apply congruent_refl | apply accumulateInts_sum] |].
  eapply congruent_trans; [exact Hv |].
  exists 0. unfold partitionValue, signOf, emptyPartition.
  cbn [positives negatives integers map sumZ fold_right]. lia.
Qed.

(** The tag of a term survives. *)
Lemma simplifyArith_tag env e :
  isTerm e = true -> getOper (simplifyArith env e) = getOper e.
Proof.
  destruct e as [[] cs | op | op a | op a b | op a b c | ty a | a d | ty
                | op a p | a rtl]; cbn [isTerm simplifyArith getOper];
    try reflexivity; try discriminate.
  - destruct (isOneOf op _); reflexivity.
  - unfold isOneOf. cbn [existsb]. intros H.
    destruct (OPER_eqb op opPlus); [discriminate H |].
    destruct (OPER_eqb op opMinus); [discriminate H |]. reflexivity.
  - destruct (isOneOf op _); reflexivity.
Qed.

Lemma simplifyArith_isTerm env e :
  plain e = true -> isTerm e = true -> isTerm (simplifyArith env e) = true.
Proof.
  destruct e as [[] cs | op | op a | op a b | op a b c | ty a | a d | ty
                | op a p | a rtl]; cbn [isTerm simplifyArith getOper];
    try reflexivity; try discriminate; intros Hp.
  - destruct (isOneOf op _); cbn [isTerm]; trivial.
  - unfold isOneOf. cbn [existsb]. intros H.
    destruct (OPER_eqb op opPlus) eqn:E1; [discriminate H |].
    destruct (OPER_eqb op opMinus) eqn:E2; [discriminate H |].
    cbn [negb andb isTerm]. unfold isOneOf. cbn [existsb].
    rewrite E1, E2. exact H.
  - trivial.
  - destruct (isOneOf op _); cbn [isTerm]; trivial.
Qed.

Lemma simplifyArith_plain env :
  forall e, plain e = true -> plain (simplifyArith env e) = true.
Proof.
  induction e as [u cs | op | op a IHa | op a IHa b IHb | op a IHa b IHb c IHc
                 | ty a IHa | a IHa d | ty | op a IHa p | a IHa rtl];
    intros Hp; cbn [simplifyArith]; try exact Hp.
  - destruct (isOneOf op _); [| exact Hp].
    cbn [plain] in Hp |- *. apply andb_true_iff in Hp as [Hop Ha].
    rewrite Hop, (IHa Ha). reflexivity.
  - assert (Hthis : plain (Binary op (simplifyArith env a) (simplifyArith env b)) = true).
    { cbn [plain] in Hp |- *. apply andb_true_iff in Hp as [Hp Hb].
      apply andb_true_iff in Hp as [Hop Ha].
      rewrite Hop, (IHa Ha), (IHb Hb). reflexivity. }
    destruct (negb _ && negb _); [exact Hthis |].
    apply simplifySum_plain. exact Hthis.
  - cbn [plain] in Hp |- *. apply andb_true_iff in Hp as [Hp Hc].
    apply andb_true_iff in Hp as [Hp Hb]. apply andb_true_iff in Hp as [Hop Ha].
    rewrite Hop, (IHa Ha), (IHb Hb), (IHc Hc). reflexivity.
  - cbn [plain] in Hp |- *. apply andb_true_iff in Hp as [Hd Ha].
    rewrite Hd, (IHa Ha). reflexivity.
  - destruct (isOneOf op _); [| exact Hp].
    cbn [plain] in Hp |- *. apply andb_true_iff in Hp as [Hop Ha].
    rewrite Hop, (IHa Ha). reflexivity.
Qed.

(** X5: [simplifyArith] keeps the 32-bit value of a stored expression read
    as a sum: for every valuation of the terms that gives equal values to
    stored expressions [operator==] takes for equal, and the same value
    to a term before and after its own simplification, the result
    evaluates to what the expression evaluates to. *)
Theorem simplifyArith_preserves_value :
  forall (env : Env) (rho : Exp -> Z) (e : Exp),
    plain e = true ->
    (forall a b, plain a = true -> plain b = true -> exp_eq env a b = true ->
                 rho a = rho b) ->
    (forall a, plain a = true -> isTerm a = true ->
               rho (simplifyArith env a) = rho a) ->
    evalArith rho (simplifyArith env e) = evalArith rho e.
Proof.
  intros env rho e Hp Heq Hfix. revert Hp.
  assert (Hterm : forall x, plain x = true -> isTerm x = true ->
                            evalArith rho (simplifyArith env x) = evalArith rho x).
  { intros x Hp T.
    rewrite (evalArith_isTerm rho (simplifyArith env x)
               (simplifyArith_isTerm env x Hp T)).
    rewrite (evalArith_isTerm rho x T), (Hfix x Hp T). reflexivity. }
  induction e as [u cs | op | op a IHa | op a IHa b IHb | op a IHa b IHb c IHc
                 | ty a IHa | a IHa d | ty | op a IHa p | a IHa rtl];
    intros Hp;
    match goal with
    | |- evalArith rho (simplifyArith env ?x) = _ =>
        destruct (isTerm x) eqn:T; [apply (Hterm x Hp T) |]
    end;
    try reflexivity; try discriminate T.
  - (* a unary node tagged as a typed wrapper is not stored *)
    cbn [isTerm] in T. apply negb_false_iff in T. apply OPER_eqb_eq in T. subst op.
    discriminate Hp.
  - (* Binary *)
    cbn [isTerm] in T. apply negb_false_iff in T.
    pose proof Hp as Hp'. cbn [plain] in Hp'.
    apply andb_true_iff in Hp' as [Hp' Hb]. apply andb_true_iff in Hp' as [Hop Ha].
    assert (Hthis : plain (Binary op (simplifyArith env a) (simplifyArith env b)) = true).
    { cbn [plain]. rewrite Hop, !simplifyArith_plain by assumption. reflexivity. }
    unfold isOneOf in T. cbn [existsb] in T.
    cbn [simplifyArith].
    destruct (OPER_eqb op opPlus) eqn:E1.
    { apply OPER_eqb_eq in E1. subst op. cbn [negb andb].
      rewrite (simplifySum_value env rho _ Hthis Heq).
      cbn [evalArith]. change (OPER_eqb opPlus opPlus) with true. cbn iota.
      rewrite (IHa Ha), (IHb Hb). reflexivity. }
    destruct (OPER_eqb op opMinus) eqn:E2.
    { apply OPER_eqb_eq in E2. subst op. cbn [negb andb].
      rewrite (simplifySum_value env rho _ Hthis Heq).
      cbn [evalArith]. change (OPER_eqb opMinus opPlus) with false.
      change (OPER_eqb opMinus opMinus) with true. cbn iota.
      rewrite (IHa Ha), (IHb Hb). reflexivity. }
    cbn [orb] in T. rewrite orb_false_r in T. apply OPER_eqb_eq in T. subst op.
    discriminate Hop.
  - (* Ternary *)
    cbn [isTerm] in T. apply negb_false_iff in T.
    cbn [plain] in Hp. apply andb_true_iff in Hp as [Hp _].
    apply andb_true_iff in Hp as [Hp _]. apply andb_true_iff in Hp as [Hop _].
    unfold isOneOf in T. cbn [existsb] in T.
    destruct op; try discriminate T; discriminate Hop.
  - (* Location *)
    cbn [isTerm] in T. apply negb_false_iff in T. apply OPER_eqb_eq in T. subst op.
    discriminate Hp.
Qed.

Lemma simplifyArith_preserves_value_witness :
  plain stackDifference = true
  /\ simplifyArith plainEnv stackDifference = Const_get 8
  /\ evalArith tagValuation (simplifyArith plainEnv stackDifference)
     = evalArith tagValuation stackDifference.
Proof.
  split; [reflexivity | split; [reflexivity |]].
  apply (simplifyArith_preserves_value plainEnv tagValuation stackDifference).
  - reflexivity.
  - intros a b Ha Hb E. unfold tagValuation.
    rewrite (exp_eq_tag plainEnv a b Ha Hb E). reflexivity.
  - intros a Ha T. unfold tagValuation.
    rewrite (simplifyArith_tag plainEnv a T). reflexivity.
Defined.

(** X6: a stored expression stays a stored expression under
    [simplifyArith]: the sums it rebuilds bring in no wildcard, no tag on
    a node of the wrong shape and no constant with a conscript. *)
Theorem simplifyArith_keeps_plain :
  forall (env : Env) (e : Exp),
    plain e = true -> plain (simplifyArith env e) = true.
Proof. intros env e. apply simplifyArith_plain. Qed.

Lemma simplifyArith_keeps_plain_witness :
  plain (Binary opMinus (Location_regOf 28) (Binary opPlus (Location_regOf 28) (Const_get 92)))
  = true
  /\ plain (simplifyArith plainEnv
              (Binary opMinus (Location_regOf 28)
                 (Binary opPlus (Location_regOf 28) (Const_get 92)))) = true.
Proof.
  split; [reflexivity |].
  apply (simplifyArith_keeps_plain plainEnv
           (Binary opMinus (Location_regOf 28)
              (Binary opPlus (Location_regOf 28) (Const_get 92)))).
  reflexivity.
Defined.

(** X7: the cancellation of [simplifyArith] looks for the partner of a
    positive term only behind the place where the previous search ended.
    For two terms [a] and [b] that simplify to themselves, equal
    themselves and are not equal, [(a + b) - (b + a)] becomes [b - b], not
    zero. *)
Theorem simplifyArith_misses_crossed_pair :
  forall (env : Env) (a b : Exp),
    isTerm a = true -> isTerm b = true ->
    simplifyArith env a = a -> simplifyArith env b = b ->
    exp_eq env a a = true -> exp_eq env a b = false ->
    simplifyArith env (Binary opMinus (Binary opPlus a b) (Binary opPlus b a))
    = Binary opMinus b b.
Proof.
  intros env a b Ta Tb Fa Fb Eaa Eab.
  assert (Hsum : forall x y, isTerm x = true -> isTerm y = true ->
                             simplifySum env (Binary opPlus x y) = Binary opPlus x y).
  { intros x y Tx Ty.
    change (simplifySum env (Accumulate [x; y]) = Binary opPlus x y).
    unfold simplifySum.
    rewrite partitionTerms_sum_of_terms by (repeat constructor; assumption).
    reflexivity. }
  cbn [simplifyArith].
  change (OPER_eqb opPlus opPlus) with true.
  change (OPER_eqb opMinus opPlus) with false.
  change (OPER_eqb opMinus opMinus) with true.
  cbn [negb andb]. rewrite Fa, Fb, !Hsum by assumption.
  unfold simplifySum. cbn [partitionTerms].
  change (OPER_eqb opMinus opPlus) with false.
  change (OPER_eqb opMinus opMinus) with true.
  change (OPER_eqb opPlus opPlus) with true. cbn iota.
  rewrite !partitionTerms_isTerm by assumption.
  cbn [negb positives negatives integers emptyPartition app cancelPairs firstEqual].
  rewrite Eab, Eaa. reflexivity.
Qed.

Lemma simplifyArith_misses_crossed_pair_witness :
  (isTerm (Location_regOf 1) = true /\ isTerm (Location_regOf 2) = true)
  /\ (simplifyArith plainEnv (Location_regOf 1) = Location_regOf 1
      /\ simplifyArith plainEnv (Location_regOf 2) = Location_regOf 2)
  /\ (exp_eq plainEnv (Location_regOf 1) (Location_regOf 1) = true
      /\ exp_eq plainEnv (Location_regOf 1) (Location_regOf 2) = false)
  /\ simplifyArith plainEnv
       (Binary opMinus (Binary opPlus (Location_regOf 1) (Location_regOf 2))
                       (Binary opPlus (Location_regOf 2) (Location_regOf 1)))
     = Binary opMinus (Location_regOf 2) (Location_regOf 2).
Proof.
  repeat (split; [repeat split; reflexivity |]).
  apply (simplifyArith_misses_crossed_pair plainEnv (Location_regOf 1)
                                           (Location_regOf 2)); reflexivity.
Defined.

(** ** Argument locations *)

Lemma exp_eq_regOf env a b :
  exp_eq env (Location_regOf a) (Location_regOf b) = (a =? b).
Proof. reflexivity. Qed.

Lemma exp_eq_regOf_memOf env a x :
  exp_eq env (Location_regOf a) (Location_memOf x) = false.
Proof. reflexivity. Qed.

Lemma exp_eq_memOf_regOf env a x :
  exp_eq env (Location_memOf x) (Location_regOf a) = false.
Proof. reflexivity. Qed.

Lemma exp_eq_stack_slot env sp a b :
  exp_eq env (Location_memOf (Binary opPlus (Location_regOf sp) (Const_get a)))
             (Location_memOf (Binary opPlus (Location_regOf sp) (Const_get b)))
  = (a =? b).
Proof.
  change (exp_eq env (Location_memOf (Binary opPlus (Location_regOf sp) (Const_get a)))
             (Location_memOf (Binary opPlus (Location_regOf sp) (Const_get b))))
    with (if negb (exp_eq env (Location_regOf sp) (Location_regOf sp)) then false
          else a =? b).
  rewrite exp_eq_regOf, Z.eqb_refl. reflexivity.
Qed.

Ltac small_int :=
  unfold Int32.in_range, Int32.min_signed, Int32.max_signed; lia.

(** X8: beyond the declared parameters, a convention places different
    arguments in different locations: for two indices [n < m] from the
    number of parameters on (and small enough for the byte offset to fit
    an [int]), [getArgumentExp] answers with two locations that are not
    equal. *)
Theorem getArgumentExp_injective :
  forall (env : Env) (cls : SigClass) (sig : Signature) (n m : Z),
    cls <> BaseSignature ->
    numParams sig <= n -> n < m -> m < 500000000 ->
    exists a b,
      getArgumentExp env cls sig n = Some a
      /\ getArgumentExp env cls sig m = Some b
      /\ exp_eq env a b = false.
Proof.
  intros env cls sig n m Hcls Hn Hnm Hm.
  assert (H0 : 0 <= numParams sig) by (unfold numParams; lia).
  assert (Hfirst : forall sp, firstParamIs env sig sp = true -> 1 <= numParams sig).
  { intros sp. unfold firstParamIs, numParams. destruct (params sig); [discriminate |].
    intros _. cbn [List.length]. lia. }
  destruct cls; try (exfalso; apply Hcls; reflexivity);
    cbn [getArgumentExp];
    unfold Win32Signature_getArgumentExp, Win32TcSignature_getArgumentExp,
      SparcSignature_getArgumentExp, PPCSignature_getArgumentExp,
      MIPSSignature_getArgumentExp, ST20Signature_getArgumentExp;
    destruct (Z.ltb_spec n (numParams sig)); try lia;
    destruct (Z.ltb_spec m (numParams sig)); try lia;
    try match goal with
        | |- context [firstParamIs env sig ?sp] =>
            pose proof (Hfirst sp) as Hf;
            destruct (firstParamIs env sig sp);
            [specialize (Hf eq_refl) | clear Hf]
        end;
    repeat match goal with
           | |- context [?x >=? ?y] => destruct (Z.geb_spec x y)
           | |- context [Int32.wrap32 (?x - 1) =? 0] =>
               rewrite (wrap32_id (x - 1)) by small_int;
               destruct (Z.eqb_spec (x - 1) 0)
           | |- context [?x =? 0] => destruct (Z.eqb_spec x 0)
           end;
    try lia;
    (eexists; eexists; split; [reflexivity | split; [reflexivity |]]);
    rewrite ?exp_eq_stack_slot, ?exp_eq_regOf, ?exp_eq_regOf_memOf, ?exp_eq_memOf_regOf;
    try reflexivity;
    repeat match goal with
           | |- context [Int32.wrap32 ?x] =>
               lazymatch x with
               | context [Int32.wrap32 _] => fail
               | _ => rewrite (wrap32_id x) by small_int
               end
           end;
    apply Z.eqb_neq; lia.
Qed.

Lemma getArgumentExp_injective_witness :
  exists a b,
    getArgumentExp plainEnv SparcSignature emptySignature 5 = Some a
    /\ getArgumentExp plainEnv SparcSignature emptySignature 6 = Some b
    /\ exp_eq plainEnv a b = false.
Proof.
  apply (getArgumentExp_injective plainEnv SparcSignature emptySignature 5 6).
  - discriminate.
  - unfold numParams. cbn. lia.
  - lia.
  - lia.
Defined.

(** X9: on the SPARC no argument location the convention hands out is a
    stack local: the register arguments are no memory locations, and the
    memory arguments start at [m[r14 + 92]], where the locals end
    ([m[r14 + k]] is a local exactly for [k < 92]). *)
Theorem sparc_arguments_not_stack_local :
  forall (env : Env) (sig : Signature) (n : Z),
    numParams sig <= n -> n < 500000000 ->
    (exists a, getArgumentExp env SparcSignature sig n = Some a
               /\ Sparc_isStackLocal env a = false)
    /\ (forall k, Sparc_isStackLocal env
                    (Location_memOf (Binary opPlus (Location_regOf 14) (Const_get k)))
                  = (k <? 92)).
Proof.
  intros env sig n Hn Hm.
  assert (H0 : 0 <= numParams sig) by (unfold numParams; lia).
  split; [| intros k; reflexivity].
  cbn [getArgumentExp]. unfold SparcSignature_getArgumentExp.
  destruct (Z.ltb_spec n (numParams sig)); [lia |].
  destruct (Z.geb_spec n 6).
  - eexists. split; [reflexivity |].
    rewrite (wrap32_id (n - 6)) by small_int.
    rewrite (wrap32_id ((n - 6) * 4)) by small_int.
    rewrite (wrap32_id (92 + (n - 6) * 4)) by small_int.
    change (Sparc_isStackLocal env
              (Location_memOf
                 (Binary opPlus (Location_regOf 14) (Const_get (92 + (n - 6) * 4)))))
      with (92 + (n - 6) * 4 <? 92).
    apply Z.ltb_ge. lia.
  - eexists. split; reflexivity.
Qed.

Lemma sparc_arguments_not_stack_local_witness :
  (exists a, getArgumentExp plainEnv SparcSignature emptySignature 7 = Some a
             /\ Sparc_isStackLocal plainEnv a = false)
  /\ (forall k, Sparc_isStackLocal plainEnv
                  (Location_memOf (Binary opPlus (Location_regOf 14) (Const_get k)))
                = (k <? 92)).
Proof.
  apply (sparc_arguments_not_stack_local plainEnv emptySignature 7).
  - unfold numParams. cbn. lia.
  - lia.
Defined.

(** X10: the stack wildcard of a convention matches the memory location
    at any offset below its stack register, [m[sp - x]] (above it,
    [m[sp + x]], on the SPARC), whatever [x] is, and no location on the
    other side. *)
Theorem getStackWildcard_matches_stack_slots :
  forall (env : Env) (cls : SigClass) (sig : Signature) (x : Exp),
    cls <> BaseSignature ->
    exists w sp,
      getStackWildcard cls = Some w
      /\ getStackRegister cls sig = Returns sp
      /\ let (side, other) :=
           match cls with
           | SparcSignature | SparcLibSignature => (opPlus, opMinus)
           | _ => (opMinus, opPlus)
           end in
         exp_eq env w (Location_memOf (Binary side (Location_regOf sp) x)) = true
         /\ exp_eq env w (Location_memOf (Binary other (Location_regOf sp) x)) = false.
Proof.
  intros env cls sig x Hcls.
  destruct cls; try (exfalso; apply Hcls; reflexivity);
    (eexists; eexists; split; [reflexivity | split; [reflexivity |]]);
    split; reflexivity.
Qed.

Lemma getStackWildcard_matches_stack_slots_witness :
  exists w sp,
    getStackWildcard PentiumSignature = Some w
    /\ getStackRegister PentiumSignature emptySignature = Returns sp
    /\ exp_eq plainEnv w
         (Location_memOf (Binary opMinus (Location_regOf sp) (Const_get 8))) = true
    /\ exp_eq plainEnv w
         (Location_memOf (Binary opPlus (Location_regOf sp) (Const_get 8))) = false.
Proof.
  apply (getStackWildcard_matches_stack_slots plainEnv PentiumSignature
           emptySignature (Const_get 8)).
  discriminate.
Defined.

(** X11: every convention proves a value for its own stack register:
    [getProven] answers for [r[sp]] with [sp] the answer of
    [getStackRegister], and the value is the register itself or, in the
    Pentium family, the register plus a constant. *)
Theorem getProven_answers_for_stack_register :
  forall (env : Env) (cls : SigClass) (sig : Signature) (sp : Z),
    getStackRegister cls sig = Returns sp ->
    exists v,
      getProven env cls sig (Location_regOf sp) = Some v
      /\ (v = Location_regOf sp
          \/ exists k, v = Binary opPlus (Location_regOf sp) (Const_get k)).
Proof.
  intros env cls sig sp H.
  destruct cls; cbn [getStackRegister] in H; try discriminate H;
    inversion H; subst sp; eexists;
    (split; [reflexivity |]);
    first [left; reflexivity | right; eexists; reflexivity].
Qed.

Lemma getProven_answers_for_stack_register_witness :
  getStackRegister PentiumSignature emptySignature = Returns 28
  /\ exists v,
      getProven plainEnv PentiumSignature emptySignature (Location_regOf 28) = Some v
      /\ (v = Location_regOf 28
          \/ exists k, v = Binary opPlus (Location_regOf 28) (Const_get k)).
Proof.
  split; [reflexivity |].
  apply (getProven_answers_for_stack_register plainEnv PentiumSignature
           emptySignature 28).
  reflexivity.
Defined.

(** ** The parameter and return lists *)

Lemma paramName_inj a b : paramName a = paramName b -> a = b.
Proof.
  unfold paramName. intros H. cbn in H. inversion H as [H'].
  assert (Hu : Nat.to_uint a = Nat.to_uint b).
  { pose proof (NilEmpty.usu (Nat.to_uint a)) as Ha.
    pose proof (NilEmpty.usu (Nat.to_uint b)) as Hb.
    rewrite H' in Ha. rewrite Ha in Hb. inversion Hb. reflexivity. }
  rewrite <- (Unsigned.of_to a), <- (Unsigned.of_to b), Hu. reflexivity.
Qed.

Lemma paramName_not_empty n : String.eqb (paramName n) EmptyString = false.
Proof. reflexivity. Qed.

Lemma existsb_eqb_In s names :
  existsb (String.eqb s) names = true <-> In s names.
Proof.
  rewrite existsb_exists. split.
  - intros (x & Hx & E). apply String.eqb_eq in E. subst x. exact Hx.
  - intros H. exists s. split; [exact H | apply String.eqb_refl].
Qed.

(** The names [paramName n], ..., [paramName (n + d - 1)]. *)
Lemma candidates_NoDup d : forall n, NoDup (map paramName (seq n d)).
Proof.
  induction d as [| d IH]; intros n; cbn [seq map]; constructor.
  - intros Hin. apply in_map_iff in Hin. destruct Hin as (k & E & Hk).
    apply paramName_inj in E. subst k. apply in_seq in Hk. lia.
  - apply IH.
Qed.

Lemma candidate_free names n :
  exists k, (n <= k <= n + List.length names)%nat /\ ~ In (paramName k) names.
Proof.
  destruct (Forall_Exists_dec (fun k => In (paramName k) names)
              (fun k => in_dec string_dec (paramName k) names)
              (seq n (S (List.length names)))) as [Hall | Hex].
  - exfalso.
    assert (Hincl : incl (map paramName (seq n (S (List.length names)))) names).
    { intros s Hs. apply in_map_iff in Hs. destruct Hs as (k & <- & Hk).
      rewrite Forall_forall in Hall. apply Hall. exact Hk. }
    pose proof (NoDup_incl_length (candidates_NoDup _ n) Hincl) as Hlen.
    rewrite length_map, length_seq in Hlen. lia.
  - apply Exists_exists in Hex. destruct Hex as (k & Hk & Hfree).
    apply in_seq in Hk. exists k. split; [lia | exact Hfree].
Qed.

Lemma freshParamName_finds names :
  forall d n fuel,
    (d < fuel)%nat -> ~ In (paramName (n + d)) names ->
    exists k, (n <= k <= n + d)%nat
              /\ freshParamName fuel names n = Ok (paramName k)
              /\ ~ In (paramName k) names.
Proof.
  induction d as [| d IH]; intros n fuel Hfuel Hfree;
    (destruct fuel as [| fuel]; [lia |]); cbn [freshParamName].
  - rewrite Nat.add_0_r in Hfree.
    destruct (existsb (String.eqb (paramName n)) names) eqn:E.
    + apply existsb_eqb_In in E. contradiction.
    + exists n. split; [lia | split; [reflexivity | exact Hfree]].
  - destruct (existsb (String.eqb (paramName n)) names) eqn:E.
    + destruct (IH (S n) fuel ltac:(lia)) as (k & Hk & Hres & Hk').
      { replace (S n + d)%nat with (n + S d)%nat by lia. exact Hfree. }
      exists k. split; [lia | split; [exact Hres | exact Hk']].
    + exists n. split; [lia | split; [reflexivity |]].
      intros Hin. apply existsb_eqb_In in Hin. rewrite Hin in E. discriminate E.
Qed.

(** With enough fuel the loop over the names ends. *)
Lemma Signature_addParameter_unnamed :
  forall (fuel : nat) (sig : Signature) (type : SharedType) (e : Exp)
         (boundMax : string),
    (List.length (params sig) + 1 < fuel)%nat ->
    exists k,
      (List.length (params sig) < k <= 2 * List.length (params sig) + 1)%nat
      /\ ~ In (paramName k) (paramNames sig)
      /\ Signature_addParameter fuel sig type None (Some e) boundMax
         = Ok (setParams sig
                 (params sig ++ [mkParameter type (paramName k) e boundMax])).
Proof.
  intros fuel sig type e boundMax Hfuel.
  destruct fuel as [| fuel]; [lia |].
  destruct (candidate_free (paramNames sig) (S (List.length (params sig))))
    as (k0 & Hk0 & Hfree0).
  assert (Hlen : List.length (paramNames sig) = List.length (params sig))
    by (unfold paramNames; apply length_map).
  rewrite Hlen in Hk0.
  destruct (freshParamName_finds (paramNames sig)
              (k0 - S (List.length (params sig))) (S (List.length (params sig)))
              fuel ltac:(lia)) as (k & Hk & Hres & Hfree).
  { replace (S (List.length (params sig)) + (k0 - S (List.length (params sig))))%nat
      with k0 by lia. exact Hfree0. }
  exists k. split; [lia | split; [exact Hfree |]].
  cbn [Signature_addParameter]. rewrite Hres. cbn [bind].
  rewrite paramName_not_empty. reflexivity.
Qed.

(** X12: adding a parameter without a name ends and names it: with more
    fuel than there are parameters (plus two), [Signature::addParameter]
    appends one parameter with the given type and expression whose name
    is [paramK] for a [K] above the number of parameters, and no
    parameter had that name. *)
Theorem addParameter_picks_fresh_name :
  forall (fuel : nat) (sig : Signature) (type : SharedType) (e : Exp)
         (boundMax : string),
    (List.length (params sig) + 1 < fuel)%nat ->
    exists k,
      (List.length (params sig) < k <= 2 * List.length (params sig) + 1)%nat
      /\ ~ In (paramName k) (paramNames sig)
      /\ Signature_addParameter fuel sig type None (Some e) boundMax
         = Ok (setParams sig
                 (params sig ++ [mkParameter type (paramName k) e boundMax])).
Proof. exact Signature_addParameter_unnamed. Qed.

Lemma addParameter_picks_fresh_name_witness :
  (List.length (params emptySignature) + 1 < 2)%nat
  /\ exists k,
      (List.length (params emptySignature) < k
       <= 2 * List.length (params emptySignature) + 1)%nat
      /\ ~ In (paramName k) (paramNames emptySignature)
      /\ Signature_addParameter 2 emptySignature VoidType None
           (Some (Location_regOf 8)) EmptyString
         = Ok (setParams emptySignature
                 (params emptySignature
                  ++ [mkParameter VoidType (paramName k) (Location_regOf 8)
                        EmptyString])).
Proof.
  split; [cbn; lia |].
  apply (addParameter_picks_fresh_name 2 emptySignature VoidType (Location_regOf 8)
           EmptyString).
  cbn. lia.
Defined.

Lemma Signature_addParameter_appends :
  forall fuel sig type nam e boundMax sig',
    Signature_addParameter fuel sig type nam e boundMax = Ok sig' ->
    exists ex p,
      e = Some ex /\ param_exp p = ex /\ param_type p = type
      /\ sig' = setParams sig (params sig ++ [p]).
Proof.
  induction fuel as [| fuel IH]; intros sig type nam e boundMax sig' H;
    cbn [Signature_addParameter] in H; [discriminate H |].
  destruct e as [ex |]; [| discriminate H].
  destruct (match nam with
            | Some s => Ok s
            | None => freshParamName fuel (paramNames sig)
                        (S (List.length (params sig)))
            end) as [new_name | f]; cbn [bind] in H; [| discriminate H].
  destruct (String.eqb new_name EmptyString).
  - apply IH in H. exact H.
  - inversion H; subst. exists ex.
    exists (mkParameter type new_name ex boundMax).
    split; [reflexivity | split; [| split]]; reflexivity.
Qed.

Lemma getParamExp_app_old sig p k :
  k < numParams sig ->
  getParamExp (setParams sig (params sig ++ [p])) k = getParamExp sig k.
Proof.
  intros Hk. unfold getParamExp. cbn [params setParams].
  destruct (k <? 0) eqn:E; [reflexivity |].
  apply Z.ltb_ge in E.
  rewrite nth_error_app1; [reflexivity |]. unfold numParams in Hk. lia.
Qed.

Lemma getParamExp_app_new sig p :
  getParamExp (setParams sig (params sig ++ [p])) (numParams sig)
  = Some (param_exp p).
Proof.
  unfold getParamExp, numParams. cbn [params setParams].
  destruct (Z.ltb_spec (Z.of_nat (List.length (params sig))) 0); [lia |].
  rewrite Nat2Z.id, nth_error_app2 by lia.
  rewrite Nat.sub_diag. reflexivity.
Qed.

Lemma numParams_app sig p :
  numParams (setParams sig (params sig ++ [p])) = numParams sig + 1.
Proof.
  unfold numParams. cbn [params setParams]. rewrite length_app. cbn [List.length]. lia.
Qed.

Lemma firstParamIs_app env sig p sp :
  firstParamIs env (setParams sig (params sig ++ [p])) sp
  = match params sig with
    | [] => exp_eq env (param_exp p) sp
    | _ :: _ => firstParamIs env sig sp
    end.
Proof.
  unfold firstParamIs. cbn [params setParams]. destruct (params sig); reflexivity.
Qed.

Lemma classic_base (cls : SigClass) : cls = BaseSignature \/ cls <> BaseSignature.
Proof. destruct cls; (left; reflexivity) || (right; discriminate). Qed.

Lemma getArgumentExp_next env cls sig :
  cls <> BaseSignature ->
  exists ex, getArgumentExp env cls sig (numParams sig) = Some ex.
Proof.
  intros Hcls.
  destruct cls; try (exfalso; apply Hcls; reflexivity);
    cbn [getArgumentExp];
    unfold Win32Signature_getArgumentExp, Win32TcSignature_getArgumentExp,
      SparcSignature_getArgumentExp, PPCSignature_getArgumentExp,
      MIPSSignature_getArgumentExp, ST20Signature_getArgumentExp;
    rewrite Z.ltb_irrefl;
    repeat match goal with
           | |- context [if ?c then Some _ else Some _] => destruct c
           end;
    eexists; reflexivity.
Qed.

(** Appending the parameter that holds the next argument location moves
    no argument. *)
Lemma getArgumentExp_append env cls sig p :
  cls <> BaseSignature ->
  getArgumentExp env cls sig (numParams sig) = Some (param_exp p) ->
  forall k,
    getArgumentExp env cls (setParams sig (params sig ++ [p])) k
    = getArgumentExp env cls sig k.
Proof.
  intros Hcls Hp k.
  assert (H0 : 0 <= numParams sig) by (unfold numParams; lia).
  assert (Hnil : params sig = [] -> numParams sig = 0) by apply numParams_nil.
  destruct cls; try (exfalso; apply Hcls; reflexivity);
    cbn [getArgumentExp] in Hp |- *;
    unfold Win32Signature_getArgumentExp, Win32TcSignature_getArgumentExp,
      SparcSignature_getArgumentExp, PPCSignature_getArgumentExp,
      MIPSSignature_getArgumentExp, ST20Signature_getArgumentExp,
      Signature_getArgumentExp in Hp |- *;
    rewrite numParams_app, ?firstParamIs_app;
    rewrite Z.ltb_irrefl in Hp;
    (destruct (Z.ltb_spec k (numParams sig)) as [Hlt | Hge];
     [ destruct (Z.ltb_spec k (numParams sig + 1)); [| lia];
       apply getParamExp_app_old; exact Hlt |]);
    (destruct (Z.eq_dec k (numParams sig)) as [-> | Hne];
     [ destruct (Z.ltb_spec (numParams sig) (numParams sig + 1)); [| lia];
       rewrite getParamExp_app_new, Hp; reflexivity |]);
    (destruct (Z.ltb_spec k (numParams sig + 1)); [lia |]);
    try reflexivity;
    (destruct (params sig) eqn:Eps; [| reflexivity]);
    rewrite (firstParamIs_nil env sig _ Eps) in Hp |- *;
    rewrite (Hnil eq_refl) in Hp; cbn in Hp; inversion Hp as [Hp'];
    reflexivity.
Qed.

Lemma Signature_addParameter_returns fuel sig type nam ex boundMax :
  (List.length (params sig) + 2 < fuel)%nat ->
  exists p,
    param_exp p = ex
    /\ Signature_addParameter fuel sig type nam (Some ex) boundMax
       = Ok (setParams sig (params sig ++ [p])).
Proof.
  intros Hfuel.
  destruct (Signature_addParameter_unnamed fuel sig type ex boundMax ltac:(lia))
    as (k & _ & _ & Hk).
  destruct nam as [s |].
  - destruct fuel as [| fuel]; [lia |]. cbn [Signature_addParameter bind].
    destruct (String.eqb s EmptyString).
    + destruct (Signature_addParameter_unnamed fuel sig type ex boundMax ltac:(lia))
        as (k' & _ & _ & Hk').
      eexists. split; [| exact Hk']. reflexivity.
    + eexists. split; [| reflexivity]. reflexivity.
  - eexists. split; [| exact Hk]. reflexivity.
Qed.

(** X13: declaring the next parameter at its default place moves no
    argument: the [addParameter] of a convention without an expression
    returns (given fuel above the number of parameters plus two), the
    signature has one parameter more, the new parameter is where
    [getArgumentExp] puts the argument it declares, and [getArgumentExp]
    answers for every index what it answered before. *)
Theorem addParameter_keeps_argument_locations :
  forall (fuel : nat) (env : Env) (cls : SigClass) (sig : Signature)
         (type : SharedType) (nam : option string) (boundMax : string),
    cls <> BaseSignature ->
    (List.length (params sig) + 2 < fuel)%nat ->
    exists sig',
      addParameter fuel env cls sig type nam None boundMax = Ok sig'
      /\ numParams sig' = numParams sig + 1
      /\ getParamExp sig' (numParams sig) = getArgumentExp env cls sig (numParams sig)
      /\ forall k, getArgumentExp env cls sig' k = getArgumentExp env cls sig k.
Proof.
  intros fuel env cls sig type nam boundMax Hcls Hfuel.
  destruct (getArgumentExp_next env cls sig Hcls) as (ex & Hex).
  destruct (Signature_addParameter_returns fuel sig type nam ex boundMax Hfuel)
    as (p & Hp & Hadd).
  exists (setParams sig (params sig ++ [p])).
  split.
  { rewrite <- Hadd, <- Hex. destruct cls; try reflexivity.
    exfalso. apply Hcls. reflexivity. }
  split; [apply numParams_app |].
  split; [rewrite getParamExp_app_new, Hex, Hp; reflexivity |].
  apply getArgumentExp_append; [exact Hcls |]. rewrite Hex, Hp. reflexivity.
Qed.

Lemma addParameter_keeps_argument_locations_witness :
  (PentiumSignature <> BaseSignature
   /\ (List.length (params emptySignature) + 2 < 3)%nat)
  /\ exists sig',
      addParameter 3 plainEnv PentiumSignature emptySignature (IntegerType 32) None None
        EmptyString = Ok sig'
      /\ numParams sig' = numParams emptySignature + 1
      /\ getParamExp sig' (numParams emptySignature)
         = getArgumentExp plainEnv PentiumSignature emptySignature
             (numParams emptySignature)
      /\ forall k, getArgumentExp plainEnv PentiumSignature sig' k
                   = getArgumentExp plainEnv PentiumSignature emptySignature k.
Proof.
  split; [split; [discriminate | cbn; lia] |].
  apply (addParameter_keeps_argument_locations 3 plainEnv PentiumSignature
           emptySignature (IntegerType 32) None EmptyString).
  - discriminate.
  - cbn. lia.
Defined.

Lemma last_default {A : Type} (l : list A) :
  forall x d d', last (x :: l) d = last (x :: l) d'.
Proof.
  induction l as [| y l IH]; intros x d d'; [reflexivity |].
  change (last (y :: l) d = last (y :: l) d'). apply IH.
Qed.

Lemma setNth_app {A : Type} (pre : list A) a x post :
  setNth (List.length pre) x (pre ++ a :: post) = pre ++ x :: post.
Proof.
  induction pre as [| y pre IH]; cbn [List.length app setNth]; [reflexivity |].
  rewrite IH. reflexivity.
Qed.

(** The loop moves every element behind the place down and leaves the
    last one twice. *)
Lemma shiftDown_app {A : Type} :
  forall (post pre : list A) (a : A),
    shiftDown (List.length post) (S (List.length pre)) (pre ++ a :: post)
    = pre ++ post ++ [last post a].
Proof.
  induction post as [| x post IH]; intros pre a.
  - reflexivity.
  - cbn [List.length shiftDown].
    replace (nth_error (pre ++ a :: x :: post) (S (List.length pre)))
      with (Some x).
    2: { rewrite nth_error_app2 by lia.
         replace (S (List.length pre) - List.length pre)%nat with 1%nat by lia.
         reflexivity. }
    replace (S (List.length pre) - 1)%nat with (List.length pre) by lia.
    rewrite setNth_app.
    replace (pre ++ x :: x :: post) with ((pre ++ [x]) ++ x :: post)
      by (rewrite <- app_assoc; reflexivity).
    replace (S (S (List.length pre))) with (S (List.length (pre ++ [x])))
      by (rewrite length_app; cbn [List.length]; lia).
    rewrite IH, <- app_assoc. cbn [app].
    destruct post as [| y post]; [reflexivity |].
    change (last (x :: y :: post) a) with (last (y :: post) a).
    rewrite (last_default post y x a). reflexivity.
Qed.

Lemma eraseAt_inside {A : Type} (pre post : list A) (a : A) :
  Z.of_nat (List.length pre) < size_max ->
  eraseAt (Z.of_nat (List.length pre)) (pre ++ a :: post) = Ok (pre ++ post).
Proof.
  intros Hmax. unfold eraseAt, size_max in *.
  rewrite Z.mod_small by lia.
  destruct (Z.eqb_spec (Z.of_nat (List.length pre) + 1) 0); [lia |].
  cbn [andb]. rewrite length_app. cbn [List.length].
  destruct (Nat.eqb_spec (List.length pre + S (List.length post)) 0); [lia |].
  replace (Z.to_nat (Z.of_nat (List.length pre) + 1)) with (S (List.length pre)) by lia.
  replace (List.length pre + S (List.length post) - S (List.length pre))%nat
    with (List.length post) by lia.
  rewrite shiftDown_app.
  replace (List.length pre + S (List.length post) - 1)%nat
    with (List.length (pre ++ post)) by (rewrite length_app; lia).
  rewrite app_assoc, firstn_app, firstn_all, Nat.sub_diag. cbn [firstn].
  rewrite app_nil_r. reflexivity.
Qed.

Lemma shiftDown_zero {A : Type} j (v : list A) : shiftDown 0 j v = v.
Proof. reflexivity. Qed.

Lemma eraseAt_outside {A : Type} (v : list A) (i : Z) :
  v <> [] -> Z.of_nat (List.length v) <= i -> i < size_max ->
  eraseAt i v = Ok (removelast v).
Proof.
  intros Hv Hi Hmax. unfold eraseAt, size_max in *.
  rewrite Z.mod_small by lia.
  destruct (Z.eqb_spec (i + 1) 0); [lia |]. cbn [andb].
  destruct (Nat.eqb_spec (List.length v) 0) as [E | _].
  { destruct v; [contradiction | discriminate E]. }
  replace (List.length v - Z.to_nat (i + 1))%nat with 0%nat by lia.
  rewrite shiftDown_zero. f_equal.
  destruct (exists_last Hv) as (l & a & ->).
  rewrite removelast_last, length_app. cbn [List.length].
  replace (List.length l + 1 - 1)%nat with (List.length l) by lia.
  rewrite firstn_app, firstn_all, Nat.sub_diag. cbn [firstn]. apply app_nil_r.
Qed.

(** X14: [removeParameter(i)] removes the parameter at [i] and keeps the
    others in order; an index at or behind the end removes the last
    parameter instead; on a signature without parameters the call does
    not return. *)
Theorem removeParameterAt_spec :
  forall (sig : Signature) (i : Z),
    0 <= i -> i < size_max ->
    removeParameterAt sig i
    = match params sig with
      | [] => Fail Undefined
      | _ :: _ =>
          Ok (setParams sig
                (if i <? numParams sig
                 then firstn (Z.to_nat i) (params sig)
                      ++ skipn (S (Z.to_nat i)) (params sig)
                 else removelast (params sig)))
      end.
Proof.
  intros sig i Hi Hmax. unfold removeParameterAt, numParams.
  destruct (params sig) as [| p0 ps] eqn:Eps0.
  - unfold eraseAt, size_max in *. rewrite Z.mod_small by lia.
    destruct (Z.eqb_spec (i + 1) 0); [lia |]. reflexivity.
  - rewrite <- Eps0.
    assert (Hne : params sig <> []) by (rewrite Eps0; discriminate).
    clear Eps0 p0 ps.
    destruct (Z.ltb_spec i (Z.of_nat (List.length (params sig)))) as [Hlt | Hge].
    + assert (Hn : (Z.to_nat i < List.length (params sig))%nat) by lia.
      destruct (nth_error (params sig) (Z.to_nat i)) as [a |] eqn:E.
      2: { apply nth_error_None in E. lia. }
      apply nth_error_split in E. destruct E as (pre & post & Eps & Hlen).
      rewrite Eps at 1.
      replace i with (Z.of_nat (List.length pre)) at 1 by lia.
      rewrite eraseAt_inside by lia. cbn [bind].
      do 2 f_equal. rewrite Eps, <- Hlen.
      rewrite firstn_app, firstn_all, Nat.sub_diag. cbn [firstn].
      rewrite app_nil_r. f_equal.
      replace (S (List.length pre)) with (List.length (pre ++ [a]))
        by (rewrite length_app; cbn [List.length]; lia).
      replace (pre ++ a :: post) with ((pre ++ [a]) ++ post)
        by (rewrite <- app_assoc; reflexivity).
      rewrite skipn_app, skipn_all, Nat.sub_diag. reflexivity.
    + rewrite (eraseAt_outside _ i Hne Hge Hmax). reflexivity.
Qed.

Lemma removeParameterAt_spec_witness :
  (0 <= 7 /\ 7 < size_max)
  /\ removeParameterAt sparcThree 7
     = Ok (setParams sparcThree (removelast (params sparcThree))).
Proof.
  split; [unfold size_max; lia |].
  apply (removeParameterAt_spec sparcThree 7); unfold size_max; lia.
Defined.

Lemma findFrom_none {A : Type} (test : A -> bool) :
  forall l i, Forall (fun x => test x = false) l -> findFrom test l i = -1.
Proof.
  induction l as [| x l IH]; intros i H; cbn [findFrom]; [reflexivity |].
  apply Forall_cons_iff in H as [Hx Hl]. rewrite Hx. apply IH. exact Hl.
Qed.

Lemma findFrom_first {A : Type} (test : A -> bool) :
  forall l1 i x l2,
    Forall (fun y => test y = false) l1 -> test x = true ->
    findFrom test (l1 ++ x :: l2) i = i + Z.of_nat (List.length l1).
Proof.
  induction l1 as [| y l1 IH]; intros i x l2 H Hx; cbn [app findFrom List.length].
  - rewrite Hx. lia.
  - apply Forall_cons_iff in H as [Hy Hl]. rewrite Hy, (IH _ _ _ Hl Hx). lia.
Qed.

(** The list splits at the first element that passes the test, unless
    none does. *)
Lemma first_split {A : Type} (test : A -> bool) :
  forall l,
    Forall (fun x => test x = false) l
    \/ exists l1 x l2,
        l = l1 ++ x :: l2 /\ Forall (fun y => test y = false) l1 /\ test x = true.
Proof.
  induction l as [| x l IH].
  - left. constructor.
  - destruct (test x) eqn:E.
    + right. exists [], x, l. split; [reflexivity | split; [constructor | exact E]].
    + destruct IH as [Hn | (l1 & y & l2 & -> & Hl & Hy)].
      * left. constructor; assumption.
      * right. exists (x :: l1), y, l2.
        split; [reflexivity | split; [constructor; assumption | exact Hy]].
Qed.

(** X15: [removeParameter(e)] removes the first parameter whose
    expression equals [e], and only that one; when no parameter has such
    an expression the signature stays as it is.  (The number of
    parameters fits an [int].) *)
Theorem removeParameter_removes_first_match :
  forall (env : Env) (sig : Signature) (e : Exp),
    Z.of_nat (List.length (params sig)) <= Int32.max_signed ->
    (Forall (fun p => exp_eq env (param_exp p) e = false) (params sig)
     /\ removeParameter env sig e = Ok sig)
    \/ (exists l1 p l2,
           params sig = l1 ++ p :: l2
           /\ Forall (fun q => exp_eq env (param_exp q) e = false) l1
           /\ exp_eq env (param_exp p) e = true
           /\ findParam env sig e = Z.of_nat (List.length l1)
           /\ removeParameter env sig e = Ok (setParams sig (l1 ++ l2))).
Proof.
  intros env sig e Hsize. unfold removeParameter, findParam.
  destruct (first_split (fun p => exp_eq env (param_exp p) e) (params sig))
    as [Hn | (l1 & p & l2 & Eps & Hl & Hp)].
  - left. split; [exact Hn |]. rewrite (findFrom_none _ _ 0 Hn). reflexivity.
  - right. exists l1, p, l2.
    rewrite Eps, (findFrom_first _ l1 0 p l2 Hl Hp). cbn [Z.add].
    split; [reflexivity | split; [exact Hl | split; [exact Hp | split; [reflexivity |]]]].
    destruct (Z.eqb_spec (Z.of_nat (List.length l1)) (-1)); [lia |]. cbn [negb].
    unfold removeParameterAt. rewrite Eps, eraseAt_inside; [reflexivity |].
    rewrite Eps, length_app in Hsize. unfold Int32.max_signed, size_max in *. lia.
Qed.

Lemma removeParameter_removes_first_match_witness :
  Z.of_nat (List.length (params sparcThree)) <= Int32.max_signed
  /\ removeParameter plainEnv sparcThree (Location_regOf 9)
     = Ok (setParams sparcThree
             [mkParameter (IntegerType 32) "param1" (Location_regOf 8) EmptyString;
              mkParameter (IntegerType 32) "param3" (Location_regOf 10) EmptyString])
  /\ ((Forall (fun p => exp_eq plainEnv (param_exp p) (Location_regOf 9) = false)
         (params sparcThree)
       /\ removeParameter plainEnv sparcThree (Location_regOf 9) = Ok sparcThree)
      \/ (exists l1 p l2,
             params sparcThree = l1 ++ p :: l2
             /\ Forall (fun q => exp_eq plainEnv (param_exp q) (Location_regOf 9) = false) l1
             /\ exp_eq plainEnv (param_exp p) (Location_regOf 9) = true
             /\ findParam plainEnv sparcThree (Location_regOf 9)
                = Z.of_nat (List.length l1)
             /\ removeParameter plainEnv sparcThree (Location_regOf 9)
                = Ok (setParams sparcThree (l1 ++ l2)))).
Proof.
  assert (H : Z.of_nat (List.length (params sparcThree)) <= Int32.max_signed)
    by (unfold Int32.max_signed; cbn; lia).
  split; [exact H | split; [reflexivity |]].
  exact (removeParameter_removes_first_match plainEnv sparcThree (Location_regOf 9) H).
Defined.

(** X16: [getTypeFor] and [findReturn] name the same return: either no
    return has an expression equal to [e], [findReturn] answers -1 and
    [getTypeFor] the null type, or [findReturn] answers the index of the
    first return whose expression equals [e] and [getTypeFor] its
    type. *)
Theorem getTypeFor_agrees_with_findReturn :
  forall (env : Env) (sig : Signature) (e : Exp),
    (findReturn env sig e = -1 /\ getTypeFor env sig e = None
     /\ Forall (fun r => exp_eq env (ret_exp r) e = false) (returns sig))
    \/ (exists l1 r l2,
           returns sig = l1 ++ r :: l2
           /\ Forall (fun q => exp_eq env (ret_exp q) e = false) l1
           /\ exp_eq env (ret_exp r) e = true
           /\ findReturn env sig e = Z.of_nat (List.length l1)
           /\ getTypeFor env sig e = Some (ret_type r)).
Proof.
  intros env sig e. unfold findReturn, getTypeFor.
  assert (Htype : forall l1 r l2,
             Forall (fun q => exp_eq env (ret_exp q) e = false) l1 ->
             getTypeForFrom env (l1 ++ r :: l2) e = getTypeForFrom env (r :: l2) e).
  { induction l1 as [| q l1 IH]; intros r l2 H; [reflexivity |].
    apply Forall_cons_iff in H as [Hq Hl]. cbn [app getTypeForFrom].
    rewrite Hq. apply IH. exact Hl. }
  destruct (first_split (fun r => exp_eq env (ret_exp r) e) (returns sig))
    as [Hn | (l1 & r & l2 & Ers & Hl & Hr)].
  - left. split; [apply findFrom_none; exact Hn | split; [| exact Hn]].
    induction (returns sig) as [| q l IH]; [reflexivity |].
    apply Forall_cons_iff in Hn as [Hq Hl]. cbn [getTypeForFrom].
    rewrite Hq. apply IH. exact Hl.
  - right. exists l1, r, l2. rewrite Ers.
    split; [reflexivity | split; [exact Hl | split; [exact Hr |]]].
    split; [rewrite (findFrom_first _ l1 0 r l2 Hl Hr); lia |].
    rewrite (Htype l1 r l2 Hl). cbn [getTypeForFrom]. rewrite Hr. reflexivity.
Qed.

(** X17: [setNumParams(n)] with [n] at or above the number of parameters
    grows a convention's signature to [n] parameters, keeps the ones it
    had, and moves no argument: [getArgumentExp] answers for every index
    what it answered before.  On the base class, which has no place to
    put a parameter, growing stops at the assertion. *)
Theorem setNumParams_grows_in_place :
  forall (fuel : nat) (env : Env) (cls : SigClass) (sig : Signature) (n : nat),
    (List.length (params sig) <= n)%nat -> (n + 1 < fuel)%nat ->
    match cls with
    | BaseSignature =>
        (List.length (params sig) < n)%nat ->
        setNumParams fuel env cls sig n = Fail Undefined
    | _ =>
        exists sig',
          setNumParams fuel env cls sig n = Ok sig'
          /\ List.length (params sig') = n
          /\ firstn (List.length (params sig)) (params sig') = params sig
          /\ forall k, getArgumentExp env cls sig' k = getArgumentExp env cls sig k
    end.
Proof.
  intros fuel env cls sig n Hn Hfuel.
  unfold setNumParams.
  destruct (Nat.ltb_spec n (List.length (params sig))) as [Hlt | _]; [lia |].
  destruct (classic_base cls) as [-> | Hcls].
  { intros Hlt. destruct (n - List.length (params sig))%nat eqn:E; [lia |].
    destruct fuel; [lia |]. reflexivity. }
  enough (G : exists sig',
             (fix grow (k : nat) (sig : Signature) : Res Signature :=
                match k with
                | O => Ok sig
                | S k' =>
                    sig' <- addParameter fuel env cls sig VoidType None None EmptyString ;;
                    grow k' sig'
                end) (n - List.length (params sig))%nat sig = Ok sig'
             /\ List.length (params sig') = n
             /\ firstn (List.length (params sig)) (params sig') = params sig
             /\ forall k, getArgumentExp env cls sig' k = getArgumentExp env cls sig k)
    by (destruct cls; try exact G; exfalso; apply Hcls; reflexivity).
  remember (n - List.length (params sig))%nat as d eqn:Ed.
  revert sig Hn Ed. induction d as [| d IH]; intros sig Hn Ed.
  - exists sig. split; [reflexivity | split; [lia | split; [apply firstn_all |]]].
    reflexivity.
  - destruct (getArgumentExp_next env cls sig Hcls) as (ex & Hex).
    assert (Hadd : addParameter fuel env cls sig VoidType None None EmptyString
                   = Signature_addParameter fuel sig VoidType None (Some ex) EmptyString).
    { rewrite <- Hex. destruct cls; try reflexivity. exfalso. apply Hcls. reflexivity. }
    destruct (Signature_addParameter_unnamed fuel sig VoidType ex EmptyString
                ltac:(lia)) as (k & _ & _ & Hres).
    rewrite Hadd, Hres. cbn [bind].
    set (p := mkParameter VoidType (paramName k) ex EmptyString) in *.
    destruct (IH (setParams sig (params sig ++ [p]))) as (sig' & Hg & Hlen & Hpre & Harg).
    { cbn [params setParams]. rewrite length_app. cbn [List.length]. lia. }
    { cbn [params setParams]. rewrite length_app. cbn [List.length]. lia. }
    exists sig'. split; [exact Hg | split; [exact Hlen | split]].
    + cbn [params setParams] in Hpre. rewrite length_app in Hpre.
      apply (f_equal (firstn (List.length (params sig)))) in Hpre.
      rewrite firstn_firstn in Hpre.
      replace (Init.Nat.min (List.length (params sig))
                 (List.length (params sig) + List.length [p]))
        with (List.length (params sig)) in Hpre by (cbn [List.length]; lia).
      rewrite Hpre, firstn_app, firstn_all, Nat.sub_diag. cbn [firstn].
      apply app_nil_r.
    + intros j. rewrite Harg. apply getArgumentExp_append; [exact Hcls |].
      exact Hex.
Qed.

Lemma setNumParams_grows_in_place_witness :
  ((List.length (params sparcThree) <= 8)%nat /\ (8 + 1 < 10)%nat)
  /\ exists sig',
      setNumParams 10 plainEnv SparcSignature sparcThree 8 = Ok sig'
      /\ List.length (params sig') = 8%nat
      /\ firstn (List.length (params sparcThree)) (params sig') = params sparcThree
      /\ forall k, getArgumentExp plainEnv SparcSignature sig' k
                   = getArgumentExp plainEnv SparcSignature sparcThree k.
Proof.
  split; [cbn; lia |].
  apply (setNumParams_grows_in_place 10 plainEnv SparcSignature sparcThree 8);
    cbn; lia.
Defined.

(** ** Equality ignoring subscripts *)

Lemma plain_subscript_class e :
  plain e = true -> OPER_eqb (getOper e) opSubscript = true ->
  exists a d, e = RefExp a d.
Proof.
  intros Hp Ht. apply OPER_eqb_eq in Ht.
  pose proof (plain_arity e Hp) as Ha. rewrite Ht in Ha.
  destruct e; cbn in Ha; try discriminate Ha.
  - destruct u; discriminate Ht.
  - discriminate Ht.
  - eexists. eexists. reflexivity.
  - discriminate Ht.
Qed.

Lemma stripSubscript_plain e :
  plain e = true ->
  stripSubscript e = Some (match e with RefExp a _ => a | _ => e end).
Proof.
  intros Hp. unfold stripSubscript.
  destruct (OPER_eqb (getOper e) opSubscript) eqn:E.
  - destruct (plain_subscript_class e Hp E) as (a & d & ->). reflexivity.
  - destruct e; try reflexivity. discriminate E.
Qed.

Lemma exp_eq_implies_star env :
  forall e1 e2, plain e1 = true -> plain e2 = true ->
                exp_eq env e1 e2 = true -> exp_eqStar env e1 e2 = true.
Proof.
  induction e1 as [u cs | op | op a IHa | op a IHa b IHb | op a IHa b IHb c IHc
                  | ty a IHa | a IHa d | ty | op a IHa p | a IHa rtl];
    intros e2 P1 P2 H;
    pose proof (exp_eq_class env _ _ P1 P2 H) as C;
    pose proof (exp_eq_tag env _ _ P1 P2 H) as T;
    no_wild e2 P2;
    cbn [exp_eqStar]; rewrite (stripSubscript_plain e2 P2);
    destruct e2 as [u' cs' | op' | op' a' | op' a' b' | op' a' b' c' | ty' a' | a' d' | ty'
                   | op' a' p' | a' rtl'];
    cbn [sameClass] in C; try discriminate C; clear C;
    try exact H.
  all: unfold_eq.
  all: rewrite_false_all.
  all: cbn [plain] in P1, P2; bool_hyps.
  all: try (rewrite <- T in *).
  all: rewrite ?OPER_eqb_refl in *; cbn [andb orb negb] in *.
  all: split_eq H.
  all: repeat match goal with
         | IH : forall e2, plain ?a = true -> _, E : exp_eq _ ?a ?a' = true |- _ =>
             rewrite (IH a' ltac:(assumption) ltac:(assumption) E); clear E
         end; cbn [negb].
  all: try reflexivity.
  all: try (apply IHa; assumption).
Qed.

Lemma exp_eqStar_refl env (TE : TypeEqEquivalence env) e :
  plain e = true -> exp_eqStar env e e = true.
Proof.
  intros Hp. apply exp_eq_implies_star; [exact Hp | exact Hp |].
  apply exp_eq_refl_plain; assumption.
Qed.

(** [this *= o] reads [o] through one subscript. *)
Lemma exp_eqStar_strip env this o d :
  getOper o <> opSubscript ->
  exp_eqStar env this (RefExp o d) = exp_eqStar env this o.
Proof.
  intros Ho.
  assert (Hs : stripSubscript o = Some o).
  { unfold stripSubscript. rewrite (proj2 (OPER_eqb_neq _ _) Ho). reflexivity. }
  destruct this; cbn [exp_eqStar]; rewrite Hs; reflexivity.
Qed.

Lemma exp_eqStar_RefExp env a d o :
  exp_eqStar env (RefExp a d) o
  = match stripSubscript o with
    | Some other => exp_eqStar env a other
    | None => false
    end.
Proof. reflexivity. Qed.

Lemma plain_not_subscript e :
  plain e = true -> (exists a d, e = RefExp a d) \/ getOper e <> opSubscript.
Proof.
  intros Hp. destruct (OPER_eqb (getOper e) opSubscript) eqn:E.
  - left. apply plain_subscript_class; assumption.
  - right. intros H. rewrite H in E. discriminate E.
Qed.

Lemma exp_eqStar_wrapped env (TE : TypeEqEquivalence env) :
  forall e d, plain e = true -> exp_eqStar env e (RefExp e d) = true.
Proof.
  induction e as [u cs | op | op a IHa | op a IHa b IHb | op a IHa b IHb c IHc
                 | ty a IHa | a IHa d0 | ty | op a IHa p | a IHa rtl];
    intros d Hp;
    try (rewrite exp_eqStar_strip;
         [apply exp_eqStar_refl; assumption
         | destruct (plain_not_subscript _ Hp) as [(x & y & E) | N];
           [discriminate E | exact N]]).
  rewrite exp_eqStar_RefExp. change (stripSubscript (RefExp (RefExp a d0) d))
    with (Some (RefExp a d0)). apply IHa.
  cbn [plain] in Hp. apply andb_true_iff in Hp as [_ Hp]. exact Hp.
Qed.

Lemma exp_eqStar_unwrapped env (TE : TypeEqEquivalence env) :
  forall e, plain e = true ->
            exp_eqStar env e (match e with RefExp a _ => a | _ => e end) = true.
Proof.
  induction e as [u cs | op | op a IHa | op a IHa b IHb | op a IHa b IHb c IHc
                 | ty a IHa | a IHa d0 | ty | op a IHa p | a IHa rtl];
    intros Hp; try (apply exp_eqStar_refl; assumption).
  assert (Ha : plain a = true)
    by (cbn [plain] in Hp; apply andb_true_iff in Hp as [_ Hp]; exact Hp).
  rewrite exp_eqStar_RefExp, (stripSubscript_plain a Ha). apply IHa. exact Ha.
Qed.

(** X18: [operator*=] ignores a subscript and its definition: for a
    stored expression [e] (and a type comparison that is an equivalence)
    [e *= e{d}], [e{d} *= e] and [e{d} *= e{d'}] hold for all
    definitions [d] and [d'], and so does [e *= e]. *)
Theorem exp_eqStar_ignores_subscript :
  forall (env : Env) (e : Exp) (d d' : InstrPtr),
    TypeEqEquivalence env -> plain e = true ->
    exp_eqStar env e e = true
    /\ exp_eqStar env e (RefExp e d) = true
    /\ exp_eqStar env (RefExp e d) e = true
    /\ exp_eqStar env (RefExp e d) (RefExp e d') = true.
Proof.
  intros env e d d' TE Hp.
  split; [apply exp_eqStar_refl; assumption |].
  split; [apply exp_eqStar_wrapped; assumption |].
  split.
  - rewrite exp_eqStar_RefExp, (stripSubscript_plain e Hp).
    apply exp_eqStar_unwrapped; assumption.
  - rewrite exp_eqStar_RefExp. apply exp_eqStar_refl; assumption.
Qed.

Lemma exp_eqStar_ignores_subscript_witness :
  plain (Location_regOf 24) = true
  /\ exp_eqStar plainEnv (Location_regOf 24) (Location_regOf 24) = true
  /\ exp_eqStar plainEnv (Location_regOf 24) (RefExp (Location_regOf 24) (stmtDef 1))
     = true
  /\ exp_eqStar plainEnv (RefExp (Location_regOf 24) (stmtDef 1)) (Location_regOf 24)
     = true
  /\ exp_eqStar plainEnv (RefExp (Location_regOf 24) (stmtDef 1))
       (RefExp (Location_regOf 24) (stmtDef 2)) = true.
Proof.
  split; [reflexivity |].
  apply (exp_eqStar_ignores_subscript plainEnv (Location_regOf 24) (stmtDef 1)
           (stmtDef 2) plainEnv_type_eq).
  reflexivity.
Defined.

(** X19: on stored expressions [operator*=] is at least as coarse as
    [operator==]: whatever [==] takes for equal, [*=] does too. *)
Theorem exp_eq_implies_exp_eqStar :
  forall (env : Env) (e1 e2 : Exp),
    plain e1 = true -> plain e2 = true ->
    exp_eq env e1 e2 = true -> exp_eqStar env e1 e2 = true.
Proof. exact exp_eq_implies_star. Qed.

Lemma exp_eq_implies_exp_eqStar_witness :
  (plain (RefExp (Location_regOf 24) nullDef) = true
   /\ plain (RefExp (Location_regOf 24) (stmtDef 3)) = true)
  /\ exp_eq implicitEnv (RefExp (Location_regOf 24) nullDef)
       (RefExp (Location_regOf 24) (stmtDef 3)) = true
  /\ exp_eqStar implicitEnv (RefExp (Location_regOf 24) nullDef)
       (RefExp (Location_regOf 24) (stmtDef 3)) = true.
Proof.
  split; [split; reflexivity | split; [reflexivity |]].
  apply (exp_eq_implies_exp_eqStar implicitEnv (RefExp (Location_regOf 24) nullDef)
           (RefExp (Location_regOf 24) (stmtDef 3))); reflexivity.
Defined.

(** A stored expression that is no subscript equals no subscript. *)
Lemma exp_eqStar_tag_mismatch env this o other :
  plain this = true -> getOper this <> opSubscript ->
  stripSubscript o = Some other -> getOper other = opSubscript ->
  exp_eqStar env this o = false.
Proof.
  intros Hp Hs Hstrip Ho.
  pose proof (proj2 (OPER_eqb_neq _ _) Hs) as Hn.
  destruct this as [u cs | op | op a | op a b | op a b c | ty a | a d0 | ty
                   | op a p | a rtl];
    cbn [exp_eqStar]; rewrite Hstrip; cbn [exp_eq getOper] in *; rewrite ?Ho;
    try (exfalso; apply Hs; reflexivity);
    try rewrite Hn; try (destruct u); try reflexivity.
  cbn [plain] in Hp. apply andb_true_iff in Hp as [_ Hw].
  apply negb_true_iff in Hw. unfold isWildTag, isOneOf in Hw. cbn [existsb] in Hw.
  repeat (apply orb_false_iff in Hw; destruct Hw as [? Hw]).
  repeat match goal with
         | E : OPER_eqb ?a ?b = false |- context [OPER_eqb ?a ?b] => rewrite E
         end.
  reflexivity.
Qed.

(** X20: [operator*=] takes every subscript off its left operand but
    only one, at each level, off its right operand, so it is not
    symmetric: for a stored expression [e] that is no subscript,
    [e{d}{d'} *= e] holds and [e *= e{d}{d'}] does not. *)
Theorem exp_eqStar_not_symmetric :
  forall (env : Env) (e : Exp) (d d' : InstrPtr),
    TypeEqEquivalence env -> plain e = true -> getOper e <> opSubscript ->
    exp_eqStar env (RefExp (RefExp e d) d') e = true
    /\ exp_eqStar env e (RefExp (RefExp e d) d') = false.
Proof.
  intros env e d d' TE Hp Hs.
  assert (Hstrip : stripSubscript e = Some e).
  { unfold stripSubscript. rewrite (proj2 (OPER_eqb_neq _ _) Hs). reflexivity. }
  split.
  - rewrite exp_eqStar_RefExp, Hstrip, exp_eqStar_RefExp, Hstrip.
    apply exp_eqStar_refl; assumption.
  - apply (exp_eqStar_tag_mismatch env e _ (RefExp e d)); try assumption; reflexivity.
Qed.

Lemma exp_eqStar_not_symmetric_witness :
  (plain (Location_regOf 24) = true /\ getOper (Location_regOf 24) <> opSubscript)
  /\ exp_eqStar plainEnv (RefExp (RefExp (Location_regOf 24) (stmtDef 1)) (stmtDef 2))
       (Location_regOf 24) = true
  /\ exp_eqStar plainEnv (Location_regOf 24)
       (RefExp (RefExp (Location_regOf 24) (stmtDef 1)) (stmtDef 2)) = false.
Proof.
  split; [split; [reflexivity | discriminate] |].
  apply (exp_eqStar_not_symmetric plainEnv (Location_regOf 24) (stmtDef 1) (stmtDef 2)
           plainEnv_type_eq); [reflexivity | discriminate].
Defined.

(** ** Cancelling address-of against memory-of *)

Lemma plain_unary_child s op :
  plain s = true -> getOper s = op -> tagArity op = Some 1%nat ->
  exists c, getSubExp1 s = Some c /\ plain c = true /\ (size c < size s)%nat.
Proof.
  intros Hp <- Ha. rewrite (plain_arity s Hp) in Ha.
  destruct s; cbn [classArity] in Ha; try discriminate Ha;
    cbn [plain] in Hp; eexists; (split; [reflexivity |]);
    (split; [| cbn [size]; lia]).
  - apply andb_true_iff in Hp as [_ Hp]. exact Hp.
  - apply andb_true_iff in Hp as [_ Hp]. exact Hp.
  - exact Hp.
Qed.

Lemma plain_binary_child s op :
  plain s = true -> getOper s = op -> tagArity op = Some 2%nat ->
  exists c, getSubExp2 s = Some c /\ plain c = true /\ (size c < size s)%nat.
Proof.
  intros Hp <- Ha. rewrite (plain_arity s Hp) in Ha.
  destruct s; cbn [classArity] in Ha; try discriminate Ha.
  cbn [plain] in Hp. apply andb_true_iff in Hp as [_ Hp].
  eexists. split; [reflexivity | split; [exact Hp | cbn [size]; lia]].
Qed.

(** What [simplifyAddr] does on a stored expression. *)
Lemma simplifyAddr_plain :
  forall e, plain e = true ->
            exists r, simplifyAddr e = Ok r /\ plain r = true
                      /\ (size r <= size e)%nat.
Proof.
  assert (Hunary : forall op s1 rebuild,
    plain s1 = true ->
    (exists r, simplifyAddr s1 = Ok r /\ plain r = true /\ (size r <= size s1)%nat) ->
    (forall s, plain s = true -> plain (rebuild s) = true) ->
    (forall s, size (rebuild s) = S (size s)) ->
    exists r,
      (if OPER_eqb op opMemOf && isAddrOf s1 then sub1 s1
       else if negb (OPER_eqb op opAddrOf) then
         s <- simplifyAddr s1 ;; Ok (rebuild s)
       else if OPER_eqb (getOper s1) opMemOf then sub1 s1
       else
         sized <- (if OPER_eqb (getOper s1) opSize then
                     sub <- sub2 s1 ;;
                     if OPER_eqb (getOper sub) opMemOf
                     then x <- sub1 sub ;; Ok (Some x)
                     else Ok None
                   else Ok None) ;;
         match sized with
         | Some x => Ok x
         | None => s <- simplifyAddr s1 ;; Ok (rebuild s)
         end) = Ok r
      /\ plain r = true /\ (size r <= S (size s1))%nat).
  { intros op s1 rebuild Hp (r1 & Hr1 & Pr1 & Sr1) Hplain Hsize.
    assert (Hrec : exists r, (s <- simplifyAddr s1 ;; Ok (rebuild s)) = Ok r
                             /\ plain r = true /\ (size r <= S (size s1))%nat).
    { exists (rebuild r1). rewrite Hr1. cbn [bind].
      split; [reflexivity | split; [apply Hplain; exact Pr1 |]].
      rewrite Hsize. lia. }
    assert (Hchild : forall tag, OPER_eqb (getOper s1) tag = true ->
                                 tagArity tag = Some 1%nat ->
                                 exists r, sub1 s1 = Ok r /\ plain r = true
                                           /\ (size r <= S (size s1))%nat).
    { intros tag Ht Ha. apply OPER_eqb_eq in Ht.
      destruct (plain_unary_child s1 tag Hp Ht Ha) as (c & Hc & Pc & Sc).
      exists c. unfold sub1. rewrite Hc. split; [reflexivity | split; [exact Pc | lia]]. }
    destruct (OPER_eqb op opMemOf && isAddrOf s1) eqn:E1.
    { apply andb_true_iff in E1 as [_ E1]. apply (Hchild opAddrOf E1). reflexivity. }
    destruct (negb (OPER_eqb op opAddrOf)); [exact Hrec |].
    destruct (OPER_eqb (getOper s1) opMemOf) eqn:E2.
    { apply (Hchild opMemOf E2). reflexivity. }
    destruct (OPER_eqb (getOper s1) opSize) eqn:E3; [| exact Hrec].
    apply OPER_eqb_eq in E3.
    destruct (plain_binary_child s1 opSize Hp E3 eq_refl) as (c & Hc & Pc & Sc).
    unfold sub2. rewrite Hc. cbn [fromOption bind].
    destruct (OPER_eqb (getOper c) opMemOf) eqn:E4; [| exact Hrec].
    apply OPER_eqb_eq in E4.
    destruct (plain_unary_child c opMemOf Pc E4 eq_refl) as (x & Hx & Px & Sx).
    unfold sub1. rewrite Hx. cbn [fromOption bind].
    exists x. split; [reflexivity | split; [exact Px | lia]]. }
  induction e as [u cs | op | op a IHa | op a IHa b IHb | op a IHa b IHb c IHc
                 | ty a IHa | a IHa d | ty | op a IHa p | a IHa rtl];
    intros Hp; cbn [simplifyAddr size]; fold simplifyAddr;
    try (eexists; split; [reflexivity | split; [exact Hp | apply Nat.le_refl]]);
    cbn [plain] in Hp.
  - apply andb_true_iff in Hp as [Hop Ha].
    apply Hunary; [exact Ha | apply IHa; exact Ha | | reflexivity].
    intros s Hs. cbn [plain]. rewrite Hop, Hs. reflexivity.
  - apply andb_true_iff in Hp as [Hp Hb]. apply andb_true_iff in Hp as [Hop Ha].
    destruct (IHa Ha) as (ra & -> & Pa & Sa).
    destruct (IHb Hb) as (rb & -> & Pb & Sb). cbn [bind].
    eexists. split; [reflexivity |]. cbn [plain size].
    rewrite Hop, Pa, Pb. split; [reflexivity | lia].
  - apply andb_true_iff in Hp as [Hp Hc]. apply andb_true_iff in Hp as [Hp Hb].
    apply andb_true_iff in Hp as [Hop Ha].
    destruct (IHa Ha) as (ra & -> & Pa & Sa).
    destruct (IHb Hb) as (rb & -> & Pb & Sb).
    destruct (IHc Hc) as (rc & -> & Pc & Sc). cbn [bind].
    eexists. split; [reflexivity |]. cbn [plain size].
    rewrite Hop, Pa, Pb, Pc. split; [reflexivity | lia].
  - apply Hunary; [exact Hp | apply IHa; exact Hp | | reflexivity].
    intros s Hs. exact Hs.
  - apply andb_true_iff in Hp as [Hd Ha].
    apply Hunary; [exact Ha | apply IHa; exact Ha | | reflexivity].
    intros s Hs. cbn [plain]. rewrite Hd, Hs. reflexivity.
  - apply andb_true_iff in Hp as [Hop Ha].
    apply Hunary; [exact Ha | apply IHa; exact Ha | | reflexivity].
    intros s Hs. cbn [plain]. rewrite Hop, Hs. reflexivity.
  - apply Hunary; [exact Hp | apply IHa; exact Hp | | reflexivity].
    intros s Hs. exact Hs.
Qed.

(** X21: on a stored expression [simplifyAddr] returns (it reads no
    child that is not there), and what it returns is a stored expression
    with no more nodes than the one it was given. *)
Theorem simplifyAddr_shrinks :
  forall e : Exp,
    plain e = true ->
    exists r, simplifyAddr e = Ok r /\ plain r = true /\ (size r <= size e)%nat.
Proof. exact simplifyAddr_plain. Qed.

Lemma simplifyAddr_shrinks_witness :
  plain (Binary opPlus (Unary opAddrOf (Location_memOf (Location_regOf 28)))
           (Const_get 4)) = true
  /\ exists r,
      simplifyAddr (Binary opPlus (Unary opAddrOf (Location_memOf (Location_regOf 28)))
                      (Const_get 4)) = Ok r
      /\ plain r = true
      /\ (size r
          <= size (Binary opPlus (Unary opAddrOf (Location_memOf (Location_regOf 28)))
                     (Const_get 4)))%nat.
Proof.
  split; [reflexivity |].
  apply (simplifyAddr_shrinks
           (Binary opPlus (Unary opAddrOf (Location_memOf (Location_regOf 28)))
              (Const_get 4))).
  reflexivity.
Defined.

(** X22: an expression without an address-of node is returned by
    [simplifyAddr] as it is: every rewrite cancels an [opAddrOf]. *)
Theorem simplifyAddr_without_addrOf :
  forall e : Exp,
    mentions opAddrOf e = false -> simplifyAddr e = Ok e.
Proof.
  induction e as [u cs | op | op a IHa | op a IHa b IHb | op a IHa b IHb c IHc
                 | ty a IHa | a IHa d | ty | op a IHa p | a IHa rtl];
    intros H; cbn [mentions getOper] in H; cbn [simplifyAddr]; fold simplifyAddr;
    try reflexivity;
    repeat match goal with
           | E : _ || _ = false |- _ => apply orb_false_iff in E; destruct E
           end;
    repeat match goal with
           | IH : mentions opAddrOf ?x = false -> _, E : mentions opAddrOf ?x = false |- _ =>
               rewrite (IH E); clear IH
           end; cbn [bind]; try reflexivity;
    match goal with
    | E : mentions opAddrOf ?x = false |- _ =>
        assert (Hx : isAddrOf x = false)
          by (destruct x; cbn [mentions] in E; apply orb_false_iff in E as [E _];
              exact E)
    end;
    rewrite Hx, andb_false_r;
    try match goal with
        | E : OPER_eqb ?op opAddrOf = false |- _ => rewrite E
        end;
    reflexivity.
Qed.

Lemma simplifyAddr_without_addrOf_witness :
  mentions opAddrOf (Location_memOf (Binary opPlus (Location_regOf 28) (Const_get 4)))
  = false
  /\ simplifyAddr (Location_memOf (Binary opPlus (Location_regOf 28) (Const_get 4)))
     = Ok (Location_memOf (Binary opPlus (Location_regOf 28) (Const_get 4))).
Proof.
  split; [reflexivity |].
  apply (simplifyAddr_without_addrOf
           (Location_memOf (Binary opPlus (Location_regOf 28) (Const_get 4)))).
  reflexivity.
Defined.

(** X23: [simplifyAddr] returns the operand of a cancelled pair without
    simplifying it, so one call may leave work: [a[m[a[m[x]]]]] becomes
    [a[m[x]]], which a second call turns into [x]. *)
Theorem simplifyAddr_one_layer :
  forall x : Exp,
    simplifyAddr (Unary opAddrOf (Location_memOf (Unary opAddrOf (Location_memOf x))))
    = Ok (Unary opAddrOf (Location_memOf x))
    /\ simplifyAddr (Unary opAddrOf (Location_memOf x)) = Ok x.
Proof. intros x. split; reflexivity. Qed.

(** ** [fixSuccessor] *)

Lemma successorPattern_tag env n :
  exp_eq env successorPattern n = true ->
  OPER_eqb (getOper n) opWild = true \/ OPER_eqb (getOper n) opSuccessor = true.
Proof.
  unfold successorPattern. cbn [exp_eq].
  destruct (OPER_eqb (getOper n) opWild); [left; reflexivity |].
  change (OPER_eqb opSuccessor opRegOf) with false.
  change (OPER_eqb opSuccessor opMemOf) with false.
  change (OPER_eqb opSuccessor opAddrOf) with false.
  rewrite !andb_false_r. rewrite (OPER_eqb_sym opSuccessor).
  destruct (OPER_eqb (getOper n) opSuccessor); [right; reflexivity |].
  discriminate.
Qed.

Lemma hits_successor_none env :
  forall e, mentions opSuccessor e = false -> mentions opWild e = false ->
            hits env successorPattern e = [].
Proof.
  induction e as [u cs | op | op a IHa | op a IHa b IHb | op a IHa b IHb c IHc
                 | ty a IHa | a IHa d | ty | op a IHa p | a IHa rtl];
    intros Hs Hw; cbn [mentions] in Hs, Hw;
    repeat match goal with
           | E : _ || _ = false |- _ => apply orb_false_iff in E; destruct E
           end;
    match goal with
    | |- hits env successorPattern ?x = [] =>
        assert (Hc : exp_eq env successorPattern x = false)
          by (destruct (exp_eq env successorPattern x) eqn:E; [| reflexivity];
              destruct (successorPattern_tag env x E); congruence)
    end;
    cbn [hits]; rewrite Hc; cbn [negb orb app];
    repeat match goal with
           | IH : mentions opSuccessor ?x = false -> _,
             E1 : mentions opSuccessor ?x = false, E2 : mentions opWild ?x = false |- _ =>
               rewrite (IH E1 E2); clear IH
           end;
    try reflexivity;
    destruct (negb _); reflexivity.
Qed.

(** X24: [fixSuccessor] turns [succ(r[K])] into [r[K + 1]] (the sum
    wraps as [int] addition does), keeping the conscript of the constant
    and the procedure of the location. *)
Theorem fixSuccessor_increments :
  forall (env : Env) (k cs : Z) (p : ProcPtr),
    fixSuccessor env (Unary opSuccessor (Location opRegOf (Const (IntVal k) cs) p))
    = Ok (Location opRegOf (Const (IntVal (Int32.wrap32 (k + 1))) cs) p).
Proof. intros env k cs p. reflexivity. Qed.

(** X25: the successor of a register whose index is not an integer
    constant stops [fixSuccessor] at its second assertion: the pattern
    [succ(r[WILD])] matches it, and the index is taken for a constant. *)
Theorem fixSuccessor_asserts_constant_index :
  forall (env : Env) (x : Exp) (p : ProcPtr),
    isIntConst x = false ->
    fixSuccessor env (Unary opSuccessor (Location opRegOf x p)) = Fail Undefined.
Proof.
  intros env x p Hx. unfold fixSuccessor.
  rewrite doSearch_all. cbn [app hits].
  change (exp_eq env successorPattern (Unary opSuccessor (Location opRegOf x p)))
    with true.
  cbn [app map getAt fromOption bind sub1 getSubExp1 getOper].
  change (OPER_eqb opRegOf opRegOf) with true. cbn [negb].
  unfold isIntConst, isOp in Hx. rewrite Hx. reflexivity.
Qed.

Lemma fixSuccessor_asserts_constant_index_witness :
  isIntConst (Terminal opPC) = false
  /\ fixSuccessor plainEnv (Unary opSuccessor (Location opRegOf (Terminal opPC) None))
     = Fail Undefined.
Proof.
  split; [reflexivity |].
  apply (fixSuccessor_asserts_constant_index plainEnv (Terminal opPC) None).
  reflexivity.
Defined.

(** X26: an expression without a successor node and without the
    wildcard [opWild] is returned by [fixSuccessor] as it is. *)
Theorem fixSuccessor_without_successor :
  forall (env : Env) (e : Exp),
    mentions opSuccessor e = false -> mentions opWild e = false ->
    fixSuccessor env e = Ok e.
Proof.
  intros env e Hs Hw. unfold fixSuccessor.
  rewrite doSearch_all, (hits_successor_none env e Hs Hw). reflexivity.
Qed.

Lemma fixSuccessor_without_successor_witness :
  (mentions opSuccessor (Binary opPlus (Location_regOf 5) (Const_get 1)) = false
   /\ mentions opWild (Binary opPlus (Location_regOf 5) (Const_get 1)) = false)
  /\ fixSuccessor plainEnv (Binary opPlus (Location_regOf 5) (Const_get 1))
     = Ok (Binary opPlus (Location_regOf 5) (Const_get 1)).
Proof.
  split; [split; reflexivity |].
  apply (fixSuccessor_without_successor plainEnv
           (Binary opPlus (Location_regOf 5) (Const_get 1))); reflexivity.
Defined.

(** ** No constant operation is left at the root *)

Lemma firstRule_none_head r rest env op s1 s2 :
  firstRule (r :: rest) env op s1 s2 = Ok None ->
  r env op s1 s2 = Ok None /\ firstRule rest env op s1 s2 = Ok None.
Proof.
  cbn [firstRule]. intros H.
  destruct (r env op s1 s2) as [[res |] | f]; cbn [bind] in H;
    [discriminate H | split; [reflexivity | exact H] | discriminate H].
Qed.

Lemma setInt_isIntConst k s s' : setInt k s = Ok s' -> isIntConst s' = true.
Proof.
  destruct s as [[] cs | | | | | | | | |]; cbn [setInt]; intros H;
    try discriminate H. inversion H. reflexivity.
Qed.

Lemma rule_fold_none env op s1 s2 :
  rule_fold env op s1 s2 = Ok None ->
  isIntConst s1 = true -> isIntConst s2 = true -> foldable op = false.
Proof.
  intros R1 H1 H2.
  unfold rule_fold in R1. rewrite H1, H2 in R1. cbn [andb] in R1.
  destruct (intOf s1) as [k1 |]; cbn [bind] in R1; [| discriminate R1].
  destruct (intOf s2) as [k2 |]; cbn [bind] in R1; [| discriminate R1].
  destruct (foldable op) eqn:Ef; [| reflexivity].
  exfalso. apply (foldable_folds op k1 k2 Ef).
  destruct (foldBinary op k1 k2) as [[k |] | f]; cbn [bind] in R1;
    [discriminate R1 | reflexivity | discriminate R1].
Qed.

(** The node that the first part of [Binary::polySimplify] hands on has
    both children integer constants only if the node it was given had,
    and then its tag is none that the fold knows. *)
Lemma binaryBeforeDescent_pending env op s1 s2 op' a b :
  binaryBeforeDescent env op s1 s2 = Ok (Pending op' a b) ->
  isIntConst a = true -> isIntConst b = true ->
  foldable op' = false.
Proof.
  unfold binaryBeforeDescent. intros H Ha Hb.
  destruct (firstRule rulesBeforeCommute env op s1 s2) as [[res |] | f] eqn:R1;
    cbn [bind] in H; try discriminate H.
  destruct (commuteGlobalAddr op (commuteBoolConst op (commuteIntConst op (s1, s2))))
    as [[t1 t2] | f] eqn:C; cbn [bind] in H; try discriminate H.
  destruct (firstRule rulesBeforeFlip env op t1 t2) as [[res |] | f] eqn:R2;
    cbn [bind] in H; try discriminate H.
  destruct (flipNegConst op t2) as [[op2 t2'] | f] eqn:F; cbn [bind] in H;
    try discriminate H.
  destruct (firstRule rulesBeforeDescent env op2 t1 t2') as [[res |] | f] eqn:R3;
    cbn [bind] in H; try discriminate H.
  inversion H; subst op2 t1 t2'. clear H.
  (* the flip keeps the constant a constant and the tag foldable *)
  assert (Hflip : isIntConst t2 = true /\ foldable op' = foldable op).
  { unfold flipNegConst in F.
    destruct (isOneOf op [opPlus; opMinus] && isIntConst t2) eqn:E.
    - apply andb_true_iff in E as [Eop Et]. split; [exact Et |].
      destruct (intOf t2) as [k | f]; cbn [bind] in F; [| discriminate F].
      destruct (k <? 0).
      + destruct (setInt (Int32.wrap32 (- k)) t2) as [t |]; cbn [bind] in F;
          [| discriminate F].
        inversion F; subst. unfold isOneOf in Eop. cbn [existsb] in Eop.
        destruct op; try discriminate Eop; reflexivity.
      + inversion F; subst. reflexivity.
    - inversion F; subst. split; [exact Hb | reflexivity]. }
  destruct Hflip as [Ht2 Hfold]. rewrite Hfold.
  (* the commutations swap the children at most *)
  assert (Hboth : isIntConst s1 = true /\ isIntConst s2 = true).
  { unfold commuteGlobalAddr, commuteBoolConst, commuteIntConst in C.
    destruct (isIntConst s1 && isOneOf op [opPlus; opMult; opMults; opBitOr; opBitAnd]);
      cbn iota in C;
      repeat match type of C with
             | context [if ?c then _ else _] => destruct c
             | bind ?m _ = _ => destruct m; cbn [bind] in C; [| discriminate C]
             end;
      inversion C; subst; split; assumption. }
  destruct Hboth as [H1 H2].
  apply firstRule_none_head in R1. destruct R1 as [R1 _].
  apply (rule_fold_none env op s1 s2 R1 H1 H2).
Qed.

Lemma unaryStep_shape rec mk op s1 bMod res :
  unaryStep rec mk op s1 bMod = Ok (res, false) -> exists s, res = mk s.
Proof.
  unfold unaryStep. intros H.
  destruct (rec s1 bMod) as [[s b] |]; cbn [bind] in H; [| discriminate H].
  destruct (unaryRules op s) as [[r |] |]; cbn [bind] in H; try discriminate H.
  destruct (isOneOf op [opMemOf; opRegOf]).
  - destruct (rec s b) as [[s' b'] |]; cbn [bind] in H; [| discriminate H].
    inversion H. exists s'. reflexivity.
  - inversion H. exists s. reflexivity.
Qed.

Lemma polyStep_root rec recS env e bMod op a b :
  polyStep rec recS env e bMod = Ok (Binary op a b, false) ->
  isIntConst a = true -> isIntConst b = true ->
  foldable op = false.
Proof.
  intros H Ha Hb.
  destruct e as [u cs | op0 | op0 s1 | op0 s1 s2 | op0 s1 s2 s3 | ty s1 | s1 d | ty
                | op0 s1 p | s1 rtl]; cbn [polyStep] in H.
  - inversion H.
  - inversion H.
  - apply unaryStep_shape in H. destruct H as (s & H). discriminate H.
  - destruct (rec s1 bMod) as [[t1 b1] |]; cbn [bind] in H; [| discriminate H].
    destruct (rec s2 b1) as [[t2 b2] |]; cbn [bind] in H; [| discriminate H].
    destruct (binaryBeforeDescent env op0 t1 t2) as [[res | op1 u1 u2] |] eqn:B;
      cbn [bind] in H; try discriminate H.
    destruct (isOneOf op1 [opOr; opAnd]) eqn:E.
    + destruct (rec u1 b2) as [[v1 d1] |]; cbn [bind] in H; [| discriminate H].
      destruct (rec u2 d1) as [[v2 d2] |]; cbn [bind] in H; [| discriminate H].
      inversion H; subst.
      unfold isOneOf in E. cbn [existsb] in E.
      destruct op; try discriminate E; reflexivity.
    + destruct (firstRule rulesAfterDescent env op1 u1 u2) as [[res |] |];
        cbn [bind] in H; try discriminate H.
      inversion H; subst.
      apply (binaryBeforeDescent_pending env op0 t1 t2 op a b B Ha Hb).
  - destruct (rec s1 bMod) as [[t1 b1] |]; cbn [bind] in H; [| discriminate H].
    destruct (rec s2 b1) as [[t2 b2] |]; cbn [bind] in H; [| discriminate H].
    destruct (rec s3 b2) as [[t3 b3] |]; cbn [bind] in H; [| discriminate H].
    destruct (ternaryRules env op0 t1 t2 t3) as [[res |] |]; cbn [bind] in H;
      discriminate H.
  - destruct (isOp opRegOf s1); [discriminate H |].
    destruct (recS s1); cbn [bind] in H; discriminate H.
  - destruct (rec s1 bMod) as [[tmp b1] |]; cbn [bind] in H; [| discriminate H].
    destruct b1; [discriminate H |].
    destruct (refRules env tmp d) as [[res |] |]; cbn [bind] in H; discriminate H.
  - inversion H.
  - destruct (unaryStep rec (fun a0 => Location op0 a0 p) op0 s1 bMod)
      as [[res b1] |] eqn:U; cbn [bind] in H; [| discriminate H].
    destruct (locationRule res) as [[res' |] |]; cbn [bind] in H; try discriminate H.
    inversion H; subst.
    apply unaryStep_shape in U. destruct U as (s & U). discriminate U.
  - apply unaryStep_shape in H. destruct H as (s & H). discriminate H.
Qed.

(** X27: [simplify] leaves no operation on two integer constants at the
    root that the fold of [Binary::polySimplify] knows: a result of the
    form [k1 op k2] has a tag outside the folded operators. *)
Theorem simplify_leaves_no_constant_operation :
  forall (env : Env) (fuel : nat) (e : Exp) (op : OPER) (k1 c1 k2 c2 : Z),
    simplify fuel env e
    = Ok (Binary op (Const (IntVal k1) c1) (Const (IntVal k2) c2)) ->
    foldable op = false.
Proof.
  intros env fuel e op k1 c1 k2 c2 H.
  destruct (simplify_last env fuel e _ H) as (k & last & Hl).
  destruct k as [| k]; cbn [polySimplify] in Hl; [discriminate Hl |].
  apply (polyStep_root _ _ env last false op _ _ Hl); reflexivity.
Qed.

Lemma simplify_leaves_no_constant_operation_witness :
  simplify 3 plainEnv (Binary opPow (Const_get 2) (Const_get 3))
  = Ok (Binary opPow (Const (IntVal 2) 0) (Const (IntVal 3) 0))
  /\ foldable opPow = false.
Proof.
  split; [reflexivity |].
  apply (simplify_leaves_no_constant_operation plainEnv 3
           (Binary opPow (Const_get 2) (Const_get 3)) opPow 2 0 3 0).
  reflexivity.
Defined.

(** ** Integer constants end up on the right *)

Lemma isAddrOfSubscriptedGlobal_tag e :
  isAddrOfSubscriptedGlobal e = Ok true -> isIntConst e = false.
Proof.
  unfold isAddrOfSubscriptedGlobal, isAddrOf, isIntConst, isOp.
  destruct (OPER_eqb (getOper e) opAddrOf) eqn:E; [| discriminate].
  apply OPER_eqb_eq in E. rewrite E. reflexivity.
Qed.

(** The tags under which an integer constant is commuted to the right. *)
Lemma binaryBeforeDescent_constant_right env op s1 s2 op' a b :
  binaryBeforeDescent env op s1 s2 = Ok (Pending op' a b) ->
  isOneOf op' [opPlus; opMult; opMults; opBitOr; opBitAnd] = true ->
  isIntConst a = false.
Proof.
  unfold binaryBeforeDescent. intros H Hop.
  destruct (firstRule rulesBeforeCommute env op s1 s2) as [[res |] | f] eqn:R1;
    cbn [bind] in H; try discriminate H.
  apply firstRule_none_head in R1. destruct R1 as [R1 _].
  destruct (commuteGlobalAddr op (commuteBoolConst op (commuteIntConst op (s1, s2))))
    as [[t1 t2] | f] eqn:C; cbn [bind] in H; try discriminate H.
  destruct (firstRule rulesBeforeFlip env op t1 t2) as [[res |] | f] eqn:R2;
    cbn [bind] in H; try discriminate H.
  destruct (flipNegConst op t2) as [[op2 t2'] | f] eqn:F; cbn [bind] in H;
    try discriminate H.
  destruct (firstRule rulesBeforeDescent env op2 t1 t2') as [[res |] | f] eqn:R3;
    cbn [bind] in H; try discriminate H.
  inversion H; subst op2 t1 t2'. clear H R2 R3.
  destruct (isIntConst a) eqn:Ha; [exfalso | reflexivity].
  (* the tag before the flip, and whether the second child was a constant *)
  assert (Hflip : op' = op \/ (op = opMinus /\ isIntConst t2 = true)).
  { unfold flipNegConst in F.
    destruct (isOneOf op [opPlus; opMinus] && isIntConst t2) eqn:E.
    - apply andb_true_iff in E as [Eop Et].
      destruct (intOf t2) as [k | f]; cbn [bind] in F; [| discriminate F].
      destruct (k <? 0).
      + destruct (setInt (Int32.wrap32 (- k)) t2) as [t |]; cbn [bind] in F;
          [| discriminate F].
        inversion F; subst. right. split; [| exact Et].
        unfold isOneOf in Eop, Hop. cbn [existsb] in Eop, Hop.
        destruct op; try discriminate Eop; try reflexivity; discriminate Hop.
      + inversion F; subst. left. reflexivity.
    - inversion F; subst. left. reflexivity. }
  unfold commuteGlobalAddr, commuteBoolConst, commuteIntConst in C.
  destruct Hflip as [-> | [-> Ht2]].
  - rewrite Hop in C. rewrite andb_true_r in C.
    assert (Hbool : isOneOf op [opAnd; opOr] = false)
      by (unfold isOneOf in Hop |- *; cbn [existsb] in Hop |- *;
          destruct op; try discriminate Hop; reflexivity).
    destruct (isIntConst s1) eqn:H1; cbn iota in C; rewrite Hbool, andb_false_r in C.
    + destruct (isAddrOfSubscriptedGlobal s1) as [[|] |] eqn:G; cbn [bind] in C;
        try discriminate C.
      * apply isAddrOfSubscriptedGlobal_tag in G. congruence.
      * cbn [andb] in C. injection C as E1 E2. rewrite <- E1 in Ha.
        pose proof (rule_fold_none env op s1 s2 R1 H1 Ha) as Hf.
        unfold isOneOf in Hop. cbn [existsb] in Hop.
        destruct op; try discriminate Hop; discriminate Hf.
    + destruct (isAddrOfSubscriptedGlobal s2) as [[|] |] eqn:G; cbn [bind] in C;
        try discriminate C.
      * apply isAddrOfSubscriptedGlobal_tag in G.
        destruct (OPER_eqb op opPlus); cbn [andb] in C; injection C as E1 E2;
          rewrite <- E1 in Ha; congruence.
      * cbn [andb] in C. injection C as E1 E2. rewrite <- E1 in Ha. congruence.
  - change (isOneOf opMinus [opPlus; opMult; opMults; opBitOr; opBitAnd]) with false in C.
    change (isOneOf opMinus [opAnd; opOr]) with false in C.
    rewrite !andb_false_r in C. cbn iota in C.
    destruct (isAddrOfSubscriptedGlobal s2) as [[|] |]; cbn [bind] in C;
      try discriminate C;
      change (OPER_eqb opMinus opPlus) with false in C; cbn [andb] in C;
      injection C as E1 E2; rewrite <- E1 in Ha; rewrite <- E2 in Ht2;
      discriminate (rule_fold_none env opMinus s1 s2 R1 Ha Ht2).
Qed.

Lemma polyStep_constant_right rec recS env e bMod op a b :
  polyStep rec recS env e bMod = Ok (Binary op a b, false) ->
  isOneOf op [opPlus; opMult; opMults; opBitOr; opBitAnd] = true ->
  isIntConst a = false.
Proof.
  intros H Hop.
  destruct e as [u cs | op0 | op0 s1 | op0 s1 s2 | op0 s1 s2 s3 | ty s1 | s1 d | ty
                | op0 s1 p | s1 rtl]; cbn [polyStep] in H.
  - inversion H.
  - inversion H.
  - apply unaryStep_shape in H. destruct H as (s & H). discriminate H.
  - destruct (rec s1 bMod) as [[t1 b1] |]; cbn [bind] in H; [| discriminate H].
    destruct (rec s2 b1) as [[t2 b2] |]; cbn [bind] in H; [| discriminate H].
    destruct (binaryBeforeDescent env op0 t1 t2) as [[res | op1 u1 u2] |] eqn:B;
      cbn [bind] in H; try discriminate H.
    destruct (isOneOf op1 [opOr; opAnd]) eqn:E.
    + destruct (rec u1 b2) as [[v1 d1] |]; cbn [bind] in H; [| discriminate H].
      destruct (rec u2 d1) as [[v2 d2] |]; cbn [bind] in H; [| discriminate H].
      inversion H; subst.
      unfold isOneOf in E, Hop. cbn [existsb] in E, Hop.
      destruct op; try discriminate E; discriminate Hop.
    + destruct (firstRule rulesAfterDescent env op1 u1 u2) as [[res |] |];
        cbn [bind] in H; try discriminate H.
      inversion H; subst.
      apply (binaryBeforeDescent_constant_right env op0 t1 t2 op a b B Hop).
  - destruct (rec s1 bMod) as [[t1 b1] |]; cbn [bind] in H; [| discriminate H].
    destruct (rec s2 b1) as [[t2 b2] |]; cbn [bind] in H; [| discriminate H].
    destruct (rec s3 b2) as [[t3 b3] |]; cbn [bind] in H; [| discriminate H].
    destruct (ternaryRules env op0 t1 t2 t3) as [[res |] |]; cbn [bind] in H;
      discriminate H.
  - destruct (isOp opRegOf s1); [discriminate H |].
    destruct (recS s1); cbn [bind] in H; discriminate H.
  - destruct (rec s1 bMod) as [[tmp b1] |]; cbn [bind] in H; [| discriminate H].
    destruct b1; [discriminate H |].
    destruct (refRules env tmp d) as [[res |] |]; cbn [bind] in H; discriminate H.
  - inversion H.
  - destruct (unaryStep rec (fun a0 => Location op0 a0 p) op0 s1 bMod)
      as [[res b1] |] eqn:U; cbn [bind] in H; [| discriminate H].
    destruct (locationRule res) as [[res' |] |]; cbn [bind] in H; try discriminate H.
    inversion H; subst.
    apply unaryStep_shape in U. destruct U as (s & U). discriminate U.
  - apply unaryStep_shape in H. destruct H as (s & H). discriminate H.
Qed.

(** X28: [simplify] puts integer constants on the right of the
    commutative operators: a result whose root is a sum, a product, a
    bitwise or a bitwise and has no integer constant as its first
    operand. *)
Theorem simplify_constant_on_the_right :
  forall (env : Env) (fuel : nat) (e : Exp) (op : OPER) (a b : Exp),
    simplify fuel env e = Ok (Binary op a b) ->
    isOneOf op [opPlus; opMult; opMults; opBitOr; opBitAnd] = true ->
    isIntConst a = false.
Proof.
  intros env fuel e op a b H Hop.
  destruct (simplify_last env fuel e _ H) as (k & last & Hl).
  destruct k as [| k]; cbn [polySimplify] in Hl; [discriminate Hl |].
  apply (polyStep_constant_right _ _ env last false op a b Hl Hop).
Qed.

Lemma simplify_constant_on_the_right_witness :
  (simplify 4 plainEnv (Binary opPlus (Const_get 5) (Location_regOf 5))
   = Ok (Binary opPlus (Location_regOf 5) (Const_get 5))
   /\ isOneOf opPlus [opPlus; opMult; opMults; opBitOr; opBitAnd] = true)
  /\ isIntConst (Location_regOf 5) = false.
Proof.
  split; [split; reflexivity |].
  apply (simplify_constant_on_the_right plainEnv 4
           (Binary opPlus (Const_get 5) (Location_regOf 5)) opPlus
           (Location_regOf 5) (Const_get 5)); reflexivity.
Defined.

(** ** Equality of signatures *)

Section AllEqual.
Context {A : Type} (eqb : A -> A -> bool) (good : A -> Prop).
Hypothesis eqb_refl : forall x, good x -> eqb x x = true.
Hypothesis eqb_sym : forall x y, good x -> good y -> eqb x y = true -> eqb y x = true.
Hypothesis eqb_trans :
  forall x y z, good x -> good y -> good z ->
                eqb x y = true -> eqb y z = true -> eqb x z = true.

Lemma allEqual_refl l : Forall good l -> allEqual eqb l l = true.
Proof.
  induction l as [| x l IH]; intros H; [reflexivity |].
  apply Forall_cons_iff in H as [Hx Hl]. cbn [allEqual].
  rewrite (eqb_refl x Hx). apply IH. exact Hl.
Qed.

Lemma allEqual_sym :
  forall l1 l2, Forall good l1 -> Forall good l2 ->
                allEqual eqb l1 l2 = true -> allEqual eqb l2 l1 = true.
Proof.
  induction l1 as [| x l1 IH]; intros [| y l2] H1 H2 H; try reflexivity.
  apply Forall_cons_iff in H1 as [Hx H1]. apply Forall_cons_iff in H2 as [Hy H2].
  cbn [allEqual] in H |- *.
  destruct (eqb x y) eqn:E; [| discriminate H].
  rewrite (eqb_sym x y Hx Hy E). apply IH; assumption.
Qed.

Lemma allEqual_trans :
  forall l1 l2 l3,
    List.length l1 = List.length l2 ->
    Forall good l1 -> Forall good l2 -> Forall good l3 ->
    allEqual eqb l1 l2 = true -> allEqual eqb l2 l3 = true ->
    allEqual eqb l1 l3 = true.
Proof.
  induction l1 as [| x l1 IH]; intros [| y l2] [| z l3] Hlen H1 H2 H3 E12 E23;
    try reflexivity; try discriminate Hlen.
  apply Forall_cons_iff in H1 as [Hx H1]. apply Forall_cons_iff in H2 as [Hy H2].
  apply Forall_cons_iff in H3 as [Hz H3].
  cbn [allEqual] in E12, E23 |- *.
  destruct (eqb x y) eqn:Exy; [| discriminate E12].
  destruct (eqb y z) eqn:Eyz; [| discriminate E23].
  rewrite (eqb_trans x y z Hx Hy Hz Exy Eyz). cbn [negb].
  apply (IH l2 l3); try assumption. cbn [List.length] in Hlen. lia.
Qed.

End AllEqual.

Section SignatureEq.
Variable env : Env.
Hypothesis TE : TypeEqEquivalence env.

Lemma Parameter_eq_true a b :
  Parameter_eq env a b = true
  <-> type_eq env (param_type a) (param_type b) = true
      /\ param_name a = param_name b
      /\ exp_eq env (param_exp a) (param_exp b) = true.
Proof.
  unfold Parameter_eq.
  destruct (type_eq env _ _); cbn [negb]; [| split; [discriminate | intros [H _]; discriminate H]].
  destruct (String.eqb_spec (param_name a) (param_name b)); cbn [negb];
    [| split; [discriminate | intros (_ & H & _); contradiction]].
  destruct (exp_eq env _ _); cbn [negb]; split; try discriminate; auto.
  intros (_ & _ & H). discriminate H.
Qed.

Lemma Return_eq_true a b :
  Return_eq env a b = true
  <-> type_eq env (ret_type a) (ret_type b) = true
      /\ exp_eq env (ret_exp a) (ret_exp b) = true.
Proof.
  unfold Return_eq.
  destruct (type_eq env _ _); cbn [negb]; [| split; [discriminate | intros [H _]; discriminate H]].
  destruct (exp_eq env _ _); cbn [negb]; split; try discriminate; auto.
  intros (_ & H). discriminate H.
Qed.

Lemma Parameter_eq_refl p : storedParam p -> Parameter_eq env p p = true.
Proof.
  intros [Hp _]. apply Parameter_eq_true.
  split; [apply (type_eq_refl env TE) | split; [reflexivity |]].
  apply exp_eq_refl_plain; assumption.
Qed.

Lemma Parameter_eq_sym p q :
  storedParam p -> storedParam q -> Parameter_eq env p q = true -> Parameter_eq env q p = true.
Proof.
  intros [Hp _] [Hq _] H. apply Parameter_eq_true in H. destruct H as (Ht & Hn & He).
  apply Parameter_eq_true.
  split; [apply (type_eq_sym env TE); exact Ht | split; [symmetry; exact Hn |]].
  apply exp_eq_sym_plain; assumption.
Qed.

Lemma Parameter_eq_trans p q r :
  storedParam p -> storedParam q -> storedParam r ->
  Parameter_eq env p q = true -> Parameter_eq env q r = true ->
  Parameter_eq env p r = true.
Proof.
  intros [Hp _] [Hq Dq] [Hr _] H1 H2.
  apply Parameter_eq_true in H1. destruct H1 as (Ht1 & Hn1 & He1).
  apply Parameter_eq_true in H2. destruct H2 as (Ht2 & Hn2 & He2).
  apply Parameter_eq_true.
  split; [apply (type_eq_trans env TE _ _ _ Ht1 Ht2) | split; [congruence |]].
  apply (exp_eq_trans_plain env TE _ (param_exp q)); assumption.
Qed.

Lemma Return_eq_refl p : storedReturn p -> Return_eq env p p = true.
Proof.
  intros [Hp _]. apply Return_eq_true.
  split; [apply (type_eq_refl env TE) |]. apply exp_eq_refl_plain; assumption.
Qed.

Lemma Return_eq_sym p q :
  storedReturn p -> storedReturn q -> Return_eq env p q = true -> Return_eq env q p = true.
Proof.
  intros [Hp _] [Hq _] H. apply Return_eq_true in H. destruct H as (Ht & He).
  apply Return_eq_true.
  split; [apply (type_eq_sym env TE); exact Ht |].
  apply exp_eq_sym_plain; assumption.
Qed.

Lemma Return_eq_trans p q r :
  storedReturn p -> storedReturn q -> storedReturn r ->
  Return_eq env p q = true -> Return_eq env q r = true -> Return_eq env p r = true.
Proof.
  intros [Hp _] [Hq Dq] [Hr _] H1 H2.
  apply Return_eq_true in H1. destruct H1 as (Ht1 & He1).
  apply Return_eq_true in H2. destruct H2 as (Ht2 & He2).
  apply Return_eq_true.
  split; [apply (type_eq_trans env TE _ _ _ Ht1 Ht2) |].
  apply (exp_eq_trans_plain env TE _ (ret_exp q)); assumption.
Qed.

Lemma Signature_eq_true a b :
  Signature_eq env a b = true
  <-> List.length (params a) = List.length (params b)
      /\ allEqual (Parameter_eq env) (params a) (params b) = true
      /\ List.length (returns a) = List.length (returns b)
      /\ allEqual (Return_eq env) (returns a) (returns b) = true.
Proof.
  unfold Signature_eq.
  destruct (Nat.eqb_spec (List.length (params a)) (List.length (params b)));
    cbn [negb]; [| split; [discriminate | intros (H & _); contradiction]].
  destruct (allEqual (Parameter_eq env) (params a) (params b)); cbn [negb];
    [| split; [discriminate | intros (_ & H & _); discriminate H]].
  destruct (Nat.eqb_spec (List.length (returns a)) (List.length (returns b)));
    cbn [negb]; [| split; [discriminate | intros (_ & _ & H & _); contradiction]].
  split; [intros H; repeat split; assumption | intros (_ & _ & _ & H); exact H].
Qed.

Lemma Signature_eq_equivalence_stored :
  (forall a, storedSignature a -> Signature_eq env a a = true)
  /\ (forall a b, storedSignature a -> storedSignature b ->
                  Signature_eq env a b = true -> Signature_eq env b a = true)
  /\ (forall a b c, storedSignature a -> storedSignature b -> storedSignature c ->
                    Signature_eq env a b = true -> Signature_eq env b c = true ->
                    Signature_eq env a c = true).
Proof.
  split; [| split].
  - intros a [Hp Hr]. apply Signature_eq_true.
    split; [reflexivity | split; [| split; [reflexivity |]]].
    + apply (allEqual_refl _ storedParam Parameter_eq_refl). exact Hp.
    + apply (allEqual_refl _ storedReturn Return_eq_refl). exact Hr.
  - intros a b [Hpa Hra] [Hpb Hrb] H. apply Signature_eq_true in H.
    destruct H as (L1 & E1 & L2 & E2). apply Signature_eq_true.
    split; [symmetry; exact L1 | split; [| split; [symmetry; exact L2 |]]].
    + apply (allEqual_sym _ storedParam Parameter_eq_sym); assumption.
    + apply (allEqual_sym _ storedReturn Return_eq_sym); assumption.
  - intros a b c [Hpa Hra] [Hpb Hrb] [Hpc Hrc] H1 H2.
    apply Signature_eq_true in H1. destruct H1 as (L1 & E1 & L2 & E2).
    apply Signature_eq_true in H2. destruct H2 as (L3 & E3 & L4 & E4).
    apply Signature_eq_true.
    split; [congruence | split; [| split; [congruence |]]].
    + apply (allEqual_trans _ storedParam Parameter_eq_trans _ (params b)); assumption.
    + apply (allEqual_trans _ storedReturn Return_eq_trans _ (returns b)); assumption.
Qed.

End SignatureEq.

(** X29: [Signature::operator==] is an equivalence relation on
    signatures whose parameter and return expressions are stored
    expressions without null definitions, when the comparison of types
    is one; and it does not look at the name: a signature equals its
    copy under another name. *)
Theorem Signature_eq_equivalence :
  forall env : Env,
    TypeEqEquivalence env ->
    (forall a, storedSignature a -> Signature_eq env a a = true)
    /\ (forall a b, storedSignature a -> storedSignature b ->
                    Signature_eq env a b = true -> Signature_eq env b a = true)
    /\ (forall a b c, storedSignature a -> storedSignature b -> storedSignature c ->
                      Signature_eq env a b = true -> Signature_eq env b c = true ->
                      Signature_eq env a c = true)
    /\ (forall a nam, storedSignature a ->
                      Signature_eq env a
                        (mkSignature nam (params a) (returns a) (rettype a)
                           (ellipsis a) (unknown a) (forced a)) = true).
Proof.
  intros env TE.
  destruct (Signature_eq_equivalence_stored env TE) as (Hrefl & Hsym & Htrans).
  split; [exact Hrefl | split; [exact Hsym | split; [exact Htrans |]]].
  intros a nam Ha. exact (Hrefl a Ha).
Qed.

Lemma Signature_eq_equivalence_witness :
  storedSignature sparcThree
  /\ Signature_eq plainEnv sparcThree sparcThree = true
  /\ Signature_eq plainEnv sparcThree
       (mkSignature "g" (params sparcThree) (returns sparcThree) (rettype sparcThree)
          (ellipsis sparcThree) (unknown sparcThree) (forced sparcThree)) = true.
Proof.
  assert (Hs : storedSignature sparcThree)
    by (split; repeat (constructor; [split; reflexivity |]); constructor).
  destruct (Signature_eq_equivalence plainEnv plainEnv_type_eq)
    as (Hrefl & _ & _ & Hname).
  split; [exact Hs | split; [exact (Hrefl sparcThree Hs) |]].
  exact (Hname sparcThree "g"%string Hs).
Defined.
